(* ===== verification/_CoqProject ===== *)
-Q . S2P
Prelude.v
GoStd.v
Placement.v
Reconcile.v
Prog.v
Etcd.v
Ownership.v
Membership.v
Coordinator.v
Serving.v
Convergence.v
Publication.v
Cluster.v
Exclusion.v
Nsmeta.v
StripRoot.v
Migration.v
CopyDiff.v
Catalogpb.v
Router.v
Attempts.v
RoutingClient.v
Discovery.v
