(* ===== verification/Prelude.v ===== *)
(** * A verified model of milvus-catalog

    milvus-catalog pools the metadata catalogs of many Milvus clusters behind a
    set of stateless catalog nodes.  A cluster is a namespace; namespaces hash
    onto 256 shards; each shard is served by one node at a time.  The repository
    holds the control plane that decides which node that is, the client that
    finds it, and the tools that move a cluster's metadata in.  This library
    models those parts and proves what makes them correct.

    ** The program and the files that model it

    - [src/routing] is the control plane.  A node joins by writing a member key
      under an etcd lease (membership.go), and then loops: list the members, load
      the ownership map, compute which shards to claim and release by rendezvous
      hashing (placement.go, reconcile.go), apply that with compare-and-swap
      transactions (ownership.go), re-load, and publish the shards it may serve
      (coordinator.go).  Every request passes the gate [IsServable].
      [Placement] models placement.go, [Reconcile] reconcile.go, [Ownership]
      ownership.go, [Membership] membership.go, [Coordinator] coordinator.go;
      the definitions have the names of the Go functions.  [Etcd] is the
      interface to the store, [Prog] the language of programs that call it.
    - [src/nsmeta] carries namespace and ownership term on gRPC metadata:
      [Nsmeta].
    - [src/client] is the discovery client: router.go keeps a route map and a
      connection pool, retries and redirects ([Router], with its theorems in
      [Attempts] and [Discovery]); routing_client.go sends each of the 84 RPCs
      through it ([RoutingClient], over the generated interface of [Catalogpb]).
    - [src/migration] copies and compares metadata: [StripRoot] models
      stripRootPath, [Migration] the rest of copydiff.go, [CopyDiff] its
      theorems.
    - [GoStd] models what is used of Go's strconv, strings, path and time;
      this file has the shared data types, notations and lemmas.

    ** How code becomes definitions

    Pure functions are Rocq functions.  Code that talks to a service or enters a
    critical section is a program ([Prog.prog]): the tree of its actions and of
    how it continues after each reply.  Errors are values ([result], [option
    error]); a Go closure that captures variables is a program with threaded
    state; a mutex-protected section is one action, so other goroutines may act
    between any two actions of a program.  Go's [int64] and [time.Duration]
    arithmetic wraps ([int64], [clamp64]).  Programs are run by a handler
    ([run]), executed along a transition relation with interference ([exec]), and
    proved with a rely-guarantee weakest precondition ([wp]).

    Code outside the repository is a parameter with its documented behaviour as
    laws: etcd ([Etcd.Etcd]; calls may fail before or after taking effect, and in
    [Cluster] also be executed after they have failed; leases expire, the revision
    grows), xxhash ([XXHash], [XXHashLaws]), gRPC metadata
    ([GrpcMetadata], [GrpcMetadataLaws]), the generated RPC types, merr and gRPC
    ([CatalogPB], [Merr], [Grpc], [Discovery.oracle_ok]) and the key-value
    backends ([Migration.Backend]).  Each class has a concrete instance, on which
    the witnesses run.

    ** What the theorems show

    - Placement: rendezvous returns the first member of highest weight, does not
      depend on the order of the members, and moves only the shards of a member
      that leaves or joins; the weight encoding is injective.
    - Reconcile: the two lists are exactly the shards to claim and to release;
      when every recorded owner is a live member they are empty exactly at the
      placement; a cold start covers all shards.
    - Ownership: the three transactions are compare-and-swaps with the stated
      effect on every reply, terms increase from claim to claim, the loaders read
      back what is stored.
    - Membership: joining and what a failed join leaves, listing, that a node cut
      off from etcd fences itself, and that the loss of the lease is reported at
      most once and never for a departure that began before the goroutine looked.
    - [Serving] proves the rely-guarantee facts of one control loop among others.
      [Cluster] composes any number of processes into one transition system:
      joins, loops, keepalives, closing, crashes and restarts under the same id,
      action by action, with lease expiry and calls executed late.  [Exclusion]
      shows that no two nodes in good standing pass the gate for the same
      namespace, and that a node that passes it is the recorded owner, at a term
      that is the recorded one or precedes its own re-binding.  The assumptions
      are named there: [smooth] for the runs (no lease of an earlier incarnation
      runs out under the records of a running node, no failed release, re-binding
      or revocation takes effect late against them) and [standing] for the nodes
      (not closing, last renewal received within half the lease).  Both are
      needed: [Publication.adoption_race] and [Exclusion.close_splits_service]
      are runs of the code without them.
    - [Convergence]: on a healthy etcd two passes of whole rounds of all members,
      in any order, reach the rendezvous placement.  [Publication]: a round
      publishes a snapshot of the store or nothing, under any interference; alone
      on a healthy etcd it claims, releases and re-binds exactly what it should;
      and what publishing a snapshot leaves open when a node adopts shards of its
      previous incarnation.
    - Client: a call makes at most four attempts, each stamped once; a
      non-idempotent call reaches a node unrefused at most once; a nil error is a
      success; a refresh installs one node's map or changes nothing; the pool
      neither leaks nor keeps dead connections; a stale client gets the owner's
      answer when the nodes agree on the owner and refuse retriably otherwise.
    - Migration: stripping a key is the inverse of building it exactly when the
      root does not stand behind a slash inside the root path; a mismatch list is exact and independent of map order;
      copy then compare is clean; a failing copy does no harm; batches are small.

    ** Bounds and fuel

    The only loop with fuel is the search of stripRootPath, which gets the length
    of the key plus one; [strip_search_total] shows that this is enough.  Decimal
    printing gets one step per bit, shown enough in [GoStd].  All other recursion
    is structural; the control loop runs on the list of its wake-ups, of any
    length.

    The timing argument of [Exclusion] uses one clock; the delay between a renewal
    at the server and its record at a node is arbitrary in [Cluster], and at most
    half the lease for a node in good standing.  The gate [IsServable] reads the
    published shards and then the clock; it is evaluated at one instant.

    ** Not modelled

    Logging, the wording of formatted errors beyond their parts, TLS credentials
    beyond their being passed on, the deadline of a reconcile round (a call it
    cuts off is a failing call), goroutine scheduling inside etcd's and gRPC's
    client libraries, the tests, and the catalog service itself, which is not
    part of the repository. *)

From stdpp Require Export base gmap strings list list_numbers fin_maps sorting relations.
From Stdlib Require Export ZArith Lia.
From Stdlib Require Import Ascii.

(** ** Go's basic data *)

(** A Go [error] value: what kind of error it is (the dynamic type or the
    sentinel it wraps) and its message.  [nil] is [None] of [option error]. *)
Record error : Type := Error { err_kind : string; err_msg : string }.

(** The outcome of a fallible Go call [(A, error)]. *)
Inductive result (A : Type) : Type :=
| Ok (a : A)
| Err (e : error).
Arguments Ok {A} _.
Arguments Err {A} _.

(** [int64] and [uint64] conversions: reduction modulo [2^64]. *)
Definition uint64 (z : Z) : Z := (z `mod` 2 ^ 64)%Z.
Definition int64 (z : Z) : Z := ((z + 2 ^ 63) `mod` 2 ^ 64 - 2 ^ 63)%Z.

Definition min_int64 : Z := (- 2 ^ 63)%Z.
Definition max_int64 : Z := (2 ^ 63 - 1)%Z.
Definition is_int64 (z : Z) : Prop := (min_int64 <= z <= max_int64)%Z.

(** Saturation at the [int64] bounds, as [time.Time.Sub] does it. *)
Definition clamp64 (z : Z) : Z := Z.max min_int64 (Z.min max_int64 z).

(** ** Notations of the development *)

Declare Scope go_scope.
Delimit Scope go_scope with go.

(** Sequencing of fallible pure code: [if err != nil { return err }]. *)
Notation "'try' x <- c ; k" :=
  (match c with Ok x => k | Err e => Err e end)
  (at level 200, x pattern, c at level 100, k at level 200,
   right associativity) : go_scope.

(** ** Automation *)

(** The hint database of the development and its rewrite companion. *)
Create HintDb catalog.

(** ** Integers *)

Lemma int64_id (z : Z) : is_int64 z -> int64 z = z.
Proof.
  unfold is_int64, min_int64, max_int64, int64. intros H.
  rewrite Z.mod_small; lia.
Qed.

Lemma clamp64_lt (z w : Z) : (w <= max_int64)%Z -> (clamp64 z < w)%Z -> (z < w)%Z.
Proof. unfold clamp64. lia. Qed.

Lemma uint64_range (z : Z) : (0 <= uint64 z < 2 ^ 64)%Z.
Proof. apply Z.mod_pos_bound. lia. Qed.

(** ** Strings *)

Lemma append_nil_l (a : string) : "" +:+ a = a.
Proof. done. Qed.

Lemma append_cons (x : ascii) (a b : string) :
  String x a +:+ b = String x (a +:+ b).
Proof. done. Qed.

Lemma append_assoc (a b c : string) : (a +:+ b) +:+ c = a +:+ (b +:+ c).
Proof. induction a as [|x a IH]; [done|]. by rewrite !append_cons, IH. Qed.

Lemma append_nil_r (a : string) : a +:+ "" = a.
Proof. induction a as [|x a IH]; [done|]. by rewrite append_cons, IH. Qed.

Lemma length_append (a b : string) :
  String.length (a +:+ b) = String.length a + String.length b.
Proof. induction a as [|x a IH]; [done|]. rewrite append_cons. cbn. by rewrite IH. Qed.

Lemma append_inj_l (a b c : string) : a +:+ b = a +:+ c -> b = c.
Proof. apply String.app_inj. Qed.

Lemma append_eq_length (a a' b b' : string) :
  String.length a = String.length a' -> a +:+ b = a' +:+ b' -> a = a' /\ b = b'.
Proof.
  revert a'. induction a as [|x a IH]; intros [|y a']; cbn; try lia; [done|].
  rewrite !append_cons. intros ? [= -> ?]. destruct (IH a') as [-> ->]; auto.
Qed.

(** The characters of a string, for induction-free statements about them. *)
Fixpoint chars (s : string) : list ascii :=
  match s with
  | EmptyString => []
  | String c s' => c :: chars s'
  end.

(** ** Lists and maps *)

Lemma elem_of_filter_list {A} (f : A -> bool) (l : list A) (x : A) :
  x ∈ List.filter f l <-> f x = true /\ x ∈ l.
Proof. rewrite !list_elem_of_In, List.filter_In. naive_solver. Qed.

Lemma sublist_filter_list {A} (f : A -> bool) (l : list A) : sublist (List.filter f l) l.
Proof. induction l as [|x l IH]; cbn; [done|]. destruct (f x); by constructor. Qed.

Lemma NoDup_filter_list {A} (f : A -> bool) (l : list A) : NoDup l -> NoDup (List.filter f l).
Proof. intros ?. eapply sublist_NoDup; [done|]. apply sublist_filter_list. Qed.

(** Conditionals on equivalent propositions agree. *)
Lemma if_ext_iff {A} (P Q : Prop) `{!Decision P, !Decision Q} (a b : A) :
  (P <-> Q) -> (if bool_decide P then a else b) = (if bool_decide Q then a else b).
Proof. intros HPQ. by rewrite (bool_decide_ext P Q HPQ). Qed.

#[export] Hint Rewrite append_assoc append_nil_l append_nil_r append_cons length_append : catalog.
