(* ===== verification/GoStd.v ===== *)
(** * The parts of Go's standard library the program uses

    [strconv] (decimal integers), [strings] (search and prefixes), [path]
    (lexical cleaning and joining of key paths) and [time] (durations).  Strings
    are byte strings, as in Go.  The lemmas are the ones the components share:
    printing and parsing integers round-trips, joining a plain segment appends
    it, and searching finds the first occurrence. *)

From S2P Require Import Prelude.
From Stdlib Require Import Ascii.

(** ** strconv *)

Module strconv.

(** The digit characters ['0'..'9']. *)
Definition digit_char (d : Z) : ascii := ascii_of_N (Z.to_N (48 + d)).

Definition digit_val (c : ascii) : option Z :=
  let n := Z.of_N (N_of_ascii c) in
  if ((48 <=? n) && (n <=? 57))%Z then Some (n - 48)%Z else None.

(** [formatBits] for base 10: the digits are produced from the right.  A
    number below [10^fuel] needs at most [fuel] rounds. *)
Fixpoint format_digits (fuel : nat) (n : Z) (acc : string) : string :=
  match fuel with
  | O => acc
  | S fuel' =>
    if (n <? 10)%Z then String (digit_char n) acc
    else format_digits fuel' (n / 10)%Z (String (digit_char (n `mod` 10)%Z) acc)
  end.

(** One round per binary digit is more than enough. *)
Definition format_fuel (n : Z) : nat := S (Z.to_nat (Z.log2 n)).

(** [strconv.FormatInt(n, 10)] and [strconv.Itoa(n)]. *)
Definition FormatInt (n : Z) : string :=
  if (n <? 0)%Z then String "-"%char (format_digits (format_fuel (- n)) (- n)%Z "")
  else format_digits (format_fuel n) n "".

Definition Itoa (n : Z) : string := FormatInt n.

Fixpoint parse_digits (acc : Z) (s : string) : option Z :=
  match s with
  | EmptyString => Some acc
  | String c s' =>
    match digit_val c with
    | Some d => parse_digits (acc * 10 + d)%Z s'
    | None => None
    end
  end.

Definition ErrSyntax : error := Error "strconv.ErrSyntax" "invalid syntax".
Definition ErrRange : error := Error "strconv.ErrRange" "value out of range".

(** [ParseUint] without its range test: at least one digit, digits only. *)
Definition parse_magnitude (s : string) : option Z :=
  match s with EmptyString => None | _ => parse_digits 0 s end.

Definition parse_signed (neg : bool) (s : string) : result Z :=
  match parse_magnitude s with
  | None => Err ErrSyntax
  | Some un =>
    if neg then (if (un >? 2 ^ 63)%Z then Err ErrRange else Ok (- un)%Z)
    else (if (un >=? 2 ^ 63)%Z then Err ErrRange else Ok un)
  end.

(** [strconv.ParseInt(s, 10, 64)]: an optional sign, then decimal digits. *)
Definition ParseInt (s : string) : result Z :=
  match s with
  | EmptyString => Err ErrSyntax
  | String c s' =>
    if Ascii.eqb c "+"%char then parse_signed false s'
    else if Ascii.eqb c "-"%char then parse_signed true s'
    else parse_signed false s
  end.

(** [strconv.Atoi] for a 64-bit [int]. *)
Definition Atoi (s : string) : result Z := ParseInt s.

Lemma digit_val_char (d : Z) : (0 <= d < 10)%Z -> digit_val (digit_char d) = Some d.
Proof.
  intros H. unfold digit_val, digit_char.
  rewrite N_ascii_embedding by lia. rewrite Z2N.id by lia.
  replace ((48 <=? 48 + d)%Z && (48 + d <=? 57)%Z) with true by lia.
  f_equal. lia.
Qed.

Lemma parse_format_digits (fuel : nat) (n : Z) (acc : string) :
  (0 <= n < 10 ^ Z.of_nat fuel)%Z ->
  parse_digits 0 (format_digits fuel n acc) = parse_digits n acc.
Proof.
  revert n acc. induction fuel as [|fuel IH]; intros n acc Hn.
  { change (10 ^ Z.of_nat 0)%Z with 1%Z in Hn. replace n with 0%Z by lia. done. }
  cbn [format_digits]. destruct (Z.ltb_spec n 10).
  - cbn [parse_digits]. rewrite digit_val_char by lia. done.
  - rewrite Nat2Z.inj_succ, Z.pow_succ_r in Hn by lia.
    rewrite IH.
    + cbn [parse_digits]. rewrite digit_val_char by (apply Z.mod_pos_bound; lia).
      f_equal. pose proof (Z.div_mod n 10). lia.
    + split; [apply Z.div_pos; lia | apply Z.div_lt_upper_bound; lia].
Qed.

Lemma format_fuel_enough (n : Z) :
  (0 <= n)%Z -> (0 <= n < 10 ^ Z.of_nat (format_fuel n))%Z.
Proof.
  intros Hn. split; [done|]. unfold format_fuel.
  destruct (decide (n = 0%Z)) as [->|]; [reflexivity|].
  pose proof (Z.log2_spec n ltac:(lia)) as [_ Hl].
  rewrite Nat2Z.inj_succ, Z2Nat.id by apply Z.log2_nonneg.
  eapply Z.lt_le_trans; [exact Hl|]. apply Z.pow_le_mono_l. lia.
Qed.

Definition is_digit (c : ascii) : Prop := is_Some (digit_val c).

Lemma format_digits_chars (fuel : nat) (n : Z) (acc : string) :
  (0 <= n)%Z -> Forall is_digit (chars acc) ->
  Forall is_digit (chars (format_digits fuel n acc)).
Proof.
  revert n acc. induction fuel as [|fuel IH]; intros n acc Hn Hacc; [done|].
  cbn [format_digits]. destruct (Z.ltb_spec n 10).
  - constructor; [|done]. eexists. apply digit_val_char. lia.
  - apply IH; [apply Z.div_pos; lia|]. constructor; [|done].
    eexists. apply digit_val_char, Z.mod_pos_bound. lia.
Qed.

Lemma format_digits_nonempty (fuel : nat) (n : Z) (acc : string) :
  fuel <> 0 -> format_digits fuel n acc <> "".
Proof.
  intros Hf. destruct fuel as [|fuel]; [done|]. clear Hf. revert n acc.
  induction fuel as [|fuel IH]; intros n acc; cbn [format_digits].
  - destruct (n <? 10)%Z; done.
  - destruct (n <? 10)%Z; [done|]. apply (IH (n / 10)%Z).
Qed.

Lemma parse_signed_ok (neg : bool) (s : string) (n : Z) :
  s <> "" -> parse_digits 0 s = Some n ->
  (if neg then n <= 2 ^ 63 else n < 2 ^ 63)%Z ->
  parse_signed neg s = Ok (if neg then (- n)%Z else n).
Proof.
  intros Hs Hp Hb. unfold parse_signed, parse_magnitude.
  destruct s as [|c s]; [done|]. rewrite Hp.
  destruct neg.
  - rewrite Z.gtb_ltb. destruct (Z.ltb_spec (2 ^ 63) n); [lia|done].
  - rewrite Z.geb_leb. destruct (Z.leb_spec (2 ^ 63) n); [lia|done].
Qed.

Lemma ParseInt_digits (s : string) (n : Z) :
  s <> "" -> Forall is_digit (chars s) -> parse_digits 0 s = Some n ->
  (n < 2 ^ 63)%Z -> ParseInt s = Ok n.
Proof.
  intros Hs Hd Hp Hb. unfold ParseInt. destruct s as [|c s]; [done|].
  apply Forall_cons in Hd as [[d Hc] _].
  destruct (Ascii.eqb_spec c "+"%char) as [->|]; [done|].
  destruct (Ascii.eqb_spec c "-"%char) as [->|]; [done|].
  by apply (parse_signed_ok false).
Qed.

(** Printing an [int64] and parsing it back gives the number. *)
Lemma ParseInt_FormatInt (n : Z) : is_int64 n -> ParseInt (FormatInt n) = Ok n.
Proof.
  unfold is_int64, min_int64, max_int64. intros Hn. unfold FormatInt.
  destruct (Z.ltb_spec n 0).
  - cbn [ParseInt]. change (Ascii.eqb "-" "+") with false. change (Ascii.eqb "-" "-") with true.
    cbn iota. rewrite (parse_signed_ok true _ (- n)%Z); [f_equal; lia| | |lia].
    + apply format_digits_nonempty. done.
    + rewrite parse_format_digits; [done|]. apply format_fuel_enough. lia.
  - apply ParseInt_digits; [|apply format_digits_chars; [lia|constructor]| |lia].
    + apply format_digits_nonempty. done.
    + rewrite parse_format_digits; [done|]. apply format_fuel_enough. lia.
Qed.

Lemma FormatInt_inj (m n : Z) :
  is_int64 m -> is_int64 n -> FormatInt m = FormatInt n -> m = n.
Proof.
  intros Hm Hn H. apply (f_equal ParseInt) in H.
  rewrite !ParseInt_FormatInt in H by done. by simplify_eq.
Qed.

Lemma FormatInt_nonempty (n : Z) : FormatInt n <> "".
Proof.
  unfold FormatInt. destruct (n <? 0)%Z; [done|]. by apply format_digits_nonempty.
Qed.

End strconv.

(** ** strings *)

Module strings.

(** [strings.HasPrefix]. *)
Fixpoint HasPrefix (s prefix : string) {struct prefix} : bool :=
  match prefix, s with
  | EmptyString, _ => true
  | String p prefix', String c s' => Ascii.eqb p c && HasPrefix s' prefix'
  | String _ _, EmptyString => false
  end.

(** [s[n:]] for [n] within the string. *)
Fixpoint drop (n : nat) (s : string) {struct n} : string :=
  match n, s with
  | O, _ => s
  | S n', String _ s' => drop n' s'
  | S _, EmptyString => ""
  end.

(** [strings.TrimPrefix]. *)
Definition TrimPrefix (s prefix : string) : string :=
  if HasPrefix s prefix then drop (String.length prefix) s else s.

(** [strings.Index]: the first position where [substr] occurs; [None] is [-1]. *)
Fixpoint Index (s substr : string) : option nat :=
  if HasPrefix s substr then Some 0
  else match s with
       | EmptyString => None
       | String _ s' => S <$> Index s' substr
       end.

(** [s[i]], [None] out of range. *)
Fixpoint at_ (s : string) (i : nat) : option ascii :=
  match s, i with
  | EmptyString, _ => None
  | String c _, O => Some c
  | String _ s', S i' => at_ s' i'
  end.

Lemma HasPrefix_spec (s p : string) :
  HasPrefix s p = true <-> exists t, s = p +:+ t.
Proof.
  revert s. induction p as [|c p IH]; intros s; cbn.
  { split; [|done]. intros _. by exists s. }
  destruct s as [|d s]; cbn.
  { split; [done|]. intros [t Ht]. by rewrite append_cons in Ht. }
  rewrite andb_true_iff, Ascii.eqb_eq, IH. split.
  - intros [-> [t ->]]. exists t. by rewrite append_cons.
  - intros [t Ht]. rewrite append_cons in Ht. injection Ht as -> ->. eauto.
Qed.

Lemma HasPrefix_append (p t : string) : HasPrefix (p +:+ t) p = true.
Proof. apply HasPrefix_spec. eauto. Qed.

Lemma drop_append (p t : string) : drop (String.length p) (p +:+ t) = t.
Proof. induction p as [|c p IH]; [done|]. rewrite append_cons. cbn. done. Qed.

Lemma TrimPrefix_append (p t : string) : TrimPrefix (p +:+ t) p = t.
Proof. unfold TrimPrefix. by rewrite HasPrefix_append, drop_append. Qed.

Lemma drop_length_le (n : nat) (s : string) :
  String.length (drop n s) = String.length s - n.
Proof.
  revert s. induction n as [|n IH]; intros [|c s]; cbn; auto.
Qed.

Lemma drop_drop (m n : nat) (s : string) : drop m (drop n s) = drop (n + m) s.
Proof.
  revert s. induction n as [|n IH]; intros [|c s]; cbn; auto. by destruct m.
Qed.

Lemma drop_split (n : nat) (s : string) :
  n <= String.length s -> exists a, s = a +:+ drop n s /\ String.length a = n.
Proof.
  revert s. induction n as [|n IH]; intros s Hn; [by exists ""|].
  destruct s as [|c s]; cbn in Hn; [lia|]. destruct (IH s ltac:(lia)) as (a & Ha & Hl).
  exists (String c a). cbn. rewrite append_cons, Hl. split; [|done]. by f_equal.
Qed.

Lemma drop_cons_length (n : nat) (s t : string) (c : ascii) :
  drop n s = String c t -> n < String.length s.
Proof.
  intros H. apply (f_equal String.length) in H. rewrite drop_length_le in H. cbn in H. lia.
Qed.

Lemma at_drop (n i : nat) (s : string) : at_ (drop n s) i = at_ s (n + i).
Proof. revert s. induction n as [|n IH]; intros [|c s]; cbn; auto. Qed.

Lemma at_append (a b : string) (i : nat) : at_ (a +:+ b) (String.length a + i) = at_ b i.
Proof. by rewrite <- at_drop, drop_append. Qed.

Lemma Index_unfold (s sub : string) :
  Index s sub =
    if HasPrefix s sub then Some 0
    else match s with EmptyString => None | String _ s' => S <$> Index s' sub end.
Proof. by destruct s. Qed.

(** [Index] returns an occurrence, and there is none before it. *)
Lemma Index_Some (s sub : string) (i : nat) :
  Index s sub = Some i <->
    HasPrefix (drop i s) sub = true /\ i <= String.length s /\
    (forall j, j < i -> HasPrefix (drop j s) sub = false).
Proof.
  revert i. induction s as [|c s IH]; intros i; rewrite Index_unfold.
  - destruct (HasPrefix "" sub) eqn:E.
    + split; [intros [= <-]; repeat split; [done|cbn;lia|lia]|].
      intros (_ & Hi & _). cbn in Hi. by replace i with 0 by lia.
    + split; [done|]. intros (H & Hi & _). cbn in Hi.
      replace i with 0 in H by lia. cbn in H. congruence.
  - destruct (HasPrefix (String c s) sub) eqn:E.
    + split; [intros [= <-]; repeat split; [done|cbn;lia|lia]|].
      intros (_ & _ & Hmin). destruct i as [|i]; [done|].
      specialize (Hmin 0 ltac:(lia)). cbn [drop] in Hmin. congruence.
    + split.
      * intros (i' & Hi' & ->)%fmap_Some. apply IH in Hi' as (H1 & H2 & H3).
        repeat split; [done|cbn;lia|]. intros [|j] Hj; [done|]. apply H3. lia.
      * intros (H1 & H2 & H3). destruct i as [|i]; [cbn [drop] in H1; congruence|].
        cbn [drop String.length] in *.
        enough (Index s sub = Some i) as -> by done. apply IH.
        repeat split; [done|lia|]. intros j Hj. apply (H3 (S j)). lia.
Qed.

Lemma Index_None (s sub : string) :
  Index s sub = None <-> forall j, HasPrefix (drop j s) sub = false.
Proof.
  induction s as [|c s IH]; rewrite Index_unfold.
  - destruct (HasPrefix "" sub) eqn:E.
    + split; [done|]. intros H. specialize (H 0). cbn in *. congruence.
    + split; [|done]. intros _ j. by destruct j.
  - destruct (HasPrefix (String c s) sub) eqn:E.
    + split; [done|]. intros H. specialize (H 0). cbn [drop] in H. congruence.
    + rewrite fmap_None, IH. split; intros H j.
      * destruct j; [done|]. apply H.
      * apply (H (S j)).
Qed.

End strings.

(** ** path *)

Module path.

(** A string cut at every ['/']: never the empty list. *)
Fixpoint split (s : string) : list string :=
  match s with
  | EmptyString => [""]
  | String c s' =>
    match split s' with
    | [] => [String c ""]
    | seg :: segs =>
      if Ascii.eqb c "/"%char then "" :: seg :: segs else String c seg :: segs
    end
  end.

(** [strings.Join(segs, "/")]. *)
Fixpoint join (segs : list string) : string :=
  match segs with
  | [] => ""
  | [seg] => seg
  | seg :: segs' => seg +:+ "/" +:+ join segs'
  end.

(** One path element against the elements kept so far (innermost first):
    empty and ["."] elements vanish, [".."] takes back the element before it, or
    is dropped at the root, or is kept in front of a relative path. *)
Definition clean_step (rooted : bool) (kept : list string) (seg : string) : list string :=
  if (seg =? "")%string || (seg =? ".")%string then kept
  else if (seg =? "..")%string then
    match kept with
    | top :: rest => if (top =? "..")%string then seg :: kept else rest
    | [] => if rooted then [] else [seg]
    end
  else seg :: kept.

Definition rooted (s : string) : bool := strings.HasPrefix s "/".

Definition clean_segs (s : string) : list string :=
  rev (foldl (clean_step (rooted s)) [] (split s)).

(** [path.Clean]. *)
Definition Clean (s : string) : string :=
  match rooted s, clean_segs s with
  | true, segs => "/" +:+ join segs
  | false, [] => "."
  | false, segs => join segs
  end.

(** [path.Join]: empty elements are ignored, the rest is joined and cleaned. *)
Definition Join (elems : list string) : string :=
  match List.filter (fun e => negb (e =? "")%string) elems with
  | [] => ""
  | elems' => Clean (join elems')
  end.

(** A plain path element: no slash in it, and neither empty nor a dot element. *)
Definition is_segment (s : string) : Prop :=
  "/"%char ∉ chars s /\ s <> "" /\ s <> "." /\ s <> "..".

Lemma split_nonempty (s : string) : split s <> [].
Proof. destruct s as [|c s]; cbn; [done|]. by destruct (split s), (Ascii.eqb c "/"). Qed.

Lemma split_slash (a b : string) : split (a +:+ "/" +:+ b) = split a ++ split b.
Proof.
  induction a as [|c a IH].
  - rewrite append_nil_l. change ("/" +:+ b) with (String "/" b). cbn.
    pose proof (split_nonempty b). by destruct (split b).
  - rewrite append_cons. cbn. rewrite IH.
    pose proof (split_nonempty a). destruct (split a) as [|seg segs]; [done|].
    cbn. by destruct (Ascii.eqb c "/").
Qed.

Lemma split_segment (s : string) : "/"%char ∉ chars s -> split s = [s].
Proof.
  induction s as [|c s IH]; cbn; [done|]. intros Hn.
  rewrite IH by set_solver.
  destruct (Ascii.eqb_spec c "/") as [->|]; [set_solver|done].
Qed.

Lemma clean_step_segment (r : bool) (kept : list string) (s : string) :
  is_segment s -> clean_step r kept s = s :: kept.
Proof.
  intros (_ & H1 & H2 & H3). unfold clean_step.
  apply String.eqb_neq in H1, H2, H3. by rewrite H1, H2, H3.
Qed.

Lemma rooted_append (a b : string) : a <> "" -> rooted (a +:+ b) = rooted a.
Proof. by destruct a as [|c a]. Qed.

Lemma join_app (l1 l2 : list string) :
  l1 <> [] -> l2 <> [] -> join (l1 ++ l2) = join l1 +:+ "/" +:+ join l2.
Proof.
  intros H1 H2. induction l1 as [|s1 [|s2 l1] IH]; [done| |].
  { destruct l2; [done|]. done. }
  change (join ((s1 :: s2 :: l1) ++ l2)) with (s1 +:+ "/" +:+ join ((s2 :: l1) ++ l2)).
  rewrite IH by done.
  change (join (s1 :: s2 :: l1)) with (s1 +:+ "/" +:+ join (s2 :: l1)).
  by rewrite !append_assoc.
Qed.

Lemma split_join (segs : list string) :
  segs <> [] -> Forall is_segment segs -> split (join segs) = segs.
Proof.
  induction segs as [|s1 [|s2 segs] IH]; intros Hne Hs; [done| |].
  - apply Forall_cons in Hs as [[? _] _]. by apply split_segment.
  - apply Forall_cons in Hs as [[? _] Hs].
    change (join (s1 :: s2 :: segs)) with (s1 +:+ "/" +:+ join (s2 :: segs)).
    rewrite split_slash, split_segment, IH by done. done.
Qed.

Lemma clean_fold_segments (r : bool) (segs kept : list string) :
  Forall is_segment segs -> foldl (clean_step r) kept segs = rev segs ++ kept.
Proof.
  revert kept. induction segs as [|s1 segs IH]; intros kept Hs; [done|].
  apply Forall_cons in Hs as [H1 Hs]. cbn [foldl rev].
  rewrite clean_step_segment, IH by done. by rewrite <- app_assoc.
Qed.

Lemma join_segment_nonempty (segs : list string) :
  segs <> [] -> Forall is_segment segs -> join segs <> "".
Proof.
  intros Hne Hs. destruct segs as [|s1 segs]; [done|].
  apply Forall_cons in Hs as [(_ & Hs & _) _].
  destruct s1 as [|c s1]; [done|]. by destruct segs.
Qed.

Lemma join_not_rooted (segs : list string) :
  Forall is_segment segs -> rooted (join segs) = false.
Proof.
  intros Hs. destruct segs as [|s1 segs]; [done|].
  apply Forall_cons in Hs as [(Hn & H1 & _) _].
  destruct s1 as [|c s1]; [done|].
  assert (c <> "/"%char) as Hc by (intros ->; apply Hn; left).
  assert (forall t, rooted (String c t) = false) as Hr.
  { intros t. change (Ascii.eqb "/" c && true = false).
    destruct (Ascii.eqb_spec "/" c); [congruence|done]. }
  destruct segs; apply Hr.
Qed.

(** Below any prefix, plain elements are joined as they are: the prefix only
    contributes a fixed string in front. *)
Lemma Join_prefix (p : string) :
  exists X, forall segs, segs <> [] -> Forall is_segment segs ->
    Join (p :: segs) = X +:+ join segs.
Proof.
  exists (if (p =? "")%string then ""
     else (if rooted p then "/" else "") +:+
          match clean_segs p with [] => "" | cs => join cs +:+ "/" end).
  intros segs Hne Hs. unfold Join. cbn [List.filter].
  assert (Hf : List.filter (fun e => negb (e =? "")%string) segs = segs).
  { clear Hne. induction Hs as [|x l Hx Hl IH]; [done|]. cbn. destruct Hx as (_ & Hx & _).
    apply String.eqb_neq in Hx. by rewrite Hx, IH. }
  rewrite Hf. pose proof (join_segment_nonempty segs Hne Hs) as Hjne.
  destruct (String.eqb_spec p "") as [->|Hp]; cbn [negb].
  - destruct segs as [|s1 segs]; [done|]. rewrite append_nil_l.
    unfold Clean, clean_segs. rewrite split_join by done.
    rewrite clean_fold_segments, app_nil_r, rev_involutive by done.
    by rewrite join_not_rooted.
  - assert (join (p :: segs) = p +:+ "/" +:+ join segs) as -> by (by destruct segs).
    unfold Clean, clean_segs. rewrite rooted_append, split_slash, foldl_app by done.
    rewrite split_join, clean_fold_segments, rev_app_distr, rev_involutive by done.
    set (cs := rev (foldl (clean_step (rooted p)) [] (split p))).
    destruct (decide (cs = [])) as [->|Hcs].
    + cbn [app]. rewrite append_nil_r. destruct (rooted p); [done|]. by destruct segs.
    + pose proof (join_app cs segs Hcs Hne) as Hj.
      destruct cs as [|c1 cs]; [done|]. cbn [app] in *. rewrite Hj.
      destruct (rooted p); rewrite ?append_nil_l, ?append_assoc; done.
Qed.

Lemma digit_not_slash (c : ascii) : strconv.is_digit c -> c <> "/"%char.
Proof. intros [d Hd] ->. done. Qed.

(** The decimal form of a non-negative number is a plain path element. *)
Lemma Itoa_segment (n : Z) : (0 <= n)%Z -> is_segment (strconv.Itoa n).
Proof.
  intros Hn. unfold strconv.Itoa, strconv.FormatInt.
  destruct (Z.ltb_spec n 0); [lia|].
  pose proof (strconv.format_digits_chars (strconv.format_fuel n) n "" Hn) as Hd.
  specialize (Hd ltac:(constructor)).
  pose proof (strconv.format_digits_nonempty (strconv.format_fuel n) n "") as Hne.
  specialize (Hne ltac:(done)).
  set (s := strconv.format_digits _ _ _) in *. clearbody s.
  split; [|split; [done|split]].
  - intros Hin. rewrite Forall_forall in Hd. by apply Hd, digit_not_slash in Hin.
  - intros ->. apply Forall_cons in Hd as [[d Hd] _]. done.
  - intros ->. apply Forall_cons in Hd as [[d Hd] _]. done.
Qed.

End path.

(** ** time *)

Module time.

Definition Second : Z := 1000000000.

(** [Duration] arithmetic is [int64] arithmetic; division truncates. *)
Definition mul (a b : Z) : Z := int64 (a * b).
Definition quo (a b : Z) : Z := int64 (Z.quot a b).

(** [time.Since(time.Unix(0, last))] at wall-clock reading [now]: the
    difference, saturated at the [Duration] bounds. *)
Definition Since (now last : Z) : Z := clamp64 (now - last).

End time.
