(* ===== verification/Placement.v ===== *)
(** * Placement: routing/placement.go

    Namespaces hash onto [ShardCount] shards, and a shard goes to the live
    member with the highest weight (rendezvous hashing).  The hash functions come
    from the third-party package [xxhash] and are the parameter [XXHash]; its
    documented laws are [XXHashLaws].  [ToyHash] is a concrete instance that
    satisfies them, for the witnesses. *)

From S2P Require Import Prelude GoStd.
From Stdlib Require Import Ascii.

(** ** The hash package *)

(** [github.com/cespare/xxhash/v2]: a one-shot function and a streaming digest. *)
Class XXHash : Type := {
  Digest : Type;
  xxhash_New : Digest;
  xxhash_Write : Digest -> string -> Digest;
  xxhash_Sum64 : Digest -> Z;
  xxhash_Sum64String : string -> Z;
}.

(** Documented behaviour: results are 64-bit, and the digest hashes the
    concatenation of what was written to it. *)
Class XXHashLaws (H : XXHash) : Prop := {
  sum64string_range (s : string) : (0 <= xxhash_Sum64String s < 2 ^ 64)%Z;
  sum64_stream (a b : string) :
    xxhash_Sum64 (xxhash_Write (xxhash_Write xxhash_New a) b)
    = xxhash_Sum64String (a +:+ b);
}.

Definition ShardCount : Z := 256.

(** The shard slots, in the order every loop of the package visits them. *)
Definition shards : list Z := seqZ 0 ShardCount.

(** ** The operations *)

Section placement.
Context {H : XXHash}.

Definition ShardOf (namespace : string) : Z :=
  (xxhash_Sum64String namespace `mod` ShardCount)%Z.

(** [byte(z)]. *)
Definition byte (z : Z) : ascii := ascii_of_N (Z.to_N (z `mod` 256)%Z).

(** The eight bytes [b[i] = byte(u >> (8*i))], little-endian. *)
Definition shard_bytes (shard : Z) : list ascii :=
  let u := uint64 shard in
  (fun i => byte (Z.shiftr u (8 * i))) <$> seqZ 0 8.

Definition bytes_to_string (l : list ascii) : string := foldr String "" l.

Definition weight (member : string) (shard : Z) : Z :=
  let d := xxhash_New in
  let d := xxhash_Write d member in
  let b := shard_bytes shard in
  let d := xxhash_Write d (bytes_to_string b) in
  xxhash_Sum64 d.

(** One iteration of the loop over the members: [acc] is [(best, bestScore)]. *)
Definition rendezvous_step (shard : Z) (acc : string * Z) (m : string) : string * Z :=
  let '(best, bestScore) := acc in
  let score := weight m shard in
  if (best =? "")%string || (score >? bestScore)%Z then (m, score) else (best, bestScore).

Definition Rendezvous (shard : Z) (members : list string) : string :=
  fst (foldl (rendezvous_step shard) ("", 0%Z) members).

(** The abstract contract of [Rendezvous]: the first member of maximal weight. *)
Definition first_max (shard : Z) (members : list string) (m : string) : Prop :=
  exists l1 l2, members = l1 ++ m :: l2 /\
    (forall x, x ∈ l1 -> (weight x shard < weight m shard)%Z) /\
    (forall x, x ∈ l2 -> (weight x shard <= weight m shard)%Z).

End placement.

(** ** An instance for concrete runs *)

(** A polynomial string hash modulo [2^64]. *)
Fixpoint poly_hash (acc : Z) (s : string) : Z :=
  match s with
  | EmptyString => acc
  | String c s' => poly_hash (uint64 ((acc + Z.of_N (N_of_ascii c)) * 1099511628211)) s'
  end.

Definition ToyHash : XXHash := {|
  Digest := string;
  xxhash_New := "";
  xxhash_Write d s := d +:+ s;
  xxhash_Sum64 d := Z.shiftr (poly_hash 14695981039346656037 d) 11;
  xxhash_Sum64String s := Z.shiftr (poly_hash 14695981039346656037 s) 11;
|}.

Lemma poly_hash_range (s : string) (acc : Z) :
  (0 <= acc < 2 ^ 64)%Z -> (0 <= poly_hash acc s < 2 ^ 64)%Z.
Proof.
  revert acc. induction s as [|c s IH]; intros acc Ha; [done|].
  cbn [poly_hash]. apply IH, uint64_range.
Qed.

#[global] Instance ToyHash_laws : XXHashLaws ToyHash.
Proof.
  split.
  - intros s. cbn. rewrite Z.shiftr_div_pow2 by lia.
    pose proof (poly_hash_range s 14695981039346656037 ltac:(lia)).
    split; [apply Z.div_pos; lia|]. apply Z.div_lt_upper_bound; lia.
  - intros a b. cbn. by rewrite append_nil_l.
Qed.

(** ** The shard loop *)

Lemma elem_of_shards (s : Z) : s ∈ shards <-> (0 <= s < ShardCount)%Z.
Proof. unfold shards. rewrite elem_of_seqZ. unfold ShardCount. lia. Qed.

Lemma NoDup_shards : NoDup shards.
Proof. apply NoDup_seqZ. Qed.

#[export] Hint Resolve NoDup_shards : catalog.

(** Reason about the shard list through the lemmas above, never by unrolling
    its 256 elements; evaluation is unaffected. *)
#[global] Opaque shards.

(** ** The byte encoding of a shard *)

Lemma byte_val (z : Z) : Z.of_N (N_of_ascii (byte z)) = (z `mod` 256)%Z.
Proof.
  unfold byte. pose proof (Z.mod_pos_bound z 256 ltac:(lia)).
  rewrite N_ascii_embedding by lia. rewrite Z2N.id; lia.
Qed.

(** The number a little-endian byte list denotes. *)
Fixpoint le_value (l : list ascii) : Z :=
  match l with
  | [] => 0
  | c :: l' => (Z.of_N (N_of_ascii c) + 256 * le_value l')%Z
  end.

Lemma le_value_bytes (n : nat) (u : Z) (i : Z) :
  (0 <= u)%Z -> (0 <= i)%Z ->
  le_value ((fun j => byte (Z.shiftr u (8 * j))) <$> seqZ i (Z.of_nat n))
  = (Z.shiftr u (8 * i) `mod` 256 ^ Z.of_nat n)%Z.
Proof.
  intros Hu. revert i. induction n as [|n IH]; intros i Hi.
  { cbn. by rewrite Z.mod_1_r. }
  rewrite Nat2Z.inj_succ, seqZ_cons by lia. cbn [fmap list_fmap le_value].
  rewrite byte_val.
  replace (Z.pred (Z.succ (Z.of_nat n))) with (Z.of_nat n) by lia.
  rewrite IH by lia.
  replace (8 * Z.succ i)%Z with (8 * i + 8)%Z by lia.
  rewrite <- Z.shiftr_shiftr by lia.
  rewrite (Z.shiftr_div_pow2 (Z.shiftr u (8 * i)) 8) by lia.
  change (2 ^ 8)%Z with 256%Z. rewrite Z.pow_succ_r by lia.
  rewrite Z.rem_mul_r by lia. lia.
Qed.

Lemma shard_bytes_value (shard : Z) : le_value (shard_bytes shard) = uint64 shard.
Proof.
  unfold shard_bytes. change 8%Z with (Z.of_nat 8) at 2.
  pose proof (uint64_range shard).
  rewrite le_value_bytes by lia.
  rewrite Z.shiftr_0_r. apply Z.mod_small. done.
Qed.

Lemma length_shard_bytes (shard : Z) : length (shard_bytes shard) = 8.
Proof. unfold shard_bytes. by rewrite length_fmap, length_seqZ. Qed.

Lemma length_bytes_to_string (l : list ascii) :
  String.length (bytes_to_string l) = length l.
Proof. induction l; cbn; auto. Qed.

Lemma chars_bytes_to_string (l : list ascii) : chars (bytes_to_string l) = l.
Proof. induction l; cbn; f_equal; auto. Qed.

(** ** Rendezvous *)

Section rendezvous_lemmas.
Context {H : XXHash}.

Lemma weight_stream {L : XXHashLaws H} (m : string) (shard : Z) :
  weight m shard = xxhash_Sum64String (m +:+ bytes_to_string (shard_bytes shard)).
Proof. apply sum64_stream. Qed.

Lemma rendezvous_fold_first_max (shard : Z) (l : list string) (b : string) :
  b <> "" -> "" ∉ l ->
  exists m, foldl (rendezvous_step shard) (b, weight b shard) l = (m, weight m shard)
            /\ first_max shard (b :: l) m.
Proof.
  revert b. induction l as [|x l IH]; intros b Hb Hl; cbn [foldl].
  { exists b. split; [done|]. exists [], []. repeat split; set_solver. }
  cbn [rendezvous_step]. apply not_elem_of_cons in Hl as [Hx Hl].
  apply String.eqb_neq in Hb as Hb'. rewrite Hb'. cbn [orb].
  rewrite Z.gtb_ltb. destruct (Z.ltb_spec (weight b shard) (weight x shard)).
  - destruct (IH x) as (m & Hm & l1 & l2 & Heq & H1 & H2); [done|done|].
    exists m. split; [done|]. exists (b :: l1), l2. rewrite Heq. repeat split; auto.
    intros y [->|Hy]%elem_of_cons; [|auto].
    destruct l1 as [|z l1]; simplify_eq/=; [done|].
    assert (z ∈ z :: l1) as ?%H1 by left. lia.
  - destruct (IH b) as (m & Hm & l1 & l2 & Heq & H1 & H2); [done|done|].
    exists m. split; [done|]. destruct l1 as [|z l1]; simplify_eq/=.
    + exists [], (x :: l2). repeat split; [set_solver|].
      intros y [->|Hy]%elem_of_cons; auto.
    + exists (z :: x :: l1), l2. repeat split; auto.
      assert (z ∈ z :: l1) as ?%H1 by left.
      intros y Hy. rewrite !elem_of_cons in Hy.
      destruct Hy as [->|[->|Hy]]; [auto|lia|]. apply H1. by right.
Qed.

(** [Rendezvous] meets its contract on a list of named members. *)
Lemma Rendezvous_first_max (shard : Z) (members : list string) :
  members <> [] -> "" ∉ members ->
  first_max shard members (Rendezvous shard members).
Proof.
  intros Hne Hn. destruct members as [|b l]; [done|].
  unfold Rendezvous. cbn [foldl rendezvous_step]. rewrite String.eqb_refl. cbn [orb].
  apply not_elem_of_cons in Hn as [Hb Hl].
  destruct (rendezvous_fold_first_max shard l b) as (m & -> & Hm); [done|done|].
  done.
Qed.

Lemma first_max_elem (shard : Z) (members : list string) (m : string) :
  first_max shard members m -> m ∈ members.
Proof. intros (l1 & l2 & -> & _). set_solver. Qed.

Lemma first_max_unique (shard : Z) (members : list string) (m m' : string) :
  first_max shard members m -> first_max shard members m' -> m = m'.
Proof.
  intros (l1 & l2 & -> & H1 & H2) (l1' & l2' & Heq & H1' & H2').
  revert l1' Heq H1'. induction l1 as [|x l1 IH]; intros [|y l1'] Heq H1'; simplify_eq/=.
  - done.
  - assert (y ∈ y :: l1') as ?%H1' by left.
    assert (m' ∈ l1' ++ m' :: l2') as ?%H2 by set_solver. lia.
  - assert (m' ∈ m' :: l1) as ?%H1 by left.
    assert (m ∈ l1 ++ m :: l2) as ?%H2' by set_solver. lia.
  - eapply IH; eauto; intros z Hz; [apply H1 | apply H1']; by right.
Qed.

Lemma first_max_Rendezvous (shard : Z) (members : list string) (m : string) :
  "" ∉ members -> first_max shard members m -> Rendezvous shard members = m.
Proof.
  intros Hn Hm. eapply first_max_unique; [|done].
  apply Rendezvous_first_max; [|done].
  apply first_max_elem in Hm. by intros ->; apply not_elem_of_nil in Hm.
Qed.

Lemma Rendezvous_elem (shard : Z) (members : list string) :
  members <> [] -> "" ∉ members -> Rendezvous shard members ∈ members.
Proof. intros ??. by eapply first_max_elem, Rendezvous_first_max. Qed.

Lemma Rendezvous_singleton (shard : Z) (n : string) : n <> "" -> Rendezvous shard [n] = n.
Proof.
  intros Hn. assert (Rendezvous shard [n] ∈ [n]) as Hin; [|by apply list_elem_of_singleton in Hin].
  apply Rendezvous_elem; [done|]. intros Heq%list_elem_of_singleton. by symmetry in Heq.
Qed.

(** Dropping members other than the winner keeps the winner. *)
Lemma first_max_filter (shard : Z) (members : list string) (m x : string) :
  x <> m -> first_max shard members m ->
  first_max shard (List.filter (fun y => negb (y =? x)%string) members) m.
Proof.
  intros Hx (l1 & l2 & -> & H1 & H2).
  rewrite List.filter_app. cbn.
  assert ((m =? x)%string = false) as -> by (apply String.eqb_neq; congruence). cbn.
  eexists _, _. split; [done|].
  split; intros y [_ ?]%elem_of_filter_list; auto.
Qed.

(** The winner does not depend on the order when no two weights collide. *)
Lemma first_max_perm (shard : Z) (l l' : list string) (m : string) :
  (forall a b, a ∈ l -> b ∈ l -> weight a shard = weight b shard -> a = b) ->
  NoDup l' -> l ≡ₚ l' -> first_max shard l m -> first_max shard l' m.
Proof.
  intros Hinj Hnd Hp Hm. pose proof (first_max_elem _ _ _ Hm) as Hin.
  destruct Hm as (l1 & l2 & -> & H1 & H2).
  assert (Hin' : m ∈ l') by (by rewrite <- Hp).
  apply list_elem_of_split in Hin' as (k1 & k2 & ->).
  apply NoDup_app in Hnd as (_ & Hnk1 & [Hnk2 _]%NoDup_cons).
  assert (Hle : forall x, x ∈ l1 ++ m :: l2 -> (weight x shard <= weight m shard)%Z).
  { intros x. rewrite elem_of_app, elem_of_cons. intros [Hx|[->|Hx]]; [|lia|auto].
    apply H1 in Hx. lia. }
  exists k1, k2. split; [done|]. split; intros x Hx.
  - assert (Hxl : x ∈ l1 ++ m :: l2) by (rewrite Hp; set_solver).
    specialize (Hle x Hxl). destruct (decide (weight x shard = weight m shard)) as [He|]; [|lia].
    apply Hinj in He as ->; [|done|done]. exfalso. apply (Hnk1 m); set_solver.
  - apply Hle. rewrite Hp. set_solver.
Qed.

End rendezvous_lemmas.

(** ** Properties *)

(** C12: [Rendezvous] returns the first member whose weight for the shard is
    maximal: every earlier member weighs strictly less and every later one at
    most as much.  With no members it returns the empty string. *)
Theorem rendezvous_highest_weight {H : XXHash} (shard : Z) (members : list string) :
  "" ∉ members ->
  (members = [] -> Rendezvous shard members = "") /\
  (members <> [] -> first_max shard members (Rendezvous shard members)).
Proof.
  intros Hn. split; [by intros ->|]. intros Hne. by apply Rendezvous_first_max.
Qed.

Lemma rendezvous_highest_weight_witness :
  first_max (H := ToyHash) 5 ["node-1"; "node-2"; "node-3"]
    (Rendezvous (H := ToyHash) 5 ["node-1"; "node-2"; "node-3"]).
Proof.
  apply (rendezvous_highest_weight (H := ToyHash) 5 ["node-1"; "node-2"; "node-3"]);
    [set_solver | discriminate].
Defined.

(** C11: Minimal reshuffle: when a member leaves, every shard that it did not own
    keeps its owner. *)
Theorem rendezvous_minimal_reshuffle {H : XXHash} (shard : Z) (members : list string) (x : string) :
  "" ∉ members -> x <> Rendezvous shard members ->
  Rendezvous shard (List.filter (fun y => negb (y =? x)%string) members)
  = Rendezvous shard members.
Proof.
  intros Hn Hx. destruct (decide (members = [])) as [->|Hne]; [done|].
  apply first_max_Rendezvous.
  - intros [_ ?]%elem_of_filter_list. done.
  - apply first_max_filter; [done|]. by apply Rendezvous_first_max.
Qed.

Lemma rendezvous_minimal_reshuffle_witness :
  Rendezvous (H := ToyHash) 7 ["node-1"; "node-2"; "node-4"]
  = Rendezvous (H := ToyHash) 7 ["node-1"; "node-2"; "node-3"; "node-4"].
Proof.
  apply (rendezvous_minimal_reshuffle (H := ToyHash) 7
           ["node-1"; "node-2"; "node-3"; "node-4"] "node-3");
    [set_solver | vm_compute; discriminate].
Defined.

(** C35: The owner does not depend on the order in which the members are listed,
    as long as no two members have the same weight for the shard. *)
Theorem rendezvous_order_independent {H : XXHash} (shard : Z) (l l' : list string) :
  "" ∉ l -> NoDup l -> l ≡ₚ l' ->
  (forall a b, a ∈ l -> b ∈ l -> weight a shard = weight b shard -> a = b) ->
  Rendezvous shard l = Rendezvous shard l'.
Proof.
  intros Hn Hnd Hp Hinj. destruct (decide (l = [])) as [->|Hne].
  { by apply Permutation_nil in Hp as ->. }
  symmetry. apply first_max_Rendezvous; [by rewrite <- Hp|].
  eapply first_max_perm; [done|by rewrite <- Hp|done|]. by apply Rendezvous_first_max.
Qed.

Lemma rendezvous_order_independent_witness :
  Rendezvous (H := ToyHash) 9 ["node-1"; "node-2"; "node-3"]
  = Rendezvous (H := ToyHash) 9 ["node-3"; "node-1"; "node-2"].
Proof.
  apply (rendezvous_order_independent (H := ToyHash) 9).
  - set_solver.
  - apply (bool_decide_unpack _). vm_compute. exact I.
  - apply (bool_decide_unpack _). vm_compute. exact I.
  - intros a b Ha Hb. rewrite !elem_of_cons, elem_of_nil in Ha, Hb.
    destruct Ha as [->|[->|[->|[]]]], Hb as [->|[->|[->|[]]]];
      vm_compute; first [reflexivity | discriminate].
Defined.

(** C36: The weight hashes an unambiguous encoding of the pair: two different
    (member, shard) pairs are never hashed as the same byte string, whatever bytes
    the member name has. *)
Theorem weight_encoding_injective {H : XXHash} {L : XXHashLaws H} (m m' : string) (s s' : Z) :
  weight m s = xxhash_Sum64String (m +:+ bytes_to_string (shard_bytes s)) /\
  (is_int64 s -> is_int64 s' ->
   m +:+ bytes_to_string (shard_bytes s) = m' +:+ bytes_to_string (shard_bytes s') ->
   m = m' /\ s = s').
Proof.
  split; [apply weight_stream|]. intros Hs Hs' Heq.
  assert (String.length m = String.length m') as Hlen.
  { apply (f_equal String.length) in Heq.
    rewrite !length_append, !length_bytes_to_string, !length_shard_bytes in Heq. lia. }
  apply append_eq_length in Heq as [-> Heq]; [|done]. split; [done|].
  apply (f_equal (fun x => le_value (chars x))) in Heq.
  rewrite !chars_bytes_to_string, !shard_bytes_value in Heq.
  unfold is_int64, min_int64, max_int64, uint64 in *.
  pose proof (Z.div_mod s (2 ^ 64)). pose proof (Z.div_mod s' (2 ^ 64)). lia.
Qed.

Lemma weight_encoding_injective_witness :
  "node-1" +:+ bytes_to_string (shard_bytes 3) <> "node-1" +:+ bytes_to_string (shard_bytes 4).
Proof.
  intros Heq.
  destruct (weight_encoding_injective (H := ToyHash) "node-1" "node-1" 3 4) as [_ Hinj].
  apply Hinj in Heq as [_ Habs]; [discriminate Habs | |];
    unfold is_int64, min_int64, max_int64; lia.
Defined.

Lemma ShardOf_shards {H : XXHash} (namespace : string) : ShardOf namespace ∈ shards.
Proof. apply elem_of_shards, Z.mod_pos_bound. done. Qed.
