(* ===== verification/Reconcile.v ===== *)
(** * Reconcile: routing/reconcile.go

    The pure half of the control loop: compare the desired placement (rendezvous
    over the live members) with the actual ownership map, and list the shards
    this node has to claim and to release. *)

From S2P Require Import Prelude GoStd Placement.

(** [[ShardCount]T] arrays are lists indexed by shard; [arr_get] is [a[s]] for
    an index the code keeps within bounds. *)
Definition arr_get {A} `{Inhabited A} (a : list A) (s : Z) : A := a !!! Z.to_nat s.
Definition arr_set {A} (a : list A) (s : Z) (x : A) : list A := <[Z.to_nat s := x]> a.

(** The zero value [[ShardCount]T{}]. *)
Definition arr_zero {A} (zero : A) : list A := replicate (Z.to_nat ShardCount) zero.

Section reconcile.
Context {H : XXHash}.

(** The loop body: [acc] is the pair of slices [(claim, release)]. *)
Definition reconcile_step (me : string) (members : list string) (shardMap : list string)
    (acc : list Z * list Z) (s : Z) : list Z * list Z :=
  let '(claim, release) := acc in
  let suggested := Rendezvous s members in
  let actual := arr_get shardMap s in
  if (actual =? me)%string && negb (suggested =? me)%string then (claim, release ++ [s])
  else if (actual =? "")%string && (suggested =? me)%string then (claim ++ [s], release)
  else (claim, release).

Definition Reconcile (me : string) (members : list string) (shardMap : list string)
    : list Z * list Z :=
  foldl (reconcile_step me members shardMap) ([], []) shards.

(** The declarative reading of the two result lists. *)
Definition to_claim (me : string) (members shardMap : list string) (s : Z) : bool :=
  (arr_get shardMap s =? "")%string && (Rendezvous s members =? me)%string.
Definition to_release (me : string) (members shardMap : list string) (s : Z) : bool :=
  (arr_get shardMap s =? me)%string && negb (Rendezvous s members =? me)%string.

(** The placement the loop converges to: every shard held by its rendezvous
    owner. *)
Definition placed (members shardMap : list string) : Prop :=
  forall s, s ∈ shards -> arr_get shardMap s = Rendezvous s members.

End reconcile.

Lemma length_arr_set {A} (a : list A) (s : Z) (x : A) : length (arr_set a s x) = length a.
Proof. apply length_insert. Qed.

Lemma arr_get_zero {A} `{Inhabited A} (zero : A) (s : Z) :
  s ∈ shards -> arr_get (arr_zero zero) s = zero.
Proof.
  rewrite elem_of_shards. intros Hs. unfold arr_get, arr_zero.
  apply lookup_total_replicate_2. unfold ShardCount in *. lia.
Qed.

Lemma arr_get_tabulate {A} `{Inhabited A} (f : Z -> A) (s : Z) :
  s ∈ shards -> arr_get (f <$> shards) s = f s.
Proof.
  intros Hs. apply elem_of_shards in Hs as Hr. unfold arr_get.
  apply list_lookup_total_correct. rewrite list_lookup_fmap.
  with_strategy transparent [shards] unfold shards.
  rewrite lookup_seqZ_lt by (unfold ShardCount in *; lia). cbn. f_equal. f_equal. lia.
Qed.

Section reconcile_lemmas.
Context {H : XXHash}.

Lemma reconcile_fold (me : string) (members shardMap : list string) (l : list Z) (acc : list Z * list Z) :
  foldl (reconcile_step me members shardMap) acc l
  = (acc.1 ++ List.filter (to_claim me members shardMap) l,
     acc.2 ++ List.filter (to_release me members shardMap) l).
Proof.
  revert acc. induction l as [|s l IH]; intros [c r]; cbn [foldl].
  { cbn. by rewrite !app_nil_r. }
  rewrite IH. cbn [List.filter reconcile_step]. unfold to_claim, to_release.
  destruct (String.eqb_spec (arr_get shardMap s) me) as [Ha|Ha],
    (String.eqb_spec (Rendezvous s members) me) as [Hr|Hr]; cbn [andb negb];
    destruct (arr_get shardMap s =? "")%string; cbn [andb];
    cbn [fst snd]; rewrite <- ?app_assoc; done.
Qed.

(** [Reconcile] computes the two filters. *)
Lemma Reconcile_filter (me : string) (members shardMap : list string) :
  Reconcile me members shardMap
  = (List.filter (to_claim me members shardMap) shards,
     List.filter (to_release me members shardMap) shards).
Proof. unfold Reconcile. by rewrite reconcile_fold. Qed.

Lemma elem_of_claim (me : string) (members shardMap : list string) (s : Z) :
  s ∈ (Reconcile me members shardMap).1 <->
  s ∈ shards /\ arr_get shardMap s = "" /\ Rendezvous s members = me.
Proof.
  rewrite Reconcile_filter. cbn. rewrite elem_of_filter_list. unfold to_claim.
  rewrite andb_true_iff, !String.eqb_eq. naive_solver.
Qed.

Lemma elem_of_release (me : string) (members shardMap : list string) (s : Z) :
  s ∈ (Reconcile me members shardMap).2 <->
  s ∈ shards /\ arr_get shardMap s = me /\ Rendezvous s members <> me.
Proof.
  rewrite Reconcile_filter. cbn. rewrite elem_of_filter_list. unfold to_release.
  rewrite andb_true_iff, negb_true_iff, String.eqb_eq, String.eqb_neq. naive_solver.
Qed.

Lemma Reconcile_NoDup (me : string) (members shardMap : list string) :
  NoDup (Reconcile me members shardMap).1 /\ NoDup (Reconcile me members shardMap).2.
Proof. rewrite Reconcile_filter. split; apply NoDup_filter_list, NoDup_shards. Qed.

Lemma Reconcile_nil_iff (me : string) (members shardMap : list string) :
  Reconcile me members shardMap = ([], []) <->
  forall s, s ∈ shards ->
    ~ (arr_get shardMap s = "" /\ Rendezvous s members = me) /\
    ~ (arr_get shardMap s = me /\ Rendezvous s members <> me).
Proof.
  destruct (Reconcile me members shardMap) as [c r] eqn:E.
  assert (Hc := elem_of_claim me members shardMap).
  assert (Hr := elem_of_release me members shardMap). rewrite E in Hc, Hr. cbn in *.
  split.
  - intros [= -> ->] s Hs. split; intros [H1 H2];
      [apply (not_elem_of_nil s), Hc | apply (not_elem_of_nil s), Hr]; done.
  - intros Hall. f_equal.
    + destruct c as [|s c]; [done|]. exfalso.
      destruct (proj1 (Hc s) ltac:(left)) as (Hs & ? & ?). by apply (proj1 (Hall s Hs)).
    + destruct r as [|s r]; [done|]. exfalso.
      destruct (proj1 (Hr s) ltac:(left)) as (Hs & ? & ?). by apply (proj2 (Hall s Hs)).
Qed.

End reconcile_lemmas.

(** ** Properties *)

(** C10: [Reconcile] proposes exactly the unowned shards this node is suggested
    for, and gives up exactly the shards it holds without being suggested; both
    lists are in shard order, without repetitions, and no shard is in both. *)
Theorem reconcile_exact {H : XXHash} (me : string) (members shardMap : list string) :
  let '(claim, release) := Reconcile me members shardMap in
  (forall s, s ∈ claim <->
     s ∈ shards /\ arr_get shardMap s = "" /\ Rendezvous s members = me) /\
  (forall s, s ∈ release <->
     s ∈ shards /\ arr_get shardMap s = me /\ Rendezvous s members <> me) /\
  sublist claim shards /\ sublist release shards /\ NoDup (claim ++ release).
Proof.
  destruct (Reconcile me members shardMap) as [c r] eqn:E.
  pose proof (elem_of_claim me members shardMap) as Hc.
  pose proof (elem_of_release me members shardMap) as Hr.
  rewrite E in Hc, Hr. cbn in Hc, Hr.
  rewrite Reconcile_filter in E. injection E as <- <-.
  split_and!; [exact Hc | exact Hr | apply sublist_filter_list | apply sublist_filter_list |].
  apply NoDup_app. split_and!; [by apply NoDup_filter_list, NoDup_shards | | by apply NoDup_filter_list, NoDup_shards].
  intros s (_ & _ & ?)%Hc (_ & _ & ?)%Hr. done.
Qed.

(** C34: Cold start: with nothing owned, the members' claims cover all shards
    without overlap, so no shard is orphaned and none is claimed twice; and
    nobody releases anything. *)
Theorem reconcile_cold_start_cover {H : XXHash} (members : list string) :
  members <> [] -> "" ∉ members ->
  (forall s, s ∈ shards ->
     exists me, me ∈ members /\ s ∈ (Reconcile me members (arr_zero "")).1 /\
       forall me', s ∈ (Reconcile me' members (arr_zero "")).1 -> me' = me) /\
  (forall me, me ∈ members -> (Reconcile me members (arr_zero "")).2 = []).
Proof.
  intros Hne Hn. split.
  - intros s Hs. exists (Rendezvous s members). split_and!.
    + by apply Rendezvous_elem.
    + apply elem_of_claim. by rewrite arr_get_zero.
    + intros me' (_ & _ & ?)%elem_of_claim. done.
  - intros me Hme.
    destruct (Reconcile me members (arr_zero "")).2 as [|s r] eqn:E; [done|].
    assert (s ∈ (Reconcile me members (arr_zero "")).2) as Hs by (rewrite E; left).
    apply elem_of_release in Hs as (Hs & Ha & _).
    rewrite arr_get_zero in Ha by done. set_solver.
Qed.

Lemma reconcile_cold_start_cover_witness :
  exists me, me ∈ ["node-1"; "node-2"] /\
    17%Z ∈ (Reconcile (H := ToyHash) me ["node-1"; "node-2"] (arr_zero "")).1.
Proof.
  destruct (reconcile_cold_start_cover (H := ToyHash) ["node-1"; "node-2"]) as [Hc _];
    [discriminate | set_solver |].
  destruct (Hc 17%Z) as (me & ? & ? & _); [apply elem_of_shards; unfold ShardCount; lia|].
  exists me. split; assumption.
Defined.

(** C33: The loop is quiescent exactly at the rendezvous placement: when every
    recorded owner is a live member, no node has anything to claim or release if
    and only if every shard is held by its rendezvous owner. *)
Theorem reconcile_quiescent_iff_placed {H : XXHash} (members shardMap : list string) :
  members <> [] -> "" ∉ members ->
  (forall s, s ∈ shards -> arr_get shardMap s = "" \/ arr_get shardMap s ∈ members) ->
  (forall me, me ∈ members -> Reconcile me members shardMap = ([], [])) <->
  placed members shardMap.
Proof.
  intros Hne Hn Hown. split.
  - intros Hq s Hs. destruct (Hown s Hs) as [Hs0|Hsm].
    + exfalso. pose proof (Rendezvous_elem s members Hne Hn) as Hr.
      apply Hq in Hr. rewrite Reconcile_nil_iff in Hr.
      by destruct (Hr s Hs) as [[] _].
    + pose proof (Hq _ Hsm) as Hr. rewrite Reconcile_nil_iff in Hr.
      destruct (Hr s Hs) as [_ Hnr].
      destruct (decide (Rendezvous s members = arr_get shardMap s)); [done|].
      by destruct Hnr.
  - intros Hp me Hme. apply Reconcile_nil_iff. intros s Hs. rewrite (Hp s Hs).
    pose proof (Rendezvous_elem s members Hne Hn). split; [|naive_solver].
    intros [Hr ?]. congruence.
Qed.

Lemma reconcile_quiescent_iff_placed_witness :
  Reconcile (H := ToyHash) "node-1" ["node-1"; "node-2"]
    ((fun s => Rendezvous (H := ToyHash) s ["node-1"; "node-2"]) <$> shards) = ([], []).
Proof.
  refine (proj2 (reconcile_quiescent_iff_placed (H := ToyHash) ["node-1"; "node-2"]
    ((fun s => Rendezvous (H := ToyHash) s ["node-1"; "node-2"]) <$> shards)
    _ _ _) _ "node-1" _); [discriminate | set_solver | | | set_solver].
  - intros s Hs. right. rewrite arr_get_tabulate by done.
    apply Rendezvous_elem; [discriminate | set_solver].
  - intros s Hs. by rewrite arr_get_tabulate.
Defined.
