(* ===== verification/Prog.v ===== *)
(** * Effectful programs

    A Go function that calls a service or enters a critical section is a [prog]
    over a signature of such actions: the finite tree of the actions it performs
    and of how it goes on after each reply.  A program says nothing about what
    the actions do; that is given by a transition relation (or an executable
    handler), so the same code is run against a healthy service, against one that
    fails, or interleaved with other processes.

    [exec] is the big-step semantics with interference, [run] the deterministic
    execution by a handler, and [wp] a rely-guarantee weakest precondition in
    which an invariant and a guarantee are checked at every action. *)

From S2P Require Import Prelude.

Inductive prog (E : Type -> Type) (A : Type) : Type :=
| Ret (a : A)
| Vis {X : Type} (e : E X) (k : X -> prog E A).
Arguments Ret {E A} _.
Arguments Vis {E A X} _ _.

Fixpoint bind {E A B} (p : prog E A) (f : A -> prog E B) : prog E B :=
  match p with
  | Ret a => f a
  | Vis e k => Vis e (fun x => bind (k x) f)
  end.

(** A single action. *)
Definition call {E X} (e : E X) : prog E X := Vis e Ret.

Declare Scope prog_scope.
Delimit Scope prog_scope with prog.
Notation "'let!' x := p 'in' q" := (bind p (fun x => q))
  (at level 200, x pattern, p at level 100, q at level 200, right associativity) : prog_scope.
Notation "p ';;;' q" := (bind p (fun _ => q))
  (at level 199, right associativity) : prog_scope.
Open Scope prog_scope.

(** [for _, x := range l { body(x) }] with a body that always goes on. *)
Fixpoint for_each {E A} (l : list A) (body : A -> prog E unit) : prog E unit :=
  match l with
  | [] => Ret tt
  | x :: l' => body x ;;; for_each l' body
  end.

(** A program over a smaller signature inside a larger one. *)
Fixpoint hoist {E F : Type -> Type} (inj : forall X, E X -> F X) {A} (p : prog E A) : prog F A :=
  match p with
  | Ret a => Ret a
  | Vis e k => Vis (inj _ e) (fun x => hoist inj (k x))
  end.

(** Every action a program can perform satisfies [P], whatever the replies. *)
Fixpoint always {E : Type -> Type} (P : forall X, E X -> Prop) {A} (p : prog E A) : Prop :=
  match p with
  | Ret _ => True
  | Vis e k => P _ e /\ forall x, always P (k x)
  end.

Lemma always_bind {E : Type -> Type} (P : forall X, E X -> Prop) {A B}
    (p : prog E A) (f : A -> prog E B) :
  always P p -> (forall a, always P (f a)) -> always P (bind p f).
Proof.
  intros Hp Hf. induction p as [a|X e k IH]; cbn in *; [done|].
  destruct Hp as [He Hk]. split; [done|]. auto.
Qed.

Lemma always_assoc {E : Type -> Type} (P : forall X, E X -> Prop) {A B C}
    (p : prog E A) (f : A -> prog E B) (g : B -> prog E C) :
  always P (bind p (fun a => bind (f a) g)) -> always P (bind (bind p f) g).
Proof.
  induction p as [a|X e k IH]; cbn; [done|]. intros [He Hk]. split; [done|]. auto.
Qed.

Lemma always_for_each {E : Type -> Type} (P : forall X, E X -> Prop) {A}
    (l : list A) (body : A -> prog E unit) :
  (forall x, x ∈ l -> always P (body x)) -> always P (for_each l body).
Proof.
  intros Hb. induction l as [|x l IH]; cbn; [done|].
  apply always_bind; [apply Hb; left|]. intros _. apply IH. intros y Hy. apply Hb. by right.
Qed.

(** Every result a program can return satisfies [Q], whatever the replies. *)
Fixpoint returns {E : Type -> Type} {A} (Q : A -> Prop) (p : prog E A) : Prop :=
  match p with
  | Ret a => Q a
  | Vis e k => forall x, returns Q (k x)
  end.

Lemma returns_bind {E : Type -> Type} {A B} (Q : B -> Prop) (p : prog E A) (f : A -> prog E B) :
  returns (fun a => returns Q (f a)) p -> returns Q (bind p f).
Proof. induction p as [a|X e k IH]; cbn; auto. Qed.

Lemma returns_mono {E : Type -> Type} {A} (Q Q' : A -> Prop) (p : prog E A) :
  (forall a, Q a -> Q' a) -> returns Q p -> returns Q' p.
Proof. intros HQ. induction p as [a|X e k IH]; cbn; auto. Qed.

Lemma returns_any {E : Type -> Type} {A} (Q : A -> Prop) (p : prog E A) :
  (forall a, Q a) -> returns Q p.
Proof. intros HQ. induction p as [a|X e k IH]; cbn; auto. Qed.

Section semantics.
Context {E : Type -> Type} {S : Type}.

(** Execution by a deterministic handler. *)
Fixpoint run {A} (h : forall X, E X -> S -> X * S) (p : prog E A) (s : S) : A * S :=
  match p with
  | Ret a => (a, s)
  | Vis e k => let '(x, s') := h _ e s in run h (k x) s'
  end.

Variable step : forall X, S -> E X -> X -> S -> Prop.
Variable rely : S -> S -> Prop.
Variable guar : S -> S -> Prop.
Variable inv : S -> Prop.

(** Big-step execution; other processes may move the state along [rely] before
    each action and at the end. *)
Fixpoint exec {A : Type} (s : S) (p : prog E A) (a : A) (s' : S) : Prop :=
  match p with
  | Ret b => a = b /\ rely s s'
  | Vis e k => exists s1 x s2, rely s s1 /\ step _ s1 e x s2 /\ exec s2 (k x) a s'
  end.

(** Rely-guarantee weakest precondition.  At every action the invariant may be
    used, and has to be re-established together with the guarantee. *)
Fixpoint wp {A : Type} (p : prog E A) (Q : A -> S -> Prop) (s : S) : Prop :=
  match p with
  | Ret a => Q a s
  | Vis e k => forall s1 x s2, rely s s1 -> inv s1 -> step _ s1 e x s2 ->
      guar s1 s2 /\ inv s2 /\ wp (k x) Q s2
  end.

Lemma wp_bind {A B} (p : prog E A) (f : A -> prog E B) (Q : B -> S -> Prop) (s : S) :
  wp p (fun a s' => wp (f a) Q s') s -> wp (bind p f) Q s.
Proof.
  revert s. induction p as [a|X e k IH]; intros s Hwp; cbn in *; [done|].
  intros s1 x s2 Hr Hi Hs. destruct (Hwp s1 x s2) as (? & ? & ?); auto.
Qed.

Lemma wp_mono {A} (p : prog E A) (Q Q' : A -> S -> Prop) (s : S) :
  (forall a s', Q a s' -> Q' a s') -> wp p Q s -> wp p Q' s.
Proof.
  intros HQ. revert s. induction p as [a|X e k IH]; intros s Hwp; cbn in *; [auto|].
  intros s1 x s2 Hr Hi Hs. destruct (Hwp s1 x s2) as (? & ? & ?); auto.
Qed.

Lemma wp_call {X} (e : E X) (Q : X -> S -> Prop) (s : S) :
  (forall s1 x s2, rely s s1 -> inv s1 -> step _ s1 e x s2 ->
     guar s1 s2 /\ inv s2 /\ Q x s2) ->
  wp (call e) Q s.
Proof. done. Qed.

(** The loop rule: [J] is kept by every iteration, which moves an element from
    the ones to do to the ones done. *)
Lemma wp_for_each {A} (J : list A -> S -> Prop) (l : list A) (body : A -> prog E unit) (s : S) :
  (forall done_ x todo s', l = done_ ++ x :: todo -> J done_ s' ->
     wp (body x) (fun _ => J (done_ ++ [x])) s') ->
  J [] s ->
  wp (for_each l body) (fun _ => J l) s.
Proof.
  intros Hbody.
  enough (forall done_ todo s', l = done_ ++ todo -> J done_ s' ->
    wp (for_each todo body) (fun _ => J l) s') as Hgen by (by apply (Hgen [] l)).
  intros done_ todo. revert done_. induction todo as [|x todo IH]; intros done_ s' Hl HJ; cbn.
  { rewrite app_nil_r in Hl. by subst. }
  apply wp_bind. eapply wp_mono; [|by eapply Hbody]. cbn. intros [] s'' HJ'.
  apply (IH (done_ ++ [x])); [|done]. by rewrite <- app_assoc.
Qed.

(** The precondition survives interference. *)
Lemma wp_rely {A} (p : prog E A) (Q : A -> S -> Prop) (s s' : S) :
  (forall t1 t2 t3, rely t1 t2 -> rely t2 t3 -> rely t1 t3) ->
  (forall a, Q a s -> Q a s') -> rely s s' -> wp p Q s -> wp p Q s'.
Proof.
  intros Htrans HQ Hr. destruct p as [a|X e k]; cbn; [auto|].
  intros Hwp s1 x s2 Hr1. apply Hwp. by eapply Htrans.
Qed.

(** Executions respect the weakest precondition. *)
Lemma wp_sound {A} (p : prog E A) (Q : A -> S -> Prop) (s s' : S) (a : A) :
  (forall t t', rely t t' -> inv t -> inv t') ->
  (forall b t t', rely t t' -> inv t -> Q b t -> Q b t') ->
  inv s -> wp p Q s -> exec s p a s' -> Q a s' /\ inv s'.
Proof.
  intros Hinv HQ. revert s. induction p as [b|X e k IH]; intros s Hi Hwp Hex; cbn in *.
  - destruct Hex as [-> Hr]. eauto.
  - destruct Hex as (s1 & x & s2 & Hr & Hs & Hex).
    destruct (Hwp s1 x s2) as (? & ? & ?); eauto.
Qed.

Lemma exec_bind_inv {A B} (p : prog E A) (f : A -> prog E B) (s s' : S) (b : B) :
  (forall t, rely t t) ->
  exec s (bind p f) b s' -> exists a s1, exec s p a s1 /\ exec s1 (f a) b s'.
Proof.
  intros Hrefl. revert s. induction p as [a|X e k IH]; intros s Hex; cbn in *.
  - exists a, s. auto.
  - destruct Hex as (s1 & x & s2 & Hr & Hs & (a & t & Ha & Hb)%IH).
    exists a, t. split; [|done]. by exists s1, x, s2.
Qed.

Lemma exec_rely_l {A} (p : prog E A) (s s1 s' : S) (a : A) :
  (forall t1 t2 t3, rely t1 t2 -> rely t2 t3 -> rely t1 t3) ->
  rely s s1 -> exec s1 p a s' -> exec s p a s'.
Proof.
  intros Htrans Hr. destruct p as [b|X e k]; cbn.
  - intros [-> ?]. eauto.
  - intros (t & x & t' & ? & ? & ?). exists t, x, t'. eauto.
Qed.

Lemma exec_bind {A B} (p : prog E A) (f : A -> prog E B) (s s1 s' : S) (a : A) (b : B) :
  (forall t1 t2 t3, rely t1 t2 -> rely t2 t3 -> rely t1 t3) ->
  exec s p a s1 -> exec s1 (f a) b s' -> exec s (bind p f) b s'.
Proof.
  intros Htrans. revert s. induction p as [a'|X e k IH]; intros s Hp Hf; cbn in *.
  - destruct Hp as [-> Hr]. by eapply exec_rely_l.
  - destruct Hp as (t & x & t' & ? & ? & Hk). exists t, x, t'. auto.
Qed.

End semantics.

(** An execution along a smaller transition relation. *)
Lemma exec_step_mono {E : Type -> Type} {S A : Type}
    (step1 step2 : forall X, S -> E X -> X -> S -> Prop) (rely : S -> S -> Prop)
    (p : prog E A) (s s' : S) (a : A) :
  (forall X t e x t', step1 X t e x t' -> step2 X t e x t') ->
  exec step1 rely s p a s' -> exec step2 rely s p a s'.
Proof.
  intros Hs. revert s. induction p as [b|X e k IH]; intros s; cbn; [done|].
  intros (s1 & x & s2 & ? & ? & ?). exists s1, x, s2. auto.
Qed.

(** Split an execution at a [bind], for interference that may be void. *)
Tactic Notation "bind_inv" hyp(H) "as" simple_intropattern(p) :=
  apply exec_bind_inv in H as p; [|done].

Lemma run_bind {E S A B} (h : forall X, E X -> S -> X * S)
    (p : prog E A) (f : A -> prog E B) (s : S) :
  run h (bind p f) s = let '(a, s') := run h p s in run h (f a) s'.
Proof.
  revert s. induction p as [a|X e k IH]; intros s; cbn; [done|].
  destruct (h X e s) as [x s']. apply IH.
Qed.

Lemma run_unit {E S} (h : forall X, E X -> S -> X * S) (p : prog E unit) (s : S) :
  run h p s = (tt, (run h p s).2).
Proof. by destruct (run h p s) as [[] s']. Qed.

Lemma run_for_each_cons {E S A} (h : forall X, E X -> S -> X * S)
    (x : A) (l : list A) (body : A -> prog E unit) (s : S) :
  run h (for_each (x :: l) body) s = run h (for_each l body) (run h (body x) s).2.
Proof. cbn. rewrite run_bind. by destruct (run h (body x) s) as [[] s']. Qed.

(** A handler whose every answer a transition relation allows runs along it. *)
Lemma exec_of_run {E S A} (step : forall X, S -> E X -> X -> S -> Prop) (rely : S -> S -> Prop)
    (h : forall X, E X -> S -> X * S) (p : prog E A) (s s' : S) (a : A) :
  (forall t, rely t t) -> (forall X e t, step X t e (h X e t).1 (h X e t).2) ->
  run h p s = (a, s') -> exec step rely s p a s'.
Proof.
  intros Hrefl Hh. revert s. induction p as [b|X e k IH]; intros s; cbn.
  - intros [= -> ->]. auto.
  - pose proof (Hh X e s) as Hs. destruct (h X e s) as [x s1].
    intros Hr. exists s, x, s1. auto.
Qed.
