(* ===== verification/Etcd.v ===== *)
(** * The etcd control plane as the program sees it

    etcd and its Go client are not part of the repository: they are the
    parameter [Etcd].  This file states the client calls the program makes (the
    signature [etcdE]), the documented behaviour of each of them on the part of
    the store that can be observed ([View], [etcd_commit]) and of the store left
    to itself ([env_allowed]: time passes, leases are renewed by their keepalive
    stream, overdue leases expire and take their keys along).

    A call may also fail; then it took effect or it did not ([etcd_allowed]).  That
    a failed call may yet be executed after it has returned is a later step of the
    system around it: [view_step] below has any calls at any time, and [Cluster]
    keeps the failed ones and executes them late.
    [ModelEtcd] is the concrete instance whose store is a [View], and
    [etcd_handler] the healthy, executable one. *)

From S2P Require Import Prelude GoStd Prog.

(** ** Data of the client API *)

Notation LeaseID := Z (only parsing).
Definition NoLease : LeaseID := 0%Z.

Record KeyValue : Type := mkKV {
  Key : string;
  Value : string;
  CreateRevision : Z;
  ModRevision : Z;
  KvLease : LeaseID;
}.

#[global] Instance KeyValue_inhabited : Inhabited KeyValue := populate (mkKV "" "" 0 0 0).

#[global] Instance KeyValue_eq_dec : EqDecision KeyValue.
Proof. solve_decision. Defined.

(** The comparisons and operations of the transactions the program builds. *)
Inductive Compare : Type :=
| CmpCreateRevision (key : string) (r : Z)   (* CreateRevision(key) = r *)
| CmpValue (key : string) (v : string).      (* Value(key) = v *)

Inductive Op : Type :=
| OpPut (key val : string) (lease : LeaseID)
| OpDelete (key : string).

Record TxnResponse : Type := mkTxnResponse { Succeeded : bool; Revision : Z }.

(** The calls on [*clientv3.Client]; every reply is a value or an error. *)
Inductive etcdE : Type -> Type :=
| Grant (ttlSeconds : Z) : etcdE (result LeaseID)
| Put (key val : string) (lease : LeaseID) : etcdE (result unit)
| Revoke (lease : LeaseID) : etcdE (result unit)
| KeepAlive (lease : LeaseID) : etcdE (result unit)
| Get (key : string) : etcdE (result (list KeyValue))
| GetPrefix (prefix : string) : etcdE (result (list KeyValue))
| Txn (cmp : Compare) (then_ : Op) : etcdE (result TxnResponse).

(** ** The observable store *)

Record Lease : Type := mkLease { lease_ttl : Z; deadline : Z }.

Record View : Type := mkView {
  now : Z;                       (* the server's clock, in nanoseconds *)
  rev : Z;                       (* the revision of the last write *)
  kvs : gmap string KeyValue;
  leases : gmap LeaseID Lease;   (* the live leases *)
  granted : gset LeaseID;        (* every lease id handed out so far *)
}.

Definition ErrLeaseNotFound : error :=
  Error "etcdserver.ErrLeaseNotFound" "requested lease not found".

Definition empty_view : View := mkView 0 1 ∅ ∅ ∅.

Definition lease_live (v : View) (l : LeaseID) : bool :=
  bool_decide (l = NoLease \/ is_Some (leases v !! l)).

Definition put_kv (v : View) (key val : string) (l : LeaseID) : View :=
  let r := (rev v + 1)%Z in
  let c := match kvs v !! key with Some kv => CreateRevision kv | None => r end in
  mkView (now v) r (<[key := mkKV key val c r l]> (kvs v)) (leases v) (granted v).

Definition delete_kv (v : View) (key : string) : View :=
  match kvs v !! key with
  | Some _ => mkView (now v) (rev v + 1) (delete key (kvs v)) (leases v) (granted v)
  | None => v
  end.

(** A lease that goes away takes its keys along, in one revision. *)
Definition drop_lease (v : View) (l : LeaseID) : View :=
  let kept := filter (fun p => KvLease p.2 <> l) (kvs v) in
  let r := if decide (kept = kvs v) then rev v else (rev v + 1)%Z in
  mkView (now v) r kept (delete l (leases v)) (granted v).

Definition holds (v : View) (c : Compare) : bool :=
  match c with
  | CmpCreateRevision key r =>
    (match kvs v !! key with Some kv => CreateRevision kv | None => 0%Z end =? r)%Z
  | CmpValue key val =>
    match kvs v !! key with Some kv => (Value kv =? val)%string | None => false end
  end.

(** A range read returns the keys in ascending order. *)
Definition key_le (a b : KeyValue) : Prop := String.le (Key a) (Key b).
#[global] Instance key_le_dec : RelDecision key_le.
Proof. intros a b. unfold key_le. apply _. Defined.

Definition range_prefix (v : View) (prefix : string) : list KeyValue :=
  merge_sort key_le
    (List.filter (fun kv => strings.HasPrefix (Key kv) prefix) (snd <$> map_to_list (kvs v))).

Definition grant (v : View) (ttlSeconds : Z) (id : LeaseID) : View :=
  let ttl := (ttlSeconds * time.Second)%Z in
  mkView (now v) (rev v) (kvs v) (<[id := mkLease ttl (now v + ttl)%Z]> (leases v))
    ({[id]} ∪ granted v).

(** The same store at another time. *)
Definition at_time (v : View) (t : Z) : View :=
  mkView t (rev v) (kvs v) (leases v) (granted v).

(** ** Documented behaviour of the calls *)

(** What a call that is executed does: its reply and the store after it. *)
Definition etcd_commit {X} (v : View) (e : etcdE X) : X -> View -> Prop :=
  match e in etcdE X return X -> View -> Prop with
  | Grant ttlSeconds => fun x v' =>
      exists id, id <> NoLease /\ id ∉ granted v /\ x = Ok id /\ v' = grant v ttlSeconds id
  | Put key val l => fun x v' =>
      if lease_live v l then x = Ok tt /\ v' = put_kv v key val l
      else x = Err ErrLeaseNotFound /\ v' = v
  | Revoke l => fun x v' =>
      if decide (is_Some (leases v !! l)) then x = Ok tt /\ v' = drop_lease v l
      else x = Err ErrLeaseNotFound /\ v' = v
  | KeepAlive l => fun x v' => x = Ok tt /\ v' = v
  | Get key => fun x v' => x = Ok (option_list (kvs v !! key)) /\ v' = v
  | GetPrefix prefix => fun x v' => x = Ok (range_prefix v prefix) /\ v' = v
  | Txn cmp op => fun x v' =>
      if holds v cmp then
        match op with
        | OpPut key val l =>
          if lease_live v l
          then x = Ok (mkTxnResponse true (rev v + 1)) /\ v' = put_kv v key val l
          else x = Err ErrLeaseNotFound /\ v' = v
        | OpDelete key =>
          x = Ok (mkTxnResponse true (rev (delete_kv v key))) /\ v' = delete_kv v key
        end
      else x = Ok (mkTxnResponse false (rev v)) /\ v' = v
  end.

(** The error reply of a call. *)
Definition etcd_fail {X} (e : etcdE X) (err : error) : X :=
  match e in etcdE X return X with
  | Grant _ => Err err
  | Put _ _ _ => Err err
  | Revoke _ => Err err
  | KeepAlive _ => Err err
  | Get _ => Err err
  | GetPrefix _ => Err err
  | Txn _ _ => Err err
  end.

(** A call is executed and answered, or fails before or after taking effect. *)
Definition etcd_allowed (X : Type) (v : View) (e : etcdE X) (x : X) (v' : View) : Prop :=
  etcd_commit v e x v' \/
  exists err, x = etcd_fail e err /\ (v' = v \/ exists y, etcd_commit v e y v').

(** The store left to itself. *)
Inductive env_allowed : View -> View -> Prop :=
| env_time v t : (now v <= t)%Z -> env_allowed v (at_time v t)
| env_renew v l lease : leases v !! l = Some lease ->
    env_allowed v (mkView (now v) (rev v) (kvs v)
      (<[l := mkLease (lease_ttl lease) (now v + lease_ttl lease)%Z]> (leases v)) (granted v))
| env_expire v l lease : leases v !! l = Some lease -> (deadline lease <= now v)%Z ->
    env_allowed v (drop_lease v l).

(** ** The parameter *)

(** An etcd deployment: its states, what can be observed of them, what the calls
    do and how it moves by itself.  [etcd_documented] and [etcd_env_documented]
    are the documented contract. *)
Class Etcd : Type := {
  St : Type;
  view : St -> View;
  etcd_do : forall X, St -> etcdE X -> X -> St -> Prop;
  etcd_documented (X : Type) (s : St) (e : etcdE X) (x : X) (s' : St) :
    etcd_do X s e x s' -> etcd_allowed X (view s) e x (view s');
  etcd_env : St -> St -> Prop;
  etcd_env_documented (s s' : St) : etcd_env s s' -> env_allowed (view s) (view s');
}.

#[global] Instance ModelEtcd : Etcd := {|
  St := View;
  view := id;
  etcd_do := etcd_allowed;
  etcd_documented := fun X s e x s' H => H;
  etcd_env := env_allowed;
  etcd_env_documented := fun s s' H => H;
|}.

(** ** A healthy, executable etcd *)

Definition fresh_lease (v : View) : LeaseID := (set_fold Z.max 0 (granted v) + 1)%Z.

Definition etcd_handler (X : Type) (e : etcdE X) (v : View) : X * View :=
  match e in etcdE X return X * View with
  | Grant ttlSeconds => let id := fresh_lease v in (Ok id, grant v ttlSeconds id)
  | Put key val l =>
    if lease_live v l then (Ok tt, put_kv v key val l) else (Err ErrLeaseNotFound, v)
  | Revoke l =>
    if decide (is_Some (leases v !! l)) then (Ok tt, drop_lease v l)
    else (Err ErrLeaseNotFound, v)
  | KeepAlive l => (Ok tt, v)
  | Get key => (Ok (option_list (kvs v !! key)), v)
  | GetPrefix prefix => (Ok (range_prefix v prefix), v)
  | Txn cmp op =>
    if holds v cmp then
      match op with
      | OpPut key val l =>
        if lease_live v l then (Ok (mkTxnResponse true (rev v + 1)), put_kv v key val l)
        else (Err ErrLeaseNotFound, v)
      | OpDelete key =>
        (Ok (mkTxnResponse true (rev (delete_kv v key))), delete_kv v key)
      end
    else (Ok (mkTxnResponse false (rev v)), v)
  end.

(** ** Well-formed views *)

Record view_wf (v : View) : Prop := {
  wf_rev : (0 < rev v)%Z;
  wf_key k kv : kvs v !! k = Some kv -> Key kv = k;
  wf_mod k kv : kvs v !! k = Some kv -> (0 < CreateRevision kv <= ModRevision kv)%Z /\ (ModRevision kv <= rev v)%Z;
  wf_lease k kv : kvs v !! k = Some kv -> KvLease kv = NoLease \/ is_Some (leases v !! KvLease kv);
  wf_granted l : is_Some (leases v !! l) -> l ∈ granted v /\ l <> NoLease;
}.

Lemma empty_view_wf : view_wf empty_view.
Proof.
  split; cbn; [lia| | | |]; intros *; rewrite lookup_empty; try done.
Qed.

Lemma lease_live_true (v : View) (l : LeaseID) :
  lease_live v l = true <-> l = NoLease \/ is_Some (leases v !! l).
Proof. apply bool_decide_eq_true. Qed.

Lemma put_kv_wf (v : View) (key val : string) (l : LeaseID) :
  view_wf v -> lease_live v l = true -> view_wf (put_kv v key val l).
Proof.
  intros [Hr Hk Hm Hl Hg] Hlive%lease_live_true. split; cbn; [lia| | | |done].
  - intros k kv. destruct (decide (key = k)) as [->|].
    + rewrite lookup_insert_eq. by intros [= <-].
    + rewrite lookup_insert_ne by done. apply Hk.
  - intros k kv. destruct (decide (key = k)) as [->|].
    + rewrite lookup_insert_eq. intros [= <-]. cbn.
      destruct (kvs v !! k) as [kv0|] eqn:E; [apply Hm in E|]; lia.
    + rewrite lookup_insert_ne by done. intros ?%Hm. lia.
  - intros k kv. destruct (decide (key = k)) as [->|].
    + rewrite lookup_insert_eq. by intros [= <-].
    + rewrite lookup_insert_ne by done. apply Hl.
Qed.

Lemma delete_kv_lookup (v : View) (key k : string) :
  kvs (delete_kv v key) !! k = if decide (k = key) then None else kvs v !! k.
Proof.
  unfold delete_kv. destruct (kvs v !! key) as [kv|] eqn:E; cbn.
  - rewrite lookup_delete. destruct (decide (key = k)), (decide (k = key)); congruence.
  - case_decide; congruence.
Qed.

Lemma drop_lease_lookup (v : View) (l : LeaseID) (k : string) (kv : KeyValue) :
  kvs (drop_lease v l) !! k = Some kv <-> kvs v !! k = Some kv /\ KvLease kv <> l.
Proof. cbn. by rewrite map_lookup_filter_Some. Qed.

Lemma delete_kv_rev (v : View) (key : string) : (rev v <= rev (delete_kv v key) <= rev v + 1)%Z.
Proof. unfold delete_kv. destruct (kvs v !! key); cbn; lia. Qed.

Lemma drop_lease_rev (v : View) (l : LeaseID) : (rev v <= rev (drop_lease v l) <= rev v + 1)%Z.
Proof. cbn. case_decide; lia. Qed.

Lemma delete_kv_wf (v : View) (key : string) : view_wf v -> view_wf (delete_kv v key).
Proof.
  intros [Hr Hk Hm Hl Hg]. pose proof (delete_kv_rev v key) as Hrev.
  split; [lia| | | |]; intros *; rewrite ?delete_kv_lookup; try case_decide; try done.
  - apply Hk.
  - intros ?%Hm. lia.
  - intros ?%Hl. unfold delete_kv. by destruct (kvs v !! key).
  - unfold delete_kv. destruct (kvs v !! key); apply Hg.
Qed.

Lemma drop_lease_wf (v : View) (l : LeaseID) : view_wf v -> view_wf (drop_lease v l).
Proof.
  intros [Hr Hk Hm Hl Hg]. pose proof (drop_lease_rev v l) as Hrev.
  split; [lia| | | |].
  - intros k kv [? _]%drop_lease_lookup. eauto.
  - intros k kv [Hkv _]%drop_lease_lookup. apply Hm in Hkv. lia.
  - intros k kv [Hkv Hne]%drop_lease_lookup. apply Hl in Hkv as [?|?]; [by left|right].
    cbn. by rewrite lookup_delete_ne.
  - intros l'. cbn. rewrite lookup_delete. case_decide; [by intros [? [=]]|]. apply Hg.
Qed.

Lemma grant_wf (v : View) (ttl : Z) (id : LeaseID) :
  view_wf v -> id <> NoLease -> view_wf (grant v ttl id).
Proof.
  intros [Hr Hk Hm Hl Hg] Hid. split; cbn; [done|done|done| |].
  - intros k kv Hkv. apply Hl in Hkv as [?|Hkv]; [by left|right].
    destruct (decide (id = KvLease kv)) as [->|].
    + rewrite lookup_insert_eq. eauto.
    + by rewrite lookup_insert_ne.
  - intros l'. destruct (decide (id = l')) as [->|].
    + set_solver.
    + rewrite lookup_insert_ne by done. intros ?%Hg. set_solver.
Qed.

Lemma etcd_commit_wf {X} (v v' : View) (e : etcdE X) (x : X) :
  view_wf v -> etcd_commit v e x v' -> view_wf v'.
Proof.
  intros Hwf. destruct e as [ttl|key val l|l|l|key|prefix|cmp op]; cbn.
  - intros (id & Hid & _ & _ & ->). by apply grant_wf.
  - destruct (lease_live v l) eqn:E; intros [_ ->]; [by apply put_kv_wf|done].
  - case_decide; intros [_ ->]; [by apply drop_lease_wf|done].
  - by intros [_ ->].
  - by intros [_ ->].
  - by intros [_ ->].
  - destruct (holds v cmp); [|by intros [_ ->]].
    destruct op as [key val l|key].
    + destruct (lease_live v l) eqn:E; intros [_ ->]; [by apply put_kv_wf|done].
    + intros [_ ->]. by apply delete_kv_wf.
Qed.

(** Every documented transition keeps views well-formed. *)
Lemma etcd_allowed_wf (X : Type) (v v' : View) (e : etcdE X) (x : X) :
  view_wf v -> etcd_allowed X v e x v' -> view_wf v'.
Proof.
  intros Hwf [Hc|(err & _ & [->|[y Hc]])]; eauto using etcd_commit_wf.
Qed.

Lemma env_allowed_wf (v v' : View) : view_wf v -> env_allowed v v' -> view_wf v'.
Proof.
  intros Hwf Henv. destruct Henv as [v t _|v l lease Hl|v l lease _ _].
  - destruct Hwf. by split.
  - destruct Hwf as [Hr Hk Hm Hkl Hg]. split; cbn; [done|done|done| |].
    + intros k kv Hkv. apply Hkl in Hkv as [?|?]; [by left|right].
      rewrite lookup_insert. case_decide; eauto.
    + intros l'. rewrite lookup_insert. case_decide as Hd; [subst|by auto].
      intros _. apply Hg. eauto.
  - by apply drop_lease_wf.
Qed.

(** ** Monotonicity *)

Lemma etcd_commit_rev {X} (v v' : View) (e : etcdE X) (x : X) :
  etcd_commit v e x v' -> (rev v <= rev v')%Z.
Proof.
  destruct e as [ttl|key val l|l|l|key|prefix|cmp op]; cbn.
  - intros (id & _ & _ & _ & ->). cbn. lia.
  - destruct (lease_live v l); intros [_ ->]; cbn; lia.
  - case_decide; intros [_ ->]; [|lia]. pose proof (drop_lease_rev v l). lia.
  - intros [_ ->]. lia.
  - intros [_ ->]. lia.
  - intros [_ ->]. lia.
  - destruct (holds v cmp); [|intros [_ ->]; lia]. destruct op as [key val l|key].
    + destruct (lease_live v l); intros [_ ->]; cbn; lia.
    + intros [_ ->]. pose proof (delete_kv_rev v key). lia.
Qed.

Lemma etcd_allowed_rev (X : Type) (v v' : View) (e : etcdE X) (x : X) :
  etcd_allowed X v e x v' -> (rev v <= rev v')%Z.
Proof. intros [Hc|(err & _ & [->|[y Hc]])]; eauto using etcd_commit_rev. lia. Qed.

Lemma env_allowed_rev (v v' : View) : env_allowed v v' -> (rev v <= rev v')%Z.
Proof.
  intros Henv. destruct Henv as [v t _|v l lease Hl|v l lease _ _]; cbn; [lia|lia|].
  case_decide; lia.
Qed.

(** Any number of steps of any clients and of the store itself. *)
Inductive view_step : View -> View -> Prop :=
| vs_call X v e x v' : etcd_allowed X v e x v' -> view_step v v'
| vs_env v v' : env_allowed v v' -> view_step v v'.

Lemma view_steps_rev (v v' : View) : rtc view_step v v' -> (rev v <= rev v')%Z.
Proof.
  induction 1 as [v|v v1 v2 Hs _ IH]; [lia|].
  destruct Hs as [X v e x v1 Hc%etcd_allowed_rev|v v1 He%env_allowed_rev]; lia.
Qed.

Lemma view_steps_wf (v v' : View) : rtc view_step v v' -> view_wf v -> view_wf v'.
Proof.
  induction 1 as [v|v v1 v2 Hs _ IH]; [done|]. intros Hwf. apply IH.
  destruct Hs; eauto using etcd_allowed_wf, env_allowed_wf.
Qed.

(** ** The healthy handler is documented behaviour *)

Lemma fresh_lease_spec (v : View) :
  fresh_lease v <> NoLease /\ fresh_lease v ∉ granted v.
Proof.
  assert (Hmax : forall l, l ∈ granted v -> (l <= set_fold Z.max 0 (granted v))%Z).
  { apply (set_fold_ind_L (fun r X => forall l, l ∈ X -> (l <= r)%Z)); [set_solver|].
    intros x X r Hx IH l. rewrite elem_of_union, elem_of_singleton.
    intros [->|Hl%IH]; lia. }
  assert (0 <= set_fold Z.max 0 (granted v))%Z.
  { apply (set_fold_ind_L (fun r X => (0 <= r)%Z)); lia. }
  unfold fresh_lease, NoLease. split; [lia|]. intros Hin%Hmax. lia.
Qed.

Lemma etcd_handler_commit (X : Type) (e : etcdE X) (v : View) :
  etcd_commit v e (etcd_handler X e v).1 (etcd_handler X e v).2.
Proof.
  destruct e as [ttl|key val l|l|l|key|prefix|cmp op]; cbn; try done.
  - exists (fresh_lease v). pose proof (fresh_lease_spec v). naive_solver.
  - by destruct (lease_live v l).
  - by case_decide.
  - destruct (holds v cmp); [|done]. destruct op as [key val l|key]; [|done].
    by destruct (lease_live v l).
Qed.

(** ** Range reads *)

Lemma range_prefix_elem (v : View) (prefix : string) (kv : KeyValue) :
  view_wf v ->
  kv ∈ range_prefix v prefix <->
  kvs v !! Key kv = Some kv /\ strings.HasPrefix (Key kv) prefix = true.
Proof.
  intros Hwf. unfold range_prefix. rewrite merge_sort_Permutation, elem_of_filter_list.
  rewrite list_elem_of_fmap. split.
  - intros [Hp ([k kv'] & -> & Hin)]. apply elem_of_map_to_list in Hin. cbn in *.
    split; [|done]. by rewrite (wf_key v Hwf _ _ Hin).
  - intros [Hl Hp]. split; [done|]. exists (Key kv, kv). split; [done|].
    by apply elem_of_map_to_list.
Qed.

Lemma range_prefix_NoDup (v : View) (prefix : string) :
  view_wf v -> NoDup (Key <$> range_prefix v prefix).
Proof.
  intros Hwf. unfold range_prefix. rewrite merge_sort_Permutation.
  assert (NoDup (Key <$> (snd <$> map_to_list (kvs v)))) as Hnd.
  { rewrite <- list_fmap_compose.
    replace ((Key ∘ snd) <$> map_to_list (kvs v)) with (fst <$> map_to_list (kvs v));
      [apply NoDup_fst_map_to_list|].
    apply list_fmap_ext. intros i [k kv] Hi. cbn.
    apply list_elem_of_lookup_2, elem_of_map_to_list in Hi.
    by rewrite (wf_key v Hwf _ _ Hi). }
  eapply sublist_NoDup; [exact Hnd|]. apply fmap_sublist, sublist_filter_list.
Qed.

Lemma range_prefix_sorted (v : View) (prefix : string) :
  Sorted key_le (range_prefix v prefix).
Proof.
  apply Sorted_merge_sort. intros a b. unfold key_le. apply (total String.le).
Qed.

(** A range read only depends on the keys in its range. *)
Lemma range_prefix_ext (v v' : View) (prefix : string) :
  view_wf v -> view_wf v' ->
  (forall k, strings.HasPrefix k prefix = true -> kvs v' !! k = kvs v !! k) ->
  range_prefix v' prefix = range_prefix v prefix.
Proof.
  intros Hwf Hwf' Heq.
  assert (Hsame : forall kv, kv ∈ range_prefix v' prefix <-> kv ∈ range_prefix v prefix).
  { intros kv. rewrite !range_prefix_elem by done.
    split; intros [Hk Hp]; (split; [|done]); specialize (Heq _ Hp); congruence. }
  apply (StronglySorted_unique_strong key_le).
  - intros a b Ha Hb Hab Hba. assert (Key a = Key b) as Hk.
    { apply (anti_symm String.le); [exact Hab|exact Hba]. }
    apply Hsame in Ha. apply range_prefix_elem in Ha as [Ha _]; [|done].
    apply range_prefix_elem in Hb as [Hb _]; [|done]. rewrite Hk in Ha. congruence.
  - apply Sorted_StronglySorted, range_prefix_sorted. intros a b c. unfold key_le. apply transitivity.
  - apply Sorted_StronglySorted, range_prefix_sorted. intros a b c. unfold key_le. apply transitivity.
  - apply NoDup_Permutation; [| |exact Hsame];
      eapply NoDup_fmap_1; by apply range_prefix_NoDup.
Qed.

#[export] Hint Resolve etcd_allowed_wf env_allowed_wf empty_view_wf put_kv_wf delete_kv_wf
  drop_lease_wf grant_wf : catalog.
#[export] Hint Extern 1 (_ <> NoLease) => discriminate : catalog.
