(* ===== verification/Ownership.v ===== *)
(** * Shard ownership: routing/ownership.go

    One etcd key per shard records its owner.  Claims, releases and re-bindings
    are compare-and-swap transactions; the revision at which a claim commits is
    the owner's term.  The lemmas of this file say what each transaction does to
    the store, whatever it replies. *)

From S2P Require Import Prelude GoStd Placement Reconcile Prog Etcd.

(** ** The operations *)

Definition shardKey (prefix : string) (shard : Z) : string :=
  path.Join [prefix; "ownership"; "shard"; strconv.Itoa shard].

(** The common prefix of the ownership keys, [base] in the two loaders. *)
Definition ownershipBase (prefix : string) : string :=
  path.Join [prefix; "ownership"; "shard"] +:+ "/".

Definition ClaimShard (prefix : string) (shard : Z) (nodeID : string) (lease : LeaseID)
    : prog etcdE (result (bool * Z)) :=
  let key := shardKey prefix shard in
  let! resp := call (Txn (CmpCreateRevision key 0) (OpPut key nodeID lease)) in
  Ret match resp with
      | Err err => Err err
      | Ok resp => if negb (Succeeded resp) then Ok (false, 0%Z) else Ok (true, Revision resp)
      end.

Record OwnerInfo : Type := mkOwnerInfo {
  Owner : string;
  Term : Z;
  OwnerLease : LeaseID;
}.

#[global] Instance OwnerInfo_inhabited : Inhabited OwnerInfo := populate (mkOwnerInfo "" 0 0).

(** The shard an ownership key names, if it names one. *)
Definition shard_index (base : string) (kv : KeyValue) : option Z :=
  match strconv.Atoi (strings.drop (String.length base) (Key kv)) with
  | Err _ => None
  | Ok s => if (s <? 0)%Z || (s >=? ShardCount)%Z then None else Some s
  end.

(** The loop over the keys of a range read, filling an array slot per key. *)
Definition load_step {A} (base : string) (f : KeyValue -> A) (arr : list A) (kv : KeyValue) : list A :=
  match shard_index base kv with
  | None => arr
  | Some s => arr_set arr s (f kv)
  end.

Definition LoadOwnershipMap (prefix : string) : prog etcdE (result (list OwnerInfo)) :=
  let base := ownershipBase prefix in
  let! resp := call (GetPrefix base) in
  Ret match resp with
      | Err err => Err err
      | Ok kvs =>
        Ok (foldl (load_step base (fun kv => mkOwnerInfo (Value kv) (ModRevision kv) (KvLease kv)))
              (arr_zero (mkOwnerInfo "" 0 0)) kvs)
      end.

Definition RebindShard (prefix : string) (shard : Z) (nodeID : string) (lease : LeaseID)
    : prog etcdE (result (bool * Z)) :=
  let key := shardKey prefix shard in
  let! resp := call (Txn (CmpValue key nodeID) (OpPut key nodeID lease)) in
  Ret match resp with
      | Err err => Err err
      | Ok resp => if negb (Succeeded resp) then Ok (false, 0%Z) else Ok (true, Revision resp)
      end.

Definition ReleaseShard (prefix : string) (shard : Z) (nodeID : string)
    : prog etcdE (option error) :=
  let key := shardKey prefix shard in
  let! resp := call (Txn (CmpValue key nodeID) (OpDelete key)) in
  Ret match resp with Err err => Some err | Ok _ => None end.

(** [(owner, found, err)]. *)
Definition ShardOwner (prefix : string) (shard : Z) : prog etcdE (result (string * bool)) :=
  let! resp := call (Get (shardKey prefix shard)) in
  Ret match resp with
      | Err err => Err err
      | Ok [] => Ok ("", false)
      | Ok (kv :: _) => Ok (Value kv, true)
      end.

Definition LoadShardMap (prefix : string) : prog etcdE (result (list string)) :=
  let! resp := call (GetPrefix (ownershipBase prefix)) in
  let base := ownershipBase prefix in
  Ret match resp with
      | Err err => Err err
      | Ok kvs => Ok (foldl (load_step base Value) (arr_zero "") kvs)
      end.

(** [OwnerOf] of routing/coordinator.go: discovery of a namespace's owner. *)
Definition OwnerOf {H : XXHash} (prefix namespace : string) : prog etcdE (result (string * bool)) :=
  ShardOwner prefix (ShardOf namespace).

(** ** The abstract ownership map *)

(** The record of a shard in the store: what the loaders and [ShardOwner] are
    to return. *)
Definition ownership (v : View) (prefix : string) (s : Z) : option KeyValue :=
  kvs v !! shardKey prefix s.

Definition owner_info (v : View) (prefix : string) (s : Z) : OwnerInfo :=
  match ownership v prefix s with
  | Some kv => mkOwnerInfo (Value kv) (ModRevision kv) (KvLease kv)
  | None => mkOwnerInfo "" 0 0
  end.

(** No stray key below the ownership prefix spells a shard number in another way
    (such as [05] or [+5]); keys that are no shard number at all are harmless. *)
Definition canonical (v : View) (prefix : string) : Prop :=
  forall k kv t s, kvs v !! k = Some kv -> k = ownershipBase prefix +:+ t ->
    strconv.Atoi t = Ok s -> s ∈ shards -> t = strconv.Itoa s.

(** ** Keys *)

Lemma canonical_empty (prefix : string) : canonical empty_view prefix.
Proof. intros k kv t s Hk. cbn in Hk. by rewrite lookup_empty in Hk. Qed.

#[export] Hint Resolve canonical_empty : catalog.

Lemma shards_int64 (s : Z) : s ∈ shards -> is_int64 s /\ (0 <= s)%Z.
Proof.
  rewrite elem_of_shards. unfold is_int64, min_int64, max_int64, ShardCount. lia.
Qed.

Lemma ownership_segments : Forall path.is_segment ["ownership"; "shard"].
Proof.
  repeat constructor; try discriminate; apply (bool_decide_unpack _); vm_compute; exact I.
Qed.

(** A shard's key is the common prefix followed by the shard's number. *)
Lemma shardKey_base (prefix : string) (s : Z) :
  s ∈ shards -> shardKey prefix s = ownershipBase prefix +:+ strconv.Itoa s.
Proof.
  intros [_ Hs]%shards_int64. destruct (path.Join_prefix prefix) as [X HX].
  unfold shardKey, ownershipBase. rewrite !HX; try discriminate.
  - by rewrite !append_assoc.
  - apply ownership_segments.
  - change (Forall path.is_segment (["ownership"; "shard"] ++ [strconv.Itoa s])).
    apply Forall_app. split; [apply ownership_segments|].
    constructor; [by apply path.Itoa_segment|constructor].
Qed.

Lemma shardKey_inj (prefix : string) (s s' : Z) :
  s ∈ shards -> s' ∈ shards -> shardKey prefix s = shardKey prefix s' -> s = s'.
Proof.
  intros Hs Hs'. rewrite !shardKey_base by done. intros ?%append_inj_l.
  apply strconv.FormatInt_inj; [by apply shards_int64..|done].
Qed.

Lemma shard_index_canonical (v : View) (prefix : string) (kv : KeyValue) (s : Z) :
  canonical v prefix -> s ∈ shards ->
  kvs v !! Key kv = Some kv -> strings.HasPrefix (Key kv) (ownershipBase prefix) = true ->
  shard_index (ownershipBase prefix) kv = Some s <-> Key kv = shardKey prefix s.
Proof.
  intros Hcan Hs Hkv Hp. apply strings.HasPrefix_spec in Hp as [t Ht].
  rewrite shardKey_base by done. unfold shard_index. rewrite Ht, strings.drop_append.
  split.
  - destruct (strconv.Atoi t) as [s'|] eqn:Ea; [|done].
    destruct ((s' <? 0)%Z || (s' >=? ShardCount)%Z) eqn:Eb; [done|]. intros [= ->].
    f_equal. by eapply Hcan.
  - intros ->%append_inj_l. unfold strconv.Atoi, strconv.Itoa.
    rewrite strconv.ParseInt_FormatInt by (by apply shards_int64).
    apply elem_of_shards in Hs. rewrite Z.geb_leb.
    destruct (Z.ltb_spec s 0); [lia|]. by destruct (Z.leb_spec ShardCount s); [lia|].
Qed.

(** ** The loaders *)

Lemma length_load_fold {A} (base : string) (f : KeyValue -> A) (l : list KeyValue) (arr : list A) :
  length (foldl (load_step base f) arr l) = length arr.
Proof.
  revert arr. induction l as [|kv l IH]; intros arr; cbn; [done|].
  rewrite IH. unfold load_step. destruct (shard_index base kv); [|done]. apply length_arr_set.
Qed.

Lemma load_fold_other {A} `{Inhabited A} (base : string) (f : KeyValue -> A)
    (l : list KeyValue) (arr : list A) (s : Z) :
  (0 <= s)%Z -> (forall kv, kv ∈ l -> shard_index base kv <> Some s) ->
  arr_get (foldl (load_step base f) arr l) s = arr_get arr s.
Proof.
  intros Hs. revert arr. induction l as [|kv l IH]; intros arr Hl; cbn; [done|].
  rewrite IH by (intros; apply Hl; by right). unfold load_step.
  destruct (shard_index base kv) as [s'|] eqn:Ei; [|done].
  assert (s' <> s) by (intros ->; apply (Hl kv); [left|done]).
  unfold arr_get, arr_set. unfold shard_index in Ei.
  destruct (strconv.Atoi _); [|done].
  destruct ((a <? 0)%Z || _) eqn:Eb; [done|]. simplify_eq.
  apply orb_false_elim in Eb as [Eb%Z.ltb_ge _].
  rewrite !list_lookup_total_alt, list_lookup_insert_ne by lia. done.
Qed.

Lemma load_fold_elem {A} `{Inhabited A} (base : string) (f : KeyValue -> A)
    (l : list KeyValue) (arr : list A) (s : Z) (kv : KeyValue) :
  (0 <= s < Z.of_nat (length arr))%Z -> NoDup l -> kv ∈ l -> shard_index base kv = Some s ->
  (forall kv', kv' ∈ l -> shard_index base kv' = Some s -> kv' = kv) ->
  arr_get (foldl (load_step base f) arr l) s = f kv.
Proof.
  intros Hs Hnd Hin Hidx Huniq. apply list_elem_of_split in Hin as (l1 & l2 & ->).
  apply NoDup_app in Hnd as (_ & _ & [Hnin _]%NoDup_cons).
  rewrite foldl_app. cbn [foldl]. rewrite load_fold_other; [|lia|].
  - unfold load_step at 1. rewrite Hidx. unfold arr_get, arr_set.
    apply list_lookup_total_correct, list_lookup_insert_eq.
    rewrite length_load_fold. lia.
  - intros kv' Hk Hi. apply Hnin. rewrite <- (Huniq kv'); [done|set_solver|done].
Qed.

(** A loader returns, in every slot, the record the store has for the shard. *)
Lemma load_spec {A} `{Inhabited A} (f : KeyValue -> A) (zero : A) (v : View) (prefix : string) (s : Z) :
  view_wf v -> canonical v prefix -> s ∈ shards ->
  arr_get (foldl (load_step (ownershipBase prefix) f) (arr_zero zero)
             (range_prefix v (ownershipBase prefix))) s
  = from_option f zero (ownership v prefix s).
Proof.
  intros Hwf Hcan Hs. unfold ownership. apply elem_of_shards in Hs as Hs'.
  assert (Hidx : forall kv, kv ∈ range_prefix v (ownershipBase prefix) ->
    shard_index (ownershipBase prefix) kv = Some s <-> Key kv = shardKey prefix s).
  { intros kv [Hkv Hp]%range_prefix_elem; [|done]. by eapply shard_index_canonical. }
  destruct (kvs v !! shardKey prefix s) as [kv|] eqn:Ekv; cbn [from_option].
  - assert (Key kv = shardKey prefix s) as Hk by (by eapply wf_key).
    assert (kv ∈ range_prefix v (ownershipBase prefix)) as Hin.
    { apply range_prefix_elem; [done|]. rewrite Hk. split; [done|].
      rewrite shardKey_base by done. apply strings.HasPrefix_append. }
    apply load_fold_elem; [| |done|by apply Hidx|].
    + unfold arr_zero. rewrite length_replicate. unfold ShardCount in *. lia.
    + eapply NoDup_fmap_1, range_prefix_NoDup, Hwf.
    + intros kv' Hin' Hi. apply Hidx in Hi; [|done].
      apply range_prefix_elem in Hin' as [Hl _]; [|done]. rewrite Hi in Hl. congruence.
  - rewrite load_fold_other; [by apply arr_get_zero|lia|].
    intros kv Hin Hi. apply Hidx in Hi; [|done].
    apply range_prefix_elem in Hin as [Hl _]; [|done]. rewrite Hi in Hl. congruence.
Qed.

Lemma load_owner_info (v : View) (prefix : string) (s : Z) :
  view_wf v -> canonical v prefix -> s ∈ shards ->
  arr_get (foldl (load_step (ownershipBase prefix)
      (fun kv => mkOwnerInfo (Value kv) (ModRevision kv) (KvLease kv)))
      (arr_zero (mkOwnerInfo "" 0 0)) (range_prefix v (ownershipBase prefix))) s
  = owner_info v prefix s.
Proof.
  intros. rewrite load_spec by done. unfold owner_info. by destruct (ownership v prefix s).
Qed.

(** ** What the transactions do, whatever they reply *)

(** A claim writes the key if it is absent and the lease is live; otherwise it
    changes nothing. *)
Lemma claim_allowed (v v' : View) (key n : string) (l : LeaseID) x :
  view_wf v -> etcd_allowed _ v (Txn (CmpCreateRevision key 0) (OpPut key n l)) x v' ->
  (kvs v !! key = None /\ lease_live v l = true /\ v' = put_kv v key n l /\
     (x = Ok (mkTxnResponse true (rev v + 1)) \/ exists e, x = Err e)) \/
  (v' = v /\ ((x = Ok (mkTxnResponse false (rev v)) /\ is_Some (kvs v !! key)) \/
               exists e, x = Err e)).
Proof.
  intros Hwf Ha.
  assert (Hc : forall y, etcd_commit v (Txn (CmpCreateRevision key 0) (OpPut key n l)) y v' ->
    (kvs v !! key = None /\ lease_live v l = true /\ v' = put_kv v key n l /\
     y = Ok (mkTxnResponse true (rev v + 1))) \/
    (v' = v /\ ((y = Ok (mkTxnResponse false (rev v)) /\ is_Some (kvs v !! key)) \/
                 exists e, y = Err e))).
  { intros y. cbn. destruct (kvs v !! key) as [kv|] eqn:Ek.
    - apply wf_mod in Ek as Hm; [|done].
      destruct (Z.eqb_spec (CreateRevision kv) 0); [lia|]. intros [-> ->]. right. eauto.
    - cbn. destruct (lease_live v l); intros [-> ->]; [left|right]; eauto. }
  destruct Ha as [Ha|(err & -> & [->|[y Ha]])]; [..|]; cbn.
  - apply Hc in Ha as [?|?]; [left|right]; naive_solver.
  - right. eauto.
  - apply Hc in Ha as [?|?]; [left|right]; naive_solver.
Qed.

(** A release deletes the key if [n] is its value; otherwise it changes
    nothing. *)
Lemma release_allowed (v v' : View) (key n : string) x :
  etcd_allowed _ v (Txn (CmpValue key n) (OpDelete key)) x v' ->
  (exists kv, kvs v !! key = Some kv /\ Value kv = n /\ v' = delete_kv v key) \/
  (v' = v /\ ((exists r, x = Ok (mkTxnResponse false r) /\
                  forall kv, kvs v !! key = Some kv -> Value kv <> n) \/
               exists e, x = Err e)).
Proof.
  intros Ha.
  assert (Hc : forall y, etcd_commit v (Txn (CmpValue key n) (OpDelete key)) y v' ->
    (exists kv, kvs v !! key = Some kv /\ Value kv = n /\ v' = delete_kv v key) \/
    (v' = v /\ exists r, y = Ok (mkTxnResponse false r) /\
       forall kv, kvs v !! key = Some kv -> Value kv <> n)).
  { intros y. cbn. destruct (kvs v !! key) as [kv|] eqn:Ek.
    - destruct (String.eqb_spec (Value kv) n); intros [-> ->]; [left; eauto|right].
      split; [done|]. eexists. split; [done|]. naive_solver.
    - intros [-> ->]. right. split; [done|]. eexists. split; [done|]. naive_solver. }
  destruct Ha as [Ha|(err & -> & [->|[y Ha]])]; cbn.
  - apply Hc in Ha. naive_solver.
  - right. eauto.
  - apply Hc in Ha as [?|[? _]]; [left|right]; eauto.
Qed.

(** A re-binding rewrites the key under the new lease if [n] is its value;
    otherwise it changes nothing. *)
Lemma rebind_allowed (v v' : View) (key n : string) (l : LeaseID) x :
  etcd_allowed _ v (Txn (CmpValue key n) (OpPut key n l)) x v' ->
  (exists kv, kvs v !! key = Some kv /\ Value kv = n /\ lease_live v l = true /\
     v' = put_kv v key n l /\
     (x = Ok (mkTxnResponse true (rev v + 1)) \/ exists e, x = Err e)) \/
  (v' = v /\ ((exists r, x = Ok (mkTxnResponse false r) /\
                  forall kv, kvs v !! key = Some kv -> Value kv <> n) \/
               exists e, x = Err e)).
Proof.
  intros Ha.
  assert (Hc : forall y, etcd_commit v (Txn (CmpValue key n) (OpPut key n l)) y v' ->
    (exists kv, kvs v !! key = Some kv /\ Value kv = n /\ lease_live v l = true /\
       v' = put_kv v key n l /\ y = Ok (mkTxnResponse true (rev v + 1))) \/
    (v' = v /\ ((exists r, y = Ok (mkTxnResponse false r) /\
       forall kv, kvs v !! key = Some kv -> Value kv <> n) \/ exists e, y = Err e))).
  { intros y. cbn. destruct (kvs v !! key) as [kv|] eqn:Ek.
    - destruct (String.eqb_spec (Value kv) n).
      + destruct (lease_live v l); intros [-> ->]; [left; eauto 10|right; eauto].
      + intros [-> ->]. right. split; [done|]. left. eexists. split; [done|]. naive_solver.
    - intros [-> ->]. right. split; [done|]. left. eexists. split; [done|]. naive_solver. }
  destruct Ha as [Ha|(err & -> & [->|[y Ha]])]; cbn.
  - apply Hc in Ha. naive_solver.
  - right. eauto.
  - apply Hc in Ha as [?|[? _]]; [left; naive_solver|right; eauto].
Qed.

(** Reads change nothing, and what they return without error is in the store. *)
Lemma getprefix_allowed (v v' : View) (base : string) x :
  etcd_allowed _ v (GetPrefix base) x v' ->
  v' = v /\ (x = Ok (range_prefix v base) \/ exists e, x = Err e).
Proof.
  intros [[-> ->]|(err & -> & [->|[y [_ ->]]])]; cbn; eauto.
Qed.

Lemma get_allowed (v v' : View) (key : string) x :
  etcd_allowed _ v (Get key) x v' ->
  v' = v /\ (x = Ok (option_list (kvs v !! key)) \/ exists e, x = Err e).
Proof.
  intros [[-> ->]|(err & -> & [->|[y [_ ->]]])]; cbn; eauto.
Qed.

Lemma put_kv_ownership (v : View) (prefix key n : string) (l : LeaseID) (s : Z) :
  ownership (put_kv v key n l) prefix s
  = if decide (key = shardKey prefix s)
    then Some (mkKV key n (from_option CreateRevision (rev v + 1)%Z (kvs v !! key)) (rev v + 1) l)
    else ownership v prefix s.
Proof.
  unfold ownership, put_kv. cbn. rewrite lookup_insert. case_decide; [|done].
  by destruct (kvs v !! key).
Qed.

(** ** Properties *)

Section ownership_properties.
Context {D : Etcd}.

(** C8: A claim is a compare-and-swap.  It takes effect only when the shard is
    unowned and the lease is live; then the shard is recorded for the claimant under
    that lease, and the term is the key's revision, above every revision before it.
    Answered without error it reports success exactly when the shard was unowned,
    and the claim has then taken effect at the reported term; reporting that the
    shard is taken, it has changed nothing.  If it fails, either nothing changed or
    the claim took effect.  No other key is touched in any case. *)
Theorem claim_shard_cas (s s' : St) (prefix : string) (shard : Z) (n : string) (l : LeaseID) r :
  view_wf (view s) ->
  exec etcd_do eq s (ClaimShard prefix shard n l) r s' ->
  let taken_effect (term : Z) :=
    ownership (view s) prefix shard = None /\ lease_live (view s) l = true /\
    ownership (view s') prefix shard = Some (mkKV (shardKey prefix shard) n term term l) /\
    (rev (view s) < term)%Z in
  match r with
  | Ok (true, term) => taken_effect term
  | Ok (false, t) => t = 0%Z /\ view s' = view s /\ is_Some (ownership (view s) prefix shard)
  | Err _ => view s' = view s \/ taken_effect (rev (view s'))
  end /\
  (forall b t, r = Ok (b, t) -> b = true <-> ownership (view s) prefix shard = None) /\
  (forall k, k <> shardKey prefix shard -> kvs (view s') !! k = kvs (view s) !! k).
Proof.
  intros Hwf (s1 & x & s2 & <- & Hdo & -> & <-). apply etcd_documented in Hdo.
  apply claim_allowed in Hdo; [|done]. cbn zeta.
  destruct Hdo as [(Hn & Hl & -> & Hx)|(-> & Hx)].
  - assert (ownership (put_kv (view s) (shardKey prefix shard) n l) prefix shard
      = Some (mkKV (shardKey prefix shard) n (rev (view s) + 1) (rev (view s) + 1) l)) as Ho.
    { rewrite put_kv_ownership, decide_True, Hn by done. done. }
    split; [|split; [|intros k Hk; cbn; by rewrite lookup_insert_ne]].
    + destruct Hx as [->|[e ->]]; cbn [negb Succeeded Revision].
      * split_and!; [done|done|done|lia].
      * right. cbn [rev put_kv]. split_and!; [done|done|done|lia].
    + intros b t. destruct Hx as [->|[e ->]]; [|done]. by intros [= <- _].
  - split; [|split; [|done]].
    + destruct Hx as [[-> ?]|[e ->]]; cbn; auto.
    + intros b t. destruct Hx as [[-> [kv Hkv]]|[e ->]]; [|done]. intros [= <- _].
      split; [done|]. unfold ownership. congruence.
Qed.

(** C28: A release never takes a shard away from another node: whatever it
    replies, keys with another value and all other keys are as before; and after a
    release without error the node does not own the shard. *)
Theorem release_shard_own_only (s s' : St) (prefix : string) (shard : Z) (n : string) r :
  exec etcd_do eq s (ReleaseShard prefix shard n) r s' ->
  (forall k kv, kvs (view s) !! k = Some kv ->
     (k <> shardKey prefix shard \/ Value kv <> n) -> kvs (view s') !! k = Some kv) /\
  (forall k, kvs (view s) !! k = None -> kvs (view s') !! k = None) /\
  (r = None -> forall kv, ownership (view s') prefix shard = Some kv -> Value kv <> n).
Proof.
  intros (s1 & x & s2 & <- & Hdo & -> & <-). apply etcd_documented, release_allowed in Hdo.
  unfold ownership. destruct Hdo as [(kv & Hkv & Hv & ->)|(-> & Hx)].
  - split_and!; intros *; rewrite delete_kv_lookup; case_decide; naive_solver.
  - split_and!; [done|done|]. destruct Hx as [(r & -> & Hne)|[e ->]]; [|done].
    intros _. apply Hne.
Qed.

(** C29: Re-binding keeps the owner: it succeeds only on a key the node owns,
    moves that key to the given lease at a fresh term, keeps its creation
    revision, and otherwise leaves the store alone. *)
Theorem rebind_shard_keeps_owner (s s' : St) (prefix : string) (shard : Z) (n : string) (l : LeaseID) r :
  exec etcd_do eq s (RebindShard prefix shard n l) r s' ->
  let rebound (term : Z) :=
    exists kv, ownership (view s) prefix shard = Some kv /\ Value kv = n /\
      ownership (view s') prefix shard
        = Some (mkKV (shardKey prefix shard) n (CreateRevision kv) term l) /\
      (rev (view s) < term)%Z in
  match r with
  | Ok (true, term) => rebound term
  | Ok (false, _) => view s' = view s /\
      forall kv, ownership (view s) prefix shard = Some kv -> Value kv <> n
  | Err _ => view s' = view s \/ rebound (rev (view s'))
  end /\
  (forall k, k <> shardKey prefix shard -> kvs (view s') !! k = kvs (view s) !! k).
Proof.
  intros (s1 & x & s2 & <- & Hdo & -> & <-). apply etcd_documented, rebind_allowed in Hdo.
  cbn zeta. destruct Hdo as [(kv & Hkv & Hv & _ & -> & Hx)|(-> & Hx)].
  - assert (ownership (put_kv (view s) (shardKey prefix shard) n l) prefix shard
      = Some (mkKV (shardKey prefix shard) n (CreateRevision kv) (rev (view s) + 1) l)) as Ho.
    { rewrite put_kv_ownership, decide_True, Hkv by done. done. }
    split; [|intros k Hk; cbn; by rewrite lookup_insert_ne].
    destruct Hx as [->|[e ->]]; cbn [negb Succeeded Revision].
    + exists kv. split_and!; [done|done|done|lia].
    + right. cbn [rev put_kv]. exists kv. split_and!; [done|done|done|lia].
  - split; [|done]. destruct Hx as [(r & -> & ?)|[e ->]]; cbn; auto.
Qed.

(** C30: The loaders and the point lookup agree with the store: on a store whose
    ownership keys are spelled canonically, a load without error returns in every
    slot the shard's owner, term and lease, the zero value for unowned shards; and
    none of them changes the store. *)
Theorem loaders_read_back (s s' : St) (prefix : string) :
  view_wf (view s) -> canonical (view s) prefix ->
  (forall om, exec etcd_do eq s (LoadOwnershipMap prefix) (Ok om) s' ->
     view s' = view s /\
     forall shard, shard ∈ shards -> arr_get om shard = owner_info (view s) prefix shard) /\
  (forall sm, exec etcd_do eq s (LoadShardMap prefix) (Ok sm) s' ->
     view s' = view s /\
     forall shard, shard ∈ shards -> arr_get sm shard = Owner (owner_info (view s) prefix shard)) /\
  (forall shard owner found, exec etcd_do eq s (ShardOwner prefix shard) (Ok (owner, found)) s' ->
     view s' = view s /\ owner = Owner (owner_info (view s) prefix shard) /\
     (found = true <-> is_Some (ownership (view s) prefix shard))).
Proof.
  intros Hwf Hcan. split_and!.
  - intros om (s1 & x & s2 & <- & Hdo & Hr & <-).
    apply etcd_documented, getprefix_allowed in Hdo as [-> [->|[e ->]]]; [|done].
    simplify_eq. split; [done|]. intros. by apply load_owner_info.
  - intros sm (s1 & x & s2 & <- & Hdo & Hr & <-).
    apply etcd_documented, getprefix_allowed in Hdo as [-> [->|[e ->]]]; [|done].
    simplify_eq. split; [done|]. intros. rewrite load_spec by done.
    unfold owner_info. by destruct (ownership (view s) prefix shard).
  - intros shard owner found (s1 & x & s2 & <- & Hdo & Hr & <-).
    apply etcd_documented, get_allowed in Hdo as [-> [->|[e ->]]]; [|done].
    split; [done|]. unfold owner_info, ownership.
    destruct (kvs (view s) !! shardKey prefix shard) as [kv|]; cbn in Hr; simplify_eq/=.
    + naive_solver.
    + split; [done|]. split; [done|]. by intros [? ?].
Qed.

(** C9: Terms fence stale owners: of two successful claims of a shard, by
    whichever nodes and with anything happening in between, the later one has the
    strictly higher term. *)
Theorem claim_terms_increase (s1 s1' s2 s2' : St) (prefix : string) (shard : Z)
    (n1 n2 : string) (l1 l2 : LeaseID) (t1 t2 : Z) :
  view_wf (view s1) ->
  exec etcd_do eq s1 (ClaimShard prefix shard n1 l1) (Ok (true, t1)) s1' ->
  rtc view_step (view s1') (view s2) ->
  exec etcd_do eq s2 (ClaimShard prefix shard n2 l2) (Ok (true, t2)) s2' ->
  (0 < t1 < t2)%Z.
Proof.
  intros Hwf Hc1 Hmid Hc2.
  destruct Hc1 as (? & x & ? & <- & Hd1 & Hr1 & <-). apply etcd_documented in Hd1 as Ha1.
  assert (view_wf (view s2)) as Hwf2 by eauto using view_steps_wf, etcd_allowed_wf.
  destruct Hc2 as (? & y & ? & <- & Hd2 & Hr2 & <-). apply etcd_documented in Hd2.
  apply claim_allowed in Ha1; [|done]. apply claim_allowed in Hd2; [|done].
  apply view_steps_rev in Hmid. pose proof (wf_rev _ Hwf).
  destruct Ha1 as [(_ & _ & He1 & [->|[e ->]])|(_ & [[-> _]|[e ->]])]; simplify_eq/=.
  destruct Hd2 as [(_ & _ & He2 & [->|[e ->]])|(_ & [[-> _]|[e ->]])]; simplify_eq/=.
  rewrite He1 in Hmid. cbn in Hmid. lia.
Qed.

End ownership_properties.

(** ** Witnesses, on the model instance *)

(** A store with one live lease. *)
Definition view_l1 : View := grant empty_view 10 1.
Definition view_owned : View := put_kv view_l1 (shardKey "catalog" 5) "node-1" 1.

Lemma view_l1_wf : view_wf view_l1.
Proof. apply grant_wf; [apply empty_view_wf | discriminate]. Qed.

Lemma view_owned_wf : view_wf view_owned.
Proof. apply put_kv_wf; [apply view_l1_wf | reflexivity]. Qed.

Lemma view_owned_canonical : canonical view_owned "catalog".
Proof.
  intros k kv t s Hk -> Ha Hs.
  assert (ownershipBase "catalog" +:+ t = shardKey "catalog" 5) as Heq.
  { unfold view_owned, put_kv in Hk. cbn [kvs] in Hk. rewrite lookup_insert in Hk.
    case_decide; [done|]. change (kvs view_l1) with (∅ : gmap string KeyValue) in Hk.
    by rewrite lookup_empty in Hk. }
  rewrite shardKey_base in Heq by (apply elem_of_shards; unfold ShardCount; lia).
  apply append_inj_l in Heq as ->. vm_compute in Ha. injection Ha as <-. reflexivity.
Qed.

Lemma claim_shard_cas_witness :
  ownership view_l1 "catalog" 5 = None /\
  exists kv, ownership view_owned "catalog" 5 = Some kv /\ Value kv = "node-1".
Proof.
  destruct (claim_shard_cas (D := ModelEtcd) view_l1 view_owned "catalog" 5 "node-1" 1 (Ok (true, 2%Z)))
    as [(Hn & _ & Ho & _) _].
  - apply view_l1_wf.
  - eexists _, (Ok (mkTxnResponse true 2)), _. split; [reflexivity|].
    split; [left; split; reflexivity | split; reflexivity].
  - split; [exact Hn | eexists; split; [exact Ho | reflexivity]].
Defined.

Lemma release_shard_own_only_witness :
  ownership view_owned "catalog" 5 = Some (mkKV (shardKey "catalog" 5) "node-1" 2 2 1).
Proof.
  apply (release_shard_own_only (D := ModelEtcd) view_owned view_owned "catalog" 5 "node-2" None).
  - eexists _, (Ok (mkTxnResponse false 2)), _. split; [reflexivity|].
    split; [left; split; reflexivity | split; reflexivity].
  - reflexivity.
  - right. discriminate.
Defined.

Lemma rebind_shard_keeps_owner_witness :
  let v := grant view_owned 10 2 in
  exists kv, ownership v "catalog" 5 = Some kv /\ Value kv = "node-1".
Proof.
  destruct (rebind_shard_keeps_owner (D := ModelEtcd) (grant view_owned 10 2)
    (put_kv (grant view_owned 10 2) (shardKey "catalog" 5) "node-1" 2)
    "catalog" 5 "node-1" 2 (Ok (true, 3%Z))) as [(kv & Hkv & Hv & _) _].
  - eexists _, (Ok (mkTxnResponse true 3)), _. split; [reflexivity|].
    split; [left; split; reflexivity | split; reflexivity].
  - exists kv. split; assumption.
Defined.

Lemma loaders_read_back_witness :
  exists om, exec etcd_allowed eq view_owned (LoadOwnershipMap "catalog") (Ok om) view_owned /\
    arr_get om 5 = mkOwnerInfo "node-1" 2 1.
Proof.
  set (om := foldl (load_step (ownershipBase "catalog")
      (fun kv => mkOwnerInfo (Value kv) (ModRevision kv) (KvLease kv)))
      (arr_zero (mkOwnerInfo "" 0 0)) (range_prefix view_owned (ownershipBase "catalog"))).
  exists om.
  assert (exec etcd_allowed eq view_owned (LoadOwnershipMap "catalog") (Ok om) view_owned) as Hex.
  { eexists _, (Ok (range_prefix view_owned (ownershipBase "catalog"))), _.
    split; [reflexivity|]. split; [left; split; reflexivity|]. split; reflexivity. }
  split; [exact Hex|].
  destruct (loaders_read_back (D := ModelEtcd) view_owned view_owned "catalog"
    view_owned_wf view_owned_canonical) as (Hl & _).
  destruct (Hl _ Hex) as [_ Hget]. rewrite Hget; [reflexivity|].
  apply elem_of_shards. unfold ShardCount. lia.
Defined.

Lemma claim_terms_increase_witness : (0 < 2 < 4)%Z.
Proof.
  apply (claim_terms_increase (D := ModelEtcd) view_l1 view_owned
    (delete_kv view_owned (shardKey "catalog" 5))
    (put_kv (delete_kv view_owned (shardKey "catalog" 5)) (shardKey "catalog" 5) "node-2" 0)
    "catalog" 5 "node-1" "node-2" 1 0).
  - apply view_l1_wf.
  - eexists _, (Ok (mkTxnResponse true 2)), _. split; [reflexivity|].
    split; [left; split; reflexivity | split; reflexivity].
  - apply rtc_once. apply (vs_call _ _ (Txn (CmpValue (shardKey "catalog" 5) "node-1")
      (OpDelete (shardKey "catalog" 5))) (Ok (mkTxnResponse true 3))).
    left. split; reflexivity.
  - eexists _, (Ok (mkTxnResponse true 4)), _. split; [reflexivity|].
    split; [left; split; reflexivity | split; reflexivity].
Defined.
