(* ===== verification/Membership.v ===== *)
(** * Membership: routing/membership.go

    A node is a live member while its lease is.  [JoinMembership] grants the
    lease, writes the member key under it and starts the keepalive goroutine.
    That goroutine races with [Close] and [simulateCrash]: its accesses and theirs
    to the atomics and the channel are the transitions of [mem_local] and
    [mem_step].  [Fresh] is the clock test with which a node fences itself; [life]
    is a run of a membership against the clock. *)

From S2P Require Import Prelude GoStd Prog Etcd Ownership Placement Reconcile.

(** ** The actions of a catalog node *)

(** A node calls etcd, reads its clock, and enters critical sections on the
    state [L] it guards with its mutex. *)
Inductive nodeE (L : Type) : Type -> Type :=
| EtcdCall {X} (e : etcdE X) : nodeE L X
| Now : nodeE L Z
| Crit {X} (f : L -> X * L) : nodeE L X.
Arguments EtcdCall {L X} _.
Arguments Now {L}.
Arguments Crit {L X} _.

(** An etcd program run by a node. *)
Definition etcd {L A} (p : prog etcdE A) : prog (nodeE L) A :=
  hoist (fun X e => EtcdCall e) p.

(** ** The state *)

(** Where the keepalive goroutine is: in its range loop, behind it, between the
    load of [closing] that returned false and [close(lost)], or at its end. *)
Inductive KaPhase : Type := KaRanging | KaEnded | KaSignal | KaDone.

Record Membership : Type := mkMembership {
  mem_prefix : string;
  mem_nodeID : string;
  leaseID : LeaseID;
  lastKeepAlive : Z;       (* unix-nanos of the join or of the last keepalive response *)
  closing : bool;
  lost : bool;             (* the channel [lost] has been closed *)
  ka_phase : KaPhase;      (* the keepalive goroutine *)
  ka_cancelled : bool;     (* [cancelKeepAlive] has been called *)
}.

(** ** The operations *)

Definition Fresh (m : Membership) (window : Z) (now : Z) : bool :=
  let last := lastKeepAlive m in
  if (last =? 0)%Z then false else (time.Since now last <? window)%Z.

Definition membersPrefix (prefix : string) : string :=
  path.Join [prefix; "members"] +:+ "/".

Definition JoinMembership {L} (prefix nodeID : string) (ttlSeconds : Z)
    : prog (nodeE L) (result Membership) :=
  let! lease := call (EtcdCall (Grant ttlSeconds)) in
  match lease with
  | Err err => Ret (Err err)
  | Ok id =>
    let key := membersPrefix prefix +:+ nodeID in
    let! put := call (EtcdCall (Put key "" id)) in
    match put with
    | Err err => let! _ := call (EtcdCall (Revoke id)) in Ret (Err err)
    | Ok _ =>
      let! ka := call (EtcdCall (KeepAlive id)) in
      match ka with
      | Err err => let! _ := call (EtcdCall (Revoke id)) in Ret (Err err)
      | Ok _ =>
        let! t := call Now in
        Ret (Ok (mkMembership prefix nodeID id t false false KaRanging false))
      end
    end
  end.

(** [for range ka { m.lastKeepAlive.Store(now) }]: one response, with the clock
    reading that is stored. *)
Definition ka_response (t : Z) (m : Membership) : Membership :=
  mkMembership (mem_prefix m) (mem_nodeID m) (leaseID m) t (closing m) (lost m)
    (ka_phase m) (ka_cancelled m).

(** The keepalive channel is closed: the goroutine leaves its loop. *)
Definition ka_end (m : Membership) : Membership :=
  mkMembership (mem_prefix m) (mem_nodeID m) (leaseID m) (lastKeepAlive m) (closing m)
    (lost m) KaEnded (ka_cancelled m).

(** [if !m.closing.Load()]. *)
Definition ka_load (m : Membership) : Membership :=
  mkMembership (mem_prefix m) (mem_nodeID m) (leaseID m) (lastKeepAlive m) (closing m)
    (lost m) (if closing m then KaDone else KaSignal) (ka_cancelled m).

(** [close(m.lost)]. *)
Definition ka_signal (m : Membership) : Membership :=
  mkMembership (mem_prefix m) (mem_nodeID m) (leaseID m) (lastKeepAlive m) (closing m)
    true KaDone (ka_cancelled m).

Definition set_closing (m : Membership) : Membership :=
  mkMembership (mem_prefix m) (mem_nodeID m) (leaseID m) (lastKeepAlive m) true (lost m)
    (ka_phase m) (ka_cancelled m).

Definition cancelKeepAlive (m : Membership) : Membership :=
  mkMembership (mem_prefix m) (mem_nodeID m) (leaseID m) (lastKeepAlive m) (closing m) (lost m)
    (ka_phase m) true.

Definition simulateCrash (m : Membership) : Membership := cancelKeepAlive (set_closing m).

(** [Close]: the local part, then the revocation whose error is ignored. *)
Definition Close {L} (m : Membership) : prog (nodeE L) Membership :=
  let m := set_closing m in
  let m := cancelKeepAlive m in
  let! _ := call (EtcdCall (Revoke (leaseID m))) in
  Ret m.

Definition Lost (m : Membership) : bool := lost m.

Definition LeaseID_ (m : Membership) : LeaseID := leaseID m.

Definition ListMembers (prefix : string) : prog etcdE (result (list string)) :=
  let mp := membersPrefix prefix in
  let! resp := call (GetPrefix mp) in
  Ret match resp with
      | Err err => Err err
      | Ok kvs => Ok ((fun kv => strings.TrimPrefix (Key kv) mp) <$> kvs)
      end.

(** The store after a join under lease [id], granted at [t1], when the clock shows
    [t3]. *)
Definition joined (v : View) (prefix nodeID : string) (ttlSeconds : Z) (id : LeaseID) (t1 t3 : Z)
    : View :=
  at_time (put_kv (grant (at_time v t1) ttlSeconds id) (membersPrefix prefix +:+ nodeID) "" id) t3.

(** Accesses to a [Membership] after [JoinMembership] that do not involve the clock:
    the end of the keepalive stream (its context was cancelled, or etcd dropped the
    lease), the last two accesses of the goroutine, and the two of a deliberate
    departure, in their order. *)
Inductive mem_local : Membership -> Membership -> Prop :=
| ms_stream_end m : ka_phase m = KaRanging -> mem_local m (ka_end m)
| ms_load m : ka_phase m = KaEnded -> mem_local m (ka_load m)
| ms_signal m : ka_phase m = KaSignal -> mem_local m (ka_signal m)
| ms_closing m : mem_local m (set_closing m)
| ms_cancel m : closing m = true -> mem_local m (cancelKeepAlive m).

(** All accesses; keepalive responses are recorded while the goroutine ranges. *)
Inductive mem_step : Membership -> Membership -> Prop :=
| ms_local m m' : mem_local m m' -> mem_step m m'
| ms_response m t : ka_phase m = KaRanging -> mem_step m (ka_response t m).

(** A run of a membership against a clock that does not go back, from [m0] at
    [t0]: [life t0 m0 rs t m] is at [m] at time [t], and [rs] are the clock readings
    that were stored for keepalive responses, latest first. *)
Inductive life (t0 : Z) (m0 : Membership) : list Z -> Z -> Membership -> Prop :=
| life_start : life t0 m0 [] t0 m0
| life_tick rs t t' m : life t0 m0 rs t m -> (t <= t')%Z -> life t0 m0 rs t' m
| life_local rs t m m' : life t0 m0 rs t m -> mem_local m m' -> life t0 m0 rs t m'
| life_response rs t m r : life t0 m0 rs t m -> ka_phase m = KaRanging ->
    (lastKeepAlive m <= r <= t)%Z -> life t0 m0 (r :: rs) t (ka_response r m).

(** ** Execution of node programs *)

Section node_semantics.
Context {D : Etcd} {L : Type}.

(** The store and the guarded state of the node; the node's clock is the
    server's. *)
Definition node_step (X : Type) (s : St * L) (e : nodeE L X) : X -> St * L -> Prop :=
  match e in nodeE _ X return X -> St * L -> Prop with
  | EtcdCall e => fun x s' => etcd_do _ s.1 e x s'.1 /\ s'.2 = s.2
  | Now => fun x s' => x = now (view s.1) /\ s' = s
  | Crit f => fun x s' => f s.2 = (x, s'.2) /\ s'.1 = s.1
  end.

End node_semantics.

(** The healthy node, executable. *)
Definition node_handler {L} (X : Type) (e : nodeE L X) (s : View * L) : X * (View * L) :=
  match e in nodeE _ X return X * (View * L) with
  | EtcdCall e => let '(x, v') := etcd_handler _ e s.1 in (x, (v', s.2))
  | Now => (now s.1, s)
  | Crit f => let '(x, l') := f s.2 in (x, (s.1, l'))
  end.

Lemma run_etcd {L A} (p : prog etcdE A) (v : View) (g : L) :
  run node_handler (etcd p) (v, g) = let '(a, v') := run etcd_handler p v in (a, (v', g)).
Proof.
  revert v. induction p as [a|X e k IH]; intros v; cbn; [done|].
  destruct (etcd_handler X e v) as [x v']. apply IH.
Qed.

(** ** Keys *)

(** Member keys and ownership keys never coincide. *)
Lemma member_key_not_shardKey (prefix n : string) (s : Z) :
  s ∈ shards -> membersPrefix prefix +:+ n <> shardKey prefix s.
Proof.
  intros Hs. rewrite shardKey_base by done. destruct (path.Join_prefix prefix) as [X HX].
  unfold membersPrefix, ownershipBase. rewrite !HX; try discriminate.
  - rewrite !append_assoc. intros Heq%append_inj_l. discriminate.
  - apply ownership_segments.
  - repeat constructor; try discriminate. apply (bool_decide_unpack _). vm_compute. exact I.
Qed.

Lemma member_key_not_ownership (prefix n t : string) :
  membersPrefix prefix +:+ n <> ownershipBase prefix +:+ t.
Proof.
  destruct (path.Join_prefix prefix) as [X HX].
  unfold membersPrefix, ownershipBase. rewrite !HX; try discriminate.
  - rewrite !append_assoc. intros Heq%append_inj_l. discriminate.
  - apply ownership_segments.
  - repeat constructor; try discriminate. apply (bool_decide_unpack _). vm_compute. exact I.
Qed.

Lemma joined_ownership (v : View) (prefix n : string) (ttl : Z) (id : LeaseID) (t1 t3 s : Z) :
  s ∈ shards -> ownership (joined v prefix n ttl id t1 t3) prefix s = ownership v prefix s.
Proof.
  intros Hs. unfold joined, ownership, at_time. cbn [kvs put_kv grant].
  rewrite lookup_insert_ne; [done|]. by apply member_key_not_shardKey.
Qed.

Lemma joined_canonical (v : View) (prefix n : string) (ttl : Z) (id : LeaseID) (t1 t3 : Z) :
  canonical v prefix -> canonical (joined v prefix n ttl id t1 t3) prefix.
Proof.
  intros Hc k kv t s Hk Hkt. cbn in Hk. rewrite lookup_insert in Hk.
  case_decide as Hd; [|by eapply Hc]. subst. by apply member_key_not_ownership in Hkt.
Qed.

Lemma at_time_wf (v : View) (t : Z) : view_wf v -> view_wf (at_time v t).
Proof. intros []. by split. Qed.

Lemma joined_wf (v : View) (prefix n : string) (ttl : Z) (id : LeaseID) (t1 t3 : Z) :
  view_wf v -> id <> NoLease -> view_wf (joined v prefix n ttl id t1 t3).
Proof.
  intros Hwf Hid. apply at_time_wf, put_kv_wf.
  - apply grant_wf; [by apply at_time_wf|done].
  - apply lease_live_true. right. cbn. rewrite lookup_insert_eq. eauto.
Qed.

#[export] Hint Resolve at_time_wf joined_wf joined_canonical : catalog.

(** The members a store records, in key order. *)
Definition members_of (v : View) (prefix : string) : list string :=
  (fun kv => strings.TrimPrefix (Key kv) (membersPrefix prefix))
    <$> range_prefix v (membersPrefix prefix).

Lemma members_of_elem (v : View) (prefix n : string) :
  view_wf v -> n ∈ members_of v prefix <-> is_Some (kvs v !! (membersPrefix prefix +:+ n)).
Proof.
  intros Hwf. unfold members_of. rewrite list_elem_of_fmap. split.
  - intros (kv & -> & [Hkv [t Ht]%strings.HasPrefix_spec]%range_prefix_elem); [|done].
    rewrite Ht, strings.TrimPrefix_append, <- Ht. eauto.
  - intros [kv Hkv]. apply wf_key in Hkv as Hk; [|done]. exists kv.
    rewrite Hk, strings.TrimPrefix_append. split; [done|].
    apply range_prefix_elem; [done|]. rewrite Hk. split; [done|].
    apply strings.HasPrefix_append.
Qed.

Lemma members_of_NoDup (v : View) (prefix : string) :
  view_wf v -> NoDup (members_of v prefix).
Proof.
  intros Hwf. pose proof (range_prefix_NoDup v (membersPrefix prefix) Hwf) as Hnd.
  unfold members_of.
  assert (Hr : Forall (fun kv => exists t, Key kv = membersPrefix prefix +:+ t)
                 (range_prefix v (membersPrefix prefix))).
  { apply Forall_forall. intros kv [_ Hp]%range_prefix_elem; [|done].
    by apply strings.HasPrefix_spec. }
  induction Hr as [|kv l [t Ht] Hl IH]; cbn in *; [constructor|].
  apply NoDup_cons in Hnd as [Hn Hnd]. apply NoDup_cons. split; [|by apply IH].
  rewrite Ht, strings.TrimPrefix_append. intros (kv' & -> & Hin)%list_elem_of_fmap.
  rewrite Forall_forall in Hl. destruct (Hl kv' Hin) as [t' Ht'].
  apply Hn. apply list_elem_of_fmap. exists kv'. split; [|done].
  by rewrite Ht, Ht', strings.TrimPrefix_append.
Qed.

(** ** Lemmas on the transitions *)

(** The goroutine and the channel: [lost] is closed only by the goroutine's last
    access, which it has still to make when it is at [KaSignal]. *)
Definition goroutine_ok (m : Membership) : Prop :=
  match ka_phase m with KaDone => True | _ => lost m = false end.

Lemma mem_step_goroutine (m m' : Membership) : mem_step m m' -> goroutine_ok m -> goroutine_ok m'.
Proof.
  unfold goroutine_ok. intros [m1 m2 Hs|m1 t Hp]; [|done].
  destruct Hs as [m1 Hp|m1 Hp|m1 Hp|m1|m1 Hc]; cbn; rewrite ?Hp; try done. by destruct (closing m1).
Qed.

(** A departure that begins before the goroutine has looked is never reported. *)
Definition silenced (m : Membership) : Prop :=
  closing m = true /\ ka_phase m <> KaSignal /\ lost m = false.

Lemma mem_step_silenced (m m' : Membership) : mem_step m m' -> silenced m -> silenced m'.
Proof.
  intros Hs (Hc & Hk & Hl). destruct Hs as [m1 m2 Hs|m1 t Hp]; [|done].
  destruct Hs as [m1 Hp|m1 Hp|m1 Hp|m1|m1 _]; unfold silenced; cbn; rewrite ?Hc; done.
Qed.

Lemma mem_steps_ind (J : Membership -> Prop) (m m' : Membership) :
  (forall a b, mem_step a b -> J a -> J b) -> rtc mem_step m m' -> J m -> J m'.
Proof. intros HJ. induction 1 as [|a b c Hs _ IH]; eauto. Qed.

(** The record is the last stored reading, and no reading is in the future. *)
Lemma life_last (t0 : Z) (m0 : Membership) rs t m :
  life t0 m0 rs t m -> (lastKeepAlive m0 <= t0)%Z ->
  lastKeepAlive m = default (lastKeepAlive m0) (head rs) /\
  (lastKeepAlive m0 <= lastKeepAlive m <= t)%Z /\ (t0 <= t)%Z.
Proof.
  intros Hl H0. induction Hl as [|rs t t' m _ IH Ht|rs t m m' _ IH Hs|rs t m r _ IH Hp Hr]; cbn;
    [lia|destruct IH; split; [done|lia]| |lia].
  by destruct Hs.
Qed.

(** Outside its loop the goroutine stores nothing any more. *)
Lemma life_silent (t0 : Z) (m0 : Membership) rs t m :
  life t0 m0 rs t m -> ka_phase m0 <> KaRanging ->
  ka_phase m <> KaRanging /\ lastKeepAlive m = lastKeepAlive m0.
Proof.
  intros Hl H0. induction Hl as [|rs t t' m _ IH Ht|rs t m m' _ IH Hs|rs t m r _ IH Hp Hr]; [done|done| |].
  - destruct IH as [Hk Hl]. destruct Hs as [m Hp|m Hp|m Hp|m|m Hc]; cbn; split; try done.
    by destruct (closing m).
  - by destruct IH.
Qed.

Lemma revoke_allowed (v v' : View) (l : LeaseID) x :
  etcd_allowed _ v (Revoke l) x v' -> v' = v \/ v' = drop_lease v l.
Proof.
  intros [Ha|(err & -> & [->|[y Ha]])]; [|by left|]; cbn in Ha; case_decide; naive_solver.
Qed.

Lemma put_allowed (v v' : View) (key val : string) (l : LeaseID) x :
  etcd_allowed _ v (Put key val l) x v' ->
  (v' = put_kv v key val l /\ lease_live v l = true) \/ (v' = v /\ exists e, x = Err e).
Proof.
  intros [Ha|(err & -> & [->|[y Ha]])]; cbn in *; [| by eauto |];
    destruct (lease_live v l); naive_solver.
Qed.

Lemma grant_allowed (v v' : View) (ttl : Z) x :
  etcd_allowed _ v (Grant ttl) x v' ->
  (exists id, id <> NoLease /\ id ∉ granted v /\ v' = grant v ttl id /\
     (x = Ok id \/ exists e, x = Err e)) \/
  (v' = v /\ exists e, x = Err e).
Proof.
  intros [(id & ? & ? & -> & ->)|(err & -> & [->|[y (id & ? & ? & -> & ->)]])]; cbn;
    naive_solver.
Qed.

Lemma keepalive_allowed (v v' : View) (l : LeaseID) x :
  etcd_allowed _ v (KeepAlive l) x v' -> v' = v.
Proof. intros [[_ ->]|(err & -> & [->|[y [_ ->]]])]; done. Qed.

(** ** Properties *)

(** C24: Self-fencing.  In every run of a membership that was joined at [t0] against a
    clock that does not go back, the node is fresh exactly while less than the window
    has passed since the last keepalive reading it stored (since the join when there
    is none); and once the keepalive stream has ended, the node is never fresh again
    from one window after that moment on, whatever happens later. *)
Theorem self_fencing (prefix n : string) (l t0 w : Z) rs t m :
  (0 < t0)%Z -> (w <= max_int64)%Z ->
  life t0 (mkMembership prefix n l t0 false false KaRanging false) rs t m ->
  (Fresh m w t = true <-> (t - default t0 (head rs) < w)%Z) /\
  (ka_phase m <> KaRanging -> forall rs' t' m', life t m rs' t' m' -> (t + w <= t')%Z ->
     Fresh m' w t' = false).
Proof.
  intros Ht0 Hw Hl. apply life_last in Hl as (Hlast & Hle & _); [|done]. cbn in Hlast, Hle.
  split.
  - unfold Fresh, time.Since. rewrite (proj2 (Z.eqb_neq _ _)), Z.ltb_lt by lia.
    rewrite <- Hlast. split; [by apply clamp64_lt|]. unfold clamp64, min_int64 in *. lia.
  - intros Hk rs' t' m' Hl' Ht'. apply life_silent in Hl' as [_ Heq]; [|done].
    unfold Fresh, time.Since. rewrite Heq. destruct (lastKeepAlive m =? 0)%Z; [done|].
    apply Z.ltb_ge. unfold clamp64, min_int64, max_int64 in *. lia.
Qed.

Lemma self_fencing_witness :
  let m0 := mkMembership "c" "n" 1 100 false false KaRanging false in
  Fresh (ka_response 130 m0) 50 150 = true /\ Fresh (ka_end (ka_response 130 m0)) 50 200 = false.
Proof.
  intros m0.
  assert (Hr : life 100 m0 [130]%Z 150 (ka_response 130 m0)).
  { apply life_response; [|reflexivity|cbn; lia]. eapply life_tick; [apply life_start|lia]. }
  split.
  - apply (self_fencing "c" "n" 1 100 50 [130]%Z 150); [lia|unfold max_int64; lia|exact Hr|cbn; lia].
  - apply (self_fencing "c" "n" 1 100 50 [130]%Z 150 (ka_end (ka_response 130 m0)))
      with (rs' := []); [lia|unfold max_int64; lia| |discriminate| |cbn; lia].
    + eapply life_local; [exact Hr|]. by apply ms_stream_end.
    + eapply life_tick; [apply life_start|lia].
Defined.

(** C26: The loss report.  Whatever the interleaving of the keepalive goroutine with
    departures, the channel is not yet closed when the goroutine gets to close it, so
    it is closed at most once and that close never panics; a goroutine that finds no
    departure under way goes on to report the loss; and a departure that has stored
    [closing] before the goroutine looks is never reported. *)
Theorem membership_lost_only_involuntary (prefix n : string) (l t : Z) (m : Membership) :
  rtc mem_step (mkMembership prefix n l t false false KaRanging false) m ->
  (ka_phase m = KaSignal -> lost m = false /\ lost (ka_signal m) = true) /\
  (ka_phase m = KaEnded -> closing m = false -> ka_phase (ka_load m) = KaSignal) /\
  (lost m = true -> ka_phase m = KaDone) /\
  (closing m = true -> ka_phase m <> KaSignal -> lost m = false ->
     forall m', rtc mem_step m m' -> lost m' = false).
Proof.
  intros Hm. assert (goroutine_ok m) as Hok.
  { eapply mem_steps_ind; [apply mem_step_goroutine|done|done]. }
  unfold goroutine_ok in Hok. split_and!.
  - intros Hk. by rewrite Hk in Hok.
  - intros _ Hc. cbn. by rewrite Hc.
  - intros Hl. destruct (ka_phase m); congruence.
  - intros Hc Hk Hl m' Hm'. by eapply (mem_steps_ind silenced m m' mem_step_silenced).
Qed.

Lemma membership_lost_only_involuntary_witness :
  lost (ka_load (ka_end (simulateCrash (mkMembership "c" "n" 1 100 false false KaRanging false)))) = false.
Proof.
  destruct (membership_lost_only_involuntary "c" "n" 1 100
    (simulateCrash (mkMembership "c" "n" 1 100 false false KaRanging false))) as (_ & _ & _ & Hl).
  - eapply rtc_l; [apply ms_local, ms_closing|]. apply rtc_once. by apply ms_local, ms_cancel.
  - apply Hl; [reflexivity|discriminate|reflexivity|].
    eapply rtc_l; [by apply ms_local, ms_stream_end|]. apply rtc_once. by apply ms_local, ms_load.
Defined.

Section membership_properties.
Context {D : Etcd} {L : Type}.

(** Interference that lets the clock run. *)
Definition ticks (s s' : St * L) : Prop :=
  s'.2 = s.2 /\ exists t, (now (view s.1) <= t)%Z /\ view s'.1 = at_time (view s.1) t.

Lemma join_ok_view (s s' : St) (g g' : L) (prefix n : string) (ttl : Z) (m : Membership) :
  exec node_step ticks (s, g) (JoinMembership prefix n ttl) (Ok m) (s', g') ->
  exists id t1 t2 t3, id <> NoLease /\ id ∉ granted (view s) /\
    (now (view s) <= t1 <= t2)%Z /\ (t2 <= t3)%Z /\
    view s' = joined (view s) prefix n ttl id t1 t3 /\
    m = mkMembership prefix n id t2 false false KaRanging false.
Proof.
  intros ([s1 g1] & x & [s2 g2] & (_ & t1 & Ht1 & Hv1) & [Hd _] & Hex). cbn in Ht1, Hv1, Hd.
  apply etcd_documented, grant_allowed in Hd.
  destruct x as [id0|e]; [|by destruct Hex].
  destruct Hd as [(id & Hid & Hfr & Hv2 & [[= <-]|[? ?]])|(_ & ? & ?)]; [|done|done].
  destruct Hex as ([s3 g3] & y & [s4 g4] & (_ & u2 & Hu2 & Hv3) & [Hd _] & Hex). cbn in Hu2, Hv3, Hd.
  apply etcd_documented, put_allowed in Hd.
  destruct y as [[]|err]; [|by destruct Hex as (? & ? & ? & _ & _ & ? & _)].
  destruct Hd as [[Hv4 _]|[_ [e ?]]]; [|done].
  destruct Hex as ([s5 g5] & z & [s6 g6] & (_ & u3 & Hu3 & Hv5) & [Hk _] & Hex). cbn in Hu3, Hv5, Hk.
  apply etcd_documented, keepalive_allowed in Hk.
  destruct z as [[]|err]; [|by destruct Hex as (? & ? & ? & _ & _ & ? & _)].
  destruct Hex as ([s7 g7] & t & [s8 g8] & (_ & t2 & Ht2 & Hv7) & [-> [= -> ->]] & Hm &
    (_ & t3 & Ht3 & Hv9)). cbn in Ht2, Hv7, Ht3, Hv9, Hm.
  exists id0, t1, t2, t3. rewrite Hv1, Hv2, Hv3, Hv4, Hv5, Hk, Hv7, Hv9 in *. cbn in *.
  by split_and!; [|  |lia|lia|lia| |injection Hm as ->].
Qed.

(** An etcd whose answers about leases are definite: a grant that fails has granted
    nothing, and a revocation is executed.  Every other call may still fail before or
    after taking effect. *)
Definition definite_step (X : Type) (s : St * L) (e : nodeE L X) (x : X) (s' : St * L) : Prop :=
  node_step X s e x s' /\
  match e in nodeE _ X return X -> Prop with
  | EtcdCall e => match e in etcdE X return X -> Prop with
    | Grant ttlSeconds => fun x => etcd_commit (view s.1) (Grant ttlSeconds) x (view s'.1) \/
        view s'.1 = view s.1 /\ exists err, x = Err err
    | Revoke id => fun x => etcd_commit (view s.1) (Revoke id) x (view s'.1)
    | _ => fun _ => True
    end
  | _ => fun _ => True
  end x.

(** What a failed join leaves of the store: no lease that was not there, and no key
    that was not there. *)
Definition nothing_left (v v' : View) : Prop :=
  leases v' = leases v /\ forall k kv, kvs v' !! k = Some kv -> kvs v !! k = Some kv.

(** Revoking the lease of the join undoes it, the key written under it included. *)
Lemma revoked_join (s s1 s' : St) (g1 : L) (ttl : Z) (id : LeaseID) (key : string) r err (t1 : Z) g' :
  view_wf (view s) -> id ∉ granted (view s) -> id <> NoLease ->
  (exists t2, view s1 = at_time (grant (at_time (view s) t1) ttl id) t2) \/
  (exists t2 t3, view s1 = at_time (put_kv (at_time (grant (at_time (view s) t1) ttl id) t2) key "" id) t3) ->
  exec definite_step ticks (s1, g1) (Vis (EtcdCall (Revoke id)) (fun _ => Ret (Err err : result Membership))) r (s', g') ->
  nothing_left (view s) (view s').
Proof.
  intros Hwf Hfr Hid Hv1 ([s2 g2] & x & [s3 g3] & (_ & t4 & _ & Hv2) & [_ Hd] & _ & _ & t5 & _ & Hv').
  cbn in Hv2, Hd, Hv'. assert (leases (view s) !! id = None) as Hnone.
  { apply eq_None_not_Some. intros [? _]%(wf_granted _ Hwf). done. }
  assert (leases (view s2) = <[id := mkLease (ttl * time.Second) (t1 + ttl * time.Second)]> (leases (view s)))
    as Hls by (by rewrite Hv2; destruct Hv1 as [(t2 & ->)|(t2 & t3 & ->)]).
  rewrite Hls, lookup_insert_eq, decide_True in Hd by eauto. destruct Hd as [_ Hd].
  rewrite Hv', Hd. split.
  - cbn. by rewrite Hls, delete_insert_id.
  - intros k kv [Hk Hne]%(drop_lease_lookup (view s2) id). rewrite Hv2 in Hk.
    destruct Hv1 as [(t2 & Hv1)|(t2 & t3 & Hv1)]; rewrite Hv1 in Hk; cbn in Hk; [done|].
    rewrite lookup_insert in Hk. case_decide; [|done]. by injection Hk as <-.
Qed.

(** C25: Joining.  With nothing but time passing meanwhile, a successful join leaves
    exactly a new lease and the member key under it, and a membership on that lease
    whose freshness counts from a clock reading taken after the grant.  When etcd is definite
    about leases, a failed join leaves nothing: no lease is leaked and no phantom
    member stays, also when the failed call that stopped it had taken effect. *)
Theorem join_membership_outcome (s s' : St) (g g' : L) (prefix n : string) (ttl : Z) r :
  view_wf (view s) ->
  exec definite_step ticks (s, g) (JoinMembership prefix n ttl) r (s', g') ->
  match r with
  | Ok m => exists id t1 t2 t3, id ∉ granted (view s) /\
      (now (view s) <= t1 <= t2)%Z /\ (t2 <= t3)%Z /\
      view s' = joined (view s) prefix n ttl id t1 t3 /\
      m = mkMembership prefix n id t2 false false KaRanging false
  | Err _ => nothing_left (view s) (view s')
  end.
Proof.
  intros Hwf Hex. destruct r as [m|err].
  { assert (Hn : exec node_step ticks (s, g) (JoinMembership prefix n ttl) (Ok m) (s', g'))
      by (eapply exec_step_mono; [|exact Hex]; by intros X t e x t' [? _]).
    apply join_ok_view in Hn as (id & t1 & t2 & t3 & _ & ?). by exists id, t1, t2, t3. }
  destruct Hex as ([s1 g1] & x & [s2 g2] & (_ & t1 & Ht1 & Hv1) & [_ Hd] & Hex). cbn in Ht1, Hv1, Hd.
  destruct x as [id|e].
  2: { destruct Hd as [(? & _ & _ & [=] & _)|[Hv2 _]]. destruct Hex as (_ & _ & t2 & _ & Hv). cbn in Hv.
       rewrite Hv, Hv2, Hv1. by split. }
  destruct Hd as [(id' & Hid & Hfr & [= <-] & Hv2)|[_ [? [=]]]]. rewrite Hv1 in Hfr, Hv2. cbn in Hfr.
  destruct Hex as ([s3 g3] & y & [s4 g4] & (_ & t2 & _ & Hv3) & [[Hp _] _] & Hex). cbn in Hv3, Hp.
  rewrite Hv2 in Hv3. apply etcd_documented, put_allowed in Hp as [[Hv4 _]|[Hv4 [e ->]]].
  - destruct y as [[]|e].
    + destruct Hex as ([s5 g5] & z & [s6 g6] & (_ & t4 & _ & Hv5) & [[Hk _] _] & Hex). cbn in Hv5, Hk.
      apply etcd_documented, keepalive_allowed in Hk.
      destruct z as [[]|e]; [by destruct Hex as (? & ? & ? & _ & _ & [=] & _)|].
      eapply revoked_join; [exact Hwf|exact Hfr|exact Hid| |exact Hex]. right. exists t2, t4.
      by rewrite Hk, Hv5, Hv4, Hv3.
    + eapply revoked_join; [exact Hwf|exact Hfr|exact Hid| |exact Hex]. right. exists t2, t2.
      by rewrite Hv4, Hv3.
  - eapply (revoked_join _ _ _ _ _ _ "x"); [exact Hwf|exact Hfr|exact Hid| |exact Hex]. left. exists t2.
    by rewrite Hv4, Hv3.
Qed.

(** C27: The member list is exact: listing returns each node registered under the
    prefix once, under the id it registered with, and nothing else; it does not
    change the store. *)
Theorem list_members_exact (s s' : St) (prefix : string) (ms : list string) :
  view_wf (view s) -> exec etcd_do eq s (ListMembers prefix) (Ok ms) s' ->
  view s' = view s /\ NoDup ms /\
  forall n, n ∈ ms <-> is_Some (kvs (view s) !! (membersPrefix prefix +:+ n)).
Proof.
  intros Hwf (s1 & x & s2 & <- & Hdo & Hr & <-).
  apply etcd_documented, getprefix_allowed in Hdo as [-> [->|[e ->]]]; [|done].
  injection Hr as ->. split_and!; [done|by apply members_of_NoDup|].
  intros n. by apply members_of_elem.
Qed.

End membership_properties.

(** The healthy node is an execution of the documented one. *)
Lemma node_handler_step {L} (X : Type) (e : nodeE L X) (s : View * L) :
  node_step (D := ModelEtcd) X s e (node_handler X e s).1 (node_handler X e s).2.
Proof.
  destruct e as [X e| |X f]; cbn.
  - pose proof (etcd_handler_commit X e s.1). destruct (etcd_handler X e s.1). by split; [left|].
  - done.
  - by destruct (f s.2).
Qed.

(** A join whose keepalive cannot be set up: the member key is written and taken
    back with the lease. *)
Lemma join_membership_outcome_witness :
  let v2 := put_kv (grant empty_view 10 1) (membersPrefix "catalog" +:+ "node-1") "" 1 in
  is_Some (kvs v2 !! (membersPrefix "catalog" +:+ "node-1")) /\
  nothing_left empty_view (drop_lease v2 1).
Proof.
  intros v2. split; [eexists; reflexivity|].
  assert (Hrefl : forall v, ticks (D := ModelEtcd) (v, tt) (v, tt)).
  { intros v. split; [reflexivity|]. exists (now v). split; [reflexivity|]. by destruct v. }
  apply (join_membership_outcome (D := ModelEtcd) empty_view (drop_lease v2 1) tt tt "catalog" "node-1" 10
    (Err (Error "grpc" "unavailable"))); [apply empty_view_wf|].
  assert (Hg : etcd_commit empty_view (Grant 10) (Ok 1%Z) (grant empty_view 10 1)).
  { exists 1%Z. split; [discriminate|]. split; [apply not_elem_of_empty|]. split; reflexivity. }
  eexists _, (Ok 1%Z), (_, tt). split; [apply Hrefl|].
  split; [split; [split; [left; exact Hg|reflexivity]|left; exact Hg]|].
  eexists _, (Ok tt), (v2, tt). split; [apply Hrefl|].
  split; [split; [split; [left; split; reflexivity|reflexivity]|exact I]|].
  eexists _, (Err (Error "grpc" "unavailable")), (v2, tt). split; [apply Hrefl|].
  split; [split; [split; [right; eexists; split; [reflexivity|left; reflexivity]|reflexivity]|exact I]|].
  eexists _, (Ok tt), (drop_lease v2 1, tt). split; [apply Hrefl|].
  split; [split; [split; [left; split; reflexivity|reflexivity]|split; reflexivity]|].
  split; [reflexivity|]. apply Hrefl.
Defined.

Lemma list_members_exact_witness :
  "node-1" ∈ (match (run etcd_handler (ListMembers "catalog")
      (run node_handler (JoinMembership "catalog" "node-1" 10) (empty_view, tt)).2.1).1 with
    | Ok ms => ms | Err _ => [] end).
Proof.
  pose (v := (run node_handler (JoinMembership "catalog" "node-1" 10) (empty_view, tt)).2.1).
  destruct (list_members_exact (D := ModelEtcd) v v "catalog" (members_of v "catalog")) as (_ & _ & Hm).
  - change v with (put_kv (grant empty_view 10 1) (membersPrefix "catalog" +:+ "node-1") "" 1).
    apply put_kv_wf; [apply grant_wf; [apply empty_view_wf | discriminate] | reflexivity].
  - eexists _, (Ok (range_prefix v (membersPrefix "catalog"))), _.
    split; [reflexivity|]. split; [left; split; reflexivity|]. split; reflexivity.
  - apply (Hm "node-1"). eexists. reflexivity.
Defined.
