(* ===== verification/Coordinator.v ===== *)
(** * The coordinator: routing/coordinator.go

    A node's control-plane agent: join, then reconcile in a loop.  The fields
    guarded by the mutex are [Guarded]; every critical section on them is one
    [Crit] action of the programs below, so requests that consult the gate
    [IsServable] see them between any two actions.  Logging is left out. *)

From S2P Require Import Prelude GoStd Placement Reconcile Prog Etcd Ownership Membership.

(** ** The state *)

Record Coordinator : Type := mkCoordinator {
  prefix : string;
  nodeID : string;
  ttl : Z;               (* seconds *)
  tick : Z;
  leaseWindow : Z;       (* nanoseconds *)
  reconcileTimeout : Z;
}.

(** The fields guarded by [mu]. *)
Record Guarded : Type := mkGuarded {
  owned : gmap Z Z;      (* shard -> term *)
  releasing : gset Z;
}.

(** ** The operations *)

Definition NewCoordinator (prefix nodeID : string) (ttlSeconds tick : Z) : Coordinator * Guarded :=
  (mkCoordinator prefix nodeID ttlSeconds tick
     (time.quo (time.mul ttlSeconds time.Second) 2)
     (time.mul ttlSeconds time.Second),
   mkGuarded ∅ ∅).

Definition MarkReleasing (shard : Z) : prog (nodeE Guarded) unit :=
  call (Crit (fun g => (tt, mkGuarded (owned g) ({[shard]} ∪ releasing g)))).

Section coordinator.
Context {H : XXHash}.

(** The claims of a round; a failed claim is logged and passed over. *)
Definition claimLoop (c : Coordinator) (lease : LeaseID) (claim : list Z) : prog (nodeE Guarded) unit :=
  for_each claim (fun s =>
    let! _ := etcd (ClaimShard (prefix c) s (nodeID c) lease) in Ret tt).

(** The releases of a round: stop serving the shard, then give up its key. *)
Definition releaseLoop (c : Coordinator) (release : list Z) : prog (nodeE Guarded) unit :=
  for_each release (fun s =>
    MarkReleasing s ;;;
    let! _ := etcd (ReleaseShard (prefix c) s (nodeID c)) in Ret tt).

(** Re-bind adopted shards whose key rides another lease. *)
Definition rebindLoop (c : Coordinator) (lease : LeaseID) (release : list Z) (om : list OwnerInfo)
    : prog (nodeE Guarded) unit :=
  let releaseSet : gset Z := list_to_set release in
  for_each shards (fun s =>
    if negb (Owner (arr_get om s) =? nodeID c)%string || (OwnerLease (arr_get om s) =? lease)%Z
    then Ret tt
    else if bool_decide (s ∈ releaseSet) then Ret tt
    else let! _ := etcd (RebindShard (prefix c) s (nodeID c) lease) in Ret tt).

(** [owned] as rebuilt from the loaded map. *)
Definition ownedOf (c : Coordinator) (om : list OwnerInfo) : gmap Z Z :=
  foldl (fun acc s =>
      if (Owner (arr_get om s) =? nodeID c)%string then <[s := Term (arr_get om s)]> acc else acc)
    ∅ shards.

(** [releasing] as rebuilt: the shards released this round and still owned. *)
Definition releasingOf (release : list Z) (ow : gmap Z Z) : gset Z :=
  foldl (fun acc s => match ow !! s with Some _ => {[s]} ∪ acc | None => acc end) ∅ release.

Definition reconcileOnce (c : Coordinator) (m : Membership) : prog (nodeE Guarded) unit :=
  let! members := etcd (ListMembers (prefix c)) in
  match members with
  | Err _ => Ret tt
  | Ok members =>
    let! sm := etcd (LoadShardMap (prefix c)) in
    match sm with
    | Err _ => Ret tt
    | Ok sm =>
      let '(claim, release) := Reconcile (nodeID c) members sm in
      claimLoop c (LeaseID_ m) claim ;;;
      releaseLoop c release ;;;
      let! om := etcd (LoadOwnershipMap (prefix c)) in
      match om with
      | Err _ => Ret tt
      | Ok om =>
        let lease := LeaseID_ m in
        rebindLoop c lease release om ;;;
        let ow := ownedOf c om in
        let rel := releasingOf release ow in
        call (Crit (fun _ => (tt, mkGuarded ow rel)))
      end
    end
  end.

(** What the [select] of the loop wakes up for. *)
Inductive LoopEvent : Type := CtxDone | LostFired | TickFired.

(** The loop on the sequence of its wake-ups; [true] when it has returned. *)
Fixpoint loopSelect (c : Coordinator) (m : Membership) (evs : list LoopEvent) : prog (nodeE Guarded) bool :=
  match evs with
  | [] => Ret false
  | CtxDone :: _ => Ret true
  | LostFired :: _ => Ret true
  | TickFired :: evs' => reconcileOnce c m ;;; loopSelect c m evs'
  end.

Definition loop (c : Coordinator) (m : Membership) (evs : list LoopEvent) : prog (nodeE Guarded) bool :=
  reconcileOnce c m ;;; loopSelect c m evs.

(** [Start]: join; the loop is then launched with the membership returned. *)
Definition Start (c : Coordinator) : prog (nodeE Guarded) (result Membership) :=
  JoinMembership (prefix c) (nodeID c) (ttl c).

Definition Fatal (m : Membership) : bool := Lost m.

Definition OwnedShards (g : Guarded) : list Z := fst <$> map_to_list (owned g).

(** The per-request gate: [g] as read under the mutex, then the membership and the
    clock as read by [Fresh]. *)
Definition IsServable (c : Coordinator) (g : Guarded) (m : Membership) (now : Z) (namespace : string) : bool :=
  let shard := ShardOf namespace in
  let own := bool_decide (is_Some (owned g !! shard)) in
  let rel := bool_decide (shard ∈ releasing g) in
  own && negb rel && Fresh m (leaseWindow c) now.

Definition OwnerTerm (g : Guarded) (shard : Z) : Z := default 0%Z (owned g !! shard).

Definition ShardTerm (g : Guarded) (namespace : string) : Z := OwnerTerm g (ShardOf namespace).

(** [c.cancel(); <-c.done]: with the context cancelled, the loop goroutine finishes
    what is left of its round, then finds the context done and closes [done].
    Nothing happens when the loop was never started ([c.cancel == nil]). *)
Definition stopLoop (rest : option (prog (nodeE Guarded) unit)) : prog (nodeE Guarded) unit :=
  match rest with Some p => p | None => Ret tt end.

(** [Close], with [rest] what is left of the round under way. *)
Definition CoordinatorClose (rest : option (prog (nodeE Guarded) unit)) (m : option Membership)
    : prog (nodeE Guarded) (option Membership) :=
  stopLoop rest ;;;
  match m with
  | None => Ret None
  | Some m => let! m' := Close m in Ret (Some m')
  end.

(** [simulateCrash]: the loop is stopped, the lease is left to expire. *)
Definition coordinatorCrash (rest : option (prog (nodeE Guarded) unit)) (m : option Membership)
    : prog (nodeE Guarded) (option Membership) :=
  stopLoop rest ;;; Ret (simulateCrash <$> m).

Definition routeMapStep (om : list OwnerInfo) (acc : gmap Z string * gmap Z Z) (s : Z)
    : gmap Z string * gmap Z Z :=
  let '(shardOwner, shardTerm) := acc in
  if negb (Owner (arr_get om s) =? "")%string
  then (<[s := Owner (arr_get om s)]> shardOwner, <[s := Term (arr_get om s)]> shardTerm)
  else (shardOwner, shardTerm).

Definition RouteMap (c : Coordinator)
    : prog etcdE (result (list string * gmap Z string * gmap Z Z)) :=
  let! members := ListMembers (prefix c) in
  match members with
  | Err err => Ret (Err err)
  | Ok members =>
    let! om := LoadOwnershipMap (prefix c) in
    match om with
    | Err err => Ret (Err err)
    | Ok om =>
      let '(shardOwner, shardTerm) := foldl (routeMapStep om) (∅, ∅) shards in
      Ret (Ok (members, shardOwner, shardTerm))
    end
  end.

End coordinator.

(** The lease window is half the lease, exactly, as long as the lease fits in a
    [time.Duration]. *)
Lemma lease_window_half (P n : string) (ttlSeconds tick : Z) :
  (0 < ttlSeconds <= 9223372036)%Z ->
  leaseWindow (NewCoordinator P n ttlSeconds tick).1 = (ttlSeconds * 500000000)%Z.
Proof.
  intros Ht. cbn. unfold time.mul, time.quo, time.Second.
  rewrite (int64_id (ttlSeconds * 1000000000))
    by (unfold is_int64, min_int64, max_int64; lia).
  replace (ttlSeconds * 1000000000)%Z with (ttlSeconds * 500000000 * 2)%Z by lia.
  rewrite Z.quot_mul by lia. apply int64_id. unfold is_int64, min_int64, max_int64. lia.
Qed.

(** ** The rebuilt maps *)

Lemma ownedOf_fold (c : Coordinator) (om : list OwnerInfo) (l : list Z) (acc : gmap Z Z) (s : Z) :
  foldl (fun acc s =>
      if (Owner (arr_get om s) =? nodeID c)%string then <[s := Term (arr_get om s)]> acc else acc)
    acc l !! s
  = if bool_decide (s ∈ l /\ Owner (arr_get om s) = nodeID c) then Some (Term (arr_get om s))
    else acc !! s.
Proof.
  revert acc. induction l as [|x l IH]; intros acc; cbn [foldl].
  { rewrite bool_decide_eq_false_2; [done|]. set_solver. }
  rewrite IH. destruct (String.eqb_spec (Owner (arr_get om x)) (nodeID c)) as [Hx|Hx].
  - rewrite lookup_insert. destruct (decide (x = s)) as [->|Hne].
    + rewrite (bool_decide_eq_true_2 (s ∈ s :: l /\ _)) by (split; [left|done]).
      by case_bool_decide.
    + apply if_ext_iff. set_solver.
  - apply if_ext_iff. split; [set_solver|]. intros [[->|?]%elem_of_cons ?]; done.
Qed.

Lemma ownedOf_lookup (c : Coordinator) (om : list OwnerInfo) (s t : Z) :
  ownedOf c om !! s = Some t <->
  s ∈ shards /\ Owner (arr_get om s) = nodeID c /\ Term (arr_get om s) = t.
Proof.
  unfold ownedOf. rewrite ownedOf_fold, lookup_empty. case_bool_decide; naive_solver.
Qed.

Lemma releasingOf_elem (release : list Z) (ow : gmap Z Z) (s : Z) :
  s ∈ releasingOf release ow <-> s ∈ release /\ is_Some (ow !! s).
Proof.
  unfold releasingOf.
  assert (Hgen : forall acc : gset Z,
    s ∈ foldl (fun acc s => match ow !! s with Some _ => {[s]} ∪ acc | None => acc end) acc release
    <-> s ∈ acc \/ (s ∈ release /\ is_Some (ow !! s))).
  { induction release as [|x l IH]; intros acc; cbn [foldl]; [set_solver|].
    rewrite IH. destruct (ow !! x) as [t|] eqn:E.
    - rewrite elem_of_union, elem_of_singleton, elem_of_cons. split; [|naive_solver].
      intros [[->|?]|?]; naive_solver.
    - rewrite elem_of_cons. split; [naive_solver|]. intros [?|[[->|?] Hs]]; [auto| |auto].
      rewrite E in Hs. by destruct Hs. }
  rewrite Hgen. set_solver.
Qed.

(** The maps [RouteMap] builds: one entry per owned shard, in both. *)
Lemma routeMap_fold (om : list OwnerInfo) (l : list Z) (so : gmap Z string) (st : gmap Z Z) (s : Z) :
  (foldl (routeMapStep om) (so, st) l).1 !! s
    = (if bool_decide (s ∈ l /\ Owner (arr_get om s) <> "") then Some (Owner (arr_get om s)) else so !! s) /\
  (foldl (routeMapStep om) (so, st) l).2 !! s
    = (if bool_decide (s ∈ l /\ Owner (arr_get om s) <> "") then Some (Term (arr_get om s)) else st !! s).
Proof.
  revert so st. induction l as [|x l IH]; intros so st; cbn [foldl].
  { by rewrite bool_decide_eq_false_2 by set_solver. }
  unfold routeMapStep at 2 4. destruct (String.eqb_spec (Owner (arr_get om x)) "") as [Hx|Hx]; cbn [negb].
  - destruct (IH so st) as [-> ->]. assert (s ∈ x :: l /\ Owner (arr_get om s) <> "" <->
      s ∈ l /\ Owner (arr_get om s) <> "") as Hiff.
    { split; [intros [[->|?]%elem_of_cons ?]; done|set_solver]. }
    split; apply if_ext_iff; by rewrite Hiff.
  - destruct (IH (<[x := Owner (arr_get om x)]> so) (<[x := Term (arr_get om x)]> st)) as [-> ->].
    destruct (decide (s = x)) as [->|Hne].
    + rewrite !lookup_insert_eq, !(bool_decide_eq_true_2 (x ∈ x :: l /\ _)) by (split; [left|done]).
      by case_bool_decide.
    + rewrite !lookup_insert_ne by done. split; apply if_ext_iff; set_solver.
Qed.

(** [Close] revokes the lease but leaves the gate as it was: until the window has
    passed the node keeps serving what others may already own. *)
Lemma close_keeps_gate {H : XXHash} (c : Coordinator) (g : Guarded) (m : Membership) (v : View) t ns :
  is_Some (leases v !! leaseID m) ->
  exists m', run node_handler (CoordinatorClose (Some (Ret tt)) (Some m)) (v, g)
      = (Some m', (drop_lease v (leaseID m), g)) /\
    IsServable c g m' t ns = IsServable c g m t ns.
Proof. intros Hl. cbn. rewrite decide_True by done. eexists. split; [done|]. done. Qed.

(** ** Properties *)

(** C32: The gate's window.  For every lease of up to 9223372036 seconds the window is exactly half
    the lease, without overflow; at one second more the multiplication wraps to a
    negative window, and the gate is never open while the clock moves forward. *)
Theorem lease_window_bounds {H : XXHash} (P n : string) (ttlSeconds tick : Z) :
  (0 < ttlSeconds <= 9223372036)%Z ->
  leaseWindow (NewCoordinator P n ttlSeconds tick).1 = (ttlSeconds * 500000000)%Z /\
  reconcileTimeout (NewCoordinator P n ttlSeconds tick).1 = (ttlSeconds * 1000000000)%Z /\
  forall g m now ns, (0 < lastKeepAlive m <= now)%Z ->
    IsServable (NewCoordinator P n 9223372037 tick).1 g m now ns = false.
Proof.
  intros Ht. split; [by apply lease_window_half|]. split.
  { cbn. unfold time.mul, time.Second. apply int64_id. unfold is_int64, min_int64, max_int64. lia. }
  intros g m now ns Hm. unfold IsServable. apply andb_false_intro2. unfold Fresh.
  destruct (Z.eqb_spec (lastKeepAlive m) 0); [done|]. apply Z.ltb_ge.
  change (leaseWindow (NewCoordinator P n 9223372037 tick).1) with (-4611686018354775808)%Z.
  unfold time.Since, clamp64, min_int64, max_int64. lia.
Qed.

Lemma lease_window_bounds_witness :
  leaseWindow (NewCoordinator "catalog" "node-1" 10 0).1 = 5000000000%Z.
Proof. exact (proj1 (lease_window_bounds (H := ToyHash) "catalog" "node-1" 10 0 ltac:(lia))). Defined.

(** C31: Discovery tells the truth.  A route map returned without error names
    every member once, and its two maps have an entry for precisely the owned
    shards, with the owner and the term the store records. *)
Theorem route_map_exact {D : Etcd} (c : Coordinator) (s s' : St) ms so st :
  view_wf (view s) -> canonical (view s) (prefix c) ->
  exec etcd_do eq s (RouteMap c) (Ok (ms, so, st)) s' ->
  view s' = view s /\ NoDup ms /\
  (forall n, n ∈ ms <-> is_Some (kvs (view s) !! (membersPrefix (prefix c) +:+ n))) /\
  dom so = dom st /\
  forall sh o t, so !! sh = Some o /\ st !! sh = Some t <->
    sh ∈ shards /\ o <> "" /\ exists kv, ownership (view s) (prefix c) sh = Some kv /\
      Value kv = o /\ ModRevision kv = t.
Proof.
  intros Hwf Hc (s1 & x & s2 & <- & Hd & Hex). apply etcd_documented, getprefix_allowed in Hd as [Hv2 Hx].
  destruct Hx as [->|[e ->]]; [|by destruct Hex].
  destruct Hex as (s3 & y & s4 & <- & Hd & Hex). apply etcd_documented, getprefix_allowed in Hd as [Hv4 Hy].
  destruct Hy as [->|[e ->]]; [|by destruct Hex]. cbn [bind] in Hex. rewrite Hv2 in *.
  set (om := foldl (load_step (ownershipBase (prefix c)) _) _ _) in Hex.
  assert (Hom : forall sh, sh ∈ shards -> arr_get om sh = owner_info (view s) (prefix c) sh)
    by (intros; by apply load_owner_info).
  pose proof (routeMap_fold om shards ∅ ∅) as Hmaps.
  destruct (foldl (routeMapStep om) (∅, ∅) shards) as [so' st'].
  destruct Hex as [[= -> -> ->] <-]. split; [congruence|].
  split; [by apply members_of_NoDup|]. split; [intros; by apply members_of_elem|].
  cbn [fst snd] in Hmaps. split.
  - apply set_eq. intros sh. rewrite !elem_of_dom. destruct (Hmaps sh) as [-> ->].
    rewrite !lookup_empty. by case_bool_decide.
  - intros sh o t. destruct (Hmaps sh) as [-> ->]. rewrite !lookup_empty. case_bool_decide as Hd.
    + destruct Hd as [Hs Ho]. rewrite Hom in Ho |- * by done. unfold owner_info in *.
      destruct (ownership (view s) (prefix c) sh) as [kv|]; [|done]. cbn in *. naive_solver.
    + split; [by intros [? _]|]. intros (Hs & Hne & kv & Ho & Hv & _). destruct Hd.
      split; [done|]. rewrite Hom by done. unfold owner_info. rewrite Ho. cbn. congruence.
Qed.

Lemma run_RouteMap_ok (c : Coordinator) (v : View) :
  exists ms so st, run etcd_handler (RouteMap c) v = (Ok (ms, so, st), v).
Proof.
  cbn. destruct (foldl (routeMapStep _) (∅, ∅) shards) as [so st]. by eexists _, so, st.
Qed.

Lemma route_map_exact_witness :
  let c := (NewCoordinator "catalog" "node-1" 10 0).1 in
  exists ms so st, (run etcd_handler (RouteMap c) view_owned).1 = Ok (ms, so, st) /\
    so !! 5%Z = Some "node-1" /\ st !! 5%Z = Some 2%Z.
Proof.
  intros c. destruct (run_RouteMap_ok c view_owned) as (ms & so & st & Hrun).
  exists ms, so, st. rewrite Hrun. split; [reflexivity|].
  destruct (route_map_exact (D := ModelEtcd) c view_owned view_owned ms so st view_owned_wf
    view_owned_canonical) as (_ & _ & _ & _ & Hmaps).
  - apply (exec_of_run (etcd_do (Etcd := ModelEtcd)) eq etcd_handler); [reflexivity| |exact Hrun].
    intros X e v. left. apply etcd_handler_commit.
  - apply Hmaps. split; [apply elem_of_shards; unfold ShardCount; lia|]. split; [discriminate|].
    eexists. split; [reflexivity|]. split; reflexivity.
Defined.
