(* ===== verification/Serving.v ===== *)
(** * One coordinator among others

    Rely-guarantee reasoning about the control loop.  Between any two actions of a
    node the other nodes and etcd itself may move the store along [node_rely]: they
    leave the records of the node alone while its lease lives.  The invariant
    [node_inv] says what makes the gate sound: as long as the node's lease is live,
    every shard it has published and is not releasing is recorded for it in etcd,
    at the published term or, after it has itself re-bound the record to its lease,
    at a later one.  [loop_call] is what the loop asks of etcd in return, and
    [shard_write] what that can do to the store at any time. *)

From S2P Require Import Prelude GoStd Placement Reconcile Prog Etcd Ownership Membership Coordinator.

Section serving.
Context {H : XXHash} {D : Etcd}.
Variable P : string.   (* the key prefix of the deployment *)

(** ** The store as node [n] with lease [l] relies on it *)

Record good (l : LeaseID) (v : View) : Prop := {
  good_wf : view_wf v;
  good_canonical : canonical v P;
  good_granted : l ∈ granted v;
}.

Definition live (l : LeaseID) (v : View) : Prop := is_Some (leases v !! l).

(** What others may do: nothing to the records of [n] while its lease lives, and
    nothing that revives the lease. *)
Definition view_rely (n : string) (l : LeaseID) (v v' : View) : Prop :=
  good l v ->
  good l v' /\
  (live l v' -> live l v /\
     forall s kv, s ∈ shards -> ownership v P s = Some kv -> Value kv = n ->
       ownership v' P s = Some kv).

(** Others may also mark shards of the node as releasing ([MarkReleasing] is
    public), but only the node itself publishes. *)
Definition node_rely (n : string) (l : LeaseID) (s s' : St * Guarded) : Prop :=
  view_rely n l (view s.1) (view s'.1) /\
  owned s'.2 = owned s.2 /\ releasing s.2 ⊆ releasing s'.2.

(** A record that backs serving at term [t]: it is the node's, of that term, or of a
    later one because the node has re-bound it to its own lease. *)
Definition recorded (n : string) (l : LeaseID) (t : Z) (kv : KeyValue) : Prop :=
  Value kv = n /\ (ModRevision kv = t \/ KvLease kv = l /\ (t < ModRevision kv)%Z).

(** The published shards are backed by the store. *)
Definition backed (n : string) (l : LeaseID) (v : View) (g : Guarded) : Prop :=
  live l v -> forall s t, owned g !! s = Some t -> s ∉ releasing g ->
    s ∈ shards /\ exists kv, ownership v P s = Some kv /\ recorded n l t kv.

Definition node_inv (n : string) (l : LeaseID) (s : St * Guarded) : Prop :=
  good l (view s.1) /\ backed n l (view s.1) s.2.

(** What [reconcileOnce] remembers of the map it has loaded. *)
Definition loaded (n : string) (l : LeaseID) (om : list OwnerInfo) (v : View) : Prop :=
  live l v -> forall s, s ∈ shards -> Owner (arr_get om s) = n ->
    exists kv, ownership v P s = Some kv /\ recorded n l (Term (arr_get om s)) kv.

(** ** Relies compose and keep the invariant *)

Lemma view_rely_refl (n : string) (l : LeaseID) (v : View) : view_rely n l v v.
Proof. intros Hg. split; [done|]. auto. Qed.

Lemma view_rely_trans (n : string) (l : LeaseID) (v1 v2 v3 : View) :
  view_rely n l v1 v2 -> view_rely n l v2 v3 -> view_rely n l v1 v3.
Proof.
  intros H12 H23 Hg. destruct (H12 Hg) as [Hg2 Hl2]. destruct (H23 Hg2) as [Hg3 Hl3].
  split; [done|]. intros [Hl Hk]%Hl3. destruct (Hl2 Hl) as [Hl1 Hk1]. split; [done|].
  intros s kv Hs Ho Hv. apply Hk; [done| |done]. by apply Hk1.
Qed.

Lemma node_rely_refl (n : string) (l : LeaseID) (s : St * Guarded) : node_rely n l s s.
Proof. split; [apply view_rely_refl|done]. Qed.

Lemma node_rely_trans (n : string) (l : LeaseID) (s1 s2 s3 : St * Guarded) :
  node_rely n l s1 s2 -> node_rely n l s2 s3 -> node_rely n l s1 s3.
Proof.
  intros (Hv & Ho & Hr) (Hv' & Ho' & Hr'). split; [by eapply view_rely_trans|].
  split; [congruence|set_solver].
Qed.

Lemma node_inv_rely (n : string) (l : LeaseID) (s s' : St * Guarded) :
  node_rely n l s s' -> node_inv n l s -> node_inv n l s'.
Proof.
  intros (Hv & Ho & Hr) [Hg Hb]. destruct (Hv Hg) as [Hg' Hl]. split; [done|].
  intros [Hlive Hk]%Hl sh t Hsh Hnr. rewrite Ho in Hsh.
  destruct (Hb Hlive sh t) as (? & kv & ? & ? & ?); [done|set_solver|].
  split; [done|]. exists kv. split; [by apply Hk|]. by split.
Qed.

Lemma loaded_rely (n : string) (l : LeaseID) (om : list OwnerInfo) (v v' : View) :
  good l v -> view_rely n l v v' -> loaded n l om v -> loaded n l om v'.
Proof.
  intros Hg Hv Hld. destruct (Hv Hg) as [_ Hl].
  intros [Hlive Hk]%Hl s Hs Ho. destruct (Hld Hlive s Hs Ho) as (kv & Hkv & Hn & Ht).
  exists kv. split; [by apply Hk|]. by split.
Qed.

(** ** What the control loop does to the store *)

(** The clock and the leases are not a coordinator's business while it
    reconciles. *)
Definition quiet (v v' : View) : Prop :=
  now v' = now v /\ leases v' = leases v /\ granted v' = granted v.

(** The effects of the transactions of node [n] with lease [l]: nothing, a record
    written where there is none, its own record re-bound, its own record deleted. *)
Inductive shard_write (n : string) (l : LeaseID) (v : View) : View -> Prop :=
| sw_none : shard_write n l v v
| sw_claim s : s ∈ shards -> lease_live v l = true -> ownership v P s = None ->
    shard_write n l v (put_kv v (shardKey P s) n l)
| sw_rebind s kv : s ∈ shards -> lease_live v l = true -> ownership v P s = Some kv ->
    Value kv = n -> shard_write n l v (put_kv v (shardKey P s) n l)
| sw_release s kv : s ∈ shards -> ownership v P s = Some kv -> Value kv = n ->
    shard_write n l v (delete_kv v (shardKey P s)).

(** The calls of the loop. *)
Definition loop_call (n : string) (l : LeaseID) {X} (e : etcdE X) : Prop :=
  match e with
  | GetPrefix _ => True
  | Txn cmp op => exists s, s ∈ shards /\
      (cmp = CmpCreateRevision (shardKey P s) 0 /\ op = OpPut (shardKey P s) n l \/
       cmp = CmpValue (shardKey P s) n /\
         (op = OpPut (shardKey P s) n l \/ op = OpDelete (shardKey P s)))
  | _ => False
  end.

Definition loop_action (n : string) (l : LeaseID) (X : Type) (e : nodeE Guarded X) : Prop :=
  match e with
  | EtcdCall e => loop_call n l e
  | Now => False
  | Crit _ => True
  end.

Lemma loop_call_write (n : string) (l : LeaseID) X (e : etcdE X) x (v v' : View) :
  view_wf v -> loop_call n l e -> etcd_allowed X v e x v' -> shard_write n l v v'.
Proof.
  intros Hwf He Ha. destruct e as [ttl|key val l'|l'|l'|key|base|cmp op]; try done.
  { apply getprefix_allowed in Ha as [-> _]. constructor. }
  destruct He as (s & Hs & [[-> ->]|[-> [-> | ->]]]).
  - apply claim_allowed in Ha as [(? & ? & -> & _)|[-> _]]; [by constructor|constructor|done].
  - apply rebind_allowed in Ha as [(kv & ? & ? & ? & -> & _)|[-> _]]; [|constructor].
    by eapply sw_rebind.
  - apply release_allowed in Ha as [(kv & ? & ? & ->)|[-> _]]; [|constructor].
    by eapply sw_release.
Qed.

Lemma canonical_put (v : View) (s : Z) (n : string) (l : LeaseID) :
  s ∈ shards -> canonical v P -> canonical (put_kv v (shardKey P s) n l) P.
Proof.
  intros Hs Hc k kv t s' Hk Hkt Ha Hs'. cbn in Hk. rewrite lookup_insert in Hk.
  case_decide as Hd; [|by eapply Hc]. subst k. rewrite shardKey_base in Hkt by done.
  apply append_inj_l in Hkt as <-. unfold strconv.Atoi, strconv.Itoa in Ha.
  rewrite strconv.ParseInt_FormatInt in Ha by (by apply shards_int64). by simplify_eq.
Qed.

Lemma canonical_sub (v v' : View) :
  (forall k kv, kvs v' !! k = Some kv -> exists kv', kvs v !! k = Some kv') ->
  canonical v P -> canonical v' P.
Proof. intros Hsub Hc k kv t s [kv' Hk]%Hsub. by eapply Hc. Qed.

Lemma delete_ownership (v : View) (s s' : Z) :
  s ∈ shards -> s' ∈ shards ->
  ownership (delete_kv v (shardKey P s)) P s' = if decide (s' = s) then None else ownership v P s'.
Proof.
  intros Hs Hs'. unfold ownership. rewrite delete_kv_lookup.
  destruct (decide (s' = s)) as [->|Hne].
  - by rewrite decide_True.
  - rewrite decide_False; [done|]. by intros ?%shardKey_inj.
Qed.

Lemma put_ownership (v : View) (s s' : Z) (n : string) (l : LeaseID) :
  s ∈ shards -> s' ∈ shards -> s' <> s ->
  ownership (put_kv v (shardKey P s) n l) P s' = ownership v P s'.
Proof.
  intros Hs Hs' Hne. rewrite put_kv_ownership, decide_False; [done|].
  intros Heq%shardKey_inj; [by subst|done|done].
Qed.

Lemma delete_quiet (v : View) (key : string) : quiet v (delete_kv v key).
Proof. unfold quiet, delete_kv. by destruct (kvs v !! key). Qed.

Lemma write_quiet (n : string) (l : LeaseID) (v v' : View) : shard_write n l v v' -> quiet v v'.
Proof. intros Hw. destruct Hw; try done. apply delete_quiet. Qed.

Lemma write_wf (n : string) (l : LeaseID) (v v' : View) :
  shard_write n l v v' -> view_wf v -> view_wf v'.
Proof. intros Hw Hwf. destruct Hw; auto with catalog. Qed.

Lemma write_canonical (n : string) (l : LeaseID) (v v' : View) :
  shard_write n l v v' -> canonical v P -> canonical v' P.
Proof.
  intros Hw Hc. destruct Hw as [|s Hs _ _|s kv Hs _ _ _|s kv Hs _ _]; [done|by apply canonical_put..|].
  eapply canonical_sub; [|done]. intros k kv'. rewrite delete_kv_lookup. case_decide; [done|eauto].
Qed.

Lemma write_good (n : string) (l l' : LeaseID) (v v' : View) :
  shard_write n l v v' -> good l' v -> good l' v'.
Proof.
  intros Hw [Hwf Hc Hg]. destruct (write_quiet _ _ _ _ Hw) as (_ & _ & Hgr).
  split; [by eapply write_wf|by eapply write_canonical|by rewrite Hgr].
Qed.

(** Every record after a write was there before or is the writer's. *)
Lemma write_records (n : string) (l : LeaseID) (v v' : View) (s : Z) (kv : KeyValue) :
  shard_write n l v v' -> s ∈ shards -> ownership v' P s = Some kv ->
  ownership v P s = Some kv \/ Value kv = n /\ KvLease kv = l.
Proof.
  intros Hw Hs. destruct Hw as [|s' Hs' _ _|s' kv' Hs' _ _ _|s' kv' Hs' _ _]; [by left| | |].
  1,2: rewrite put_kv_ownership; case_decide; [intros [= <-]; by right|by left].
  rewrite delete_ownership by done. case_decide; [done|by left].
Qed.

(** A write takes nothing from the records of others. *)
Lemma write_others (n n' : string) (l : LeaseID) (v v' : View) (s : Z) (kv : KeyValue) :
  shard_write n l v v' -> s ∈ shards -> ownership v P s = Some kv -> Value kv = n' -> n' <> n ->
  ownership v' P s = Some kv.
Proof.
  intros Hw Hs Ho Hv Hne.
  destruct Hw as [|s' Hs' _ Hn|s' kv' Hs' _ Ho' Hv'|s' kv' Hs' Ho' Hv']; [done| | |].
  1,2: destruct (decide (s = s')) as [->|]; [congruence|by rewrite put_ownership].
  rewrite delete_ownership by done. case_decide; [congruence|done].
Qed.

(** A record that backs its node goes on doing so when the node writes, unless the
    write is the release of that shard. *)
Lemma write_recorded (n : string) (l : LeaseID) (v v' : View) (s t : Z) (kv : KeyValue) :
  view_wf v -> shard_write n l v v' -> s ∈ shards ->
  ownership v P s = Some kv -> recorded n l t kv ->
  (exists kv', ownership v' P s = Some kv' /\ recorded n l t kv') \/ ownership v' P s = None.
Proof.
  intros Hwf Hw Hs Ho [Hn Ht]. assert (Hold : recorded n l t kv) by done.
  destruct Hw as [|s' Hs' _ Hno|s' kv' Hs' _ Ho' Hv'|s' kv' Hs' Ho' Hv']; [left; by eauto| | |].
  - left. exists kv. split; [|done]. rewrite put_ownership; [done|done|done|congruence].
  - left. destruct (decide (s = s')) as [->|]; [|exists kv; by rewrite put_ownership].
    rewrite put_kv_ownership, decide_True by done. eexists. split; [done|]. split; [done|]. right.
    split; [done|]. apply wf_mod in Ho as ?; [|done]. cbn. lia.
  - rewrite delete_ownership by done. case_decide; [by right|left; eauto].
Qed.

(** A transaction that puts a record removes none. *)
Lemma put_removes_none (v : View) (s s' : Z) (n : string) (l : LeaseID) (kv : KeyValue) :
  ownership v P s' = Some kv -> ownership (put_kv v (shardKey P s) n l) P s' <> None.
Proof. intros Ho. rewrite put_kv_ownership. case_decide; congruence. Qed.

(** ** [reconcileOnce] keeps the invariant *)

Section one_node.
Variable c : Coordinator.
Variable m : Membership.
Hypothesis Hprefix : prefix c = P.
Hypothesis Hnode : nodeID c <> "".

Let n := nodeID c.
Let l := leaseID m.

Abbreviation WP := (wp node_step (node_rely n l) (fun _ _ => True) (node_inv n l)).

(** A read leaves everything as it is; its reply is the store's or an error. *)
Lemma wp_read_prefix {A} (base : string) (f : result (list KeyValue) -> A)
    (Q : A -> St * Guarded -> Prop) (s : St * Guarded) :
  (forall s', node_inv n l s' ->
     (forall e, Q (f (Err e)) s') /\ Q (f (Ok (range_prefix (view s'.1) base))) s') ->
  WP (etcd (let! r := call (GetPrefix base) in Ret (f r))) Q s.
Proof.
  intros HQ. cbn. intros s1 x s2 Hr Hi [Hd Hg].
  apply etcd_documented, getprefix_allowed in Hd as [Hv Hx].
  assert (node_inv n l s2) as Hi2 by (destruct Hi; split; rewrite ?Hv, ?Hg; done).
  split; [done|]. split; [done|].
  destruct (HQ s2 Hi2) as [He Ho]. rewrite Hv in Ho. destruct Hx as [->|[e ->]]; auto.
Qed.

(** A write of the node that does not remove a record it still serves from. *)
Lemma write_inv (s s' : St * Guarded) :
  shard_write n l (view s.1) (view s'.1) -> s'.2 = s.2 -> node_inv n l s ->
  (forall sh kv, sh ∈ shards -> ownership (view s.1) P sh = Some kv ->
     ownership (view s'.1) P sh = None -> sh ∈ releasing s.2) ->
  node_inv n l s'.
Proof.
  intros Hw Hg [Hgood Hb] Hrel. split; [by eapply write_good|].
  destruct (write_quiet _ _ _ _ Hw) as (_ & Hl & _). unfold backed, live. rewrite Hl, Hg.
  intros Hlive sh t Ho Hnr. destruct (Hb Hlive sh t Ho Hnr) as (Hs & kv & Hkv & Hrec).
  split; [done|]. destruct (write_recorded _ _ _ _ sh t kv (good_wf _ _ Hgood) Hw) as [?|Hdel]; [done..|].
  destruct Hnr. by eapply Hrel.
Qed.

Lemma wp_claim (sh : Z) (s : St * Guarded) :
  sh ∈ shards ->
  WP (let! _ := etcd (ClaimShard (prefix c) sh (nodeID c) (LeaseID_ m)) in Ret tt)
    (fun _ _ => True) s.
Proof.
  intros Hs. rewrite Hprefix. cbn. intros s1 x s2 Hr Hi [Hd Hgu].
  apply etcd_documented, claim_allowed in Hd; [|apply Hi]. split; [done|]. split; [|done].
  destruct Hd as [(Hno & Hl & Hv & _)|[Hv _]]; (eapply write_inv; [|done|done|]); rewrite Hv.
  - by apply sw_claim.
  - intros sh' kv _ Ho Hn. by destruct (put_removes_none _ _ _ _ _ _ Ho Hn).
  - apply sw_none.
  - congruence.
Qed.

Lemma wp_release (sh : Z) (s : St * Guarded) :
  sh ∈ shards ->
  WP (MarkReleasing sh ;;;
      let! _ := etcd (ReleaseShard (prefix c) sh (nodeID c)) in Ret tt)
    (fun _ _ => True) s.
Proof.
  intros Hs. rewrite Hprefix. cbn. intros s1 x s2 Hr Hi [Hf Hst]. injection Hf as Hx Hgu.
  split; [done|]. split.
  { destruct Hi as [Hg Hb]. split; rewrite Hst; [done|]. rewrite <- Hgu.
    intros Hlive sh' t Ho Hn. apply Hb; [done|done|set_solver]. }
  intros s3 y s4 Hr3 Hi3 [Hd Hgu3].
  assert (sh ∈ releasing s3.2) as Hmark.
  { destruct Hr3 as (_ & _ & Hsub). apply Hsub. rewrite <- Hgu. set_solver. }
  apply etcd_documented, release_allowed in Hd. split; [done|]. split; [|done].
  destruct Hd as [(kv & Ho & Hv & Hdel)|[Hv _]].
  - eapply write_inv; [|done|done|]; rewrite Hdel; [by eapply sw_release|].
    intros sh' kv' Hs' Ho'. rewrite delete_ownership by done. case_decide; [by subst|congruence].
  - eapply write_inv; [|done|done|]; rewrite Hv; [apply sw_none|congruence].
Qed.

(** A re-binding keeps the invariant, and every record the loaded map counts on. *)
Lemma wp_rebind (sh : Z) (om : list OwnerInfo) (s : St * Guarded) :
  sh ∈ shards -> good l (view s.1) -> loaded n l om (view s.1) ->
  WP (let! _ := etcd (RebindShard (prefix c) sh (nodeID c) (LeaseID_ m)) in Ret tt)
    (fun _ s' => good l (view s'.1) /\ loaded n l om (view s'.1)) s.
Proof.
  intros Hs Hg0 Hld. rewrite Hprefix. cbn. intros s1 x s2 Hr Hi [Hd Hgu].
  pose proof (loaded_rely _ _ _ _ _ Hg0 (proj1 Hr) Hld) as Hld1.
  apply etcd_documented, rebind_allowed in Hd. split; [done|].
  destruct Hd as [(kv & Ho & Hn & Hl & Hv & _)|[Hv _]].
  2: { split; [|rewrite Hv; split; [apply Hi|done]].
       eapply write_inv; [|done|done|]; rewrite Hv; [apply sw_none|congruence]. }
  assert (Hw : shard_write n l (view s1.1) (view s2.1)) by (rewrite Hv; by eapply sw_rebind).
  assert (Hsome : forall sh' kv', ownership (view s1.1) P sh' = Some kv' -> ownership (view s2.1) P sh' <> None)
    by (intros sh' kv' Ho'; rewrite Hv; by eapply put_removes_none).
  split.
  { eapply write_inv; [done|done|done|]. intros sh' kv' _ Ho' Hno. by destruct (Hsome sh' kv'). }
  split; [eapply write_good; [done|apply Hi]|].
  destruct (write_quiet _ _ _ _ Hw) as (_ & Hle & _). unfold loaded, live. rewrite Hle.
  intros Hlive sh' Hs' Ho'. destruct (Hld1 Hlive sh' Hs' Ho') as (kv' & Hkv' & Hrec).
  destruct (write_recorded _ _ _ _ sh' _ kv' (good_wf _ _ (proj1 Hi)) Hw Hs' Hkv' Hrec) as [?|Hno]; [done|].
  by destruct (Hsome sh' kv').
Qed.

Lemma wp_loop (J : St * Guarded -> Prop) (sh : list Z) (body : Z -> prog (nodeE Guarded) unit)
    (s : St * Guarded) :
  (forall x, x ∈ sh -> forall s', J s' -> WP (body x) (fun _ s'' => J s'') s') -> J s ->
  WP (for_each sh body) (fun _ s' => J s') s.
Proof.
  intros Hbody Hs. apply (wp_for_each _ _ _ _ (fun _ s' => J s')); [|done].
  intros done_ x todo s' -> HJ. apply Hbody; [set_solver|done].
Qed.

(** What the load establishes. *)
Lemma loaded_intro (v : View) :
  good l v ->
  loaded n l (foldl (load_step (ownershipBase P)
      (fun kv => mkOwnerInfo (Value kv) (ModRevision kv) (KvLease kv)))
      (arr_zero (mkOwnerInfo "" 0 0)) (range_prefix v (ownershipBase P))) v.
Proof.
  intros [Hwf Hc Hgr] _ s Hs. rewrite load_owner_info by done. unfold owner_info.
  destruct (ownership v P s) as [kv|] eqn:E; cbn; [|intros Hn0; by destruct Hnode].
  intros Hv. exists kv. split; [done|]. split; [done|]. by left.
Qed.

(** With a loaded map in hand the rest of the round re-binds what it adopts, and
    publishes what the store backs. *)
Lemma wp_publish (om : list OwnerInfo) (release : list Z) (s : St * Guarded) :
  good l (view s.1) -> loaded n l om (view s.1) ->
  WP (rebindLoop c (LeaseID_ m) release om ;;;
      call (Crit (fun _ => (tt, mkGuarded (ownedOf c om) (releasingOf release (ownedOf c om))))))
    (fun _ _ => True) s.
Proof.
  intros Hg Hld. apply wp_bind. unfold rebindLoop.
  eapply wp_mono; [|apply (wp_loop (fun s' => good l (view s'.1) /\ loaded n l om (view s'.1))); [|done]].
  - intros _ s' [Hg' Hld']. cbn. intros s1 x s2 Hr Hi1 [Hf Hst]. injection Hf as _ Hgu.
    split; [done|]. split; [|done].
    pose proof (loaded_rely _ _ _ _ _ Hg' (proj1 Hr) Hld') as Hld1.
    split; rewrite Hst; [apply Hi1|]. rewrite <- Hgu.
    intros Hlive sh t Ho Hn. cbn in Ho, Hn. apply ownedOf_lookup in Ho as (Hsh & Ho & <-).
    split; [done|]. by apply Hld1.
  - intros x Hx s' [Hg' Hld']. destruct (_ || _); [done|]. case_bool_decide; [done|].
    by apply wp_rebind.
Qed.

(** One round of the control loop, under interference. *)
Lemma wp_reconcileOnce (s : St * Guarded) : WP (reconcileOnce c m) (fun _ _ => True) s.
Proof.
  unfold reconcileOnce. rewrite Hprefix.
  apply wp_bind, wp_read_prefix. intros s1 _. split; [done|].
  apply wp_bind, wp_read_prefix. intros s2 _. split; [done|].
  destruct (Reconcile _ _ _) as [claim release] eqn:Erec.
  assert (forall x, x ∈ claim \/ x ∈ release -> x ∈ shards) as Hin.
  { intros x [Hx|Hx].
    - eapply (elem_of_claim (nodeID c)). rewrite Erec. exact Hx.
    - eapply (elem_of_release (nodeID c)). rewrite Erec. exact Hx. }
  apply wp_bind. eapply wp_mono; [|apply (wp_loop (fun _ => True)); [|done]; intros x Hx s' _; apply wp_claim; auto].
  intros _ s3 _. apply wp_bind.
  eapply wp_mono; [|apply (wp_loop (fun _ => True)); [|done]; intros x Hx s' _; apply wp_release; auto].
  intros _ s4 _. apply wp_bind, wp_read_prefix. intros s5 [Hg5 _]. split; [done|].
  apply wp_publish; [done|]. by apply loaded_intro.
Qed.

Lemma wp_loopSelect (evs : list LoopEvent) (s : St * Guarded) :
  WP (loopSelect c m evs) (fun _ _ => True) s.
Proof.
  revert s. induction evs as [|[] evs IH]; intros s; cbn [loopSelect]; [done|done|done|].
  apply wp_bind. eapply wp_mono; [|apply wp_reconcileOnce]. auto.
Qed.

(** The whole loop, whatever wakes it up. *)
Lemma wp_coordinator_loop (evs : list LoopEvent) (s : St * Guarded) :
  WP (loop c m evs) (fun _ _ => True) s.
Proof.
  unfold loop. apply wp_bind. eapply wp_mono; [|apply wp_reconcileOnce].
  intros _ s' _. apply wp_loopSelect.
Qed.

(** ** What the loop asks of etcd *)

Lemma reconcileOnce_calls : always (loop_action n l) (reconcileOnce c m).
Proof.
  unfold reconcileOnce. rewrite Hprefix. split; [done|]. intros [members|e]; [|done].
  split; [done|]. intros [sm|e]; [|done]. cbn [bind hoist].
  lazymatch goal with |- context [Reconcile ?n ?ms ?sm] =>
    pose proof (elem_of_claim n ms sm) as Hcl; pose proof (elem_of_release n ms sm) as Hrl;
    destruct (Reconcile n ms sm) as [claim release] end. cbn [fst snd] in Hcl, Hrl.
  apply always_bind; [|intros _; apply always_bind].
  - apply always_for_each. intros s Hs. rewrite Hprefix. cbn. split; [|done].
    exists s. split; [by apply Hcl|]. by left.
  - apply always_for_each. intros s Hs. rewrite Hprefix. cbn. split; [done|]. intros _. split; [|done].
    exists s. split; [by apply Hrl|]. auto.
  - intros _. split; [done|]. intros [om|e]; [|done]. cbn [bind hoist]. apply always_bind; [|done].
    apply always_for_each. intros s Hs. destruct (_ || _); [done|]. case_bool_decide; [done|].
    rewrite Hprefix. cbn. split; [|done]. exists s. split; [done|]. auto.
Qed.

Lemma loop_calls (evs : list LoopEvent) : always (loop_action n l) (loop c m evs).
Proof.
  assert (Hsel : forall evs, always (loop_action n l) (loopSelect c m evs)).
  { intros es. induction es as [|[] es IH]; cbn [loopSelect]; [done|done|done|].
    apply always_bind; [apply reconcileOnce_calls|done]. }
  apply always_bind; [apply reconcileOnce_calls|auto].
Qed.

End one_node.
End serving.
