(* ===== verification/Convergence.v ===== *)
(** * Convergence of the control loop on a healthy etcd

    [reconcileOnce] run alone against the executable etcd: what one round makes
    of the store ([after_round]), and that two passes, in each of which every
    member runs one whole round, end at the rendezvous placement. *)

From S2P Require Import Prelude GoStd Placement Reconcile Prog Etcd Ownership Membership Coordinator Serving.

(** A coordinator with its membership and its guarded fields. *)
Definition Agent : Type := Coordinator * Membership * Guarded.

(** The store after one round of one agent, and after a round of each of them
    in turn. *)
Definition one_round {H : XXHash} (v : View) (x : Agent) : View :=
  (run node_handler (reconcileOnce x.1.1 x.1.2) (v, x.2)).2.1.

Definition pass {H : XXHash} (xs : list Agent) (v : View) : View := foldl one_round v xs.

Section convergence.
Context {H : XXHash}.
Variable P : string.

(** What a round of node [n] does to the record of one shard whose suggested
    owner is [sug]. *)
Definition round_record (n : string) (l : LeaseID) (sug : string)
    (before after : option KeyValue) : Prop :=
  match before with
  | None => if (sug =? n)%string
      then exists kv, after = Some kv /\ Value kv = n /\ KvLease kv = l
      else after = None
  | Some kv =>
      if (Value kv =? n)%string then
        if (sug =? n)%string
        then exists kv', after = Some kv' /\ Value kv' = n /\ KvLease kv' = l
        else after = None
      else after = Some kv
  end.

Record after_round (n : string) (l : LeaseID) (v v' : View) : Prop := {
  ar_wf : view_wf v';
  ar_quiet : quiet v v';
  ar_shards s : s ∈ shards ->
    round_record n l (Rendezvous s (members_of v P)) (ownership v P s) (ownership v' P s);
  ar_others k : (forall s, s ∈ shards -> k <> shardKey P s) -> kvs v' !! k = kvs v !! k;
}.

(** ** Stores that differ in shard records only *)

(** A store that differs from [v] at most in shard records. *)
Record same_frame (v v' : View) : Prop := {
  sf_wf : view_wf v';
  sf_quiet : quiet v v';
  sf_others k : (forall s, s ∈ shards -> k <> shardKey P s) -> kvs v' !! k = kvs v !! k;
}.

Lemma same_frame_refl (v : View) : view_wf v -> same_frame v v.
Proof. intros Hwf. by split. Qed.

Lemma same_frame_trans (v1 v2 v3 : View) :
  same_frame v1 v2 -> same_frame v2 v3 -> same_frame v1 v3.
Proof.
  intros [_ (Hn & Hl & Hg) Ho] [Hw (Hn' & Hl' & Hg') Ho']. split; [done| |].
  - split_and!; congruence.
  - intros k Hk. rewrite Ho' by done. by apply Ho.
Qed.

Lemma same_frame_live (v v' : View) (l' : LeaseID) :
  same_frame v v' -> lease_live v' l' = lease_live v l'.
Proof. intros [_ (_ & Hl & _) _]. unfold lease_live. by rewrite Hl. Qed.

Lemma same_frame_canonical (v v' : View) :
  same_frame v v' -> canonical v P -> canonical v' P.
Proof.
  intros [_ _ Ho] Hc k kv t s Hk Hkt Ha Hs.
  destruct (decide (Exists (fun s' => k = shardKey P s') shards)) as [Hex|Hnex].
  - apply Exists_exists in Hex as (s' & Hs' & ->). rewrite shardKey_base in Hkt by done.
    apply append_inj_l in Hkt as <-. unfold strconv.Atoi, strconv.Itoa in Ha.
    rewrite strconv.ParseInt_FormatInt in Ha by (by apply shards_int64). by simplify_eq.
  - eapply Hc; [|done|done|done]. rewrite <- (Ho k); [exact Hk|].
    intros s' Hs' ->. apply Hnex, Exists_exists. eauto.
Qed.

Lemma put_frame (v : View) (s : Z) (n' : string) (l' : LeaseID) :
  s ∈ shards -> view_wf v -> lease_live v l' = true -> same_frame v (put_kv v (shardKey P s) n' l').
Proof.
  intros Hs Hwf Hl. split; [by apply put_kv_wf|done|].
  intros k Hk. cbn. rewrite lookup_insert_ne; [done|]. intros Heq. by destruct (Hk s Hs).
Qed.

Lemma delete_frame (v : View) (s : Z) :
  s ∈ shards -> view_wf v -> same_frame v (delete_kv v (shardKey P s)).
Proof.
  intros Hs Hwf. split; [by apply delete_kv_wf| |].
  - unfold quiet, delete_kv. by destruct (kvs v !! shardKey P s).
  - intros k Hk. rewrite delete_kv_lookup, decide_False; [done|]. by apply Hk.
Qed.

(** ** The loops on a healthy etcd *)

Section round.
Variable c : Coordinator.
Variable m : Membership.
Hypothesis Hprefix : prefix c = P.
Hypothesis Hnode : nodeID c <> "".

Let n := nodeID c.
Let l := leaseID m.

Lemma run_load_shard_map (v : View) :
  run etcd_handler (LoadShardMap P) v
  = (Ok (foldl (load_step (ownershipBase P) Value) (arr_zero "")
           (range_prefix v (ownershipBase P))), v).
Proof. done. Qed.

Lemma run_load_ownership_map (v : View) :
  run etcd_handler (LoadOwnershipMap P) v
  = (Ok (foldl (load_step (ownershipBase P)
           (fun kv => mkOwnerInfo (Value kv) (ModRevision kv) (KvLease kv)))
           (arr_zero (mkOwnerInfo "" 0 0)) (range_prefix v (ownershipBase P))), v).
Proof. done. Qed.

Lemma run_claim (s : Z) (v : View) (g : Guarded) :
  s ∈ shards -> view_wf v -> lease_live v l = true ->
  exists v', run node_handler (let! _ := etcd (ClaimShard (prefix c) s (nodeID c) (LeaseID_ m)) in Ret tt)
      (v, g) = (tt, (v', g)) /\ same_frame v v' /\
    (forall s', s' ∈ shards -> s' <> s -> ownership v' P s' = ownership v P s') /\
    match ownership v P s with
    | None => exists kv, ownership v' P s = Some kv /\ Value kv = n /\ KvLease kv = l
    | Some kv => ownership v' P s = Some kv
    end.
Proof.
  intros Hs Hwf Hl. rewrite Hprefix. cbn. unfold ownership.
  destruct (kvs v !! shardKey P s) as [kv|] eqn:Ek.
  - destruct (Z.eqb_spec (CreateRevision kv) 0) as [He|He];
      [apply wf_mod in Ek as ?; [lia|done]|].
    exists v. split; [done|]. split; [by apply same_frame_refl|]. done.
  - rewrite Z.eqb_refl. fold l. unfold LeaseID_. fold l. rewrite Hl.
    exists (put_kv v (shardKey P s) n l). split; [done|]. split; [by apply put_frame|]. split.
    + intros s' Hs' Hne. cbn. rewrite lookup_insert_ne; [done|].
      intros ?%shardKey_inj; [congruence|done|done].
    + eexists. cbn. rewrite lookup_insert_eq. done.
Qed.

Lemma run_release (s : Z) (v : View) (g : Guarded) :
  s ∈ shards -> view_wf v ->
  exists v' g', run node_handler (MarkReleasing s ;;;
        let! _ := etcd (ReleaseShard (prefix c) s (nodeID c)) in Ret tt) (v, g) = (tt, (v', g')) /\
    same_frame v v' /\
    (forall s', s' ∈ shards -> s' <> s -> ownership v' P s' = ownership v P s') /\
    ownership v' P s = match ownership v P s with
      | Some kv => if (Value kv =? n)%string then None else Some kv
      | None => None
      end.
Proof.
  intros Hs Hwf. rewrite Hprefix. cbn.
  assert (Hkeep : same_frame v v) by (by apply same_frame_refl).
  change (kvs v !! shardKey P s) with (ownership v P s).
  destruct (ownership v P s) as [kv|] eqn:Ek; cbn.
  - fold n. destruct (String.eqb_spec (Value kv) n) as [He|He].
    + eexists (delete_kv v (shardKey P s)), _. split; [done|]. split; [by apply delete_frame|].
      split; [intros s' Hs' Hne; by rewrite delete_ownership, decide_False|].
      by rewrite delete_ownership, decide_True.
    + eexists v, _. split; [done|]. done.
  - eexists v, _. split; [done|]. done.
Qed.

(** A re-binding by [n] of a shard that the loaded map gives to [n]. *)
Lemma run_rebind (om : list OwnerInfo) (release : list Z) (s : Z) (v0 v : View) (g : Guarded) :
  s ∈ shards -> view_wf v -> lease_live v l = true -> arr_get om s = owner_info v0 P s ->
  exists v' g', run node_handler
      (if negb (Owner (arr_get om s) =? nodeID c)%string || (OwnerLease (arr_get om s) =? LeaseID_ m)%Z
       then Ret tt
       else if bool_decide (s ∈ (list_to_set release : gset Z)) then Ret tt
       else let! _ := etcd (RebindShard (prefix c) s (nodeID c) (LeaseID_ m)) in Ret tt) (v, g)
      = (tt, (v', g')) /\ same_frame v v' /\
    (forall s', s' ∈ shards -> s' <> s -> ownership v' P s' = ownership v P s') /\
    (ownership v P s = ownership v0 P s ->
     match ownership v0 P s with
     | Some kv =>
       if (Value kv =? n)%string && negb (bool_decide (s ∈ release))
       then exists kv', ownership v' P s = Some kv' /\ Value kv' = n /\ KvLease kv' = l
       else ownership v' P s = Some kv
     | None => ownership v' P s = None
     end).
Proof.
  intros Hs Hwf Hl Hom. rewrite Hprefix, Hom. unfold owner_info. fold n. unfold LeaseID_. fold l.
  assert (Hkeep : same_frame v v) by (by apply same_frame_refl).
  destruct (ownership v0 P s) as [kv|] eqn:E0; cbn [Owner OwnerLease]; cycle 1.
  { destruct (String.eqb_spec "" n) as [He|He]; [by destruct Hnode|]. cbn [negb orb].
    exists v, g. done. }
  destruct (String.eqb_spec (Value kv) n) as [He|He]; cbn [negb orb andb];
    [|exists v, g; done].
  destruct (Z.eqb_spec (KvLease kv) l) as [Hkl|Hkl].
  { exists v, g. split_and!; [done|done|done|]. intros ->. case_bool_decide; cbn; eauto. }
  destruct (decide (s ∈ release)) as [Hin|Hin].
  { rewrite !bool_decide_eq_true_2 by set_solver. exists v, g. done. }
  rewrite !bool_decide_eq_false_2 by set_solver. cbn [negb].
  cbn. change (kvs v !! shardKey P s) with (ownership v P s).
  destruct (ownership v P s) as [kv1|] eqn:E1; cycle 1.
  { exists v, g. split_and!; [done|done|done|]. by intros. }
  destruct (String.eqb_spec (Value kv1) n) as [He1|He1]; cycle 1.
  { exists v, g. split_and!; [done|done|done|]. intros [= ->]. done. }
  rewrite Hl. exists (put_kv v (shardKey P s) n l), g.
  split; [done|]. split; [by apply put_frame|]. split.
  - intros s' Hs' Hne. rewrite put_kv_ownership, decide_False; [done|].
    intros ?%shardKey_inj; [congruence|done|done].
  - intros _. rewrite put_kv_ownership, decide_True by done. eauto.
Qed.

(** A loop whose body works on one shard record at a time. *)
Lemma run_pointwise (body : Z -> prog (nodeE Guarded) unit)
    (R : Z -> option KeyValue -> option KeyValue -> Prop) (todo : list Z) (v : View) (g : Guarded) :
  NoDup todo -> (forall s, s ∈ todo -> s ∈ shards) -> view_wf v -> lease_live v l = true ->
  (forall s v g, s ∈ todo -> view_wf v -> lease_live v l = true ->
     exists v' g', run node_handler (body s) (v, g) = (tt, (v', g')) /\ same_frame v v' /\
       (forall s', s' ∈ shards -> s' <> s -> ownership v' P s' = ownership v P s') /\
       R s (ownership v P s) (ownership v' P s)) ->
  exists v' g', run node_handler (for_each todo body) (v, g) = (tt, (v', g')) /\ same_frame v v' /\
    (forall s, s ∈ shards -> s ∉ todo -> ownership v' P s = ownership v P s) /\
    (forall s, s ∈ todo -> R s (ownership v P s) (ownership v' P s)).
Proof.
  revert v g. induction todo as [|x todo IH]; intros v g Hnd Hsub Hwf Hl Hbody.
  { exists v, g. split_and!; [done|by apply same_frame_refl|done|]. intros s Hs. set_solver. }
  apply NoDup_cons in Hnd as [Hx Hnd].
  destruct (Hbody x v g) as (v1 & g1 & Hr1 & Hf1 & Ho1 & HR1); [left|done|done|].
  destruct (IH v1 g1) as (v2 & g2 & Hr2 & Hf2 & Ho2 & HR2).
  { done. }
  { intros s Hs. apply Hsub. by right. }
  { apply Hf1. }
  { by rewrite (same_frame_live v). }
  { intros s v' g' Hs. apply Hbody. by right. }
  exists v2, g2. split_and!.
  - rewrite run_for_each_cons, Hr1. exact Hr2.
  - by eapply same_frame_trans.
  - intros s Hs [Hne Hn]%not_elem_of_cons. rewrite Ho2 by done. by apply Ho1.
  - intros s [->|Hs]%elem_of_cons.
    + rewrite Ho2; [done|apply Hsub; left|done].
    + rewrite <- Ho1; [by apply HR2|apply Hsub; by right|]. intros ->. done.
Qed.

(** ** One round *)

(** The records after each loop. *)
Definition claimed (b a : option KeyValue) : Prop :=
  match b with
  | None => exists kv, a = Some kv /\ Value kv = n /\ KvLease kv = l
  | Some kv => a = Some kv
  end.

Definition released (b : option KeyValue) : option KeyValue :=
  match b with
  | Some kv => if (Value kv =? n)%string then None else Some kv
  | None => None
  end.

Definition rebound (release : list Z) (s : Z) (b a : option KeyValue) : Prop :=
  match b with
  | Some kv =>
    if (Value kv =? n)%string && negb (bool_decide (s ∈ release))
    then exists kv', a = Some kv' /\ Value kv' = n /\ KvLease kv' = l
    else a = Some kv
  | None => a = None
  end.

(** The three loops one after the other, on the record of one shard. *)
Lemma loops_compose (s : Z) (sug : string) (claim release : list Z) (b r1 r2 r3 : option KeyValue) :
  (s ∈ claim <-> from_option Value "" b = "" /\ sug = n) ->
  (s ∈ release <-> from_option Value "" b = n /\ sug <> n) ->
  (s ∉ claim -> r1 = b) -> (s ∈ claim -> claimed b r1) ->
  (s ∉ release -> r2 = r1) -> (s ∈ release -> r2 = released r1) ->
  rebound release s r2 r3 ->
  round_record n l sug b r3.
Proof.
  intros Hc Hr Hnc Hyc Hnr Hyr H3. unfold round_record, claimed, released, rebound in *.
  destruct b as [kv|]; cbn [from_option] in *.
  - destruct (String.eqb_spec (Value kv) n) as [Hv|Hv].
    + assert (s ∉ claim) as Hni by (rewrite Hc; intros [Hv' _]; apply Hnode; unfold n in *; congruence).
      rewrite (Hnc Hni) in *. destruct (String.eqb_spec sug n) as [Hs|Hs].
      * assert (s ∉ release) as Hnir by naive_solver. rewrite (Hnr Hnir) in H3.
        apply String.eqb_eq in Hv. rewrite Hv, bool_decide_eq_false_2 in H3 by done. exact H3.
      * assert (s ∈ release) as Hir by naive_solver. rewrite (Hyr Hir) in H3.
        apply String.eqb_eq in Hv. by rewrite Hv in H3.
    + assert (r1 = Some kv) as -> by (destruct (decide (s ∈ claim)); auto).
      assert (s ∉ release) as Hnir by naive_solver. rewrite (Hnr Hnir) in H3.
      apply String.eqb_neq in Hv. by rewrite Hv in H3.
  - assert (s ∉ release) as Hnir by (rewrite Hr; intros [? _]; by apply Hnode).
    rewrite (Hnr Hnir) in H3. destruct (String.eqb_spec sug n) as [Hs|Hs].
    + assert (s ∈ claim) as Hi by naive_solver. destruct (Hyc Hi) as (kv & -> & Hv & _).
      apply String.eqb_eq in Hv. rewrite Hv, bool_decide_eq_false_2 in H3 by done. exact H3.
    + assert (s ∉ claim) as Hni by naive_solver. by rewrite (Hnc Hni) in H3.
Qed.

Lemma run_claimLoop (claim : list Z) (v : View) (g : Guarded) :
  NoDup claim -> (forall s, s ∈ claim -> s ∈ shards) -> view_wf v -> lease_live v l = true ->
  exists v1 g1, run node_handler (claimLoop c (LeaseID_ m) claim) (v, g) = (tt, (v1, g1)) /\
    same_frame v v1 /\
    (forall s, s ∈ shards -> s ∉ claim -> ownership v1 P s = ownership v P s) /\
    (forall s, s ∈ claim -> claimed (ownership v P s) (ownership v1 P s)).
Proof.
  intros Hnd Hin Hwf Hl. unfold claimLoop.
  apply (run_pointwise _ (fun s b a => claimed b a)); [done|done|done|done|].
  intros s v0 g0 Hs Hwf0 Hl0.
  destruct (run_claim s v0 g0) as (v' & ? & ? & ? & ?); [auto|done|done|]. eauto 10.
Qed.

Lemma run_releaseLoop (release : list Z) (v : View) (g : Guarded) :
  NoDup release -> (forall s, s ∈ release -> s ∈ shards) -> view_wf v -> lease_live v l = true ->
  exists v1 g1, run node_handler (releaseLoop c release) (v, g) = (tt, (v1, g1)) /\
    same_frame v v1 /\
    (forall s, s ∈ shards -> s ∉ release -> ownership v1 P s = ownership v P s) /\
    (forall s, s ∈ release -> ownership v1 P s = released (ownership v P s)).
Proof.
  intros Hnd Hin Hwf Hl. unfold releaseLoop.
  apply (run_pointwise _ (fun s b a => a = released b)); [done|done|done|done|].
  intros s v0 g0 Hs Hwf0 _.
  destruct (run_release s v0 g0) as (v' & g' & ? & ? & ? & ?); [auto|done|]. eauto 10.
Qed.

Lemma run_rebindLoop (om : list OwnerInfo) (release : list Z) (v : View) (g : Guarded) :
  (forall s, s ∈ shards -> arr_get om s = owner_info v P s) ->
  view_wf v -> lease_live v l = true ->
  exists v1 g1, run node_handler (rebindLoop c (LeaseID_ m) release om) (v, g) = (tt, (v1, g1)) /\
    same_frame v v1 /\
    (forall s, s ∈ shards -> rebound release s (ownership v P s) (ownership v1 P s)).
Proof.
  intros Hom Hwf Hl. unfold rebindLoop.
  destruct (run_pointwise (fun s =>
      if negb (Owner (arr_get om s) =? nodeID c)%string || (OwnerLease (arr_get om s) =? LeaseID_ m)%Z
      then Ret tt
      else if bool_decide (s ∈ (list_to_set release : gset Z)) then Ret tt
      else let! _ := etcd (RebindShard (prefix c) s (nodeID c) (LeaseID_ m)) in Ret tt)
    (fun s b a => b = ownership v P s -> rebound release s (ownership v P s) a)
    shards v g) as (v1 & g1 & Hr & Hf & _ & Hyes); [apply NoDup_shards|done|done|done| |].
  - intros s v0 g0 Hs Hwf0 Hl0. apply (run_rebind om release s v); auto.
  - exists v1, g1. split; [exact Hr|]. split; [done|]. intros s Hs. by apply Hyes.
Qed.

(** What the maps rebuilt from a load of [v2] say about the store [v3] after the
    re-bindings. *)
Lemma published_spec (om : list OwnerInfo) (release : list Z) (v2 v3 : View) :
  (forall s, s ∈ shards -> arr_get om s = owner_info v2 P s) ->
  (forall s, s ∈ release -> exists b, ownership v2 P s = released b) ->
  (forall s, s ∈ shards -> rebound release s (ownership v2 P s) (ownership v3 P s)) ->
  releasingOf release (ownedOf c om) = ∅ /\
  forall s, is_Some (ownedOf c om !! s) <->
    s ∈ shards /\ exists kv, ownership v3 P s = Some kv /\ Value kv = n.
Proof.
  intros Hom Hrel Hreb.
  assert (Howned : forall s, is_Some (ownedOf c om !! s) <->
    s ∈ shards /\ exists kv, ownership v2 P s = Some kv /\ Value kv = n).
  { intros s. split.
    - intros [t (Hs & Ho & _)%ownedOf_lookup]. split; [done|]. rewrite Hom in Ho by done.
      unfold owner_info in Ho. destruct (ownership v2 P s); [eauto|by destruct Hnode].
    - intros (Hs & kv & Ho & Hv). eexists. apply ownedOf_lookup. split; [done|]. split; [|done].
      rewrite Hom by done. unfold owner_info. by rewrite Ho. }
  split.
  - apply set_eq. intros s. rewrite releasingOf_elem, Howned. split; [|set_solver].
    intros (Hs & _ & kv & Ho & Hv). destruct (Hrel s Hs) as [[kv'|] Hb]; cbn in Hb; [|congruence].
    rewrite Ho in Hb. destruct (String.eqb_spec (Value kv') n); congruence.
  - intros s. rewrite Howned. split; intros (Hs & kv & Ho & Hv); (split; [done|]);
      specialize (Hreb s Hs); unfold rebound in Hreb.
    + rewrite Ho in Hreb. destruct ((Value kv =? n)%string && _); naive_solver.
    + destruct (ownership v2 P s) as [kv2|]; [|congruence].
      destruct (String.eqb_spec (Value kv2) n) as [|Hne]; [eauto|]. naive_solver.
Qed.

(** One round of one node. *)
Lemma run_reconcileOnce (v : View) (g : Guarded) :
  view_wf v -> canonical v P -> lease_live v l = true ->
  exists v' g', run node_handler (reconcileOnce c m) (v, g) = (tt, (v', g')) /\
    after_round n l v v' /\ releasing g' = ∅ /\
    forall s, is_Some (owned g' !! s) <->
      s ∈ shards /\ exists kv, ownership v' P s = Some kv /\ Value kv = n.
Proof.
  intros Hwf Hc Hl. unfold reconcileOnce. rewrite Hprefix, run_bind.
  change (run node_handler (etcd (ListMembers P)) (v, g)) with (Ok (members_of v P), (v, g)).
  cbn iota beta. rewrite run_bind, run_etcd, run_load_shard_map. cbn iota beta.
  set (sm := foldl (load_step (ownershipBase P) Value) _ _).
  assert (Hsm : forall s, s ∈ shards -> arr_get sm s = from_option Value "" (ownership v P s))
    by (intros; by apply load_spec).
  pose proof (elem_of_claim (nodeID c) (members_of v P) sm) as Hclaim.
  pose proof (elem_of_release (nodeID c) (members_of v P) sm) as Hrelease.
  pose proof (Reconcile_NoDup (nodeID c) (members_of v P) sm) as [Hnd1 Hnd2].
  destruct (Reconcile (nodeID c) (members_of v P) sm) as [claim release].
  cbn [fst snd] in Hclaim, Hrelease, Hnd1, Hnd2. fold n in Hclaim, Hrelease.
  rewrite run_bind.
  destruct (run_claimLoop claim v g) as (v1 & g1 & -> & Hf1 & Hno1 & Hyes1); [done|naive_solver|done|done|].
  rewrite run_bind.
  destruct (run_releaseLoop release v1 g1) as (v2 & g2 & -> & Hf2 & Hno2 & Hyes2);
    [done|naive_solver|apply Hf1|by rewrite (same_frame_live v)|].
  assert (same_frame v v2) as Hf02 by (by eapply same_frame_trans).
  rewrite run_bind, run_etcd, run_load_ownership_map. cbn iota beta.
  set (om := foldl (load_step (ownershipBase P) _) _ _).
  assert (Hom : forall s, s ∈ shards -> arr_get om s = owner_info v2 P s).
  { intros. apply load_owner_info; [apply Hf02|by eapply same_frame_canonical|done]. }
  rewrite run_bind.
  destruct (run_rebindLoop om release v2 g2) as (v3 & g3 & -> & Hf3 & Hyes3);
    [done|apply Hf02|by rewrite (same_frame_live v)|].
  assert (same_frame v v3) as Hf03 by (by eapply same_frame_trans).
  eexists v3, _. split; [done|]. split; [|apply (published_spec om release v2 v3); eauto].
  split; [apply Hf03|apply Hf03| |apply Hf03].
  intros s Hs. specialize (Hclaim s). specialize (Hrelease s). rewrite Hsm in Hclaim, Hrelease by done.
  eapply (loops_compose s _ claim release _ (ownership v1 P s) (ownership v2 P s));
    [naive_solver|naive_solver|auto..].
Qed.

End round.

(** ** Rounds of all members *)

Definition agent_id (x : Agent) : string := nodeID x.1.1.
Definition agent_lease (x : Agent) : LeaseID := leaseID x.1.2.

Definition agent_ok (v : View) (x : Agent) : Prop :=
  prefix x.1.1 = P /\ agent_id x <> "" /\ lease_live v (agent_lease x) = true.

Lemma one_round_spec (v : View) (x : Agent) :
  view_wf v -> canonical v P -> agent_ok v x ->
  after_round (agent_id x) (agent_lease x) v (one_round v x).
Proof.
  intros Hwf Hc (Hp & Hn & Hl).
  destruct (run_reconcileOnce x.1.1 x.1.2 Hp Hn v x.2) as (v' & g' & Hr & Ha & _); [done|done|done|].
  unfold one_round. by rewrite Hr.
Qed.

Lemma after_round_frame (n : string) (l : LeaseID) (v v' : View) :
  after_round n l v v' -> same_frame v v'.
Proof. intros [? ? _ ?]. by split. Qed.

Lemma after_round_members (n : string) (l : LeaseID) (v v' : View) :
  view_wf v -> after_round n l v v' -> members_of v' P = members_of v P.
Proof.
  intros Hwf Ha. unfold members_of. f_equal.
  apply range_prefix_ext; [done|apply Ha|]. intros k [t ->]%strings.HasPrefix_spec.
  apply Ha. intros s Hs. by apply member_key_not_shardKey.
Qed.

(** What stays true of the store through the rounds of agents [xs]. *)
Record steady (ms : list string) (xs : list Agent) (v : View) : Prop := {
  st_wf : view_wf v;
  st_canonical : canonical v P;
  st_members : members_of v P = ms;
  st_agents : Forall (agent_ok v) xs;
}.

Lemma steady_round (ms : list string) (xs : list Agent) (v v' : View) (n : string) (l : LeaseID) :
  after_round n l v v' -> steady ms xs v -> steady ms xs v'.
Proof.
  intros Ha [Hwf Hc Hm Hx]. pose proof (after_round_frame _ _ _ _ Ha) as Hf. split.
  - apply Ha.
  - by eapply same_frame_canonical.
  - rewrite <- Hm. by eapply after_round_members.
  - eapply Forall_impl; [done|]. intros x (? & ? & ?). split_and!; [done|done|].
    by rewrite (same_frame_live v v' _ Hf).
Qed.

(** A property of one shard's record along a pass: [I done] holds when the
    agents [done] have had their turn. *)
Lemma pass_induction (ms : list string) (all : list Agent) (s : Z)
    (I : list Agent -> option KeyValue -> Prop) (v : View) :
  s ∈ shards -> steady ms all v -> I [] (ownership v P s) ->
  (forall done_ x todo r r', all = done_ ++ x :: todo -> agent_id x <> "" -> I done_ r ->
     round_record (agent_id x) (agent_lease x) (Rendezvous s ms) r r' -> I (done_ ++ [x]) r') ->
  steady ms all (pass all v) /\ I all (ownership (pass all v) P s).
Proof.
  intros Hs Hst H0 Hstep.
  assert (Hgen : forall done_ todo v', all = done_ ++ todo -> steady ms all v' ->
    I done_ (ownership v' P s) ->
    steady ms all (pass todo v') /\ I all (ownership (pass todo v') P s)); [|by apply (Hgen [] all)].
  intros done_ todo. revert done_. induction todo as [|x todo IH]; intros done_ v' Hall Hst' HI.
  { rewrite app_nil_r in Hall. by subst. }
  cbn [pass foldl]. assert (agent_ok v' x) as Hx.
  { eapply Forall_forall; [apply Hst'|]. rewrite Hall. set_solver. }
  pose proof (one_round_spec v' x (st_wf _ _ _ Hst') (st_canonical _ _ _ Hst') Hx) as Ha.
  apply (IH (done_ ++ [x])).
  - by rewrite <- app_assoc.
  - by eapply steady_round.
  - eapply Hstep; [done|apply Hx|done|]. rewrite <- (st_members _ _ _ Hst'). by apply Ha.
Qed.

(** After a first pass a shard is unowned or with its rendezvous owner. *)
Definition settled (ms : list string) (s : Z) (r : option KeyValue) : Prop :=
  forall kv, r = Some kv -> Value kv = Rendezvous s ms.

Lemma first_pass (ms : list string) (all : list Agent) (v : View) (s : Z) :
  s ∈ shards -> steady ms all v -> (forall m, m ∈ ms -> m ∈ agent_id <$> all) ->
  (forall kv, ownership v P s = Some kv -> Value kv ∈ ms) ->
  steady ms all (pass all v) /\ settled ms s (ownership (pass all v) P s).
Proof.
  intros Hs Hst Hcover Hown.
  destruct (pass_induction ms all s (fun done_ r => forall kv, r = Some kv ->
    Value kv = Rendezvous s ms \/ (Value kv ∈ ms /\ Value kv ∉ agent_id <$> done_)) v)
    as [Hst' HI]; [done|done| | |].
  - intros kv Hkv. right. split; [eauto|]. set_solver.
  - intros done_ x todo r r' Hall Hx Hr Hrec kv' ->. rewrite fmap_app.
    unfold round_record in Hrec. destruct r as [kv|].
    + destruct (String.eqb_spec (Value kv) (agent_id x)) as [Hv|Hv],
        (String.eqb_spec (Rendezvous s ms) (agent_id x)) as [Hsg|Hsg].
      * destruct Hrec as (? & [= <-] & ? & _). left. congruence.
      * done.
      * injection Hrec as ->. destruct (Hr kv eq_refl) as [?|[? ?]]; [by left|right]. set_solver.
      * injection Hrec as ->. destruct (Hr kv eq_refl) as [?|[? ?]]; [by left|right]. set_solver.
    + destruct (String.eqb_spec (Rendezvous s ms) (agent_id x)) as [Hsg|Hsg]; [|done].
      destruct Hrec as (? & [= <-] & ? & _). left. congruence.
  - split; [done|]. intros kv Hkv. destruct (HI kv Hkv) as [?|[Hin Hnin]]; [done|].
    by destruct Hnin; apply Hcover.
Qed.

(** A further pass over settled shards gives each of them to its owner. *)
Lemma second_pass (ms : list string) (all : list Agent) (v : View) (s : Z) :
  s ∈ shards -> steady ms all v -> Rendezvous s ms ∈ agent_id <$> all ->
  settled ms s (ownership v P s) ->
  exists kv, ownership (pass all v) P s = Some kv /\ Value kv = Rendezvous s ms.
Proof.
  intros Hs Hst Hin Hset.
  destruct (pass_induction ms all s (fun done_ r => settled ms s r /\
    (Rendezvous s ms ∈ agent_id <$> done_ -> is_Some r)) v) as [_ [HI1 HI2]]; [done|done| | |].
  - split; [done|]. set_solver.
  - intros done_ x todo r r' Hall Hx [Hr1 Hr2] Hrec. rewrite fmap_app.
    unfold round_record in Hrec. destruct r as [kv|].
    + specialize (Hr1 kv eq_refl).
      destruct (String.eqb_spec (Value kv) (agent_id x)) as [Hv|Hv],
        (String.eqb_spec (Rendezvous s ms) (agent_id x)) as [Hsg|Hsg].
      * destruct Hrec as (kv' & -> & Hv' & _). split; [|eauto]. intros ? [= <-]. congruence.
      * congruence.
      * congruence.
      * subst r'. split; [|eauto]. by intros ? [= <-].
    + destruct (String.eqb_spec (Rendezvous s ms) (agent_id x)) as [Hsg|Hsg].
      * destruct Hrec as (kv' & -> & Hv' & _). split; [|eauto]. intros ? [= <-]. congruence.
      * subst r'. split; [done|]. intros [Hd|Hd]%elem_of_app; [by destruct (Hr2 Hd)|].
        set_solver.
  - destruct (HI2 Hin) as [kv Hkv]. exists kv. split; [done|]. by apply HI1.
Qed.

End convergence.

(** ** Properties *)

(** C3: The control loop converges.  On a healthy etcd whose shards are unowned or
    owned by registered members, let every member run one whole round, one after the
    other in any order, and after all of them each run another whole round, again in
    any order.  Then every shard is held by its rendezvous owner: a complete,
    disjoint cover. *)
Theorem reconcile_converges {H : XXHash} (P : string) (v : View) (xs ys : list Agent) :
  view_wf v -> canonical v P ->
  Forall (agent_ok P v) xs -> ys ≡ₚ xs ->
  agent_id <$> xs ≡ₚ members_of v P -> members_of v P <> [] ->
  (forall s kv, s ∈ shards -> ownership v P s = Some kv -> Value kv ∈ members_of v P) ->
  forall s, s ∈ shards ->
    exists kv, ownership (pass ys (pass xs v)) P s = Some kv /\
      Value kv = Rendezvous s (members_of v P).
Proof.
  intros Hwf Hc Hok Hys Hids Hne Hown s Hs.
  assert (steady P (members_of v P) xs v) as Hst by (by split).
  destruct (first_pass P (members_of v P) xs v s) as [Hst1 Hset]; [done|done| |by eauto|].
  { intros m Hm. by rewrite Hids. }
  apply second_pass; [done| | |done].
  - destruct Hst1 as [? ? ? Hag]. split; [done|done|done|]. by rewrite Hys.
  - rewrite Hys, Hids. apply Rendezvous_elem; [done|].
    rewrite <- Hids. intros (x & Hx & Hin)%list_elem_of_fmap.
    rewrite Forall_forall in Hok. destruct (Hok x Hin) as (_ & Hn & _). by rewrite <- Hx in Hn.
Qed.

Definition two_members : View :=
  joined (joined empty_view "catalog" "a" 10 1 0 0) "catalog" "b" 10 2 0 0.

Lemma two_members_wf : view_wf two_members.
Proof. unfold two_members. auto with catalog. Qed.

Lemma two_members_canonical : canonical two_members "catalog".
Proof. unfold two_members. auto with catalog. Qed.

Lemma two_members_ids : members_of two_members "catalog" = ["a"; "b"].
Proof. reflexivity. Qed.

Lemma two_members_unowned (s : Z) : s ∈ shards -> ownership two_members "catalog" s = None.
Proof. intros Hs. unfold two_members. rewrite !joined_ownership by done. apply lookup_empty. Qed.

Definition demo_agent (n : string) (l : LeaseID) : Agent :=
  ((NewCoordinator "catalog" n 10 0).1, mkMembership "catalog" n l 0 false false KaRanging false,
   mkGuarded ∅ ∅).

Lemma reconcile_converges_witness :
  let xs := [demo_agent "a" 1; demo_agent "b" 2] in
  exists kv, ownership (pass (H := ToyHash) (reverse xs) (pass (H := ToyHash) xs two_members))
    "catalog" 7 = Some kv /\ Value kv = Rendezvous (H := ToyHash) 7 ["a"; "b"].
Proof.
  intros xs. rewrite <- two_members_ids.
  apply (reconcile_converges (H := ToyHash) "catalog" two_members xs (reverse xs)).
  - exact two_members_wf.
  - exact two_members_canonical.
  - repeat constructor; discriminate.
  - apply reverse_Permutation.
  - rewrite two_members_ids. reflexivity.
  - rewrite two_members_ids. discriminate.
  - intros s kv Hs Ho. rewrite two_members_unowned in Ho by exact Hs. discriminate Ho.
  - apply elem_of_shards. unfold ShardCount. lia.
Defined.
