(* ===== verification/Publication.v ===== *)
(** * What a round publishes

    [reconcileOnce] under arbitrary interference: any clients, any failures, any
    lease expiries.  A round replaces the published shards at most once, by a
    snapshot of the store that it read during the round.  Alone on a healthy etcd,
    a round does what it is for, adoption included ([healthy_round]); what
    publishing an earlier snapshot leaves open is [adoption_race]. *)

From S2P Require Import Prelude GoStd Placement Reconcile Prog Etcd Ownership Membership Coordinator Serving Convergence.

Section publication.
Context {H : XXHash} {D : Etcd}.
Variable c : Coordinator.
Variable m : Membership.
Hypothesis Hnode : nodeID c <> "".
Variable v0 : View.       (* the store when the round begins *)

(** Others do anything to the store that keeps shard keys well spelled; the
    guarded state is the round's, marks set from outside the loop aside. *)
Definition interference (s s' : St * Guarded) : Prop :=
  rtc view_step (view s.1) (view s'.1) /\
  (canonical (view s.1) (prefix c) -> canonical (view s'.1) (prefix c)) /\ s'.2 = s.2.

Definition round_inv (s : St * Guarded) : Prop :=
  view_wf (view s.1) /\ canonical (view s.1) (prefix c) /\ rtc view_step v0 (view s.1).

#[local] Abbreviation WP := (wp node_step interference (fun _ _ => True) round_inv).

(** Facts that last while the store moves on and the guarded state stays. *)
Definition lasting (J : St * Guarded -> Prop) : Prop :=
  forall s s', rtc view_step (view s.1) (view s'.1) -> s'.2 = s.2 -> J s -> J s'.

Definition keeps_canonical {X} (e : etcdE X) : Prop :=
  forall v x v', view_wf v -> canonical v (prefix c) -> etcd_allowed X v e x v' -> canonical v' (prefix c).

Lemma inv_call {X} (e : etcdE X) (s s' : St * Guarded) x :
  keeps_canonical e -> round_inv s -> node_step X s (EtcdCall e) x s' ->
  round_inv s' /\ rtc view_step (view s.1) (view s'.1) /\ s'.2 = s.2.
Proof.
  intros He (Hwf & Hc & Hr) [Hd Hg]. apply etcd_documented in Hd.
  assert (view_step (view s.1) (view s'.1)) as Hs by (by eapply vs_call).
  split; [|split; [by apply rtc_once|done]]. split; [by eapply etcd_allowed_wf|].
  split; [by eapply He|]. by eapply rtc_r.
Qed.

Lemma wp_store_call {X A} (e : etcdE X) (f : X -> A) (J : St * Guarded -> Prop) (s : St * Guarded) :
  keeps_canonical e -> lasting J -> J s ->
  WP (etcd (let! r := call e in Ret (f r))) (fun _ s' => J s') s.
Proof.
  intros He HJ Hs s1 x s2 (Hr & _ & Hg) Hi Hstep.
  destruct (inv_call e s1 s2 x He Hi Hstep) as (Hi2 & Hr2 & Hg2).
  split; [done|]. split; [done|]. apply (HJ s1); [done|done|]. by apply (HJ s).
Qed.

Lemma claim_canonical (sh : Z) n l : sh ∈ shards ->
  keeps_canonical (Txn (CmpCreateRevision (shardKey (prefix c) sh) 0) (OpPut (shardKey (prefix c) sh) n l)).
Proof.
  intros Hs v x v' Hwf Hc Ha. apply claim_allowed in Ha as [(_ & _ & -> & _)|[-> _]]; [|done|done].
  by apply canonical_put.
Qed.

Lemma release_canonical (sh : Z) n : sh ∈ shards ->
  keeps_canonical (Txn (CmpValue (shardKey (prefix c) sh) n) (OpDelete (shardKey (prefix c) sh))).
Proof.
  intros Hs v x v' Hwf Hc Ha. apply release_allowed in Ha as [(kv & _ & _ & ->)|[-> _]]; [|done].
  eapply canonical_sub; [|done]. intros k kv'. rewrite delete_kv_lookup. case_decide; [done|eauto].
Qed.

Lemma rebind_canonical (sh : Z) n l : sh ∈ shards ->
  keeps_canonical (Txn (CmpValue (shardKey (prefix c) sh) n) (OpPut (shardKey (prefix c) sh) n l)).
Proof.
  intros Hs v x v' Hwf Hc Ha. apply rebind_allowed in Ha as [(kv & _ & _ & _ & -> & _)|[-> _]]; [|done].
  by apply canonical_put.
Qed.

Lemma read_canonical (base : string) : keeps_canonical (GetPrefix base).
Proof. intros v x v' Hwf Hc [-> _]%getprefix_allowed. done. Qed.

(** Nothing published yet: the shards as before, with marks only added. *)
Definition unpublished (g0 : Guarded) (s : St * Guarded) : Prop :=
  owned s.2 = owned g0 /\ releasing g0 ⊆ releasing s.2.

(** The map in hand is the store's of some moment of the round. *)
Definition snapshot (om : list OwnerInfo) (s : St * Guarded) : Prop :=
  exists v, rtc view_step v0 v /\ rtc view_step v (view s.1) /\
    forall sh, sh ∈ shards -> arr_get om sh = owner_info v (prefix c) sh.

Lemma lasting_unpublished g0 : lasting (unpublished g0).
Proof. intros s s' _ Hg [Ho Hr]. unfold unpublished. by rewrite Hg. Qed.

Lemma lasting_snapshot om : lasting (snapshot om).
Proof.
  intros s s' Hr _ (v & H1 & H2 & Hom). exists v. split_and!; [done| |done]. by etrans.
Qed.

Lemma wp_loop_lasting (J : St * Guarded -> Prop) (l : list Z) (body : Z -> prog (nodeE Guarded) unit) s :
  (forall x s', x ∈ l -> J s' -> WP (body x) (fun _ s'' => J s'') s') -> J s ->
  WP (for_each l body) (fun _ s' => J s') s.
Proof.
  intros Hbody Hs. apply (wp_for_each _ _ _ _ (fun _ s' => J s')); [|done].
  intros done_ x todo s' -> HJ. apply Hbody; [set_solver|done].
Qed.

(** An action on the store whose answer is not used. *)
Lemma wp_store_unit {X A} (e : etcdE X) (f : X -> A) (J : St * Guarded -> Prop) (s : St * Guarded) :
  keeps_canonical e -> lasting J -> J s ->
  WP (let! _ := etcd (let! r := call e in Ret (f r)) in Ret tt) (fun _ s' => J s') s.
Proof. intros He HJ Hs. apply wp_bind. eapply wp_mono; [|by apply wp_store_call]. done. Qed.

Lemma wp_mark (sh : Z) g0 (s : St * Guarded) :
  unpublished g0 s -> WP (MarkReleasing sh) (fun _ s' => unpublished g0 s') s.
Proof.
  intros [Ho Hr] s1 x s2 (_ & _ & Hg) Hi [Hf Hst]. injection Hf as _ Hg2.
  split; [done|]. split; [unfold round_inv; by rewrite Hst|].
  change (unpublished g0 s2). unfold unpublished. rewrite <- Hg2, Hg. cbn. split; [done|set_solver].
Qed.

(** The published shards are what one moment of the store recorded for the node. *)
Definition published (g0 : Guarded) (s : St * Guarded) : Prop :=
  unpublished g0 s \/
  exists v, rtc view_step v0 v /\ rtc view_step v (view s.1) /\
    (forall sh t, owned s.2 !! sh = Some t <-> sh ∈ shards /\
       exists kv, ownership v (prefix c) sh = Some kv /\ Value kv = nodeID c /\ ModRevision kv = t) /\
    forall sh, sh ∈ releasing s.2 -> is_Some (owned s.2 !! sh).

Lemma wp_publication (om : list OwnerInfo) (release : list Z) g0 (s : St * Guarded) :
  snapshot om s ->
  WP (call (Crit (fun _ => (tt, mkGuarded (ownedOf c om) (releasingOf release (ownedOf c om))))))
    (fun _ s' => published g0 s') s.
Proof.
  intros Hsnap s1 x s2 (Hr & _ & Hg) Hi [Hf Hst]. injection Hf as _ Hg2.
  split; [done|]. split; [unfold round_inv; by rewrite Hst|]. change (published g0 s2). right.
  destruct Hsnap as (v & H1 & H2 & Hom). exists v. split; [done|]. split; [rewrite Hst; by etrans|].
  rewrite <- Hg2. cbn. split; [|by intros sh [_ ?]%releasingOf_elem].
  intros sh t. rewrite ownedOf_lookup. split.
  - intros (Hs & Ho & Ht). split; [done|]. rewrite Hom in Ho, Ht by done.
    unfold owner_info in Ho, Ht. destruct (ownership v (prefix c) sh) as [kv|]; [by eauto|].
    by destruct Hnode.
  - intros (Hs & kv & Ho & Hv & Ht). split; [done|]. rewrite Hom by done.
    unfold owner_info. by rewrite Ho.
Qed.

Lemma wp_load (s : St * Guarded) g0 (Q : _ -> St * Guarded -> Prop) :
  unpublished g0 s ->
  (forall e s', unpublished g0 s' -> Q (Err e) s') ->
  (forall om s', unpublished g0 s' -> snapshot om s' -> Q (Ok om) s') ->
  WP (etcd (LoadOwnershipMap (prefix c))) Q s.
Proof.
  intros Hu He Hok s1 x s2 (Hr & _ & Hg) Hi Hstep.
  destruct (inv_call _ s1 s2 x (read_canonical _) Hi Hstep) as (Hi2 & Hr2 & Hg2).
  assert (unpublished g0 s2) as Hu2 by (unfold unpublished; by rewrite Hg2, Hg).
  split; [done|]. split; [done|]. destruct Hstep as [Hd _]. apply etcd_documented, getprefix_allowed in Hd.
  destruct Hd as [Hv [->|[e ->]]]; cbn; [|by apply He]. apply Hok; [done|].
  destruct Hi2 as (Hwf & Hc & Hv0). exists (view s2.1). split_and!; [done|done|].
  intros sh Hs. rewrite <- Hv. by apply load_owner_info.
Qed.

Lemma wp_round g0 (s : St * Guarded) :
  unpublished g0 s -> WP (reconcileOnce c m) (fun _ s' => published g0 s') s.
Proof.
  intros Hu1. unfold reconcileOnce. apply wp_bind.
  eapply wp_mono; [|eapply (wp_store_call _ _ (unpublished g0)); [apply read_canonical|apply lasting_unpublished|done]].
  intros [members|e] s2 Hu2; [|by cbn; left]. apply wp_bind.
  eapply wp_mono; [|eapply (wp_store_call _ _ (unpublished g0)); [apply read_canonical|apply lasting_unpublished|done]].
  intros [sm|e] s3 Hu3; [|by cbn; left].
  pose proof (elem_of_claim (nodeID c) members sm) as Hcl.
  pose proof (elem_of_release (nodeID c) members sm) as Hrl.
  destruct (Reconcile (nodeID c) members sm) as [claim release]. cbn [fst snd] in Hcl, Hrl.
  apply wp_bind. eapply wp_mono; [|apply (wp_loop_lasting (unpublished g0)); [|done]].
  2: { intros x s' Hx. apply wp_store_unit; [apply claim_canonical; by apply Hcl|apply lasting_unpublished]. }
  intros [] s4 Hu4. apply wp_bind. eapply wp_mono; [|apply (wp_loop_lasting (unpublished g0)); [|done]].
  2: { intros x s' Hx Hs'. apply wp_bind. eapply wp_mono; [|by apply wp_mark]. intros [] s''.
       apply wp_store_unit; [apply release_canonical; by apply Hrl|apply lasting_unpublished]. }
  intros [] s5 Hu5. apply wp_bind. apply (wp_load _ g0); [done|by intros e s' Hs'; cbn; left|].
  intros om s6 _ Hsnap. apply wp_bind. eapply wp_mono; [|apply (wp_loop_lasting (snapshot om)); [|done]].
  - intros [] s7 Hs7. by apply wp_publication.
  - intros x s' Hx Hs'. destruct (_ || _); [done|]. case_bool_decide; [done|].
    apply wp_store_unit; [by apply rebind_canonical|apply lasting_snapshot|done].
Qed.

End publication.

(** C6: A round publishes a snapshot or nothing.  Whatever other clients and
    failures interfere, after a round of the control loop either the published
    shards are as before, with marks only added, or they are exactly the shards
    (with their terms) that the store recorded for the node at one moment during
    the round, and only such shards carry the releasing mark. *)
Theorem reconcile_publishes_snapshot {H : XXHash} {D : Etcd} (c : Coordinator) (m : Membership)
    (s s' : St * Guarded) :
  nodeID c <> "" -> view_wf (view s.1) -> canonical (view s.1) (prefix c) ->
  exec node_step (interference c) s (reconcileOnce c m) tt s' ->
  published c (view s.1) s.2 s'.
Proof.
  intros Hn Hwf Hc Hex.
  eapply (wp_sound _ _ _ (round_inv c (view s.1)) _ (fun _ s' => published c (view s.1) s.2 s'))
    in Hex as [HQ _]; [done| | | |by apply wp_round].
  - intros t t' (Hr & Hcan & _) (Hwf' & Hc' & Hv). split; [by eapply view_steps_wf|].
    split; [auto|]. by etrans.
  - intros _ t t' (Hr & _ & Hg) _ [[Ho Hrel]|(v & H1 & H2 & H3 & H4)].
    + left. unfold unpublished. by rewrite Hg.
    + right. exists v. rewrite Hg. split_and!; [done|by etrans|done|done].
  - by split_and!.
Qed.

Lemma reconcile_publishes_snapshot_witness :
  let c := (NewCoordinator "catalog" "a" 10 0).1 in
  let m := mkMembership "catalog" "a" 1 0 false false KaRanging false in
  let g := mkGuarded ∅ ∅ in
  published (D := ModelEtcd) c two_members g
    (run node_handler (reconcileOnce (H := ToyHash) c m) (two_members, g)).2.
Proof.
  intros c m g.
  apply (reconcile_publishes_snapshot (H := ToyHash) (D := ModelEtcd) c m (two_members, g)).
  - discriminate.
  - exact two_members_wf.
  - exact two_members_canonical.
  - refine (exec_of_run (node_step (D := ModelEtcd)) _ node_handler _ _ _ _ _ _ _).
    + intros t. split; [apply rtc_refl|]. split; [exact (fun Hc => Hc)|reflexivity].
    + intros X e t. apply node_handler_step.
    + apply run_unit.
Defined.

(** ** Adopting a shard whose lease runs out *)

(** The store a node finds that restarted under its old id "a" and joined again:
    it is the only member, and every shard is still recorded for it on lease 1 of
    its previous life, which has reached its deadline. *)
Record inherited (v : View) : Prop := {
  ih_wf : view_wf v;
  ih_canonical : canonical v "catalog";
  ih_now : now v = 10000000000%Z;
  ih_lease : exists le, leases v !! 1%Z = Some le /\ (deadline le <= now v)%Z;
  ih_members : members_of v "catalog" = ["a"];
  ih_owned s : s ∈ shards ->
    exists kv, ownership v "catalog" s = Some kv /\ Value kv = "a" /\ KvLease kv = 1%Z;
}.

(** The store left to itself: time, renewals, expiry. *)
Definition idle (s s' : View * Guarded) : Prop := rtc env_allowed s.1 s'.1 /\ s'.2 = s.2.

Lemma idle_trans (s1 s2 s3 : View * Guarded) : idle s1 s2 -> idle s2 s3 -> idle s1 s3.
Proof. intros [H1 G1] [H2 G2]. split; [by etrans|congruence]. Qed.

Lemma idle_run {A} (p : prog (nodeE Guarded) A) (s s' : View * Guarded) (a : A) :
  run node_handler p s = (a, s') -> exec (node_step (D := ModelEtcd)) idle s p a s'.
Proof.
  apply exec_of_run; [intros t; split; [apply rtc_refl|done]|intros; apply node_handler_step].
Qed.

Lemma run_rebind_absent (v : View) (P : string) (s : Z) (n : string) (l : LeaseID) :
  ownership v P s = None -> run etcd_handler (RebindShard P s n l) v = (Ok (false, 0%Z), v).
Proof. unfold ownership. intros Hu. cbn. by rewrite Hu. Qed.

Section race.
Context {H : XXHash}.

Let c : Coordinator := (NewCoordinator "catalog" "a" 10 0).1.
Let m : Membership := mkMembership "catalog" "a" 2 10000000000 false false KaRanging false.
Let g0 : Guarded := mkGuarded ∅ ∅.
Variable v : View.
Hypothesis Hv : inherited v.
Let expired : View := drop_lease v 1.

Lemma expired_unowned (s : Z) : s ∈ shards -> ownership expired "catalog" s = None.
Proof.
  intros Hs. destruct (ownership expired "catalog" s) as [kv|] eqn:E; [|done].
  apply drop_lease_lookup in E as [E Hne].
  destruct (ih_owned v Hv s Hs) as (kv' & E' & _ & Hl). unfold ownership in E'. congruence.
Qed.

(** Nothing to claim and nothing to release: the node adopts what it finds. *)
Lemma adopted_quiescent (sm : list string) :
  (forall s, s ∈ shards -> arr_get sm s = "a") -> Reconcile "a" ["a"] sm = ([], []).
Proof.
  intros Hsm. pose proof (elem_of_claim "a" ["a"] sm) as Hc.
  pose proof (elem_of_release "a" ["a"] sm) as Hr.
  destruct (Reconcile "a" ["a"] sm) as [claim release]. cbn [fst snd] in Hc, Hr. f_equal.
  - destruct claim as [|s claim]; [done|]. destruct (proj1 (Hc s)) as (Hs & He & _); [left|].
    rewrite (Hsm s Hs) in He. done.
  - destruct release as [|s release]; [done|]. destruct (proj1 (Hr s)) as (Hs & _ & Hn); [left|].
    rewrite Rendezvous_singleton in Hn; done.
Qed.

(** The re-bindings come too late: each loses its compare-and-swap. *)
Lemma late_rebind (om : list OwnerInfo) :
  run node_handler (rebindLoop c (LeaseID_ m) [] om) (expired, g0) = (tt, (expired, g0)).
Proof.
  unfold rebindLoop.
  assert (Hl : forall s, s ∈ shards -> s ∈ shards) by done. revert Hl. generalize shards at 1 3 as l.
  induction l as [|s l IH]; intros Hl; [done|]. rewrite run_for_each_cons.
  rewrite <- IH by (intros; apply Hl; by right). clear IH.
  assert (s ∈ shards) as Hs by (apply Hl; left). destruct (_ || _); [done|].
  case_bool_decide; [done|]. rewrite run_bind, run_etcd.
  by rewrite (run_rebind_absent _ _ _ _ _ (expired_unowned s Hs)).
Qed.

Lemma race_exec : exists g',
  exec (node_step (D := ModelEtcd)) idle (v, g0) (reconcileOnce c m) tt (expired, g') /\
  forall ns, IsServable c g' m (now expired) ns = true.
Proof.
  destruct Hv as [Hwf Hc Hnow Hlease Hmem Hown].
  set (om := foldl (load_step (ownershipBase "catalog")
    (fun kv => mkOwnerInfo (Value kv) (ModRevision kv) (KvLease kv)))
    (arr_zero (mkOwnerInfo "" 0 0)) (range_prefix v (ownershipBase "catalog"))).
  assert (Hom : forall s, s ∈ shards -> Owner (arr_get om s) = "a").
  { intros s Hs. unfold om. rewrite load_owner_info by done. unfold owner_info.
    destruct (Hown s Hs) as (kv & -> & Hval & _). done. }
  exists (mkGuarded (ownedOf c om) (releasingOf [] (ownedOf c om))). split.
  - unfold reconcileOnce.
    eapply (exec_bind _ _ _ _ _ _ _ (Ok (members_of v "catalog")));
      [apply idle_trans|by apply idle_run|]. rewrite Hmem. cbn iota.
    eapply exec_bind; [apply idle_trans|apply idle_run; by rewrite run_etcd, run_load_shard_map|].
    cbn iota. rewrite adopted_quiescent.
    2: { intros s Hs. destruct (Hown s Hs) as (kv & Ho & Hval & _).
         etrans; [by apply (load_spec Value "" v "catalog")|]. by rewrite Ho. }
    eapply exec_bind; [apply idle_trans|by apply idle_run|].
    eapply exec_bind; [apply idle_trans|by apply idle_run|].
    eapply exec_bind; [apply idle_trans|apply idle_run; by rewrite run_etcd, run_load_ownership_map|].
    cbn iota. fold om.
    apply (exec_bind _ _ _ _ _ (expired, g0) _ tt); [apply idle_trans| |by apply idle_run].
    eapply exec_rely_l; [apply idle_trans| |apply idle_run, late_rebind].
    split; [|done]. apply rtc_once. destruct Hlease as (le & Hle & Hdl). by eapply env_expire.
  - intros ns. unfold IsServable. rewrite bool_decide_eq_true_2.
    2: { eexists. apply ownedOf_lookup. split; [apply ShardOf_shards|]. split; [|done].
         apply Hom, ShardOf_shards. }
    cbn [now drop_lease expired]. by rewrite Hnow.
Qed.

End race.

(** C40: The adoption race.  The comparison that guards a re-binding protects the
    store but not what is published: a node that restarts under its old id and
    adopts its shards publishes, and serves, all of them even when the old lease
    runs out between the load and the re-bindings, so that every re-binding fails
    and etcd records no owner at all.  Any other member can then claim them. *)
Theorem adoption_race {H : XXHash} (v : View) :
  inherited v ->
  let c := (NewCoordinator "catalog" "a" 10 0).1 in
  let m := mkMembership "catalog" "a" 2 10000000000 false false KaRanging false in
  exists v' g',
    exec (node_step (D := ModelEtcd)) idle (v, mkGuarded ∅ ∅) (reconcileOnce c m) tt (v', g') /\
    forall ns, IsServable c g' m (now v') ns = true /\ ownership v' "catalog" (ShardOf ns) = None.
Proof.
  intros Hv c m. destruct (race_exec v Hv) as (g' & Hex & Hs). exists (drop_lease v 1), g'.
  split; [exact Hex|]. intros ns. split; [apply Hs|]. apply expired_unowned, ShardOf_shards. done.
Qed.

(** Such a store: member "a" on lease 2, every shard on lease 1. *)
Definition restarted : View :=
  foldl (fun v s => put_kv v (shardKey "catalog" s) "a" 1)
    (joined (at_time (grant empty_view 10 1) 10000000000) "catalog" "a" 10 2 10000000000 10000000000) shards.

Lemma restarted_fold (l : list Z) (v : View) :
  (forall s, s ∈ l -> s ∈ shards) -> view_wf v -> canonical v "catalog" -> lease_live v 1 = true ->
  let v' := foldl (fun v s => put_kv v (shardKey "catalog" s) "a" 1) v l in
  view_wf v' /\ canonical v' "catalog" /\ quiet v v' /\
  (forall k, (forall s, s ∈ shards -> k <> shardKey "catalog" s) -> kvs v' !! k = kvs v !! k) /\
  forall s, s ∈ l -> exists kv, ownership v' "catalog" s = Some kv /\ Value kv = "a" /\ KvLease kv = 1%Z.
Proof.
  intros Hl Hwf Hc Hlive. induction l as [|x l IH] using rev_ind; cbn zeta.
  { split_and!; [done|done|done|done|]. intros s Hs. by apply not_elem_of_nil in Hs. }
  destruct IH as (Hwf' & Hc' & (Hn & Hle & Hg) & Ho & Hs); [intros; apply Hl; set_solver|].
  rewrite foldl_app. cbn [foldl]. set (v1 := foldl _ v l) in *.
  assert (x ∈ shards) as Hx by (apply Hl; set_solver).
  assert (lease_live v1 1 = true) as Hlive1 by (unfold lease_live; by rewrite Hle).
  split; [by apply put_kv_wf|]. split; [by apply canonical_put|]. split; [done|]. split.
  - intros k Hk. cbn. rewrite lookup_insert_ne by (apply not_eq_sym, Hk, Hx). auto.
  - intros s Hin. rewrite put_kv_ownership. case_decide; [eexists; done|].
    apply elem_of_app in Hin as [Hin|Hin%list_elem_of_singleton]; [auto|]. by subst.
Qed.

Lemma restarted_inherited : inherited restarted.
Proof.
  unfold restarted. set (v := joined _ _ _ _ _ _ _).
  assert (view_wf v) as Hwf.
  { unfold v. auto with catalog. }
  destruct (restarted_fold shards v) as (Hwf' & Hc & (Hn & Hle & _) & Ho & Hs); [done|done| |done|].
  { apply joined_canonical. exact (canonical_empty _). }
  split; [exact Hwf'|exact Hc|by rewrite Hn| | |exact Hs].
  { eexists. rewrite Hle, Hn. split; [reflexivity|]. done. }
  assert (members_of v "catalog" = ["a"]) as <- by reflexivity.
  unfold members_of. refine (f_equal (fmap _) _). apply range_prefix_ext; [exact Hwf|exact Hwf'|].
  intros k [t ->]%strings.HasPrefix_spec. apply Ho. intros s Hs'. by apply member_key_not_shardKey.
Qed.

Lemma restarted_live : lease_live restarted 2 = true.
Proof.
  unfold restarted. set (v := joined _ _ _ _ _ _ _).
  destruct (restarted_fold shards v) as (_ & _ & (_ & Hle & _) & _); [done|unfold v; auto with catalog| |done|].
  { apply joined_canonical. exact (canonical_empty _). }
  apply lease_live_true. right. rewrite Hle. eexists. reflexivity.
Qed.

Lemma adoption_race_witness : exists v' g',
  exec (node_step (D := ModelEtcd)) idle (restarted, mkGuarded ∅ ∅)
    (reconcileOnce (H := ToyHash) (NewCoordinator "catalog" "a" 10 0).1
       (mkMembership "catalog" "a" 2 10000000000 false false KaRanging false)) tt (v', g') /\
  ownership v' "catalog" (ShardOf (H := ToyHash) "db1") = None.
Proof.
  destruct (adoption_race (H := ToyHash) restarted restarted_inherited) as (v' & g' & Hex & Hs).
  exists v', g'. split; [exact Hex|exact (proj2 (Hs "db1"))].
Defined.

(** C37: A round alone on a healthy etcd.  The node takes every free shard that is
    suggested for it; keeps its own suggested ones and moves those that still ride
    the lease of an earlier incarnation to its current lease; gives up its others;
    and touches no record of another node and no other key.  It then publishes
    exactly the shards the store records for it, with none marked as releasing. *)
Theorem healthy_round {H : XXHash} (c : Coordinator) (m : Membership) (v : View) (g : Guarded) :
  nodeID c <> "" -> view_wf v -> canonical v (prefix c) -> lease_live v (leaseID m) = true ->
  exists v' g', run node_handler (reconcileOnce c m) (v, g) = (tt, (v', g')) /\
    (forall s, s ∈ shards ->
       let before := ownership v (prefix c) s in
       let after := ownership v' (prefix c) s in
       let mine := Rendezvous s (members_of v (prefix c)) = nodeID c in
       match before with
       | Some kv => if decide (Value kv = nodeID c) then
             (mine -> exists kv', after = Some kv' /\ Value kv' = nodeID c /\ KvLease kv' = leaseID m) /\
             (~ mine -> after = None)
           else after = Some kv
       | None => (mine -> exists kv', after = Some kv' /\ Value kv' = nodeID c /\ KvLease kv' = leaseID m) /\
           (~ mine -> after = None)
       end) /\
    (forall k, (forall s, s ∈ shards -> k <> shardKey (prefix c) s) -> kvs v' !! k = kvs v !! k) /\
    releasing g' = ∅ /\
    forall s, is_Some (owned g' !! s) <->
      s ∈ shards /\ exists kv, ownership v' (prefix c) s = Some kv /\ Value kv = nodeID c.
Proof.
  intros Hn Hwf Hc Hl.
  destruct (run_reconcileOnce (prefix c) c m eq_refl Hn v g Hwf Hc Hl) as (v' & g' & Hr & Ha & Hrel & Hown).
  exists v', g'. split; [exact Hr|]. split; [|split; [exact (ar_others _ _ _ _ _ Ha)|by split]].
  intros s Hs. cbn zeta. pose proof (ar_shards _ _ _ _ _ Ha s Hs) as Hrec. unfold round_record in Hrec.
  destruct (ownership v (prefix c) s) as [kv|].
  - destruct (String.eqb_spec (Value kv) (nodeID c)); case_decide; try done.
    destruct (String.eqb_spec (Rendezvous s (members_of v (prefix c))) (nodeID c)); by split.
  - destruct (String.eqb_spec (Rendezvous s (members_of v (prefix c))) (nodeID c)); by split.
Qed.

(** The restarted node moves what it inherited to its new lease. *)
Lemma healthy_round_witness : exists v' g' kv,
  run node_handler (reconcileOnce (H := ToyHash) (NewCoordinator "catalog" "a" 10 0).1
      (mkMembership "catalog" "a" 2 10000000000 false false KaRanging false)) (restarted, mkGuarded ∅ ∅)
    = (tt, (v', g')) /\
  ownership v' "catalog" 7 = Some kv /\ Value kv = "a" /\ KvLease kv = 2%Z.
Proof.
  pose proof restarted_inherited as [Hwf Hc _ _ Hm Hown].
  assert (Hs : 7%Z ∈ shards) by (apply elem_of_shards; unfold ShardCount; lia).
  destruct (healthy_round (H := ToyHash) (NewCoordinator "catalog" "a" 10 0).1
    (mkMembership "catalog" "a" 2 10000000000 false false KaRanging false) restarted (mkGuarded ∅ ∅))
    as (v' & g' & Hr & Hrec & _); [discriminate|exact Hwf|exact Hc|exact restarted_live|].
  specialize (Hrec 7%Z Hs). cbn [prefix nodeID NewCoordinator fst leaseID] in Hrec. cbn zeta in Hrec.
  destruct (Hown 7%Z Hs) as (kv & Hkv & Hval & _). rewrite Hkv, decide_True in Hrec by exact Hval.
  destruct Hrec as [Hrec _]. destruct Hrec as (kv' & Ho & Hv & Hl).
  - rewrite Hm. apply Rendezvous_singleton. discriminate.
  - exists v', g', kv'. split; [exact Hr|]. split; [exact Ho|]. split; [exact Hv|exact Hl].
Defined.
