(* ===== verification/Cluster.v ===== *)
(** * The cluster: many coordinators on one etcd

    The processes of a deployment as one transition system over an arbitrary
    documented etcd.  Node processes start, join action by action (or fail to),
    run their control loops action by action, renew their leases, are told to
    release shards, close or crash, and start again under the same id.  Time
    passes and leases expire.  A call that failed, or was under way when its
    process died, may still be executed later.

    Two fields are bookkeeping that no process reads: the server time of the
    renewal behind the last keepalive record ([basis]), and the calls that may
    still take effect ([outstanding]).

    [cstep] restricts none of this.  What the safety theorems of [Exclusion]
    assume on top is stated there.  One process per node id runs at a time, and all
    clocks show the server's time; the delay between a renewal and its record is
    unbounded. *)

From S2P Require Import Prelude GoStd Placement Reconcile Prog Etcd Ownership Membership Coordinator Serving.

(** ** Processes *)

(** An etcd call, of any reply type. *)
Inductive Call : Type :=
| mkCall {X : Type} (e : etcdE X) : Call.

(** A process is in [Start], or it has a membership and runs its loop.  [inflight]
    are the server times of renewals whose responses are under way, [basis] is the
    server time of the grant or renewal that [lastKeepAlive] reports. *)
Inductive Phase : Type :=
| Joining (p : prog (nodeE Guarded) (result Membership)) (basis : Z)
| Running (m : Membership) (p : prog (nodeE Guarded) bool) (inflight : list Z) (basis : Z).

Record Node : Type := mkNode {
  nd_coord : Coordinator;
  nd_guard : Guarded;
  nd_phase : Phase;
}.

(** What of a call is left behind when its reply is an error. *)
Definition abandoned {X} (e : nodeE Guarded X) : X -> list Call -> Prop :=
  match e in nodeE _ X return X -> list Call -> Prop with
  | EtcdCall e => fun x qs => qs = [] \/ (exists err, x = etcd_fail e err) /\ qs = [mkCall e]
  | _ => fun _ qs => qs = []
  end.

(** The call a program is about to make. *)
Definition next_call {A} (p : prog (nodeE Guarded) A) : list Call :=
  match p with
  | Vis e _ => match e with EtcdCall e => [mkCall e] | _ => [] end
  | Ret _ => []
  end.

Definition call_under_way (ph : Phase) : list Call :=
  match ph with Joining p _ => next_call p | Running _ p _ _ => next_call p end.

(** The bookkeeping of a grant. *)
Definition granted_at {X} (e : nodeE Guarded X) (v : View) (basis : Z) : Z :=
  match e with
  | EtcdCall e => match e with Grant _ => now v | _ => basis end
  | _ => basis
  end.

(** The server renews a lease. *)
Definition renewed (v : View) (l : LeaseID) : View :=
  match leases v !! l with
  | Some le => mkView (now v) (rev v) (kvs v)
      (<[l := mkLease (lease_ttl le) (now v + lease_ttl le)%Z]> (leases v)) (granted v)
  | None => v
  end.

Section cluster.
Context {H : XXHash} {D : Etcd}.
Variable P : string.       (* key prefix *)
Variable ttlSeconds : Z.
Variable tickNanos : Z.

(** The processes, by node id, and the calls that may still take effect. *)
Record Cluster : Type := mkCluster {
  store : St;
  nodes : string -> option Node;
  outstanding : list Call;
}.

Definition the_view (c : Cluster) : View := view (store c).

Definition set_node (n : string) (o : option Node) (f : string -> option Node)
    : string -> option Node :=
  fun k => if decide (k = n) then o else f k.

(** Process [n] becomes [o], the store [s'], and the calls [qs] are left behind. *)
Definition update (c : Cluster) (s' : St) (n : string) (o : option Node) (qs : list Call) : Cluster :=
  mkCluster s' (set_node n o (nodes c)) (qs ++ outstanding c).

Definition starting (n : string) : Node :=
  let '(co, g) := NewCoordinator P n ttlSeconds tickNanos in mkNode co g (Joining (Start co) 0).

(** Who takes a step: a process, etcd by itself, or a call that is executed late. *)
Inductive Label : Type := ByNode | ByEtcd | Late (q : Call).

Inductive cstep (c : Cluster) : Label -> Cluster -> Prop :=
| cs_start n : nodes c n = None -> n <> "" ->
    cstep c ByNode (update c (store c) n (Some (starting n)) [])
| cs_join n co g X (e : nodeE Guarded X) k b x s' g' qs :
    nodes c n = Some (mkNode co g (Joining (Vis e k) b)) ->
    node_step X (store c, g) e x (s', g') -> abandoned e x qs ->
    cstep c ByNode (update c s' n
      (Some (mkNode co g' (Joining (k x) (granted_at e (the_view c) b)))) qs)
| cs_joined n co g m b evs :
    nodes c n = Some (mkNode co g (Joining (Ret (Ok m)) b)) ->
    cstep c ByNode (update c (store c) n (Some (mkNode co g (Running m (loop co m evs) [] b))) [])
| cs_join_failed n co g err b :
    nodes c n = Some (mkNode co g (Joining (Ret (Err err)) b)) ->
    cstep c ByNode (update c (store c) n None [])
| cs_act n co g m X (e : nodeE Guarded X) k inf b x s' g' qs :
    nodes c n = Some (mkNode co g (Running m (Vis e k) inf b)) ->
    node_step X (store c, g) e x (s', g') -> abandoned e x qs ->
    cstep c ByNode (update c s' n (Some (mkNode co g' (Running m (k x) inf b))) qs)
| cs_mark n co g ph sh :     (* MarkReleasing by another goroutine *)
    nodes c n = Some (mkNode co g ph) ->
    cstep c ByNode (update c (store c) n
      (Some (mkNode co (mkGuarded (owned g) ({[sh]} ∪ releasing g)) ph)) [])
| cs_renew n co g m p inf b s' :     (* the server renews the lease and answers *)
    nodes c n = Some (mkNode co g (Running m p inf b)) -> etcd_env (store c) s' ->
    is_Some (leases (the_view c) !! leaseID m) -> view s' = renewed (the_view c) (leaseID m) ->
    cstep c ByNode (update c s' n
      (Some (mkNode co g (Running m p (now (the_view c) :: inf) b))) [])
| cs_response n co g m p inf b ts t :     (* the keepalive goroutine records an answer *)
    nodes c n = Some (mkNode co g (Running m p inf b)) -> ts ∈ inf ->
    ka_phase m = KaRanging -> (t <= now (the_view c))%Z ->
    cstep c ByNode (update c (store c) n (Some (mkNode co g (Running (ka_response t m) p inf ts))) [])
| cs_mem n co g m p inf b m' :     (* the goroutine's end; Close once the loop has returned *)
    nodes c n = Some (mkNode co g (Running m p inf b)) -> mem_local m m' ->
    (closing m' = closing m \/ exists r, p = Ret r) ->
    cstep c ByNode (update c (store c) n (Some (mkNode co g (Running m' p inf b))) [])
| cs_revoke n co g m p inf b x s' g' qs :     (* the last action of Close *)
    nodes c n = Some (mkNode co g (Running m p inf b)) ->
    closing m = true -> ka_cancelled m = true ->
    node_step _ (store c, g) (EtcdCall (Revoke (leaseID m))) x (s', g') ->
    abandoned (EtcdCall (Revoke (leaseID m))) x qs ->
    cstep c ByNode (update c s' n (Some (mkNode co g' (Running m p inf b))) qs)
| cs_exit n co g ph qs :     (* the process ends or crashes, at any time *)
    nodes c n = Some (mkNode co g ph) -> (qs = [] \/ qs = call_under_way ph) ->
    cstep c ByNode (update c (store c) n None qs)
| cs_env s' : etcd_env (store c) s' ->
    cstep c ByEtcd (mkCluster s' (nodes c) (outstanding c))
| cs_late X (e : etcdE X) y s' qs1 qs2 :
    outstanding c = qs1 ++ mkCall e :: qs2 -> etcd_do X (store c) e y s' ->
    cstep c (Late (mkCall e)) (mkCluster s' (nodes c) (qs1 ++ qs2)).

(** A fresh deployment: no processes, no calls, no shard owned. *)
Definition initial (c : Cluster) : Prop :=
  (forall n, nodes c n = None) /\ outstanding c = [] /\ view_wf (the_view c) /\
  canonical (the_view c) P /\ forall s, s ∈ shards -> ownership (the_view c) P s = None.

(** ** The gate *)

(** The gate of a process for a namespace, at this instant. *)
Definition servable (c : Cluster) (nd : Node) (namespace : string) : bool :=
  match nd_phase nd with
  | Running m _ _ _ => IsServable (nd_coord nd) (nd_guard nd) m (now (the_view c)) namespace
  | Joining _ _ => false
  end.

Definition node_term (nd : Node) (namespace : string) : Z := ShardTerm (nd_guard nd) namespace.

End cluster.
