(* ===== verification/Exclusion.v ===== *)
(** * One server per namespace

    What is assumed of a run of [Cluster] ([smooth]) and of the nodes compared
    ([standing]), the inductive invariant of such runs, and the safety theorems
    that follow from it.  The invariant speaks of two sets that exist only in the
    proof: which node obtained a lease ([home]), and which leases are being given up ([doom]).  It
    combines the rely-guarantee facts of [Serving] with the timing of the leases:
    a node whose last keepalive record is fresh still has its lease, and as long as
    it has it, the store backs what it serves. *)

From S2P Require Import Prelude GoStd Placement Reconcile Prog Etcd Ownership Membership Coordinator Serving Convergence Cluster.

(** ** The assumptions of the safety theorems *)

Section assumptions.
Context {H : XXHash} {D : Etcd}.
Variable P : string.
Variable ttlSeconds : Z.
Variable tickNanos : Z.

Abbreviation Cluster := (Cluster (D := D)).

(** A node that runs and has not begun to close its membership. *)
Definition in_service (c : Cluster) (n : string) (m : Membership) : Prop :=
  exists co g p inf b, nodes c n = Some (mkNode co g (Running m p inf b)) /\ closing m = false.

(** A step behind the back of the nodes is smooth when it leaves alone what they
    cannot protect.  No lease of an earlier incarnation runs out under the records
    of a node in service (each is re-bound, or the lease expires before the id is
    used again); and no release, re-binding or revocation that had failed is executed
    late against the records of a node in service.  Late claims are unrestricted. *)
Definition smooth (c : Cluster) (lab : Label) (c' : Cluster) : Prop :=
  match lab with
  | ByNode => True
  | ByEtcd => forall n m s kv, in_service c n m -> s ∈ shards ->
      ownership (the_view c) P s = Some kv -> Value kv = n -> KvLease kv <> leaseID m ->
      ownership (the_view c') P s = Some kv
  | Late (mkCall e) =>
    match e with
    | Txn (CmpValue _ n) _ => forall m, ~ in_service c n m
    | Revoke l => forall n m s kv, in_service c n m -> s ∈ shards ->
        ownership (the_view c) P s = Some kv -> Value kv = n -> KvLease kv <> l
    | _ => True
    end
  end.

(** The runs. *)
Inductive runs (c0 : Cluster) : Cluster -> Prop :=
| runs_start : runs c0 c0
| runs_step c lab c' : runs c0 c -> cstep P ttlSeconds tickNanos c lab c' -> smooth c lab c' -> runs c0 c'.

(** A node in good standing has not begun to close, and the renewal its last
    keepalive record reports took at most half the lease to reach it. *)
Definition standing (nd : Node) : Prop :=
  match nd_phase nd with
  | Running m _ _ b => closing m = false /\ (lastKeepAlive m - b <= ttlSeconds * 500000000)%Z
  | Joining _ _ => False
  end.

End assumptions.

(** ** The invariant *)

Record Ghost : Type := mkGhost { home : gmap LeaseID string; doom : gset LeaseID }.

Section exclusion.
Context {H : XXHash} {D : Etcd}.
Variable P : string.
Variable ttlSeconds : Z.
Variable tickNanos : Z.

Abbreviation Cluster := (Cluster (D := D)).

Definition TTL : Z := (ttlSeconds * time.Second)%Z.

(** ** The moves of the store *)

(** Everything that can happen to the store: the writes of the control loops, member
    keys, grants, the end of doomed or overdue leases, renewals, time. *)
Inductive effect (G : Ghost) (v : View) : View -> Prop :=
| ef_none : effect G v v
| ef_write n l v' : home G !! l = Some n -> shard_write P n l v v' -> effect G v v'
| ef_member n val l : lease_live v l = true -> effect G v (put_kv v (membersPrefix P +:+ n) val l)
| ef_grant ttl id : id <> NoLease -> id ∉ granted v -> effect G v (grant v ttl id)
| ef_drop l : l ∈ doom G -> effect G v (drop_lease v l)
| ef_env v' : env_allowed v v' -> effect G v v'.

(** A renewal at server time [ts] still protects the lease: the lease lives at
    least until [ts + TTL]. *)
Definition protects (v : View) (l : LeaseID) (ts : Z) : Prop :=
  (ts <= now v)%Z /\
  match leases v !! l with
  | Some le => lease_ttl le = TTL /\ (ts + TTL <= deadline le)%Z
  | None => (ts + TTL <= now v)%Z
  end.

(** The store is orderly, and every record is by the node that holds its lease. *)
Record store_ok (G : Ghost) (v : View) : Prop := {
  so_wf : view_wf v;
  so_canonical : canonical v P;
  so_home s kv : s ∈ shards -> ownership v P s = Some kv -> home G !! KvLease kv = Some (Value kv);
  so_granted l n : home G !! l = Some n -> l ∈ granted v;
  so_doom l : l ∈ doom G -> is_Some (home G !! l);
}.

Definition records_kept (n : string) (v v' : View) : Prop :=
  forall s kv, s ∈ shards -> ownership v P s = Some kv -> Value kv = n -> ownership v' P s = Some kv.

Lemma member_put_ownership (v : View) (n val : string) (l : LeaseID) (s : Z) :
  s ∈ shards -> ownership (put_kv v (membersPrefix P +:+ n) val l) P s = ownership v P s.
Proof.
  intros Hs. rewrite put_kv_ownership, decide_False; [done|]. by apply member_key_not_shardKey.
Qed.

Lemma member_put_canonical (v : View) (n val : string) (l : LeaseID) :
  canonical v P -> canonical (put_kv v (membersPrefix P +:+ n) val l) P.
Proof.
  intros Hc k kv t s Hk Hkt. cbn in Hk. rewrite lookup_insert in Hk.
  case_decide as Hd; [|by eapply Hc]. subst. by apply member_key_not_ownership in Hkt.
Qed.

Lemma drop_canonical (v : View) (l : LeaseID) : canonical v P -> canonical (drop_lease v l) P.
Proof. apply canonical_sub. intros k kv [Hk _]%drop_lease_lookup. eauto. Qed.

Lemma effect_granted (G : Ghost) (v v' : View) : effect G v v' -> granted v ⊆ granted v'.
Proof.
  intros [|n l v1 _ Hw|n val l _|ttl id _ _|l _|v1 Henv]; [done| |done|cbn; set_solver|done|].
  - destruct (write_quiet _ _ _ _ _ Hw) as (_ & _ & ->). done.
  - by destruct Henv.
Qed.

Lemma effect_records (G : Ghost) (v v' : View) (s : Z) (kv : KeyValue) :
  effect G v v' -> s ∈ shards -> ownership v' P s = Some kv ->
  ownership v P s = Some kv \/ home G !! KvLease kv = Some (Value kv).
Proof.
  intros [|n l v1 Hh Hw|n val l _|ttl id _ _|l _|v1 Henv] Hs Ho; [by left| |left|by left|left|left].
  - eapply write_records in Ho as [?|[-> ->]]; [by left|by right|done|done].
  - by rewrite member_put_ownership in Ho.
  - by apply drop_lease_lookup in Ho as [? _].
  - destruct Henv as [| |v l le _ _]; [done|done|]. by apply drop_lease_lookup in Ho as [? _].
Qed.

Lemma effect_store (G : Ghost) (v v' : View) : effect G v v' -> store_ok G v -> store_ok G v'.
Proof.
  intros He [Hwf Hc Hh Hg Hd]. split.
  - destruct He as [|n l v1 _ Hw|n val l Hl|ttl id Hid _|l _|v1 Henv]; auto with catalog.
    + by eapply write_wf.
    + by eapply env_allowed_wf.
  - destruct He as [|n l v1 _ Hw|n val l Hl|ttl id Hid _|l _|v1 Henv]; [done| | |done| |].
    + by eapply write_canonical.
    + by apply member_put_canonical.
    + by apply drop_canonical.
    + destruct Henv as [| |v l le _ _]; [done|done|by apply drop_canonical].
  - intros s kv Hs Ho. destruct (effect_records _ _ _ _ _ He Hs Ho); eauto.
  - intros l n Hl. apply (effect_granted _ _ _ He). eauto.
  - done.
Qed.

(** A lease that is not being given up ends only when it is overdue. *)
Lemma effect_protects (G : Ghost) (v v' : View) (l : LeaseID) (ts : Z) :
  effect G v v' -> l ∈ granted v -> l ∉ doom G -> protects v l ts -> protects v' l ts.
Proof.
  intros He Hg Hd [Hle Hp]. unfold protects.
  destruct He as [|n l1 v1 _ Hw|n val l1 _|ttl id _ Hid|l1 Hl1|v1 Henv]; [done| |done| | |].
  - destruct (write_quiet _ _ _ _ _ Hw) as (-> & -> & _). done.
  - cbn. rewrite lookup_insert_ne by set_solver. done.
  - cbn. rewrite lookup_delete_ne by set_solver. done.
  - destruct Henv as [v t Ht|v l' le Hl'|v l' le Hl' Hdl]; cbn.
    + split; [lia|]. destruct (leases v !! l); [done|lia].
    + split; [done|]. rewrite lookup_insert. case_decide; [subst|done].
      rewrite Hl' in Hp. destruct Hp as [Ht Hp]. cbn. split; [done|lia].
    + split; [done|]. rewrite lookup_delete. case_decide; [subst|done].
      rewrite Hl' in Hp. lia.
Qed.

(** No lease is revived. *)
Lemma effect_live (G : Ghost) (v v' : View) (l : LeaseID) :
  effect G v v' -> l ∈ granted v -> live l v' -> live l v.
Proof.
  intros He Hg. unfold live.
  destruct He as [|n l1 v1 _ Hw|n val l1 _|ttl id _ Hid|l1 Hl1|v1 Henv]; [done| |done| | |].
  - by destruct (write_quiet _ _ _ _ _ Hw) as (_ & -> & _).
  - cbn. by rewrite lookup_insert_ne by set_solver.
  - cbn. rewrite lookup_delete. case_decide; [by intros [? ?]|done].
  - destruct Henv as [v t Ht|v l' le Hl'|v l' le Hl' Hdl]; cbn; [done| |].
    + rewrite lookup_insert. case_decide; subst; eauto.
    + rewrite lookup_delete. case_decide; [by intros [? ?]|done].
Qed.

Lemma effect_rely (G : Ghost) (v v' : View) (n : string) (l : LeaseID) :
  store_ok G v -> effect G v v' -> home G !! l = Some n ->
  (live l v' -> records_kept n v v') -> view_rely P n l v v'.
Proof.
  intros Hso He Hh Hk _. destruct (effect_store _ _ _ He Hso) as [Hwf Hc _ Hg _].
  split; [split; [done|done|by eapply Hg]|]. intros Hlive. split; [|by apply Hk].
  eapply effect_live; [done| |done]. by eapply so_granted.
Qed.

(** ** Joining *)

(** The lease a joining process holds, after an action. *)
Definition lease_after {X} (e : nodeE Guarded X) : X -> option LeaseID -> option LeaseID :=
  match e in nodeE _ X return X -> option LeaseID -> option LeaseID with
  | EtcdCall e => match e in etcdE X return X -> option LeaseID -> option LeaseID with
    | Grant _ => fun x o => match x with Ok id => Some id | Err _ => o end
    | Revoke _ => fun _ _ => None
    | _ => fun _ o => o
    end
  | _ => fun _ o => o
  end.

(** The actions of a joining process that holds lease [o]. *)
Definition join_action (n : string) (o : option LeaseID) {X} (e : nodeE Guarded X) : Prop :=
  match e with
  | EtcdCall e => match e with
    | Grant t => o = None /\ t = ttlSeconds
    | Put key _ _ => key = membersPrefix P +:+ n
    | Revoke l => o = Some l
    | KeepAlive _ => True
    | _ => False
    end
  | Now => True
  | Crit _ => False
  end.

Fixpoint join_ok (n : string) (p : prog (nodeE Guarded) (result Membership)) (o : option LeaseID) : Prop :=
  match p with
  | Ret (Ok m) => o = Some (leaseID m) /\ closing m = false
  | Ret (Err _) => True
  | Vis e k => join_action n o e /\ forall x, join_ok n (k x) (lease_after e x o)
  end.

Lemma join_membership_ok (n : string) : join_ok n (JoinMembership P n ttlSeconds) None.
Proof.
  cbn. split; [done|]. intros [id|err]; [|done]. split; [done|].
  intros [[]|err]; [|by split]. split; [done|]. intros [[]|err]; [|by split]. by split.
Qed.

(** ** The invariant *)

Definition phase_ok (G : Ghost) (s : St) (n : string) (g : Guarded) (ph : Phase) : Prop :=
  match ph with
  | Joining p b => owned g = ∅ /\ exists o, join_ok n p o /\
      forall l, o = Some l -> home G !! l = Some n /\ l ∉ doom G /\ protects (view s) l b
  | Running m p inf b =>
      home G !! leaseID m = Some n /\
      if closing m then leaseID m ∈ doom G /\ exists r, p = Ret r
      else leaseID m ∉ doom G /\ node_inv P n (leaseID m) (s, g) /\
        always (loop_action P n (leaseID m)) p /\
        wp node_step (node_rely P n (leaseID m)) (fun _ _ => True) (node_inv P n (leaseID m)) p
          (fun _ _ => True) (s, g) /\
        protects (view s) (leaseID m) b /\ Forall (protects (view s) (leaseID m)) inf
  end.

Record node_ok (G : Ghost) (s : St) (n : string) (nd : Node) : Prop := {
  ok_coord : nd_coord nd = (NewCoordinator P n ttlSeconds tickNanos).1;
  ok_name : n <> "";
  ok_phase : phase_ok G s n (nd_guard nd) (nd_phase nd);
}.

(** The calls that may be executed late. *)
Definition call_ok (G : Ghost) (q : Call) : Prop :=
  match q with
  | mkCall e => match e with
    | Put key _ _ => exists n, key = membersPrefix P +:+ n
    | Revoke l => l ∈ doom G
    | Txn cmp op => exists n l, home G !! l = Some n /\ loop_call P n l (Txn cmp op)
    | _ => True
    end
  end.

Fixpoint calls_ok (G : Ghost) (qs : list Call) : Prop :=
  match qs with [] => True | q :: qs' => call_ok G q /\ calls_ok G qs' end.

Record cinv (G : Ghost) (c : Cluster) : Prop := {
  ci_store : store_ok G (the_view c);
  ci_nodes n nd : nodes c n = Some nd -> node_ok G (store c) n nd;
  ci_calls : calls_ok G (outstanding c);
}.

(** The bookkeeping grows at the hands of node [n]. *)
Record grow (n : string) (G G' : Ghost) : Prop := {
  gr_home : home G ⊆ home G';
  gr_doom : doom G ⊆ doom G';
  gr_mine l : l ∈ doom G' -> l ∈ doom G \/ home G' !! l = Some n;
}.

Lemma grow_refl (n : string) (G : Ghost) : grow n G G.
Proof. split; [done|done|auto]. Qed.

Lemma call_ok_grow (n : string) (G G' : Ghost) (q : Call) : grow n G G' -> call_ok G q -> call_ok G' q.
Proof.
  intros [Hh Hd _]. destruct q as [X e]. cbn. destruct e; try done; [set_solver|].
  intros (n' & l & Hl & He). exists n', l. split; [|done]. by eapply lookup_weaken.
Qed.

Lemma calls_ok_grow (n : string) (G G' : Ghost) (qs : list Call) :
  grow n G G' -> calls_ok G qs -> calls_ok G' qs.
Proof.
  intros Hg. induction qs as [|q qs IH]; [done|]. intros [Hq Hqs].
  split; [by eapply call_ok_grow|auto].
Qed.

Lemma calls_ok_app (G : Ghost) (qs1 qs2 : list Call) :
  calls_ok G (qs1 ++ qs2) <-> calls_ok G qs1 /\ calls_ok G qs2.
Proof. induction qs1 as [|q qs1 IH]; cbn; [tauto|]. rewrite IH. tauto. Qed.

(** A node is not disturbed by a move of the store that somebody else makes, if it
    keeps its records. *)
Lemma node_ok_frame (G G' : Ghost) (s s' : St) (n : string) (nd : Node) :
  effect G' (view s) (view s') -> store_ok G' (view s) -> home G ⊆ home G' -> doom G ⊆ doom G' ->
  (forall l, home G' !! l = Some n -> l ∈ doom G' -> l ∈ doom G) ->
  (forall m p inf b, nd_phase nd = Running m p inf b -> closing m = false ->
     live (leaseID m) (view s') -> records_kept n (view s) (view s')) ->
  node_ok G s n nd -> node_ok G' s' n nd.
Proof.
  intros He Hso' Hh Hdm Hmine Hrec [Hco Hn Hph]. split; [done|done|].
  assert (Hlease : forall l, home G !! l = Some n -> home G' !! l = Some n /\
    (l ∉ doom G -> l ∉ doom G' /\ forall ts, protects (view s) l ts -> protects (view s') l ts)).
  { intros l Hl. assert (Hl' : home G' !! l = Some n) by (by eapply lookup_weaken). split; [done|].
    intros Hnd. assert (l ∉ doom G') as Hnd' by (intros ?%Hmine; done). split; [done|].
    intros ts. eapply effect_protects; [done| |done]. by eapply so_granted. }
  destruct (nd_phase nd) as [p b|m p inf b].
  - destruct Hph as [Hg (o & Hj & Ho)]. split; [done|]. exists o. split; [done|].
    intros l Hl. destruct (Ho l Hl) as (Hl1 & Hl2 & Hl3). destruct (Hlease l Hl1) as [Hl4 Hl5].
    destruct (Hl5 Hl2) as [Hl6 Hl7]. split; [exact Hl4|]. split; [exact Hl6|by apply Hl7].
  - destruct Hph as [Hl Hph]. destruct (Hlease _ Hl) as [Hl' Hp]. split; [done|].
    destruct (closing m) eqn:Ec; [destruct Hph; split; [set_solver|done]|].
    destruct Hph as (Hnd & Hinv & Hal & Hwp & Hb & Hf). destruct (Hp Hnd) as [Hnd' Hpr].
    assert (node_rely P n (leaseID m) (s, nd_guard nd) (s', nd_guard nd)) as Hr.
    { split; [|done]. eapply effect_rely; [done|done|done|]. by eapply Hrec. }
    split_and!; [done|by eapply node_inv_rely|done| |by apply Hpr|eapply Forall_impl; [done|auto]].
    eapply wp_rely; [apply node_rely_trans|done|done|done].
Qed.

Lemma grow_other (n n' : string) (G G' : Ghost) (l : LeaseID) :
  grow n G G' -> n' <> n -> home G' !! l = Some n' -> l ∈ doom G' -> l ∈ doom G.
Proof. intros [_ _ Hm] Hne Hl [?|?]%Hm; congruence. Qed.

(** ** Steps of one process *)

Lemma set_node_Some (n n' : string) (o : option Node) (f : string -> option Node) (nd : Node) :
  set_node n o f n' = Some nd -> n' = n /\ o = Some nd \/ n' <> n /\ f n' = Some nd.
Proof. unfold set_node. case_decide; auto. Qed.

Lemma records_kept_refl (n : string) (v : View) : records_kept n v v.
Proof. intros s kv _ Ho _. exact Ho. Qed.

(** The frame: process [n] moves, the store has a move that spares the records of
    the others, the bookkeeping grows before and after it. *)
Lemma cinv_update (G G1 G' : Ghost) (c : Cluster) (s' : St) (n : string) (o : option Node) (qs : list Call) :
  cinv G c -> grow n G G1 -> store_ok G1 (the_view c) -> effect G1 (the_view c) (view s') ->
  grow n G1 G' -> store_ok G' (view s') ->
  (forall n' m, n' <> n -> in_service c n' m -> live (leaseID m) (view s') ->
     records_kept n' (the_view c) (view s')) ->
  (forall nd, o = Some nd -> node_ok G' s' n nd) -> calls_ok G' qs ->
  cinv G' (update c s' n o qs).
Proof.
  intros [Hso Hnodes Hcalls] Hg1 Hso1 He Hg' Hso' Hkept Hn Hqs. split; cbn.
  - done.
  - intros n' nd [[-> Ho]|[Hne Hnd]]%set_node_Some; [auto|].
    assert (node_ok G1 s' n' nd) as Hok1.
    { eapply (node_ok_frame G G1 (store c)); [done|done|apply Hg1|apply Hg1| | |by apply Hnodes].
      { intros l. by apply (grow_other n n'). }
      intros m p inf b Hph Hc. apply Hkept; [done|]. destruct nd as [co g ph]. cbn in Hph. subst ph.
      by exists co, g, p, inf, b. }
    eapply (node_ok_frame G1 G' s'); [apply ef_none|done|apply Hg'|apply Hg'| | |done].
    + intros l. by apply (grow_other n n').
    + intros. apply records_kept_refl.
  - apply calls_ok_app. split; [done|]. eapply calls_ok_grow; [done|]. by eapply calls_ok_grow.
Qed.

(** The usual case: the bookkeeping grows first, if at all. *)
Lemma cinv_move (G G' : Ghost) (c : Cluster) (s' : St) (n : string) (o : option Node) (qs : list Call) :
  cinv G c -> grow n G G' -> store_ok G' (the_view c) -> effect G' (the_view c) (view s') ->
  (forall n' m, n' <> n -> in_service c n' m -> live (leaseID m) (view s') ->
     records_kept n' (the_view c) (view s')) ->
  (forall nd, o = Some nd -> node_ok G' s' n nd) -> calls_ok G' qs ->
  cinv G' (update c s' n o qs).
Proof.
  intros Hi Hg Hso He Hk Hn Hqs.
  by eapply (cinv_update G G' G'); [| | | |apply grow_refl|eapply effect_store| | |].
Qed.

(** Steps that leave the store alone. *)
Lemma cinv_local (G G' : Ghost) (c : Cluster) (n : string) (o : option Node) (qs : list Call) :
  cinv G c -> grow n G G' -> store_ok G' (the_view c) ->
  (forall nd, o = Some nd -> node_ok G' (store c) n nd) -> calls_ok G' qs ->
  cinv G' (update c (store c) n o qs).
Proof.
  intros Hi Hg Hso Hn Hqs. eapply cinv_move; [done|done|done|apply ef_none| |done|done].
  intros. apply records_kept_refl.
Qed.

(** A lease its holder gives up. *)
Definition doomed (l : LeaseID) (G : Ghost) : Ghost := mkGhost (home G) ({[l]} ∪ doom G).

Lemma grow_doomed (n : string) (l : LeaseID) (G : Ghost) : home G !! l = Some n -> grow n G (doomed l G).
Proof.
  intros Hl. split; cbn; [done|set_solver|]. intros l'.
  rewrite elem_of_union, elem_of_singleton. intros [->|?]; auto.
Qed.

Lemma store_doomed (n : string) (l : LeaseID) (G : Ghost) (v : View) :
  home G !! l = Some n -> store_ok G v -> store_ok (doomed l G) v.
Proof.
  intros Hl [? ? ? ? Hd]. split; cbn; [done..|]. intros l'.
  rewrite elem_of_union, elem_of_singleton. intros [->|?]; eauto.
Qed.

(** A revocation by the holder of the lease spares the records of others. *)
Lemma drop_spares (G : Ghost) (v : View) (n n' : string) (l : LeaseID) :
  store_ok G v -> home G !! l = Some n -> n' <> n -> records_kept n' v (drop_lease v l).
Proof.
  intros Hso Hl Hne s kv Hs Ho Hv. apply drop_lease_lookup. split; [done|]. intros Hk.
  apply (so_home _ _ Hso) in Ho; [|done]. congruence.
Qed.

Lemma revoke_effect (G : Ghost) (v v' : View) (l : LeaseID) x :
  l ∈ doom G -> etcd_allowed _ v (Revoke l) x v' ->
  effect G v v' /\ (v' = v \/ v' = drop_lease v l).
Proof. intros Hl [->| ->]%revoke_allowed; (split; [|auto]); [apply ef_none|by apply ef_drop]. Qed.

(** What an abandoned call is. *)
Lemma abandoned_etcd {X} (e : etcdE X) x qs (G : Ghost) :
  abandoned (EtcdCall e) x qs -> call_ok G (mkCall e) -> calls_ok G qs.
Proof. by intros [->|[_ ->]] HQ. Qed.

(** A process starts. *)
Lemma cinv_start (G : Ghost) (c : Cluster) (n : string) :
  cinv G c -> n <> "" -> cinv G (update c (store c) n (Some (starting P ttlSeconds tickNanos n)) []).
Proof.
  intros Hi Hn. eapply cinv_local; [done|apply grow_refl|apply Hi| |done].
  intros ? [= <-]. split; cbn; [done|done|]. split; [done|]. exists None.
  split; [apply join_membership_ok|done].
Qed.

Lemma records_same (n : string) (v v' : View) :
  (forall s, s ∈ shards -> ownership v' P s = ownership v P s) -> records_kept n v v'.
Proof. intros Hs s kv Hin Ho _. by rewrite Hs. Qed.

(** The bookkeeping after a grant. *)
Definition settled (id : LeaseID) (n : string) (G : Ghost) : Ghost := mkGhost (<[id := n]> (home G)) (doom G).

Lemma grow_settled (n : string) (id : LeaseID) (G : Ghost) : home G !! id = None -> grow n G (settled id n G).
Proof. intros Hid. split; cbn; [by apply insert_subseteq|done|auto]. Qed.

Lemma store_settled (n : string) (id : LeaseID) (G : Ghost) (v : View) :
  home G !! id = None -> id ∈ granted v -> store_ok G v -> store_ok (settled id n G) v.
Proof.
  intros Hid Hgr [Hwf Hc Hh Hg Hd]. split; cbn; [done|done| | |].
  - intros s kv Hs Ho. apply Hh in Ho; [|done]. rewrite lookup_insert_ne; congruence.
  - intros l n'. rewrite lookup_insert. case_decide; [by subst|eauto].
  - intros l [n' Hl]%Hd. rewrite lookup_insert. case_decide; eauto.
Qed.

Lemma grant_protects (v : View) (id : LeaseID) : protects (grant v ttlSeconds id) id (now v).
Proof. split; cbn; [done|]. by rewrite lookup_insert_eq. Qed.

(** A lease is granted to joining process [n]. *)
Lemma cinv_granted (G : Ghost) (c : Cluster) (s' : St) (n : string) co g p (id : LeaseID) qs :
  cinv G c -> n <> "" -> co = (NewCoordinator P n ttlSeconds tickNanos).1 -> owned g = ∅ ->
  id <> NoLease -> id ∉ granted (the_view c) -> view s' = grant (the_view c) ttlSeconds id ->
  join_ok n p (Some id) -> calls_ok (settled id n G) qs ->
  cinv (settled id n G) (update c s' n (Some (mkNode co g (Joining p (now (the_view c))))) qs).
Proof.
  intros Hi Hn Hco Ho Hid Hfr Hv Hp Hqs. pose proof (ci_store _ _ Hi) as Hso.
  assert (home G !! id = None) as Hnone.
  { destruct (home G !! id) eqn:E; [|done]. by apply (so_granted _ _ Hso) in E. }
  assert (effect G (the_view c) (view s')) as He by (rewrite Hv; by apply ef_grant).
  eapply (cinv_update G G); [done|apply grow_refl|done|done|by apply grow_settled| | | |done].
  - apply store_settled; [done|rewrite Hv; cbn; set_solver|by eapply effect_store].
  - intros. apply records_same. by rewrite Hv.
  - intros ? [= <-]. split; cbn; [done|done|]. split; [done|]. exists (Some id). split; [done|].
    intros l [= <-]. rewrite lookup_insert_eq, Hv. split; [done|]. split; [|apply grant_protects].
    intros [? ?]%(so_doom _ _ Hso). congruence.
Qed.

(** A joining process goes on with the lease it had, if any. *)
Lemma cinv_join_on (G : Ghost) (c : Cluster) (s' : St) (n : string) co g p b (o : option LeaseID) qs :
  cinv G c -> n <> "" -> co = (NewCoordinator P n ttlSeconds tickNanos).1 -> owned g = ∅ ->
  effect G (the_view c) (view s') ->
  (forall s, s ∈ shards -> ownership (view s') P s = ownership (the_view c) P s) ->
  join_ok n p o ->
  (forall l, o = Some l -> home G !! l = Some n /\ l ∉ doom G /\ protects (the_view c) l b) ->
  calls_ok G qs -> cinv G (update c s' n (Some (mkNode co g (Joining p b))) qs).
Proof.
  intros Hi Hn Hco Ho He Hsame Hp Hl Hqs. pose proof (ci_store _ _ Hi) as Hso.
  eapply cinv_move; [done|apply grow_refl|done|done| | |done].
  - intros. by apply records_same.
  - intros ? [= <-]. split; cbn; [done|done|]. split; [done|]. exists o. split; [done|].
    intros l Hol. destruct (Hl l Hol) as (Hh & Hd & Hpr). split; [done|]. split; [done|].
    eapply effect_protects; [done|by eapply so_granted|done|done].
Qed.

(** It gives its lease up. *)
Lemma cinv_join_revoke (G : Ghost) (c : Cluster) (s' : St) (n : string) co g p b (l : LeaseID) x qs :
  cinv G c -> n <> "" -> co = (NewCoordinator P n ttlSeconds tickNanos).1 -> owned g = ∅ ->
  etcd_allowed _ (the_view c) (Revoke l) x (view s') -> home G !! l = Some n ->
  join_ok n p None -> calls_ok (doomed l G) qs ->
  cinv (doomed l G) (update c s' n (Some (mkNode co g (Joining p b))) qs).
Proof.
  intros Hi Hn Hco Ho Hr Hh Hp Hqs. pose proof (ci_store _ _ Hi) as Hso.
  apply (revoke_effect (doomed l G)) in Hr as [He Hv]; [|cbn; set_solver].
  eapply cinv_move; [done|by apply grow_doomed|by eapply store_doomed|done| | |done].
  - intros n' m Hne _ _. destruct Hv as [->| ->]; [apply records_kept_refl|by eapply drop_spares].
  - intros ? [= <-]. split; cbn; [done|done|]. split; [done|]. by exists None.
Qed.

Lemma cinv_join (G : Ghost) (c : Cluster) n co g X (e : nodeE Guarded X) k b x s' g' qs :
  cinv G c -> nodes c n = Some (mkNode co g (Joining (Vis e k) b)) ->
  node_step X (store c, g) e x (s', g') -> abandoned e x qs ->
  exists G', cinv G' (update c s' n
    (Some (mkNode co g' (Joining (k x) (granted_at e (the_view c) b)))) qs).
Proof.
  intros Hi Hnd Hs Hqs. destruct (ci_nodes _ _ Hi n _ Hnd) as [Hco Hn (Ho & o & Hj & Hl)]. cbn in Hco, Ho.
  destruct Hj as [Ha Hk]. specialize (Hk x). destruct e as [X e| |X f]; [| |done].
  2: { destruct Hs as [-> [= -> ->]]. cbn in Hqs. subst qs. exists G.
       eapply cinv_join_on; [done|done|done|done|apply ef_none|done|done|done|done]. }
  destruct Hs as [Hd Hg]. cbn [fst snd] in Hd, Hg. subst g'. apply etcd_documented in Hd.
  fold (the_view c) in Hd.
  destruct e as [ttl|key val l|l|l|key|base|cmp op]; try done; cbn in Ha, Hk |- *.
  - destruct Ha as [-> ->]. apply grant_allowed in Hd as [(id & Hid & Hfr & Hv & Hx)|[Hv [err ->]]].
    + destruct Hx as [->|[err ->]].
      * eexists. eapply cinv_granted; [done..|]. by eapply abandoned_etcd.
      * exists G. eapply cinv_join_on; [done|done|done|done| |by rewrite Hv|done|done|by eapply abandoned_etcd].
        rewrite Hv. by apply ef_grant.
    + exists G. eapply cinv_join_on; [done|done|done|done|rewrite Hv; apply ef_none|by rewrite Hv|done|done|].
      by eapply abandoned_etcd.
  - subst key. exists G. apply put_allowed in Hd.
    eapply cinv_join_on; [done|done|done|done| | |done|done|eapply abandoned_etcd; [done|cbn; eauto]].
    + destruct Hd as [[-> Hlive]|[-> _]]; [by apply ef_member|apply ef_none].
    + intros s Hs. destruct Hd as [[-> _]|[-> _]]; [by apply member_put_ownership|done].
  - subst o. destruct (Hl l eq_refl) as (Hh & _ & _). exists (doomed l G).
    eapply cinv_join_revoke; [done..|]. eapply abandoned_etcd; [done|]. cbn. set_solver.
  - exists G. apply keepalive_allowed in Hd.
    eapply cinv_join_on; [done|done|done|done|rewrite Hd; apply ef_none|by rewrite Hd|done|done|].
    by eapply abandoned_etcd.
Qed.

(** The join has succeeded and the loop is launched. *)
Lemma cinv_joined (G : Ghost) (c : Cluster) n co g m b evs :
  cinv G c -> nodes c n = Some (mkNode co g (Joining (Ret (Ok m)) b)) ->
  cinv G (update c (store c) n (Some (mkNode co g (Running m (loop co m evs) [] b))) []).
Proof.
  intros Hi Hnd. destruct (ci_nodes _ _ Hi n _ Hnd) as [Hco Hn (Ho & o & [-> Hc] & Hl)]. cbn in Hco, Ho.
  destruct (Hl _ eq_refl) as (Hh & Hd & Hpr). pose proof (ci_store _ _ Hi) as Hso.
  eapply cinv_local; [done|apply grow_refl|done| |done]. intros ? [= <-]. split; cbn; [done|done|].
  rewrite Hc. split; [done|]. split; [done|]. subst co. split; [|split; [exact (loop_calls P (NewCoordinator P n ttlSeconds tickNanos).1 m eq_refl evs)|split; [|split; [done|constructor]]]].
  - split; [split; [apply Hso|apply Hso|by eapply so_granted]|]. intros _ s t. cbn. by rewrite Ho, lookup_empty.
  - exact (wp_coordinator_loop P (NewCoordinator P n ttlSeconds tickNanos).1 m eq_refl Hn evs _).
Qed.

Lemma loop_call_ok (G : Ghost) (n : string) (l : LeaseID) X (e : etcdE X) :
  home G !! l = Some n -> loop_call P n l e -> call_ok G (mkCall e).
Proof. intros Hl He. destruct e; cbn; try done. eauto. Qed.

(** An action of a control loop. *)
Lemma cinv_act (G : Ghost) (c : Cluster) n co g m X (e : nodeE Guarded X) k inf b x s' g' qs :
  cinv G c -> nodes c n = Some (mkNode co g (Running m (Vis e k) inf b)) ->
  node_step X (store c, g) e x (s', g') -> abandoned e x qs ->
  cinv G (update c s' n (Some (mkNode co g' (Running m (k x) inf b))) qs).
Proof.
  intros Hi Hnd Hs Hqs. destruct (ci_nodes _ _ Hi n _ Hnd) as [Hco Hn [Hh Hph]]. cbn in Hco, Hh.
  pose proof (ci_store _ _ Hi) as Hso.
  destruct (closing m) eqn:Ec; [by destruct Hph as [_ [r [=]]]|].
  destruct Hph as (Hd & Hinv & [Ha Hal] & Hwp & Hb & Hf).
  destruct (Hwp (store c, g) x (s', g')) as (_ & Hinv' & Hwp'); [apply node_rely_refl|done|done|].
  assert (exists v', shard_write P n (leaseID m) (the_view c) v' /\ view s' = v' /\ calls_ok G qs)
    as (v' & Hw & Hv & Hqs').
  { destruct e as [X e| |X f]; [|done|].
    - destruct Hs as [Hs _]. apply etcd_documented in Hs. eexists. split_and!; [|done|].
      + eapply loop_call_write; [apply Hso|done|done].
      + eapply abandoned_etcd; [done|]. by eapply loop_call_ok.
    - destruct Hs as [_ Hs]. cbn in Hs, Hqs. subst s' qs. eexists. split_and!; [apply sw_none|done|done]. }
  subst v'. assert (effect G (the_view c) (view s')) as He by (by eapply ef_write).
  assert (Hpr : forall ts, protects (the_view c) (leaseID m) ts -> protects (view s') (leaseID m) ts).
  { intros ts. eapply effect_protects; [done|by eapply so_granted|done]. }
  eapply cinv_move; [done|apply grow_refl|done|done| | |done].
  - intros n' m' Hne _ _ s kv Hsh Ho Hv. by eapply write_others.
  - intros ? [= <-]. split; cbn; [done|done|]. rewrite Ec. split; [done|].
    split; [done|]. split; [done|]. split; [apply Hal|]. split; [done|]. split; [by apply Hpr|].
    eapply Forall_impl; [done|auto].
Qed.

(** A mark set from outside the loop. *)
Lemma cinv_mark (G : Ghost) (c : Cluster) n co g ph sh :
  cinv G c -> nodes c n = Some (mkNode co g ph) ->
  cinv G (update c (store c) n (Some (mkNode co (mkGuarded (owned g) ({[sh]} ∪ releasing g)) ph)) []).
Proof.
  intros Hi Hnd. destruct (ci_nodes _ _ Hi n _ Hnd) as [Hco Hn Hph]. cbn in Hco, Hph.
  eapply cinv_local; [done|apply grow_refl|apply Hi| |done]. intros ? [= <-]. split; cbn; [done|done|].
  destruct ph as [p b|m p inf b]; [done|]. destruct Hph as [Hh Hph]. split; [done|].
  destruct (closing m); [done|]. destruct Hph as (Hd & Hinv & Hal & Hwp & Hrest).
  assert (node_rely P n (leaseID m) (store c, g)
    (store c, mkGuarded (owned g) ({[sh]} ∪ releasing g))) as Hr.
  { split; [apply view_rely_refl|]. cbn. split; [done|set_solver]. }
  split; [done|]. split; [by eapply node_inv_rely|]. split; [done|]. split; [|done].
  eapply wp_rely; [apply node_rely_trans|done|done|done].
Qed.

(** ** Keepalive, departure, the end of a process *)

Lemma mem_local_lease (m m' : Membership) :
  mem_local m m' -> leaseID m' = leaseID m /\ (closing m = true -> closing m' = true).
Proof. by intros []. Qed.

Lemma cinv_renew (G : Ghost) (c : Cluster) n co g m p inf b s' :
  cinv G c -> nodes c n = Some (mkNode co g (Running m p inf b)) -> etcd_env (store c) s' ->
  is_Some (leases (the_view c) !! leaseID m) -> view s' = renewed (the_view c) (leaseID m) ->
  cinv G (update c s' n (Some (mkNode co g (Running m p (now (the_view c) :: inf) b))) []).
Proof.
  intros Hi Hnd Henv%etcd_env_documented [le Hle] Hv. pose proof (ci_store _ _ Hi) as Hso.
  pose proof (ci_nodes _ _ Hi n _ Hnd) as Hok.
  assert (effect G (the_view c) (view s')) as He by (by apply ef_env).
  unfold renewed in Hv. rewrite Hle in Hv.
  assert (Hkept : forall n', records_kept n' (the_view c) (view s')).
  { intros n'. apply records_same. by rewrite Hv. }
  assert (node_ok G s' n (mkNode co g (Running m p inf b))) as [Hco Hn [Hh Hph]].
  { eapply (node_ok_frame G G (store c)); [done|done|done|done|done|auto|done]. }
  eapply cinv_move; [done|apply grow_refl|done|done|auto| |done].
  intros ? [= <-]. split; [done|done|]. split; [done|]. cbn in Hph. destruct (closing m) eqn:Ec; [done|].
  destruct Hph as (Hd & Hinv & Hal & Hwp & Hb & Hf). do 5 (split; [done|]). constructor; [|done].
  destruct Hok as [_ _ [_ Hok]]. rewrite Ec in Hok. destruct Hok as (_ & _ & _ & _ & [_ Hb'] & _).
  unfold the_view in *. rewrite Hle in Hb'. rewrite Hv. split; cbn; [done|].
  rewrite lookup_insert_eq. cbn. destruct Hb' as [-> _]. done.
Qed.

Lemma cinv_response (G : Ghost) (c : Cluster) n co g m p inf b ts t :
  cinv G c -> nodes c n = Some (mkNode co g (Running m p inf b)) -> ts ∈ inf ->
  cinv G (update c (store c) n (Some (mkNode co g (Running (ka_response t m) p inf ts))) []).
Proof.
  intros Hi Hnd Hts. destruct (ci_nodes _ _ Hi n _ Hnd) as [Hco Hn [Hh Hph]].
  eapply cinv_local; [done|apply grow_refl|apply Hi| |done].
  intros ? [= <-]. split; [done|done|]. split; [done|]. cbn in Hph |- *. destruct (closing m); [done|].
  destruct Hph as (Hd & Hinv & Hal & Hwp & Hb & Hf). do 4 (split; [done|]). split; [|done].
  rewrite Forall_forall in Hf. by apply Hf.
Qed.

Lemma cinv_mem (G : Ghost) (c : Cluster) n co g m p inf b m' :
  cinv G c -> nodes c n = Some (mkNode co g (Running m p inf b)) -> mem_local m m' ->
  (closing m' = closing m \/ exists r, p = Ret r) ->
  exists G', cinv G' (update c (store c) n (Some (mkNode co g (Running m' p inf b))) []).
Proof.
  intros Hi Hnd [Hl Hc]%mem_local_lease Hcl. destruct (ci_nodes _ _ Hi n _ Hnd) as [Hco Hn [Hh Hph]].
  pose proof (ci_store _ _ Hi) as Hso. destruct (decide (closing m' = closing m)) as [Heq|Hne].
  - exists G. eapply cinv_local; [done|apply grow_refl|done| |done].
    intros ? [= <-]. split; [done|done|]. unfold phase_ok in *. cbn. by rewrite Hl, Heq.
  - destruct Hcl as [?|[r ->]]; [done|]. destruct (closing m) eqn:Ec; [by rewrite Hc in Hne|].
    destruct (closing m') eqn:Ec'; [|done].
    exists (doomed (leaseID m) G). eapply cinv_local; [done|by apply grow_doomed|by eapply store_doomed| |done].
    intros ? [= <-]. split; [done|done|]. unfold phase_ok. cbn. rewrite Hl, Ec'.
    split; [done|]. split; [set_solver|eauto].
Qed.

Lemma cinv_revoke (G : Ghost) (c : Cluster) n co g m p inf b x s' g' qs :
  cinv G c -> nodes c n = Some (mkNode co g (Running m p inf b)) -> closing m = true ->
  node_step _ (store c, g) (EtcdCall (Revoke (leaseID m))) x (s', g') ->
  abandoned (EtcdCall (Revoke (leaseID m))) x qs ->
  cinv G (update c s' n (Some (mkNode co g' (Running m p inf b))) qs).
Proof.
  intros Hi Hnd Hc [Hd Hg] Hqs. cbn in Hd, Hg. subst g'.
  destruct (ci_nodes _ _ Hi n _ Hnd) as [Hco Hn [Hh Hph]]. cbn in Hph. rewrite Hc in Hph.
  destruct Hph as [Hdm Hr]. pose proof (ci_store _ _ Hi) as Hso.
  apply etcd_documented, (revoke_effect G) in Hd as [He Hv]; [|done].
  eapply cinv_move; [done|apply grow_refl|done|done| | |by eapply abandoned_etcd].
  - intros n' m' Hne _ _. unfold the_view. destruct Hv as [->| ->]; [apply records_kept_refl|].
    by eapply drop_spares.
  - intros ? [= <-]. split; [done|done|]. split; [done|]. cbn. by rewrite Hc.
Qed.

Lemma cinv_exit (G : Ghost) (c : Cluster) n co g ph qs :
  cinv G c -> nodes c n = Some (mkNode co g ph) -> (qs = [] \/ qs = call_under_way ph) ->
  exists G', cinv G' (update c (store c) n None qs).
Proof.
  intros Hi Hnd Hqs. destruct (ci_nodes _ _ Hi n _ Hnd) as [Hco Hn Hph]. pose proof (ci_store _ _ Hi) as Hso.
  assert (Hplain : calls_ok G qs -> exists G', cinv G' (update c (store c) n None qs)).
  { intros Hq. exists G. by eapply cinv_local; [|apply grow_refl| | |]. }
  destruct Hqs as [->| ->]; [by apply Hplain|]. destruct ph as [p b|m p inf b]; cbn in Hph, Hplain |- *.
  - destruct Hph as [_ (o & Hj & Hl)]. destruct p as [r|X e k]; [by apply Hplain|].
    destruct Hj as [Ha _]. destruct e as [X e| |X f]; [|by apply Hplain..].
    destruct e as [ttl|key val l|l|l|key|base|cmp op]; try done; try (by apply Hplain).
    + apply Hplain. split; [|done]. by exists n.
    + destruct (Hl l Ha) as (Hh & _). exists (doomed l G).
      eapply cinv_local; [done|by apply grow_doomed|by eapply store_doomed|done|].
      split; [cbn; set_solver|done].
  - apply Hplain. destruct Hph as [Hh Hph]. destruct (closing m); [by destruct Hph as [_ [r ->]]|].
    destruct Hph as (_ & _ & Hal & _). destruct p as [r|X e k]; [done|]. destruct Hal as [Ha _].
    destruct e as [X e| |X f]; [|done|done]. split; [|done]. by eapply loop_call_ok.
Qed.

(** ** Steps behind the back of the nodes *)

Lemma cinv_behind (G : Ghost) (c : Cluster) (s' : St) (qs : list Call) :
  cinv G c -> effect G (the_view c) (view s') ->
  (forall n m, in_service c n m -> live (leaseID m) (view s') -> records_kept n (the_view c) (view s')) ->
  calls_ok G qs -> cinv G (mkCluster s' (nodes c) qs).
Proof.
  intros [Hso Hnodes _] He Hk Hqs. split; cbn; [by eapply effect_store| |done].
  intros n nd Hnd. eapply (node_ok_frame G G (store c)); [done|done|done|done|done| |auto].
  intros m p inf b Hph Hc. apply Hk. destruct nd as [co g ph]. cbn in Hph. subst ph.
  by exists co, g, p, inf, b.
Qed.

Lemma cinv_env (G : Ghost) (c : Cluster) (s' : St) :
  cinv G c -> etcd_env (store c) s' ->
  smooth P c ByEtcd (mkCluster s' (nodes c) (outstanding c)) ->
  cinv G (mkCluster s' (nodes c) (outstanding c)).
Proof.
  intros Hi Henv%etcd_env_documented Hsm. eapply cinv_behind; [done|by apply ef_env| |apply Hi].
  intros n m Hin Hlive s kv Hs Ho Hv. destruct (decide (KvLease kv = leaseID m)) as [Heq|Hne].
  2: { by eapply Hsm. }
  fold (the_view c) in Henv. destruct Henv as [v t _|v l le _|v l le _ _]; [done|done|].
  apply drop_lease_lookup. split; [done|]. rewrite Heq. intros <-. unfold live in Hlive. cbn in Hlive.
  rewrite lookup_delete_eq in Hlive. by destruct Hlive.
Qed.

Lemma call_effect (G : Ghost) X (e : etcdE X) x (v v' : View) :
  view_wf v -> call_ok G (mkCall e) -> etcd_allowed X v e x v' -> effect G v v'.
Proof.
  intros Hwf He Ha. destruct e as [ttl|key val l|l|l|key|base|cmp op]; cbn in He.
  - apply grant_allowed in Ha as [(id & ? & ? & -> & _)|[-> _]]; [by apply ef_grant|apply ef_none].
  - destruct He as [n ->]. apply put_allowed in Ha as [[-> ?]|[-> _]]; [by apply ef_member|apply ef_none].
  - by eapply revoke_effect.
  - apply keepalive_allowed in Ha as ->. constructor.
  - apply get_allowed in Ha as [-> _]. constructor.
  - apply getprefix_allowed in Ha as [-> _]. constructor.
  - destruct He as (n & l & Hh & He). eapply ef_write; [done|]. exact (loop_call_write P n l _ (Txn cmp op) x v v' Hwf He Ha).
Qed.

Lemma cinv_late (G : Ghost) (c : Cluster) X (e : etcdE X) y s' qs1 qs2 :
  cinv G c -> outstanding c = qs1 ++ mkCall e :: qs2 -> etcd_do X (store c) e y s' ->
  smooth P c (Late (mkCall e)) (mkCluster s' (nodes c) (qs1 ++ qs2)) ->
  cinv G (mkCluster s' (nodes c) (qs1 ++ qs2)).
Proof.
  intros Hi Hqs Hd%etcd_documented Hsm. pose proof (ci_store _ _ Hi) as Hso.
  pose proof (ci_calls _ _ Hi) as Hcalls. rewrite Hqs in Hcalls.
  apply calls_ok_app in Hcalls as [Hq1 [He Hq2]]. fold (the_view c) in Hd.
  assert (effect G (the_view c) (view s')) as Heff by (eapply call_effect; [apply Hso|done|done]).
  eapply cinv_behind; [done|done| |by apply calls_ok_app].
  intros n m Hin Hlive s kv Hs Ho Hv.
  destruct e as [ttl|key val l|l|l|key|base|cmp op]; cbn in He, Hsm.
  - apply grant_allowed in Hd as [(id & _ & _ & -> & _)|[-> _]]; done.
  - destruct He as [n' ->]. apply put_allowed in Hd as [[-> _]|[-> _]]; [|done].
    by rewrite member_put_ownership.
  - apply revoke_allowed in Hd as [->| ->]; [done|]. apply drop_lease_lookup. split; [done|].
    by eapply Hsm.
  - by apply keepalive_allowed in Hd as ->.
  - by apply get_allowed in Hd as [-> _].
  - by apply getprefix_allowed in Hd as [-> _].
  - destruct He as (n' & l & Hh & s1 & Hs1 & [[-> ->]|[-> Hop]]).
    + apply claim_allowed in Hd as [(Hno & _ & -> & _)|[-> _]]; [|done|apply Hso].
      rewrite put_ownership; [done|done|done|]. intros ->. unfold ownership in Ho. congruence.
    + assert (n <> n') as Hne by (intros ->; by eapply Hsm).
      eapply write_others; [|done|done|done|exact Hne]. eapply loop_call_write; [apply Hso| |done].
      exists s1. split; [done|]. right. by split.
Qed.

(** ** The invariant is inductive *)

Lemma cinv_step (G : Ghost) (c c' : Cluster) (lab : Label) :
  cstep P ttlSeconds tickNanos c lab c' -> smooth P c lab c' -> cinv G c -> exists G', cinv G' c'.
Proof.
  intros Hs Hsm Hi. destruct Hs.
  - exists G. by apply cinv_start.
  - by eapply cinv_join.
  - exists G. by apply cinv_joined.
  - exists G. by eapply cinv_local; [|apply grow_refl|apply Hi| |].
  - exists G. by eapply cinv_act.
  - exists G. by apply cinv_mark.
  - exists G. by apply cinv_renew.
  - exists G. by eapply cinv_response.
  - by eapply cinv_mem.
  - exists G. by eapply cinv_revoke.
  - by eapply cinv_exit.
  - exists G. by apply cinv_env.
  - exists G. by eapply cinv_late.
Qed.

Lemma cinv_runs (c0 c : Cluster) :
  initial P c0 -> runs P ttlSeconds tickNanos c0 c -> exists G, cinv G c.
Proof.
  intros (Hn & Hq & Hwf & Hc & Hu) Hr. induction Hr as [|c lab c' _ [G IH] Hs Hsm].
  - exists (mkGhost ∅ ∅). split; [split; cbn| |].
    + done.
    + done.
    + intros s kv Hs. by rewrite Hu.
    + intros l n. by rewrite lookup_empty.
    + set_solver.
    + intros n nd. by rewrite Hn.
    + by rewrite Hq.
  - by eapply cinv_step.
Qed.

(** ** Fresh nodes have their lease, and what they serve is recorded for them *)

Lemma servable_live (c : Cluster) (co : Coordinator) (g : Guarded) (n : string) m b ns :
  (0 < ttlSeconds <= 9223372036)%Z -> co = (NewCoordinator P n ttlSeconds tickNanos).1 ->
  (lastKeepAlive m - b <= ttlSeconds * 500000000)%Z -> protects (the_view c) (leaseID m) b ->
  IsServable co g m (now (the_view c)) ns = true -> live (leaseID m) (the_view c).
Proof.
  intros Ht -> Hd [_ Hb]. unfold IsServable. rewrite andb_true_iff. intros [_ Hf].
  unfold Fresh, time.Since in Hf. destruct (lastKeepAlive m =? 0)%Z; [done|].
  rewrite lease_window_half in Hf by done. apply Z.ltb_lt, clamp64_lt in Hf; [|unfold max_int64; lia].
  unfold live. destruct (leases (the_view c) !! leaseID m); [eauto|].
  unfold TTL, time.Second in Hb. lia.
Qed.

Lemma servable_recorded (c0 c : Cluster) (n : string) (nd : Node) (ns : string) :
  (0 < ttlSeconds <= 9223372036)%Z -> initial P c0 -> runs P ttlSeconds tickNanos c0 c ->
  nodes c n = Some nd -> standing ttlSeconds nd -> servable c nd ns = true ->
  exists m p inf b kv, nd_phase nd = Running m p inf b /\ live (leaseID m) (the_view c) /\
    ownership (the_view c) P (ShardOf ns) = Some kv /\
    recorded n (leaseID m) (node_term nd ns) kv.
Proof.
  intros Ht H0 Hr Hnd Hst Hs. destruct (cinv_runs c0 c H0 Hr) as [G Hi].
  destruct (ci_nodes _ _ Hi n nd Hnd) as [Hco _ Hph]. unfold standing, servable in *.
  destruct (nd_phase nd) as [|m p inf b]; [done|]. destruct Hst as [Hc Hd].
  destruct Hph as [_ Hph]. rewrite Hc in Hph. destruct Hph as (_ & [_ Hb] & _ & _ & Hpr & _).
  assert (live (leaseID m) (the_view c)) as Hlive by (by eapply servable_live).
  unfold IsServable in Hs. rewrite !andb_true_iff, negb_true_iff in Hs.
  destruct Hs as [[[t Ho]%bool_decide_eq_true Hnr%bool_decide_eq_false] _].
  destruct (Hb Hlive _ _ Ho Hnr) as (_ & kv & Hkv & Hrec). exists m, p, inf, b, kv.
  split; [done|]. split; [done|]. split; [done|].
  unfold node_term, ShardTerm, OwnerTerm. by rewrite Ho.
Qed.

(** ** Properties *)

(** C1: Single writer.  Take any smooth run of any number of processes from a fresh
    deployment: interleaved joins, control loops with claims, releases and
    re-bindings, failing calls, late claims, lease expiry, crashes, departures and
    restarts under the same id, in which (1) no lease of an earlier incarnation runs
    out under the records of a node in service and (2) no release, re-binding or
    revocation that had failed is executed late against the records of a node in
    service.  Then no two nodes in good standing, that is, which have not begun to
    close and whose last recorded renewal reached them within half the lease, pass
    the gate for the same namespace at the same instant. *)
Theorem exclusive_serving (c0 c : Cluster) (n1 n2 : string) (a b : Node) (ns : string) :
  (0 < ttlSeconds <= 9223372036)%Z -> initial P c0 -> runs P ttlSeconds tickNanos c0 c ->
  nodes c n1 = Some a -> nodes c n2 = Some b -> n1 <> n2 ->
  standing ttlSeconds a -> standing ttlSeconds b ->
  servable c a ns && servable c b ns = false.
Proof.
  intros Ht H0 Hr Ha Hb Hne Hsta Hstb. apply not_true_iff_false. intros [Hsa Hsb]%andb_true_iff.
  destruct (servable_recorded c0 c n1 a ns) as (_ & _ & _ & _ & kv1 & _ & _ & Ho1 & [Hv1 _]); [done..|].
  destruct (servable_recorded c0 c n2 b ns) as (_ & _ & _ & _ & kv2 & _ & _ & Ho2 & [Hv2 _]); [done..|].
  congruence.
Qed.

(** C2: In the same runs, a node in good standing that passes the gate holds a live
    lease and is the owner etcd records for the shard.  The term it reports is the
    revision of that record, or a lower one when the record has since been moved to
    the node's own lease, which its re-binding of an adopted shard does until the
    next load; it is never higher than the recorded one. *)
Theorem servable_owner_and_term (c0 c : Cluster) (n : string) (nd : Node) (ns : string) :
  (0 < ttlSeconds <= 9223372036)%Z -> initial P c0 -> runs P ttlSeconds tickNanos c0 c ->
  nodes c n = Some nd -> standing ttlSeconds nd -> servable c nd ns = true ->
  exists m p inf b kv, nd_phase nd = Running m p inf b /\ is_Some (leases (the_view c) !! leaseID m) /\
    ownership (the_view c) P (ShardOf ns) = Some kv /\ Value kv = n /\
    (node_term nd ns <= ModRevision kv)%Z /\
    (node_term nd ns <> ModRevision kv -> KvLease kv = leaseID m).
Proof.
  intros Ht H0 Hr Hnd Hst Hs.
  destruct (servable_recorded c0 c n nd ns) as (m & p & inf & b & kv & Hph & Hl & Ho & Hv & Hrec); [done..|].
  exists m, p, inf, b, kv. split; [done|]. split; [done|]. split; [done|]. split; [done|].
  destruct Hrec as [<-|[Hk Hlt]]; (split; [lia|]); congruence.
Qed.

End exclusion.

(** ** A run: one node owns everything, another has just joined *)

Section demo.
Context {H : XXHash}.
#[local] Existing Instance ModelEtcd.

#[local] Abbreviation Cluster := (Cluster (D := ModelEtcd)).
#[local] Abbreviation runs := (runs (D := ModelEtcd) "catalog" 10 0).

Definition demo_start : Cluster := mkCluster (at_time empty_view 1000 : @St ModelEtcd) (fun _ => None) [].

Lemma demo_initial : initial (D := ModelEtcd) "catalog" demo_start.
Proof.
  split; [done|]. split; [done|]. split; [apply at_time_wf, empty_view_wf|].
  split; [exact (canonical_empty _)|]. intros s _. apply lookup_empty.
Qed.

Lemma nothing_abandoned {X} (e : nodeE Guarded X) (x : X) : abandoned e x [].
Proof. destruct e; [by left|done|done]. Qed.

Lemma set_node_eq (n : string) (o : option Node) (f : string -> option Node) : set_node n o f n = o.
Proof. unfold set_node. by rewrite decide_True. Qed.

Lemma set_node_ne (n n' : string) (o : option Node) (f : string -> option Node) :
  n' <> n -> set_node n o f n' = f n'.
Proof. intros Hne. unfold set_node. by rewrite decide_False. Qed.

(** Steps of the processes themselves are smooth. *)
Lemma demo_then (c0 c c' : Cluster) :
  runs c0 c -> cstep "catalog" 10 0 c ByNode c' -> runs c0 c'.
Proof. intros Hr Hs. exact (runs_step _ _ _ _ c ByNode c' Hr Hs I). Qed.

(** A healthy action of a joining process. *)
Lemma demo_join_act (c0 c : Cluster) (n : string) co g X (e : nodeE Guarded X) k b x (v' : View) g' :
  runs c0 c -> nodes c n = Some (mkNode co g (Joining (Vis e k) b)) ->
  node_handler X e (store c, g) = (x, (v', g')) ->
  runs c0 (update c (v' : @St ModelEtcd) n
    (Some (mkNode co g' (Joining (k x) (granted_at e (the_view c) b)))) []).
Proof.
  intros Hr Hnd Hh. eapply demo_then; [exact Hr|].
  eapply cs_join; [exact Hnd| |apply nothing_abandoned].
  pose proof (node_handler_step X e (store c, g)) as Hs. by rewrite Hh in Hs.
Qed.

(** A healthy join, from the start of the process to the launch of the loop. *)
Lemma demo_join (c0 c : Cluster) (n : string) (evs : list LoopEvent) :
  runs c0 c -> nodes c n = None -> n <> "" ->
  let id := fresh_lease (store c) in
  let t := now (the_view c) in
  let m := mkMembership "catalog" n id t false false KaRanging false in
  let co := (NewCoordinator "catalog" n 10 0).1 in
  exists c', runs c0 c' /\ store c' = joined (store c) "catalog" n 10 id t t /\
    nodes c' n = Some (mkNode co (mkGuarded ∅ ∅) (Running m (loop co m evs) [] t)) /\
    forall n', n' <> n -> nodes c' n' = nodes c n'.
Proof.
  intros Hr Hnone Hn id t m co.
  eapply demo_then in Hr; [|by apply (cs_start _ _ _ _ n)].
  eapply demo_join_act in Hr; [|apply set_node_eq|reflexivity].
  eapply demo_join_act in Hr; [|apply set_node_eq|].
  2: { cbn. rewrite (proj2 (lease_live_true _ _)); [reflexivity|].
       right. cbn. rewrite lookup_insert_eq. eauto. }
  eapply demo_join_act in Hr; [|apply set_node_eq|reflexivity].
  eapply demo_join_act in Hr; [|apply set_node_eq|reflexivity].
  eapply demo_then in Hr; [|eapply (cs_joined _ _ _ _ n co (mkGuarded ∅ ∅) m t evs); apply set_node_eq].
  eexists. split; [exact Hr|]. split; [done|]. split; [apply set_node_eq|].
  intros n' Hne. cbn. by rewrite !set_node_ne.
Qed.

(** A healthy execution of the next part of a control loop. *)
Lemma demo_run {A} (p : prog (nodeE Guarded) A) (f : A -> prog (nodeE Guarded) bool)
    (c0 c : Cluster) (n : string) co g m inf b (a : A) (v' : View) (g' : Guarded) :
  runs c0 c -> nodes c n = Some (mkNode co g (Running m (bind p f) inf b)) ->
  run node_handler p (store c, g) = (a, (v', g')) ->
  exists c', runs c0 c' /\ store c' = v' /\
    nodes c' n = Some (mkNode co g' (Running m (f a) inf b)) /\
    forall n', n' <> n -> nodes c' n' = nodes c n'.
Proof.
  revert c g. induction p as [y|X e k IH]; intros c g Hr Hnd Hrun; cbn in Hnd, Hrun.
  - injection Hrun as -> <- <-. by exists c.
  - pose proof (node_handler_step X e (store c, g)) as Hs.
    destruct (node_handler X e (store c, g)) as [x [v1 g1]] eqn:E.
    assert (run node_handler (k x) (v1, g1) = (a, (v', g'))) as Hr1.
    { etrans; [|exact Hrun]. symmetry. exact (f_equal (fun '(x, s1) => run node_handler (k x) s1) E). }
    destruct (IH x (update c (v1 : @St ModelEtcd) n
      (Some (mkNode co g1 (Running m (bind (k x) f) inf b))) []) g1)
      as (c' & Hr' & Hst & Hn' & Ho); [|apply set_node_eq|done|].
    { eapply demo_then; [exact Hr|].
      eapply (cs_act _ _ _ _ n co g m X e (fun x => bind (k x) f)); [exact Hnd|exact Hs|apply nothing_abandoned]. }
    exists c'. split; [done|]. split; [done|]. split; [done|].
    intros n' Hne. rewrite (Ho n' Hne). cbn. by rewrite set_node_ne.
Qed.

Lemma demo_standing co g n id t p inf :
  standing 10 (mkNode co g (Running (mkMembership "catalog" n id t false false KaRanging false) p inf t)).
Proof. split; [reflexivity|]. cbn [lastKeepAlive]. lia. Qed.

(** A node that is alone and finds all shards free takes them all in one round. *)
Lemma demo_takes_all (v : View) (n : string) (id t : Z) :
  view_wf v -> canonical v "catalog" -> lease_live v id = true -> n <> "" ->
  members_of v "catalog" = [n] -> (forall s, s ∈ shards -> ownership v "catalog" s = None) ->
  let co := (NewCoordinator "catalog" n 10 0).1 in
  let m := mkMembership "catalog" n id t false false KaRanging false in
  exists v' g', run node_handler (reconcileOnce co m) (v, mkGuarded ∅ ∅) = (tt, (v', g')) /\
    same_frame "catalog" v v' /\
    (forall s, s ∈ shards -> exists kv, ownership v' "catalog" s = Some kv /\ Value kv = n /\ KvLease kv = id) /\
    forall now ns, Fresh m (leaseWindow co) now = true -> IsServable co g' m now ns = true.
Proof.
  intros Hwf Hc Hl Hn Hm Hfree co m.
  destruct (run_reconcileOnce "catalog" co m eq_refl Hn v (mkGuarded ∅ ∅) Hwf Hc Hl)
    as (v' & g' & Hrun & Ha & Hrel & Hown).
  assert (Hrec : forall s, s ∈ shards -> exists kv, ownership v' "catalog" s = Some kv /\ Value kv = n /\ KvLease kv = id).
  { intros s Hs. pose proof (ar_shards _ _ _ _ _ Ha s Hs) as Hr. rewrite Hm, (Hfree s Hs) in Hr.
    rewrite Rendezvous_singleton in Hr by done. unfold round_record in Hr. by rewrite String.eqb_refl in Hr. }
  exists v', g'. split; [exact Hrun|]. split; [by eapply after_round_frame|]. split; [exact Hrec|].
  intros now ns Hf. unfold IsServable. rewrite Hf, Hrel, bool_decide_eq_true_2.
  - by rewrite bool_decide_eq_false_2 by (apply not_elem_of_empty).
  - apply Hown. split; [apply ShardOf_shards|].
    destruct (Hrec (ShardOf ns) (ShardOf_shards ns)) as (kv & Ho & Hv & _). exists kv. split; [exact Ho|exact Hv].
Qed.

(** A fresh membership of 10 seconds is fresh at the time of its join. *)
Lemma demo_fresh (n : string) (id t : Z) :
  t <> 0%Z -> Fresh (mkMembership "catalog" n id t false false KaRanging false)
    (leaseWindow (NewCoordinator "catalog" n 10 0).1) t = true.
Proof.
  intros Ht. unfold Fresh, time.Since. cbn [lastKeepAlive]. rewrite (proj2 (Z.eqb_neq _ _)) by done.
  by rewrite Z.sub_diag.
Qed.

(** Node "a" joins and takes everything; its loop then returns. *)
Lemma demo_first : exists c g v id,
  let co := (NewCoordinator "catalog" "a" 10 0).1 in
  let m := mkMembership "catalog" "a" id 1000 false false KaRanging false in
  runs demo_start c /\ store c = v /\
  nodes c "a" = Some (mkNode co g (Running m (Ret false) [] 1000)) /\ nodes c "b" = None /\
  same_frame "catalog" (joined (at_time empty_view 1000) "catalog" "a" 10 id 1000 1000) v /\
  (forall s, s ∈ shards -> exists kv, ownership v "catalog" s = Some kv /\ KvLease kv = id) /\
  forall ns, IsServable co g m 1000 ns = true.
Proof.
  destruct (demo_join demo_start demo_start "a" [] (runs_start _ _ _ _) eq_refl ltac:(done))
    as (c1 & Hr1 & Hst1 & Hn1 & Ho1). change (now (the_view demo_start)) with 1000%Z in *.
  change (store demo_start) with (at_time empty_view 1000) in *. set (id := fresh_lease _) in *.
  set (v1 := joined _ _ _ _ _ _ _) in Hst1.
  destruct (demo_takes_all v1 "a" id 1000) as (v2 & g2 & Hrun & Hf & Hrec & Hserve).
  { apply joined_wf; [apply demo_initial|apply fresh_lease_spec]. }
  { apply joined_canonical, demo_initial. }
  { reflexivity. }
  { done. }
  { reflexivity. }
  { intros s Hs. unfold v1. rewrite joined_ownership by done. apply lookup_empty. }
  destruct (demo_run (reconcileOnce _ _) (fun _ => loopSelect _ _ []) demo_start c1 "a" _ (mkGuarded ∅ ∅) _
    [] 1000 tt v2 g2 Hr1 Hn1) as (c2 & Hr2 & Hst2 & Hn2 & Ho2); [rewrite Hst1; exact Hrun|].
  exists c2, g2, v2, id. split; [exact Hr2|]. split; [exact Hst2|]. split; [exact Hn2|].
  split; [by rewrite (Ho2 "b"), (Ho1 "b")|]. split; [exact Hf|].
  split; [|intros ns; apply Hserve, demo_fresh; done].
  intros s Hs. destruct (Hrec s Hs) as (kv & Ho & _ & Hl). exists kv. split; [exact Ho|exact Hl].
Qed.

(** Then "b" joins. *)
Lemma demo_reachable : exists c a b,
  runs demo_start c /\ nodes c "a" = Some a /\ nodes c "b" = Some b /\
  standing 10 a /\ standing 10 b /\ forall ns, servable c a ns = true.
Proof.
  destruct demo_first as (c & g & v & id & Hr & Hst & Ha & Hb & Hf & _ & Hserve).
  destruct (demo_join demo_start c "b" [] Hr Hb ltac:(done)) as (c' & Hr' & Hst' & Hb' & Ho').
  eexists c', _, _. split; [exact Hr'|]. split; [rewrite (Ho' "a"); [exact Ha|done]|].
  split; [exact Hb'|]. split; [apply demo_standing|]. split; [apply demo_standing|].
  intros ns. unfold servable. cbn [nd_phase nd_coord nd_guard].
  replace (now (the_view c')) with 1000%Z; [apply Hserve|]. unfold the_view. rewrite Hst'. cbn.
  rewrite Hst. by destruct (sf_quiet _ _ _ Hf) as (-> & _).
Qed.

(** ** Why a closing node is not in good standing *)

(** The steps of [Close] once the loop has returned: the lease and all records go. *)
Lemma demo_close (c0 c : Cluster) (n : string) co g m r inf b :
  runs c0 c -> nodes c n = Some (mkNode co g (Running m (Ret r) inf b)) ->
  is_Some (leases (the_view c) !! leaseID m) ->
  exists c', runs c0 c' /\ store c' = drop_lease (store c) (leaseID m) /\
    nodes c' n = Some (mkNode co g (Running (simulateCrash m) (Ret r) inf b)) /\
    forall n', n' <> n -> nodes c' n' = nodes c n'.
Proof.
  intros Hr Hn Hl.
  eapply demo_then in Hr; [|eapply cs_mem; [exact Hn|apply ms_closing|eauto]].
  eapply demo_then in Hr; [|eapply cs_mem; [apply set_node_eq|by apply ms_cancel|eauto]].
  eapply demo_then in Hr; [|eapply (cs_revoke _ _ _ _ n co g (simulateCrash m) (Ret r) inf b (Ok tt)
    (drop_lease (store c) (leaseID m) : @St ModelEtcd) g []); [apply set_node_eq|done|done| |by left]].
  2: { split; [|done]. left. cbn. rewrite decide_True by exact Hl. done. }
  eexists. split; [exact Hr|]. split; [done|]. split; [apply set_node_eq|].
  intros n' Hne. cbn. by rewrite !set_node_ne.
Qed.

Lemma sole_member (l : list string) (n : string) : NoDup l -> (forall x, x ∈ l <-> x = n) -> l = [n].
Proof.
  intros Hnd Hl. destruct l as [|x l]; [by destruct (not_elem_of_nil n (proj2 (Hl n) eq_refl))|].
  assert (x = n) as -> by (apply Hl; left). apply NoDup_cons in Hnd as [Hx _].
  destruct l as [|y l]; [done|]. destruct Hx. assert (y = n) as <- by (apply Hl; right; left). left.
Qed.

(** With the lease of "a" its member key is gone; only "b" is registered. *)
Lemma left_members (v : View) (id id' t : Z) :
  same_frame "catalog" (joined (at_time empty_view 1000) "catalog" "a" 10 id 1000 1000) v ->
  id' <> NoLease ->
  members_of (joined (drop_lease v id) "catalog" "b" 10 id' t t) "catalog" = ["b"].
Proof.
  intros Hf Hid'. assert (Hwf : view_wf (joined (drop_lease v id) "catalog" "b" 10 id' t t)).
  { apply joined_wf; [apply drop_lease_wf, Hf|done]. }
  apply sole_member; [by apply members_of_NoDup|]. intros n. rewrite members_of_elem by done.
  cbn [kvs joined at_time put_kv grant]. rewrite lookup_insert. case_decide as Hd.
  { apply append_inj_l in Hd as <-. split; [done|eauto]. }
  split; [|intros ->; by destruct Hd]. intros [kv [Hk Hne]%(drop_lease_lookup v id)].
  rewrite (sf_others _ _ _ Hf) in Hk by (intros s Hs; by apply member_key_not_shardKey).
  cbn in Hk. rewrite lookup_insert in Hk. case_decide; [by injection Hk as <-|]. by rewrite lookup_empty in Hk.
Qed.

(** After [Close] the gate stays open for the rest of the window while the lease is
    already gone: "a" closes, "b" joins and takes all shards, and at that instant both
    pass the gate for every namespace. *)
Lemma close_splits_service : exists c a b,
  runs demo_start c /\ nodes c "a" = Some a /\ nodes c "b" = Some b /\
  forall ns, servable c a ns = true /\ servable c b ns = true.
Proof.
  destruct demo_first as (c & g & v & id & Hr & Hst & Ha & Hb & Hf & Hrec & Hserve).
  assert (Hnow : now v = 1000%Z) by (by destruct (sf_quiet _ _ _ Hf) as (-> & _)).
  assert (Hcv : canonical v "catalog") by (eapply same_frame_canonical; [exact Hf|apply joined_canonical, demo_initial]).
  destruct (demo_close demo_start c "a" _ _ _ _ _ _ Hr Ha) as (c1 & Hr1 & Hst1 & Ha1 & Ho1).
  { unfold the_view. rewrite Hst. destruct (sf_quiet _ _ _ Hf) as (_ & Hle & _). cbn. rewrite Hle.
    eexists. apply lookup_insert_eq. }
  rewrite Hst in Hst1. cbn [leaseID] in Hst1.
  destruct (demo_join demo_start c1 "b" [] Hr1) as (c2 & Hr2 & Hst2 & Hb2 & Ho2);
    [by rewrite (Ho1 "b")|done|].
  assert (Hnow1 : now (the_view c1) = 1000%Z) by (unfold the_view; rewrite Hst1; exact Hnow).
  rewrite Hnow1 in *. rewrite Hst1 in *. set (id' := fresh_lease _) in *.
  destruct (demo_takes_all (store c2) "b" id' 1000) as (v3 & g3 & Hrun & Hf3 & _ & Hserve3).
  { rewrite Hst2. apply joined_wf; [apply drop_lease_wf, Hf|apply fresh_lease_spec]. }
  { rewrite Hst2. by apply joined_canonical, drop_canonical. }
  { rewrite Hst2. apply lease_live_true. right. cbn. rewrite lookup_insert_eq. eauto. }
  { done. }
  { rewrite Hst2. apply left_members; [exact Hf|apply fresh_lease_spec]. }
  { intros s Hs. rewrite Hst2, joined_ownership by done. destruct (Hrec s Hs) as (kv & Hkv & Hl).
    destruct (ownership (drop_lease v id) "catalog" s) as [kv'|] eqn:E; [|done].
    apply drop_lease_lookup in E as [E Hne]. unfold ownership in Hkv. congruence. }
  destruct (demo_run (reconcileOnce _ _) (fun _ => loopSelect _ _ []) demo_start c2 "b" _ (mkGuarded ∅ ∅) _
    [] 1000 tt v3 g3 Hr2 Hb2 Hrun) as (c3 & Hr3 & Hst3 & Hb3 & Ho3).
  assert (Hnow3 : now (the_view c3) = 1000%Z).
  { unfold the_view. rewrite Hst3. cbn. destruct (sf_quiet _ _ _ Hf3) as (-> & _). by rewrite Hst2. }
  eexists c3, _, _. split; [exact Hr3|]. split; [rewrite (Ho3 "a"), (Ho2 "a") by done; exact Ha1|].
  split; [exact Hb3|]. intros ns. unfold servable. cbn [nd_phase nd_coord nd_guard]. rewrite Hnow3.
  split; [exact (Hserve ns)|]. apply Hserve3, demo_fresh. done.
Qed.

End demo.

Lemma exclusive_serving_witness : exists c a b,
  runs (H := ToyHash) "catalog" 10 0 demo_start c /\
  nodes c "a" = Some a /\ nodes c "b" = Some b /\
  servable (H := ToyHash) c a "db1" = true /\ servable (H := ToyHash) c b "db1" = false.
Proof.
  destruct (demo_reachable (H := ToyHash)) as (c & a & b & Hr & Ha & Hb & Hsta & Hstb & Hs).
  exists c, a, b. split; [exact Hr|]. split; [exact Ha|]. split; [exact Hb|].
  split; [exact (Hs "db1")|].
  pose proof (exclusive_serving (H := ToyHash) "catalog" 10 0 demo_start c "a" "b" a b "db1"
    ltac:(lia) demo_initial Hr Ha Hb ltac:(discriminate) Hsta Hstb) as He.
  rewrite (Hs "db1") in He. exact He.
Defined.

Lemma servable_owner_and_term_witness : exists c a kv,
  nodes c "a" = Some a /\ servable (H := ToyHash) c a "db1" = true /\
  ownership (the_view (D := ModelEtcd) c) "catalog" (ShardOf (H := ToyHash) "db1") = Some kv /\
  Value kv = "a" /\ (node_term (H := ToyHash) a "db1" <= ModRevision kv)%Z.
Proof.
  destruct (demo_reachable (H := ToyHash)) as (c & a & b & Hr & Ha & Hb & Hsta & Hstb & Hs).
  destruct (servable_owner_and_term (H := ToyHash) "catalog" 10 0 demo_start c "a" a "db1"
    ltac:(lia) demo_initial Hr Ha Hsta (Hs "db1")) as (m & p & inf & t & kv & _ & _ & Ho & Hv & Ht & _).
  exists c, a, kv. split; [exact Ha|]. split; [exact (Hs "db1")|].
  split; [exact Ho|]. split; [exact Hv|exact Ht].
Defined.
