(* ===== verification/Nsmeta.v ===== *)
(** * Namespace and term on the wire: nsmeta/nsmeta.go

    The client stamps the namespace and the ownership term it routed against on
    the outgoing gRPC context; the service reads them off the incoming one.  The
    gRPC metadata package and the transport are a parameter, the class
    [GrpcMetadata]; its laws are the documented behaviour: pairs accumulate in
    order on the outgoing context, and well-formed pairs of application headers
    arrive unchanged.  Nothing is assumed of headers that gRPC or the transport
    sets or reserves (content-type, user-agent, grpc-...). *)

From Stdlib Require Import Ascii.
From S2P Require Import Prelude GoStd.

(** ** The parameter: google.golang.org/grpc/metadata and the transport *)

(** Header names and values that gRPC transmits as they are: lower-case names,
    printable ASCII values without surrounding blanks. *)
Definition key_char (c : ascii) : bool :=
  let n := N_of_ascii c in
  ((97 <=? n) && (n <=? 122) || (48 <=? n) && (n <=? 57) || (n =? 45) || (n =? 95) || (n =? 46))%N.
Definition printable (c : ascii) : bool := (let n := N_of_ascii c in (32 <=? n) && (n <=? 126))%N.
Definition blank (o : option ascii) : bool := match o with Some " "%char => true | _ => false end.

Definition valid_key (k : string) : bool := negb (k =? "")%string && forallb key_char (chars k).
Definition valid_value (v : string) : bool :=
  forallb printable (chars v) && negb (blank (head (chars v))) && negb (blank (last (chars v))).
(** Headers of the application, which nobody else sets or interprets: their own name
    space, and no binary header. *)
Definition app_header (k : string) : bool :=
  valid_key k && strings.HasPrefix k "x-milvus-" &&
  negb (bool_decide (take 4 (reverse (chars k)) = reverse (chars "-bin"))).
Definition valid_pair (p : string * string) : bool := valid_key p.1 && valid_value p.2.

(** [kv ...string]: alternating names and values. *)
Fixpoint pairs (kv : list string) : list (string * string) :=
  match kv with
  | k :: v :: kv' => (k, v) :: pairs kv'
  | _ => []
  end.

(** The values of a name, in order. *)
Definition values (md : list (string * string)) (k : string) : list string :=
  snd <$> List.filter (fun p => (p.1 =? k)%string) md.

Class GrpcMetadata : Type := {
  Context_ : Type;
  MD : Type;
  AppendToOutgoingContext : Context_ -> list string -> Context_;
  FromIncomingContext : Context_ -> option MD;
  Get : MD -> string -> list string;
  (* observations: the pairs on an outgoing context, and which incoming contexts
     a server handler can be given for a call made with an outgoing one *)
  Outgoing : Context_ -> list (string * string);
  delivered : Context_ -> Context_ -> Prop;
}.

Class GrpcMetadataLaws (G : GrpcMetadata) : Prop := {
  Append_spec (ctx : Context_) (kv : list string) :
    Forall (fun p => valid_key p.1 = true) (pairs kv) ->
    Outgoing (AppendToOutgoingContext ctx kv) = Outgoing ctx ++ pairs kv;
  delivered_spec (ctx inc : Context_) :
    forallb valid_pair (Outgoing ctx) = true -> delivered ctx inc ->
    exists md, FromIncomingContext inc = Some md /\
      forall k, app_header k = true -> Get md k = values (Outgoing ctx) k;
}.

(** ** The code *)

Definition Key : string := "x-milvus-catalog-namespace".
Definition TermKey : string := "x-milvus-catalog-term".
Definition Default : string := "_default".

Section nsmeta.
Context {G : GrpcMetadata}.

Definition With (ctx : Context_) (namespace : string) : Context_ :=
  AppendToOutgoingContext ctx [Key; namespace].

Definition WithTerm (ctx : Context_) (namespace : string) (term : Z) : Context_ :=
  AppendToOutgoingContext ctx [Key; namespace; TermKey; strconv.FormatInt term].

Definition TermFrom (ctx : Context_) : Z :=
  match FromIncomingContext ctx with
  | None => 0%Z
  | Some md =>
    match Get md TermKey with
    | [] => 0%Z
    | v :: _ =>
      if (v =? "")%string then 0%Z else
      match strconv.ParseInt v with
      | Err _ => 0%Z
      | Ok t => t
      end
    end
  end.

Definition From (ctx : Context_) : string :=
  match FromIncomingContext ctx with
  | None => Default
  | Some md =>
    match Get md Key with
    | [] => Default
    | v :: _ => if (v =? "")%string then Default else v
    end
  end.

End nsmeta.

(** ** Lemmas *)

Section nsmeta_lemmas.
Context {G : GrpcMetadata} {GL : GrpcMetadataLaws G}.

Lemma values_app (md1 md2 : list (string * string)) (k : string) :
  values (md1 ++ md2) k = values md1 k ++ values md2 k.
Proof. unfold values. by rewrite List.filter_app, fmap_app. Qed.

Lemma WithTerm_outgoing (ctx : Context_) (ns : string) (t : Z) :
  Outgoing (WithTerm ctx ns t) = Outgoing ctx ++ [(Key, ns); (TermKey, strconv.FormatInt t)].
Proof. unfold WithTerm. rewrite Append_spec; [done|]. by repeat constructor. Qed.

Lemma With_outgoing (ctx : Context_) (ns : string) :
  Outgoing (With ctx ns) = Outgoing ctx ++ [(Key, ns)].
Proof. unfold With. rewrite Append_spec; [done|]. by repeat constructor. Qed.

(** Printed terms are valid header values. *)
Lemma graphic_char (c : ascii) : strconv.is_digit c \/ c = "-"%char ->
  printable c = true /\ c <> " "%char.
Proof.
  intros [[d Hd]| ->]; [|done].
  destruct c as [[] [] [] [] [] [] [] []]; cbn in Hd; try discriminate Hd; done.
Qed.

Lemma graphic_value (v : string) :
  Forall (fun c => printable c = true /\ c <> " "%char) (chars v) -> valid_value v = true.
Proof.
  intros Hv. rewrite Forall_forall in Hv. unfold valid_value.
  rewrite !andb_true_iff, !negb_true_iff. split_and!.
  - apply forallb_forall. intros c Hc. apply Hv. by apply list_elem_of_In.
  - destruct (head (chars v)) as [c|] eqn:E; [|done].
    destruct (Hv c) as [_ Hc]; [by apply head_Some_elem_of|].
    cbn. destruct c as [[] [] [] [] [] [] [] []]; done.
  - destruct (last (chars v)) as [c|] eqn:E; [|done].
    destruct (Hv c) as [_ Hc]; [by apply last_Some_elem_of|].
    cbn. destruct c as [[] [] [] [] [] [] [] []]; done.
Qed.

Lemma FormatInt_valid (t : Z) : valid_value (strconv.FormatInt t) = true.
Proof.
  apply graphic_value. unfold strconv.FormatInt.
  assert (Hd : forall n, (0 <= n)%Z ->
    Forall (fun c => printable c = true /\ c <> " "%char)
      (chars (strconv.format_digits (strconv.format_fuel n) n ""))).
  { intros n Hn. eapply Forall_impl; [apply strconv.format_digits_chars; [done|constructor]|].
    intros c Hc. apply graphic_char. by left. }
  destruct (Z.ltb_spec t 0); [|by apply Hd].
  constructor; [by apply graphic_char; right|]. apply Hd. lia.
Qed.

(** What the service reads is the first stamp on the caller's context. *)
Lemma From_delivered (ctx inc : Context_) :
  forallb valid_pair (Outgoing ctx) = true -> delivered ctx inc ->
  From inc = match values (Outgoing ctx) Key with
             | [] => Default
             | v :: _ => if (v =? "")%string then Default else v
             end.
Proof.
  intros Hv (md & Hmd & Hget)%delivered_spec; [|done]. unfold From. by rewrite Hmd, Hget.
Qed.

Lemma TermFrom_delivered (ctx inc : Context_) (t : Z) (rest : list string) :
  forallb valid_pair (Outgoing ctx) = true -> delivered ctx inc ->
  values (Outgoing ctx) TermKey = strconv.FormatInt t :: rest -> is_int64 t -> TermFrom inc = t.
Proof.
  intros Hv (md & Hmd & Hget)%delivered_spec Hvals Ht; [|done].
  unfold TermFrom. rewrite Hmd, Hget, Hvals by done.
  rewrite (proj2 (String.eqb_neq _ _)) by apply strconv.FormatInt_nonempty.
  by rewrite strconv.ParseInt_FormatInt.
Qed.

Lemma WithTerm_valid (ctx : Context_) (ns : string) (t : Z) :
  forallb valid_pair (Outgoing ctx) = true -> valid_value ns = true ->
  forallb valid_pair (Outgoing (WithTerm ctx ns t)) = true.
Proof.
  intros Hc Hns. rewrite WithTerm_outgoing, forallb_app, Hc. cbn -[valid_value].
  unfold valid_pair. cbn [fst snd]. by rewrite Hns, FormatInt_valid.
Qed.

(** ** Properties *)


(** One stamp, with or without a term. *)
Definition stamp (ctx : Context_) (p : string * option Z) : Context_ :=
  match p.2 with Some t => WithTerm ctx p.1 t | None => With ctx p.1 end.

Lemma stamps_values (ctx : Context_) (l : list (string * option Z)) :
  values (Outgoing (foldl stamp ctx l)) Key = values (Outgoing ctx) Key ++ l.*1 /\
  values (Outgoing (foldl stamp ctx l)) TermKey
    = values (Outgoing ctx) TermKey ++ (strconv.FormatInt <$> omap snd l).
Proof.
  revert ctx. induction l as [|[ns [t|]] l IH]; intros ctx; cbn [foldl].
  - cbn. by rewrite !app_nil_r.
  - destruct (IH (stamp ctx (ns, Some t))) as [-> ->]. unfold stamp. cbn [fst snd].
    rewrite WithTerm_outgoing, !values_app. cbn. by rewrite <- !app_assoc.
  - destruct (IH (stamp ctx (ns, None))) as [-> ->]. unfold stamp. cbn [fst snd].
    rewrite With_outgoing, !values_app. cbn. by rewrite <- !app_assoc.
Qed.

Lemma stamps_valid (ctx : Context_) (l : list (string * option Z)) :
  forallb valid_pair (Outgoing ctx) = true -> Forall (fun p => valid_value p.1 = true) l ->
  forallb valid_pair (Outgoing (foldl stamp ctx l)) = true.
Proof.
  intros Hc Hl. revert ctx Hc. induction Hl as [|[ns [t|]] l Hns _ IH]; intros ctx Hc; cbn [foldl]; [done| |].
  - apply IH. by apply WithTerm_valid.
  - apply IH. unfold stamp. cbn [fst snd] in *. rewrite With_outgoing, forallb_app, Hc.
    cbn -[valid_value]. unfold valid_pair. cbn [fst snd]. by rewrite Hns.
Qed.

(** C39: The first stamp of each kind counts.  However often a context is stamped, with
    printable namespaces and with or without terms, in any order, the service reads
    the namespace of the first stamp (the default when that is empty) and the term of
    the first stamp that carries one; without any the term is 0, the opt-out. *)
Theorem first_stamp_wins (ctx inc : Context_) (l : list (string * option Z)) :
  forallb valid_pair (Outgoing ctx) = true ->
  values (Outgoing ctx) Key = [] -> values (Outgoing ctx) TermKey = [] ->
  Forall (fun p => valid_value p.1 = true) l -> Forall is_int64 (omap snd l) ->
  delivered (foldl stamp ctx l) inc ->
  From inc = match l with [] => Default | (ns, _) :: _ => if (ns =? "")%string then Default else ns end /\
  TermFrom inc = default 0%Z (head (omap snd l)).
Proof.
  intros Hc Hk Htk Hl Ht Hd. pose proof (stamps_valid ctx l Hc Hl) as Hv.
  destruct (stamps_values ctx l) as [Hvk Hvt]. rewrite Hk in Hvk. rewrite Htk in Hvt. split.
  - rewrite (From_delivered _ _ Hv Hd), Hvk. by destruct l as [|[ns o] l].
  - destruct (omap snd l) as [|t ts]; cbn in Hvt |- *.
    + apply delivered_spec in Hd as (md & Hmd & Hget); [|done].
      unfold TermFrom. by rewrite Hmd, Hget, Hvt by done.
    + inversion_clear Ht. by eapply TermFrom_delivered.
Qed.

End nsmeta_lemmas.

(** ** A concrete transport *)

(** A context is its outgoing pairs and, on the server side, the received ones. *)
Definition WireMetadata : GrpcMetadata := {|
  Context_ := list (string * string) * option (list (string * string));
  MD := list (string * string);
  AppendToOutgoingContext ctx kv := (ctx.1 ++ pairs kv, ctx.2);
  FromIncomingContext ctx := ctx.2;
  Get := values;
  Outgoing ctx := ctx.1;
  delivered ctx inc := inc.2 = Some ctx.1;
|}.

#[global] Instance WireMetadata_laws : GrpcMetadataLaws WireMetadata.
Proof.
  split.
  - done.
  - intros ctx inc _ Hd. exists (Outgoing ctx). by split.
Qed.


Lemma first_stamp_wins_witness :
  let ctx := foldl (stamp (G := WireMetadata)) ([], None) [("a", None); ("b", Some 7); ("c", Some 9)]%Z in
  From (G := WireMetadata) ([], Some ctx.1) = "a" /\
  TermFrom (G := WireMetadata) ([], Some ctx.1) = 7%Z.
Proof.
  intros ctx.
  apply (first_stamp_wins (G := WireMetadata) ([], None) ([], Some ctx.1)
    [("a", None); ("b", Some 7); ("c", Some 9)]%Z); try reflexivity.
  - repeat constructor.
  - repeat constructor; discriminate.
Defined.
