(* ===== verification/StripRoot.v ===== *)
(** * Logical keys: stripRootPath of migration/copydiff.go

    Turning the full key of a backend into its logical key.  The search loop is
    modelled with fuel; [stripRootPath] supplies the length of the key, which
    [strip_search_total] shows to be enough. *)

From Stdlib Require Import Ascii.
From S2P Require Import Prelude GoStd.

(** ** The code *)

Definition needle (root : string) : string := "/" +:+ root.

(** [after == len(fullKey) || fullKey[after] == '/']. *)
Definition at_boundary (fullKey : string) (after : nat) : bool :=
  (after =? String.length fullKey) ||
  match strings.at_ fullKey after with Some c => Ascii.eqb c "/" | None => false end.

(** The [for] loop from position [from]: [Some r] when it ends, with [r] the
    string it returns or [None] for the [break]. *)
Fixpoint strip_search (fuel : nat) (fullKey root : string) (from : nat) : option (option string) :=
  match fuel with
  | O => None
  | S fuel' =>
    match strings.Index (strings.drop from fullKey) (needle root) with
    | None => Some None
    | Some i =>
      let idx := from + i in
      let after := idx + String.length (needle root) in
      if at_boundary fullKey after then Some (Some (strings.drop (idx + 1) fullKey))
      else strip_search fuel' fullKey root (idx + 1)
    end
  end.

(** The text of the error is the source's up to the quotes of [%q]. *)
Definition errNoBoundary (fullKey root : string) : error :=
  Error "merr.ErrParameterInvalid"
    ("migration: key " +:+ fullKey +:+ " does not contain root " +:+ root +:+ " at a segment boundary").

Definition stripRootPath (fullKey root : string) : result string :=
  match strip_search (S (String.length fullKey)) fullKey root 0 with
  | Some (Some logical) => Ok logical
  | _ =>
    if (fullKey =? root)%string || strings.HasPrefix fullKey (root +:+ "/") then Ok fullKey
    else Err (errNoBoundary fullKey root)
  end.

(** ** What the loop searches for *)

(** [root] stands as whole segments right behind the slash at position [i]. *)
Definition boundary (fullKey root : string) (i : nat) : bool :=
  strings.HasPrefix (strings.drop i fullKey) (needle root) &&
  at_boundary fullKey (i + String.length (needle root)).

(** [fullKey] is [root] or lies below it. *)
Definition under (root fullKey : string) : bool :=
  (fullKey =? root)%string || strings.HasPrefix fullKey (root +:+ "/").

Lemma boundary_range (fullKey root : string) (i : nat) :
  boundary fullKey root i = true -> i < String.length fullKey.
Proof.
  intros [[t Ht]%strings.HasPrefix_spec _]%andb_prop.
  apply (f_equal String.length) in Ht. rewrite strings.drop_length_le in Ht.
  unfold needle in Ht. autorewrite with catalog in Ht. cbn in Ht. lia.
Qed.

(** With enough fuel the loop ends, at the first boundary not before [from]. *)
Lemma strip_search_total (fuel : nat) (fullKey root : string) (from : nat) :
  from <= String.length fullKey < fuel + from ->
  match strip_search fuel fullKey root from with
  | Some (Some r) => exists i, from <= i /\ boundary fullKey root i = true /\
      (forall j, from <= j < i -> boundary fullKey root j = false) /\ r = strings.drop (i + 1) fullKey
  | Some None => forall j, from <= j -> boundary fullKey root j = false
  | None => False
  end.
Proof.
  revert from. induction fuel as [|fuel IH]; intros from Hf; cbn [strip_search]; [lia|].
  assert (Hshift : forall j, from <= j -> strings.drop j fullKey
    = strings.drop (j - from) (strings.drop from fullKey)).
  { intros j Hj. rewrite strings.drop_drop. f_equal. lia. }
  destruct (strings.Index (strings.drop from fullKey) (needle root)) as [i|] eqn:Hi.
  - apply strings.Index_Some in Hi as (Hp & _ & Hmin).
    rewrite strings.drop_drop in Hp.
    assert (Hbefore : forall j, from <= j < from + i -> boundary fullKey root j = false).
    { intros j Hj. unfold boundary. rewrite Hshift, Hmin by lia. done. }
    destruct (at_boundary fullKey (from + i + String.length (needle root))) eqn:Hb.
    + exists (from + i). split_and!; [lia| |done|done]. unfold boundary. by rewrite Hp, Hb.
    + assert (from + i + 1 <= String.length fullKey) as Hle.
      { pose proof Hp as [t Ht]%strings.HasPrefix_spec. apply (f_equal String.length) in Ht.
        rewrite strings.drop_length_le in Ht. unfold needle in Ht.
        autorewrite with catalog in Ht. cbn in Ht. lia. }
      specialize (IH (from + i + 1) ltac:(lia)).
      assert (Hskip : forall j, from <= j < from + i + 1 -> boundary fullKey root j = false).
      { intros j Hj. destruct (decide (j = from + i)) as [->|]; [|apply Hbefore; lia].
        unfold boundary. by rewrite Hb, andb_false_r. }
      destruct (strip_search fuel fullKey root (from + i + 1)) as [[r|]|]; [| |done].
      * destruct IH as (i' & Hi' & Hb' & Hmin' & ->). exists i'.
        split_and!; [lia|done| |done]. intros j Hj.
        destruct (decide (j < from + i + 1)); [apply Hskip|apply Hmin']; lia.
      * intros j Hj. destruct (decide (j < from + i + 1)); [apply Hskip|apply IH]; lia.
  - intros j Hj. unfold boundary. rewrite Hshift by done.
    rewrite strings.Index_None in Hi. by rewrite Hi.
Qed.

(** The two ways in which the function answers. *)
Lemma stripRootPath_first (fullKey root : string) (i : nat) :
  boundary fullKey root i = true -> (forall j, j < i -> boundary fullKey root j = false) ->
  stripRootPath fullKey root = Ok (strings.drop (i + 1) fullKey).
Proof.
  intros Hb Hmin. unfold stripRootPath.
  pose proof (strip_search_total (S (String.length fullKey)) fullKey root 0 ltac:(lia)) as Hs.
  destruct (strip_search _ fullKey root 0) as [[r|]|]; [| |done].
  - destruct Hs as (i' & _ & Hb' & Hmin' & ->). do 3 f_equal.
    destruct (Nat.lt_total i i') as [Hlt|[?|Hlt]]; [|done|].
    + rewrite Hmin' in Hb by lia. done.
    + rewrite Hmin in Hb' by lia. done.
  - rewrite Hs in Hb by lia. done.
Qed.

Lemma stripRootPath_none (fullKey root : string) :
  (forall j, boundary fullKey root j = false) ->
  stripRootPath fullKey root
  = if under root fullKey then Ok fullKey else Err (errNoBoundary fullKey root).
Proof.
  intros Hno. unfold stripRootPath.
  pose proof (strip_search_total (S (String.length fullKey)) fullKey root 0 ltac:(lia)) as Hs.
  destruct (strip_search _ fullKey root 0) as [[r|]|]; [|done|done].
  destruct Hs as (i' & _ & Hb' & _). by rewrite Hno in Hb'.
Qed.

(** Every key has a first boundary or none. *)
Lemma first_boundary (fullKey root : string) :
  (exists i, boundary fullKey root i = true /\ forall j, j < i -> boundary fullKey root j = false) \/
  (forall j, boundary fullKey root j = false).
Proof.
  pose proof (strip_search_total (S (String.length fullKey)) fullKey root 0 ltac:(lia)) as Hs.
  destruct (strip_search _ fullKey root 0) as [[r|]|]; [left|right|done].
  - destruct Hs as (i & _ & Hb & Hmin & _). exists i. split; [done|]. intros j Hj. apply Hmin. lia.
  - intros j. apply Hs. lia.
Qed.

(** ** Keys of a backend *)

(** [GetPath]: the full key of a logical key under an instance's root path. *)
Definition getPath (rootPath logical : string) : string :=
  if (rootPath =? "")%string then logical else rootPath +:+ "/" +:+ logical.

Lemma under_spec (root k : string) :
  under root k = true <-> k = root \/ exists t, k = root +:+ "/" +:+ t.
Proof.
  unfold under. rewrite orb_true_iff, String.eqb_eq, strings.HasPrefix_spec.
  split; (intros [?|[t Ht]]; [by left|right; exists t]); by rewrite <- ?append_assoc in *.
Qed.

Lemma getPath_prefix (rp root k : string) :
  strings.HasPrefix (getPath rp k) (getPath rp root) = strings.HasPrefix k root.
Proof.
  unfold getPath. destruct (rp =? "")%string; [done|]. apply eq_bool_prop_intro.
  rewrite !Is_true_true, !strings.HasPrefix_spec.
  split; intros [t Ht]; exists t; [|by rewrite Ht, !append_assoc].
  rewrite !append_assoc in Ht. by apply append_inj_l, append_inj_l in Ht.
Qed.

(** Full keys of logical keys under [root] match the prefix a load asks for. *)
Lemma getPath_under_prefix (rp root k : string) :
  under root k = true -> strings.HasPrefix (getPath rp k) (getPath rp root) = true.
Proof.
  intros Hu. rewrite getPath_prefix. apply strings.HasPrefix_spec.
  apply under_spec in Hu as [->|[t ->]]; [exists ""; by rewrite append_nil_r|eauto].
Qed.

(** A boundary is an occurrence of the root as whole segments, behind a slash. *)
Lemma at_boundary_spec (a root t : string) :
  at_boundary (a +:+ "/" +:+ root +:+ t) (String.length a + String.length (needle root)) = true <->
  t = "" \/ exists t', t = "/" +:+ t'.
Proof.
  unfold at_boundary. rewrite strings.at_append, !length_append.
  change (strings.at_ ("/" +:+ root +:+ t) (String.length (needle root)))
    with (strings.at_ (root +:+ t) (String.length root)).
  replace (strings.at_ (root +:+ t) (String.length root)) with (strings.at_ t 0)
    by (rewrite <- (strings.at_append root t 0), Nat.add_0_r; done).
  change (String.length (needle root)) with (S (String.length root)).
  change (String.length "/") with 1. destruct t as [|c t]; cbn.
  - split; [by left|]. intros _. rewrite (proj2 (Nat.eqb_eq _ _)); [done|lia].
  - rewrite (proj2 (Nat.eqb_neq _ _)) by lia. cbn. rewrite Ascii.eqb_eq. split.
    + intros ->. right. by exists t.
    + intros [?|[t' Ht]]; [done|]. rewrite append_cons in Ht. by injection Ht.
Qed.

Lemma boundary_spec (fullKey root : string) (i : nat) :
  boundary fullKey root i = true <->
  exists a t, fullKey = a +:+ "/" +:+ t /\ String.length a = i /\ under root t = true.
Proof.
  unfold boundary. rewrite andb_true_iff, strings.HasPrefix_spec. split.
  - intros [[t Ht] Hb]. assert (i < String.length fullKey).
    { apply (strings.drop_cons_length _ _ (root +:+ t) "/"). rewrite Ht.
      unfold needle. by rewrite append_assoc. }
    destruct (strings.drop_split i fullKey) as (a & Ha & Hl); [lia|].
    rewrite Ht in Ha. unfold needle in Ha. rewrite append_assoc in Ha.
    exists a, (root +:+ t). split_and!; [done|done|]. rewrite Ha, <- Hl, at_boundary_spec in Hb.
    apply under_spec. destruct Hb as [->|[t' ->]]; [left; apply append_nil_r|right; by exists t'].
  - intros (a & t & -> & <- & Hu). rewrite strings.drop_append.
    assert (exists t', t = root +:+ t' /\ (t' = "" \/ exists t'', t' = "/" +:+ t'')) as (t' & -> & Ht').
    { apply under_spec in Hu as [->|[t' ->]]; [exists ""|exists ("/" +:+ t')]; [|by eauto].
      split; [by rewrite append_nil_r|by left]. }
    split; [exists t'; unfold needle; by rewrite append_assoc|]. by apply at_boundary_spec.
Qed.

(** A root of one segment that is not a segment of the root path has no boundary
    inside it. *)
Lemma no_early_boundary (rp root logical : string) (j : nat) :
  rp <> "" -> "/"%char ∉ chars root -> root ∉ path.split rp -> j < String.length rp ->
  boundary (getPath rp logical) root j = false.
Proof.
  intros Hrp%String.eqb_neq Hroot Hseg Hj. apply not_true_iff_false.
  intros (a & t & Heq & Hl & Hu)%boundary_spec. unfold getPath in Heq. rewrite Hrp in Heq.
  destruct (strings.drop_split j rp) as (a' & Hrp' & Hl'); [lia|].
  rewrite Hrp', append_assoc in Heq. apply append_eq_length in Heq as [-> Heq]; [|lia].
  destruct (strings.drop j rp) as [|c b]; [rewrite append_nil_r in Hrp'; subst; lia|].
  rewrite append_cons in Heq. injection Heq as -> Heq.
  apply Hseg. rewrite Hrp'. change (String "/" b) with ("/" +:+ b).
  rewrite path.split_slash. apply elem_of_app. right.
  rewrite append_nil_l in Heq. apply (f_equal path.split) in Heq. rewrite path.split_slash in Heq.
  destruct (path.split b) as [|seg segs] eqn:Eb; [by apply path.split_nonempty in Eb|].
  apply under_spec in Hu as [->|[t' ->]].
  - rewrite (path.split_segment root) in Heq by done. injection Heq as _ Hnil.
    apply app_eq_nil in Hnil as [_ Hnil]. by apply path.split_nonempty in Hnil.
  - rewrite path.split_slash, (path.split_segment root) in Heq by done. injection Heq as -> _. left.
Qed.

(** A stripped key is shorter than the key, unless nothing was stripped. *)
Lemma drop_shorter (i : nat) (k l : string) :
  strings.drop (i + 1) k = l -> String.length l = String.length k - (i + 1).
Proof. intros <-. apply strings.drop_length_le. Qed.

Lemma drop_behind_slash (a t : string) : strings.drop (String.length a + 1) (a +:+ "/" +:+ t) = t.
Proof.
  rewrite <- strings.drop_drop, strings.drop_append. done.
Qed.

(** The logical key comes back exactly when the root does not occur earlier. *)
Lemma strip_getPath_iff (rp root logical : string) :
  under root logical = true ->
  stripRootPath (getPath rp logical) root = Ok logical <->
  forall j, rp = "" \/ j < String.length rp -> boundary (getPath rp logical) root j = false.
Proof.
  intros Hu. destruct (first_boundary (getPath rp logical) root) as [(i & Hi & Hmin)|Hno].
  - rewrite (stripRootPath_first _ _ i) by done. pose proof (boundary_range _ _ _ Hi) as Hr.
    unfold getPath in *. destruct (String.eqb_spec rp "") as [->|Hrp].
    + split; [|intros Hj; rewrite Hj in Hi by (by left); done].
      intros [= Heq%drop_shorter]. lia.
    + assert (Hat : boundary (rp +:+ "/" +:+ logical) root (String.length rp) = true)
        by (apply boundary_spec; eauto).
      assert (i <= String.length rp) as Hle.
      { destruct (decide (i <= String.length rp)); [done|]. rewrite Hmin in Hat by lia. done. }
      split.
      * intros [= Heq%drop_shorter] j [?|Hj]; [done|]. apply Hmin.
        autorewrite with catalog in Heq. cbn in Heq. lia.
      * intros Hj. replace i with (String.length rp); [by rewrite drop_behind_slash|].
        destruct (decide (i = String.length rp)); [done|]. rewrite Hj in Hi by (right; lia). done.
  - rewrite stripRootPath_none by done. split; [done|]. intros _.
    unfold getPath in *. destruct (String.eqb_spec rp "") as [->|Hrp]; [by rewrite Hu|].
    assert (boundary (rp +:+ "/" +:+ logical) root (String.length rp) = true) as Hat
      by (apply boundary_spec; eauto).
    by rewrite Hno in Hat.
Qed.

(** ** Properties *)

(** C21: The search ends and answers exactly: a key with the root at a segment
    boundary is cut at the first one, a key that already starts with the root is
    kept, and everything else is an error.  A returned key always lies under the
    root and is a suffix of the full key; an error means that the root occurs
    nowhere as whole segments. *)
Theorem strip_root_path_exact (fullKey root : string) :
  strip_search (S (String.length fullKey)) fullKey root 0 <> None /\
  match stripRootPath fullKey root with
  | Ok l => under root l = true /\ exists p, fullKey = p +:+ l /\
      ((exists a, p = a +:+ "/" /\
          forall j, j < String.length a -> boundary fullKey root j = false) \/
       (p = "" /\ forall j, boundary fullKey root j = false))
  | Err _ => under root fullKey = false /\ forall j, boundary fullKey root j = false
  end.
Proof.
  split.
  { pose proof (strip_search_total (S (String.length fullKey)) fullKey root 0 ltac:(lia)).
    by destruct (strip_search _ fullKey root 0). }
  destruct (first_boundary fullKey root) as [(i & Hi & Hmin)|Hno].
  - rewrite (stripRootPath_first _ _ i) by done.
    apply boundary_spec in Hi as (a & t & -> & <- & Hu). rewrite drop_behind_slash.
    split; [done|]. exists (a +:+ "/"). split; [by rewrite append_assoc|]. left. eauto.
  - rewrite stripRootPath_none by done. destruct (under root fullKey) eqn:Hu; [|done].
    split; [done|]. exists "". split; [done|]. by right.
Qed.

(** C20: Round trip of backend keys.  The logical key is recovered from the full
    key of an instance exactly when the root does not stand as whole segments right
    behind a slash at a position inside the root path or, when the root path is
    empty, anywhere in the key; in particular whenever the root is one segment and
    the root path is not empty and does not contain that segment. *)
Theorem strip_round_trip (rp root logical : string) :
  under root logical = true ->
  (stripRootPath (getPath rp logical) root = Ok logical <->
   forall j, rp = "" \/ j < String.length rp -> boundary (getPath rp logical) root j = false) /\
  (rp <> "" -> "/"%char ∉ chars root -> root ∉ path.split rp ->
   stripRootPath (getPath rp logical) root = Ok logical).
Proof.
  intros Hu. split; [by apply strip_getPath_iff|]. intros Hrp Hr Hs.
  apply strip_getPath_iff; [done|]. intros j [?|?]; [done|]. by apply no_early_boundary.
Qed.

Lemma strip_round_trip_witness :
  stripRootPath "by-dev/meta/root-coord/database/db-info/1" "root-coord"
  = Ok "root-coord/database/db-info/1".
Proof.
  apply (strip_round_trip "by-dev/meta" "root-coord" "root-coord/database/db-info/1");
    [reflexivity|discriminate|apply (bool_decide_unpack _); reflexivity
    |apply (bool_decide_unpack _); reflexivity].
Defined.

(** The documented assumption is needed, and an empty root path does not escape
    it: two different keys of one instance strip to the same logical key when the
    root recurs inside one of them. *)
Lemma strip_nested_root_collides :
  under "kv" "kv/a/kv/b" = true /\ under "kv" "kv/b" = true /\
  stripRootPath "kv/a/kv/b" "kv" = Ok "kv/b" /\ stripRootPath "kv/b" "kv" = Ok "kv/b".
Proof. repeat split; reflexivity. Qed.
