(* ===== verification/Migration.v ===== *)
(** * Bulk move and verification: migration/copydiff.go

    The key-value backends ([kv.MetaKv]) and the order in which Go ranges over a
    map are the environment of the programs below: [LoadWithPrefix], [MultiSave]
    and [Range] are actions.  The class [Backend] states the documented
    behaviour of the stores: full keys are [GetPath] of the instance's root path,
    prefix loads match the full key as a string, a batch is written as a whole or
    (when it fails) possibly not at all, and instances are separate stores. *)

From S2P Require Import Prelude GoStd Prog StripRoot.

#[local] Open Scope go_scope.

(** ** The environment *)

(** Instances of [kv.MetaKv]. *)
Definition MetaKv : Type := nat.

Inductive migE : Type -> Type :=
| LoadWithPrefix (m : MetaKv) (key : string) : migE (result (list string * list string))
| MultiSave (m : MetaKv) (kvs : gmap string string) : migE (result unit)
| Range (mp : gmap string string) : migE (list (string * string)).

(** ** The code *)

Definition multiSaveBatch : nat := 64.

Record Mismatch : Type := mkMismatch { Key : string; Reason : string }.

Definition reasonMissingInDst : string := "missing-in-dst".
Definition reasonMissingInSrc : string := "missing-in-src".
Definition reasonValueDiffers : string := "value-differs".

(** [vals[i]] out of range: a run-time panic, which like an error ends the load; it
    cannot happen when keys and values are of one length ([logicalStep_ok]: its only
    errors are those of the stripping), as the backends return them. *)
Definition panicIndex : error := Error "panic" "runtime error: index out of range".

(** The loop over the loaded keys and values. *)
Fixpoint logicalStep (root : string) (fullKeys vals : list string) (out : gmap string string)
    : result (gmap string string) :=
  match fullKeys, vals with
  | fk :: fullKeys', v :: vals' =>
    try logical <- stripRootPath fk root;
    logicalStep root fullKeys' vals' (<[logical := v]> out)
  | fk :: _, [] => try _ <- stripRootPath fk root; Err panicIndex
  | [], _ => Ok out
  end.

Definition loadLogical (m : MetaKv) (root : string) : prog migE (result (gmap string string)) :=
  let! r := call (LoadWithPrefix m root) in
  Ret match r with
      | Err err => Err err
      | Ok (fullKeys, vals) => logicalStep root fullKeys vals ∅
      end.

(** The closure [flush]: the batch afterwards, or the error. *)
Definition flush (dst : MetaKv) (batch : gmap string string) : prog migE (result (gmap string string)) :=
  if bool_decide (size batch = 0) then Ret (Ok batch)
  else let! r := call (MultiSave dst batch) in
       Ret match r with Err err => Err err | Ok _ => Ok ∅ end.

(** The inner loop over the pairs of one root, with the running count. *)
Fixpoint copyEntries (dst : MetaKv) (entries : list (string * string)) (batch : gmap string string)
    (copied : Z) : prog migE (Z * result (gmap string string)) :=
  match entries with
  | [] => Ret (copied, Ok batch)
  | (k, v) :: entries' =>
    let batch := <[k := v]> batch in
    if bool_decide (multiSaveBatch <= size batch) then
      let! r := flush dst batch in
      match r with
      | Err err => Ret (copied, Err err)
      | Ok batch => copyEntries dst entries' batch (copied + 1)
      end
    else copyEntries dst entries' batch (copied + 1)
  end.

Fixpoint copyRoots (src dst : MetaKv) (roots : list string) (copied : Z)
    : prog migE (Z * option error) :=
  match roots with
  | [] => Ret (copied, None)
  | root :: roots' =>
    let! logical := loadLogical src root in
    match logical with
    | Err err => Ret (copied, Some err)
    | Ok logical =>
      let! entries := call (Range logical) in
      let! res := copyEntries dst entries ∅ copied in
      match res with
      | (copied, Err err) => Ret (copied, Some err)
      | (copied, Ok batch) =>
        let! r := flush dst batch in
        match r with
        | Err err => Ret (copied, Some err)
        | Ok _ => copyRoots src dst roots' copied
        end
      end
    end
  end.

Definition CopyPrefixes (src dst : MetaKv) (roots : list string) : prog migE (Z * option error) :=
  copyRoots src dst roots 0.

Fixpoint loadRoots (m : MetaKv) (roots : list string) (out : gmap string string)
    : prog migE (result (gmap string string)) :=
  match roots with
  | [] => Ret (Ok out)
  | root :: roots' =>
    let! part := loadLogical m root in
    match part with
    | Err err => Ret (Err err)
    | Ok part =>
      let! entries := call (Range part) in
      loadRoots m roots' (foldl (fun out '(k, v) => <[k := v]> out) out entries)
    end
  end.

Definition LoadLogical (m : MetaKv) (roots : list string) : prog migE (result (gmap string string)) :=
  loadRoots m roots ∅.

Definition srcMismatch (dst : gmap string string) (p : string * string) : list Mismatch :=
  match dst !! p.1 with
  | None => [mkMismatch p.1 reasonMissingInDst]
  | Some dv => if negb (dv =? p.2)%string then [mkMismatch p.1 reasonValueDiffers] else []
  end.

Definition dstMismatch (src : gmap string string) (p : string * string) : list Mismatch :=
  match src !! p.1 with
  | None => [mkMismatch p.1 reasonMissingInSrc]
  | Some _ => []
  end.

Definition mismatch_le (a b : Mismatch) : Prop := String.le (Key a) (Key b).
#[global] Instance mismatch_le_dec : RelDecision mismatch_le.
Proof. intros a b. unfold mismatch_le. apply _. Defined.

Definition DiffMaps (src dst : gmap string string) : prog migE (list Mismatch) :=
  let! entries := call (Range src) in
  let! entries' := call (Range dst) in
  Ret (merge_sort mismatch_le
         ((entries ≫= srcMismatch dst) ++ (entries' ≫= dstMismatch src))).

Definition DiffPrefixes (src dst : MetaKv) (roots : list string) : prog migE (result (list Mismatch)) :=
  let! srcKV := LoadLogical src roots in
  match srcKV with
  | Err err => Ret (Err err)
  | Ok srcKV =>
    let! dstKV := LoadLogical dst roots in
    match dstKV with
    | Err err => Ret (Err err)
    | Ok dstKV => let! ms := DiffMaps srcKV dstKV in Ret (Ok ms)
    end
  end.

(** ** Documented behaviour of the environment *)

(** An instance: its root path and the full keys of its store. *)
Record Instance_ : Type := mkInstance { rootPath : string; data : gmap string string }.

Definition KvView : Type := MetaKv -> Instance_.

(** The pairs a prefix load selects. *)
Definition selected (i : Instance_) (key : string) : gmap string string :=
  filter (fun p => strings.HasPrefix p.1 (getPath (rootPath i) key) = true) (data i).

(** A batch written into an instance. *)
Definition saved (i : Instance_) (kvs : gmap string string) : Instance_ :=
  mkInstance (rootPath i) (kmap (getPath (rootPath i)) kvs ∪ data i).

Definition mig_commit {X} (s : KvView) (e : migE X) : X -> KvView -> Prop :=
  match e in migE X return X -> KvView -> Prop with
  | LoadWithPrefix m key => fun x s' => s' = s /\
      exists l, l ≡ₚ map_to_list (selected (s m) key) /\ x = Ok (l.*1, l.*2)
  | MultiSave m kvs => fun x s' => x = Ok tt /\
      s' m = saved (s m) kvs /\ forall m', m' <> m -> s' m' = s m'
  | Range mp => fun x s' => s' = s /\ x ≡ₚ map_to_list mp
  end.

Definition mig_fail {X} (e : migE X) : X -> Prop :=
  match e in migE X return X -> Prop with
  | LoadWithPrefix _ _ => fun x => exists err, x = Err err
  | MultiSave _ _ => fun x => exists err, x = Err err
  | Range _ => fun x => False
  end.

(** A call answers, or reports an error and has or has not taken effect. *)
Definition mig_allowed (X : Type) (s : KvView) (e : migE X) (x : X) (s' : KvView) : Prop :=
  mig_commit s e x s' \/
  (mig_fail e x /\ (s' = s \/ exists y, mig_commit s e y s')).

Class Backend : Type := {
  KSt : Type;
  kview : KSt -> KvView;
  mig_do : forall X, KSt -> migE X -> X -> KSt -> Prop;
  mig_documented (X : Type) (s : KSt) (e : migE X) (x : X) (s' : KSt) :
    mig_do X s e x s' -> mig_allowed X (kview s) e x (kview s');
}.

(** Stores that answer every call. *)
Definition healthy (X : Type) (s : KvView) (e : migE X) (x : X) (s' : KvView) : Prop :=
  mig_commit s e x s'.

(** ** Lemmas on the environment *)

#[global] Instance getPath_inj (rp : string) : Inj (=) (=) (getPath rp).
Proof.
  intros a b. unfold getPath. destruct (rp =? "")%string; [done|].
  by intros ?%append_inj_l%append_inj_l.
Qed.

Lemma load_allowed (s s' : KvView) (m : MetaKv) (key : string) x :
  mig_allowed _ s (LoadWithPrefix m key) x s' -> s' = s /\
  ((exists l, l ≡ₚ map_to_list (selected (s m) key) /\ x = Ok (l.*1, l.*2)) \/ exists err, x = Err err).
Proof. intros [[? ?]|[? [?|[y [? _]]]]]; auto. Qed.

Lemma save_allowed (s s' : KvView) (m : MetaKv) (b : gmap string string) x :
  mig_allowed _ s (MultiSave m b) x s' ->
  s' = s \/ (s' m = saved (s m) b /\ forall m', m' <> m -> s' m' = s m').
Proof. intros [[_ ?]|[_ [?|[y [_ ?]]]]]; auto. Qed.

Lemma range_allowed (s s' : KvView) (mp : gmap string string) x :
  mig_allowed _ s (Range mp) x s' -> s' = s /\ x ≡ₚ map_to_list mp.
Proof. intros [?|[[] _]]. done. Qed.

Lemma saved_lookup (i : Instance_) (b : gmap string string) (k : string) :
  data (saved i b) !! getPath (rootPath i) k
  = match b !! k with Some v => Some v | None => data i !! getPath (rootPath i) k end.
Proof. cbn. rewrite lookup_union, lookup_kmap by apply _. by destruct (b !! k), (data i !! _). Qed.

Lemma saved_Some (i : Instance_) (b : gmap string string) (fk v : string) :
  data (saved i b) !! fk = Some v ->
  (exists k, fk = getPath (rootPath i) k /\ b !! k = Some v) \/ data i !! fk = Some v.
Proof.
  cbn. rewrite lookup_union_Some_raw, lookup_kmap_Some by apply _. naive_solver.
Qed.

Lemma saved_keeps (i : Instance_) (b : gmap string string) (fk : string) :
  is_Some (data i !! fk) -> is_Some (data (saved i b) !! fk).
Proof. intros ?. cbn. rewrite lookup_union, union_is_Some. by right. Qed.

Lemma saved_empty (i : Instance_) : saved i ∅ = i.
Proof. unfold saved. rewrite kmap_empty, (left_id_L ∅ (∪)). by destruct i. Qed.

Lemma saved_saved (i : Instance_) (a b : gmap string string) :
  saved (saved i a) b = saved i (b ∪ a).
Proof. unfold saved. cbn. by rewrite kmap_union, (assoc_L (∪)) by apply _. Qed.

Lemma selected_Some (i : Instance_) (key fk v : string) :
  selected i key !! fk = Some v <->
  data i !! fk = Some v /\ strings.HasPrefix fk (getPath (rootPath i) key) = true.
Proof. unfold selected. by rewrite map_lookup_filter_Some. Qed.

(** Inserting the pairs of a list, as the loops do. *)
Definition inserts (entries : list (string * string)) (b : gmap string string) : gmap string string :=
  foldl (fun out '(k, v) => <[k := v]> out) b entries.

Lemma inserts_union (entries : list (string * string)) (b : gmap string string) :
  inserts entries b = inserts entries ∅ ∪ b.
Proof.
  induction entries as [|[k v] entries IH] using rev_ind; [symmetry; apply (left_id_L ∅ (∪))|].
  unfold inserts in *. rewrite !foldl_app. cbn. by rewrite IH, insert_union_l.
Qed.

Lemma inserts_map (mp : gmap string string) (entries : list (string * string)) :
  entries ≡ₚ map_to_list mp -> inserts entries ∅ = mp.
Proof.
  intros Hp. assert (NoDup entries.*1) as Hnd.
  { rewrite Hp. apply NoDup_fst_map_to_list. }
  rewrite <- (list_to_map_to_list mp), <- (list_to_map_proper _ _ Hnd Hp). clear mp Hp.
  induction entries as [|[k v] entries IH] using rev_ind; [done|].
  rewrite fmap_app in Hnd. apply NoDup_app in Hnd as (Hnd & Hk & _).
  unfold inserts. rewrite foldl_app. cbn. fold (inserts entries ∅). rewrite IH by done.
  rewrite list_to_map_app. cbn. rewrite insert_empty.
  rewrite map_union_comm.
  - by rewrite <- insert_union_singleton_l.
  - apply map_disjoint_singleton_r, not_elem_of_list_to_map_1. intros Hin.
    apply (Hk k Hin). left.
Qed.

(** ** Loading *)

(** The logical contents of an instance under [root], key by key. *)
Definition logical_at (i : Instance_) (root k : string) : option string :=
  if under root k then data i !! getPath (rootPath i) k else None.

(** Every full key a load of [root] selects strips back to its logical key. *)
Definition tidy (i : Instance_) (root : string) : Prop :=
  forall fk v, selected i root !! fk = Some v ->
    exists k, fk = getPath (rootPath i) k /\ under root k = true /\ stripRootPath fk root = Ok k.

(** The loop over the loaded pairs succeeds when every key strips, and collects
    the stripped pairs. *)
Lemma logicalStep_ok (root : string) (l : list (string * string)) (out : gmap string string) :
  match logicalStep root l.*1 l.*2 out with
  | Ok out' => exists l', Forall2 (fun p q => stripRootPath p.1 root = Ok q.1 /\ q.2 = p.2) l l' /\
      out' = inserts l' out
  | Err err => exists p, p ∈ l /\ stripRootPath p.1 root = Err err
  end.
Proof.
  revert out. induction l as [|[fk v] l IH]; intros out; cbn.
  { exists []. by split. }
  destruct (stripRootPath fk root) as [k|err] eqn:E.
  - specialize (IH (<[k := v]> out)). destruct (logicalStep root l.*1 l.*2 _).
    + destruct IH as (l' & HF & ->). exists ((k, v) :: l'). by split; [constructor|].
    + destruct IH as (p & Hp & Hs). exists p. split; [by right|done].
  - exists (fk, v). split; [left|done].
Qed.

Lemma inserts_Some (l : list (string * string)) (k v : string) :
  inserts l ∅ !! k = Some v -> (k, v) ∈ l.
Proof.
  induction l as [|[k' v'] l IH] using rev_ind; [done|].
  unfold inserts in *. rewrite foldl_app. cbn. rewrite lookup_insert_Some.
  intros [[-> ->]|[_ ?]]; apply elem_of_app; [right; by left|left; auto].
Qed.

Lemma inserts_is_Some (l : list (string * string)) (k v : string) :
  (k, v) ∈ l -> is_Some (inserts l ∅ !! k).
Proof.
  induction l as [|[k' v'] l IH] using rev_ind; [by intros ?%not_elem_of_nil|].
  intros [Hin|Hin]%elem_of_app; unfold inserts in *; rewrite foldl_app; cbn;
    rewrite lookup_insert; case_decide; eauto.
  apply list_elem_of_singleton in Hin. congruence.
Qed.

(** Pairs that spell out a function make the map of that function. *)
Lemma inserts_function (l : list (string * string)) (f : string -> option string) (k : string) :
  (forall k v, (k, v) ∈ l <-> f k = Some v) -> inserts l ∅ !! k = f k.
Proof.
  intros Hf. apply option_eq. intros v. split; [by intros ?%inserts_Some%Hf|].
  intros Hv. pose proof Hv as [w Hw]%Hf%inserts_is_Some. rewrite Hw.
  apply inserts_Some, Hf in Hw. congruence.
Qed.

(** On a tidy instance the collected map is the logical contents. *)
Lemma logicalStep_tidy (i : Instance_) (root : string) (l : list (string * string)) :
  tidy i root -> l ≡ₚ map_to_list (selected i root) ->
  exists out, logicalStep root l.*1 l.*2 ∅ = Ok out /\ forall k, out !! k = logical_at i root k.
Proof.
  intros Ht Hl. pose proof (logicalStep_ok root l ∅) as Hs.
  assert (Hin : forall fk v, (fk, v) ∈ l <-> selected i root !! fk = Some v).
  { intros fk v. by rewrite Hl, elem_of_map_to_list. }
  destruct (logicalStep root l.*1 l.*2 ∅) as [out|err]; cycle 1.
  { destruct Hs as ([fk v] & Hp & He). apply Hin, Ht in Hp as (k & _ & _ & Hok).
    cbn in He. congruence. }
  destruct Hs as (l' & HF & ->). exists (inserts l' ∅). split; [done|]. intros k0.
  apply inserts_function. clear k0. intros k v. unfold logical_at. split.
  - intros [n Hn]%list_elem_of_lookup_1.
    destruct (Forall2_lookup_r _ _ _ _ _ HF Hn) as ([fk v'] & Hp & Hst & Heq). cbn in *. subst v'.
    apply list_elem_of_lookup_2, Hin in Hp. destruct (Ht _ _ Hp) as (k' & -> & Hu & Hst').
    rewrite Hst in Hst'. injection Hst' as ->. rewrite Hu. by apply selected_Some in Hp as [? _].
  - destruct (under root k) eqn:Hu; [|done]. intros Hd.
    assert (selected i root !! getPath (rootPath i) k = Some v) as Hsel.
    { apply selected_Some. split; [done|]. by apply getPath_under_prefix. }
    destruct (Ht _ _ Hsel) as (k' & <-%(inj (getPath (rootPath i))) & _ & Hst).
    apply Hin in Hsel as [n Hn]%list_elem_of_lookup_1.
    destruct (Forall2_lookup_l _ _ _ _ _ HF Hn) as ([k2 v2] & Hp & Hst2 & Hv2). cbn in *. subst v2.
    rewrite Hst in Hst2. injection Hst2 as <-. by eapply list_elem_of_lookup_2.
Qed.

(** ** Healthy runs *)

Lemma healthy_loadLogical (s s' : KvView) (m : MetaKv) (root : string) r :
  tidy (s m) root -> exec healthy eq s (loadLogical m root) r s' ->
  s' = s /\ exists out, r = Ok out /\ forall k, out !! k = logical_at (s m) root k.
Proof.
  intros Ht (s1 & x & s2 & <- & [-> (l & Hl & ->)] & -> & ->). split; [done|].
  by apply logicalStep_tidy.
Qed.

(** The logical contents under several roots. *)
Definition logical_roots (i : Instance_) (roots : list string) (k : string) : option string :=
  if existsb (fun root => under root k) roots then data i !! getPath (rootPath i) k else None.

Lemma logical_roots_cons (i : Instance_) (root : string) (roots : list string) (k : string) :
  logical_roots i (root :: roots) k
  = match logical_at i root k with Some v => Some v | None => logical_roots i roots k end.
Proof.
  unfold logical_roots, logical_at. cbn. destruct (under root k); [cbn|done].
  by destruct (data i !! _), (existsb (fun root => under root k) roots).
Qed.

Lemma logical_at_roots (i : Instance_) (root : string) (roots : list string) (k v : string) :
  logical_at i root k = Some v -> logical_roots i roots k = Some v \/ logical_roots i roots k = None.
Proof.
  unfold logical_roots, logical_at. destruct (under root k), (existsb (fun root => under root k) roots);
    intros ?; simplify_eq; auto.
Qed.

Lemma healthy_loadRoots (s s' : KvView) (m : MetaKv) (roots : list string) out0 r :
  Forall (tidy (s m)) roots -> exec healthy eq s (loadRoots m roots out0) r s' ->
  s' = s /\ exists out, r = Ok out /\
    forall k, out !! k = match logical_roots (s m) roots k with Some v => Some v | None => out0 !! k end.
Proof.
  intros Ht. revert out0. induction roots as [|root roots IH]; intros out0 Hex.
  { destruct Hex as [-> ->]. split; [done|]. by exists out0. }
  apply Forall_cons in Ht as [Ht0 Ht]. cbn [loadRoots] in Hex.
  bind_inv Hex as (part & s1 & Hex1 & Hex).
  apply healthy_loadLogical in Hex1 as (-> & part' & -> & Hpart); [|done].
  destruct Hex as (s2 & entries & s3 & <- & [-> Hperm] & Hex).
  apply IH in Hex as (-> & out & -> & Hout); [|done]. split; [done|].
  exists out. split; [done|]. intros k. rewrite Hout, logical_roots_cons.
  fold (inserts entries out0). rewrite inserts_union, (inserts_map _ _ Hperm), lookup_union, Hpart.
  destruct (logical_at (s m) root k) as [v|] eqn:E.
  - apply (logical_at_roots _ _ roots) in E as [-> | ->]; [done|]. by destruct (out0 !! k).
  - destruct (logical_roots (s m) roots k); [done|]. by destruct (out0 !! k).
Qed.
