(* ===== verification/CopyDiff.v ===== *)
(** * Copy and verify: what migration/copydiff.go guarantees

    The theorems about [CopyPrefixes], [DiffMaps] and [DiffPrefixes]: the exact
    meaning of a mismatch list, what a copy writes on a healthy backend, what it
    can at most write when calls fail, and the size of its transactions. *)

From S2P Require Import Prelude GoStd Prog StripRoot Migration.

(** ** Comparing two maps *)

(** The mismatch a key deserves. *)
Definition mismatch_of (src dst : gmap string string) (k : string) : option string :=
  match src !! k, dst !! k with
  | Some _, None => Some reasonMissingInDst
  | Some sv, Some dv => if (dv =? sv)%string then None else Some reasonValueDiffers
  | None, Some _ => Some reasonMissingInSrc
  | None, None => None
  end.

Lemma mismatches_elem (src dst : gmap string string) (es ed : list (string * string)) (k reason : string) :
  es ≡ₚ map_to_list src -> ed ≡ₚ map_to_list dst ->
  mkMismatch k reason ∈ (es ≫= srcMismatch dst) ++ (ed ≫= dstMismatch src) <->
  mismatch_of src dst k = Some reason.
Proof.
  intros Hs Hd. rewrite elem_of_app, !list_elem_of_bind. unfold mismatch_of. split.
  - intros [([k' v] & Hin & Hp)|([k' v] & Hin & Hp)]; [rewrite Hs in Hp|rewrite Hd in Hp];
      apply elem_of_map_to_list in Hp; unfold srcMismatch, dstMismatch in Hin; cbn in Hin.
    + destruct (dst !! k') as [dv|] eqn:E; [destruct (dv =? v)%string eqn:Ev|];
        cbn in Hin; [by apply not_elem_of_nil in Hin| |];
        apply list_elem_of_singleton in Hin as [= -> ->]; rewrite Hp, E, ?Ev; done.
    + destruct (src !! k') as [sv|] eqn:E; [by apply not_elem_of_nil in Hin|].
      apply list_elem_of_singleton in Hin as [= -> ->]. by rewrite E, Hp.
  - destruct (src !! k) as [sv|] eqn:E.
    + intros Hm. left. exists (k, sv). split; [|rewrite Hs; by apply elem_of_map_to_list].
      unfold srcMismatch. cbn. destruct (dst !! k) as [dv|]; [destruct (dv =? sv)%string; [done|]|];
        injection Hm as <-; by apply list_elem_of_singleton.
    + destruct (dst !! k) as [dv|] eqn:E'; [|done]. intros [= <-]. right. exists (k, dv).
      split; [|rewrite Hd; by apply elem_of_map_to_list].
      unfold dstMismatch. cbn. rewrite E. by apply list_elem_of_singleton.
Qed.

(** Each key is reported at most once. *)
Lemma bind_NoDup_keys (f : string * string -> list Mismatch) (l : list (string * string)) :
  (forall p, f p = [] \/ exists r, f p = [mkMismatch p.1 r]) ->
  NoDup l.*1 -> NoDup (Key <$> (l ≫= f)) /\ forall k, k ∈ Key <$> (l ≫= f) -> k ∈ l.*1.
Proof.
  intros Hf. induction l as [|p l IH]; cbn; [intros _; split; [constructor|done]|].
  intros [Hp Hnd]%NoDup_cons. destruct (IH Hnd) as [IH1 IH2].
  destruct (Hf p) as [->|[r ->]]; cbn.
  - split; [done|]. intros k Hk. right. auto.
  - split.
    + constructor; [|done]. auto.
    + intros k [->|Hk]%elem_of_cons; [left|right; auto].
Qed.

Lemma mismatches_NoDup (src dst : gmap string string) (es ed : list (string * string)) :
  es ≡ₚ map_to_list src -> ed ≡ₚ map_to_list dst ->
  NoDup (Key <$> ((es ≫= srcMismatch dst) ++ (ed ≫= dstMismatch src))).
Proof.
  intros Hs Hd.
  destruct (bind_NoDup_keys (srcMismatch dst) es) as [N1 S1].
  { intros [k v]. unfold srcMismatch. cbn. destruct (dst !! k); [|eauto]. destruct (negb _); eauto. }
  { rewrite Hs. apply NoDup_fst_map_to_list. }
  destruct (bind_NoDup_keys (dstMismatch src) ed) as [N2 S2].
  { intros [k v]. unfold dstMismatch. cbn. destruct (src !! k); eauto. }
  { rewrite Hd. apply NoDup_fst_map_to_list. }
  rewrite fmap_app. apply NoDup_app. split; [done|]. split; [|done].
  intros k Hk1%S1 ([k' r] & -> & Hin)%list_elem_of_fmap. cbn in Hk1.
  rewrite Hs in Hk1. apply list_elem_of_fmap in Hk1 as ([k2 v2] & -> & Hk1%elem_of_map_to_list).
  apply list_elem_of_bind in Hin as ([k3 v3] & Hin & _). unfold dstMismatch in Hin. cbn in *.
  destruct (src !! k3) eqn:E; [by apply not_elem_of_nil in Hin|].
  apply list_elem_of_singleton in Hin as [= -> ->]. congruence.
Qed.

(** What [DiffMaps] promises of its result. *)
Record diff_result (src dst : gmap string string) (ms : list Mismatch) : Prop := {
  dr_sorted : Sorted mismatch_le ms;
  dr_once : NoDup (Key <$> ms);
  dr_exact k reason : mkMismatch k reason ∈ ms <-> mismatch_of src dst k = Some reason;
}.

Lemma diff_result_pure (src dst : gmap string string) (es ed : list (string * string)) :
  es ≡ₚ map_to_list src -> ed ≡ₚ map_to_list dst ->
  diff_result src dst (merge_sort mismatch_le ((es ≫= srcMismatch dst) ++ (ed ≫= dstMismatch src))).
Proof.
  intros Hs Hd. split.
  - apply Sorted_merge_sort. intros a b. unfold mismatch_le. apply (total String.le).
  - rewrite merge_sort_Permutation. by apply mismatches_NoDup.
  - intros k r. rewrite merge_sort_Permutation. by apply mismatches_elem.
Qed.

Lemma mismatch_of_None (src dst : gmap string string) (k : string) :
  mismatch_of src dst k = None <-> src !! k = dst !! k.
Proof.
  unfold mismatch_of. destruct (src !! k) as [sv|], (dst !! k) as [dv|]; [|done..].
  destruct (String.eqb_spec dv sv); [subst; done|]. split; [done|congruence].
Qed.

Lemma diff_result_nil (src dst : gmap string string) (ms : list Mismatch) :
  diff_result src dst ms -> ms = [] <-> src = dst.
Proof.
  intros [_ _ He]. split.
  - intros ->. apply map_eq. intros k. apply mismatch_of_None.
    destruct (mismatch_of src dst k) as [r|] eqn:E; [|done]. by apply He, not_elem_of_nil in E.
  - intros <-. destruct ms as [|[k r] ms]; [done|]. exfalso.
    assert (mismatch_of src src k = Some r) as Hm by (apply He; left).
    by rewrite (proj2 (mismatch_of_None src src k)) in Hm.
Qed.

(** The result does not depend on the order of the ranges. *)
Lemma diff_result_unique (src dst : gmap string string) (ms ms' : list Mismatch) :
  diff_result src dst ms -> diff_result src dst ms' -> ms = ms'.
Proof.
  intros [S1 N1 E1] [S2 N2 E2].
  assert (Hperm : ms ≡ₚ ms').
  { apply NoDup_Permutation; [by eapply NoDup_fmap_1|by eapply NoDup_fmap_1|].
    intros [k r]. by rewrite E1, E2. }
  assert (Htr : Transitive mismatch_le) by (intros a b c; unfold mismatch_le; apply transitivity).
  apply (StronglySorted_unique_strong mismatch_le);
    [|by apply Sorted_StronglySorted|by apply Sorted_StronglySorted|done].
  intros [k1 r1] [k2 r2] H1%E1 H2%E2 Hab Hba.
  assert (k1 = k2) as -> by (apply (anti_symm String.le); [exact Hab|exact Hba]). congruence.
Qed.

(** ** Copying on healthy stores *)

Section copy.
Variables src dst : MetaKv.
Hypothesis Hdistinct : src <> dst.

Lemma healthy_flush (s s' : KvView) (b : gmap string string) r :
  exec healthy eq s (flush dst b) r s' ->
  r = Ok ∅ /\ s' dst = saved (s dst) b /\ forall m, m <> dst -> s' m = s m.
Proof.
  unfold flush. case_bool_decide as Hb.
  - intros [-> ->]. apply map_size_empty_iff in Hb as ->. by rewrite saved_empty.
  - intros (s1 & x & s2 & <- & (-> & Hs & Ho) & -> & ->). done.
Qed.

Lemma healthy_copyEntries (entries : list (string * string)) (b : gmap string string) (n : Z) s s' r :
  exec healthy eq s (copyEntries dst entries b n) r s' ->
  exists b', r = ((n + Z.of_nat (length entries))%Z, Ok b') /\
    saved (s' dst) b' = saved (s dst) (inserts entries b) /\ forall m, m <> dst -> s' m = s m.
Proof.
  revert b n s. induction entries as [|[k v] entries IH]; intros b n s Hex.
  { destruct Hex as [-> ->]. exists b. cbn. by rewrite Z.add_0_r. }
  replace (n + Z.of_nat (length ((k, v) :: entries)))%Z
    with ((n + 1) + Z.of_nat (length entries))%Z by (cbn; lia).
  cbn [copyEntries] in Hex. case_bool_decide.
  - bind_inv Hex as (r1 & s1 & (-> & Hs1 & Ho1)%healthy_flush & Hex).
    apply IH in Hex as (b' & -> & Hs & Ho). exists b'. split; [done|]. split.
    + rewrite Hs, Hs1, saved_saved. cbn. by rewrite <- inserts_union.
    + intros m Hm. rewrite Ho by done. auto.
  - apply IH in Hex as (b' & -> & Hs & Ho). by exists b'.
Qed.

(** The number of logical keys of the source, root by root. *)
Definition counts (i : Instance_) (roots : list string) (sizes : list nat) : Prop :=
  Forall2 (fun root n => exists lg : gmap string string,
    (forall k, lg !! k = logical_at i root k) /\ n = size lg) roots sizes.

(** A copy writes the logical contents of the source, and counts them. *)
Lemma healthy_copyRoots (roots : list string) (n : Z) (s s' : KvView) r :
  Forall (tidy (s src)) roots -> exec healthy eq s (copyRoots src dst roots n) r s' ->
  exists u n', r = (n', None) /\ s' dst = saved (s dst) u /\ (forall m, m <> dst -> s' m = s m) /\
    (forall k, u !! k = logical_roots (s src) roots k) /\
    exists sizes, counts (s src) roots sizes /\ n' = (n + Z.of_nat (sum_list sizes))%Z.
Proof.
  revert n s. induction roots as [|root roots IH]; intros n s Ht Hex.
  { destruct Hex as [-> ->]. exists ∅, n. rewrite saved_empty.
    split_and!; [done|done|done| |].
    - intros k. by rewrite lookup_empty.
    - exists []. split; [constructor|cbn; lia]. }
  apply Forall_cons in Ht as [Ht0 Ht]. cbn [copyRoots] in Hex.
  bind_inv Hex as (r1 & s1 & Hex1 & Hex).
  apply healthy_loadLogical in Hex1 as (-> & lg & -> & Hlg); [|done].
  destruct Hex as (s2 & entries & s3 & <- & [-> Hperm] & Hex).
  apply (exec_bind_inv _ _ (copyEntries dst entries ∅ n)) in Hex as (r2 & s4 & Hex2 & Hex); [|done].
  apply healthy_copyEntries in Hex2 as (b' & -> & Hs4 & Ho4).
  bind_inv Hex as (r3 & s5 & (-> & Hs5 & Ho5)%healthy_flush & Hex).
  assert (Hsrc : s5 src = s src) by (rewrite Ho5, Ho4 by done; done).
  apply IH in Hex as (u & n' & -> & Hs' & Ho' & Hu & sizes & Hc & ->); [|by rewrite Hsrc].
  rewrite Hsrc in Hu, Hc. eexists (u ∪ lg), _. split_and!; [done| | | |].
  - rewrite Hs', Hs5, Hs4, saved_saved, (inserts_map _ _ Hperm). done.
  - intros m Hm. by rewrite Ho', Ho5, Ho4 by done.
  - intros k. rewrite lookup_union, Hu, Hlg, logical_roots_cons.
    destruct (logical_at (s src) root k) as [v|] eqn:E.
    + by apply (logical_at_roots _ _ roots) in E as [-> | ->].
    + by destruct (logical_roots (s src) roots k).
  - exists (size lg :: sizes). split; [constructor; [by exists lg|done]|].
    assert (length entries = size lg) as Hlen by (by rewrite Hperm, length_map_to_list).
    cbn. lia.
Qed.

End copy.

(** ** Comparing healthy stores *)

Lemma healthy_diff (src dst : MetaKv) (roots : list string) (s s' : KvView) d :
  Forall (tidy (s src)) roots -> Forall (tidy (s dst)) roots ->
  exec healthy eq s (DiffPrefixes src dst roots) d s' ->
  s' = s /\ exists sm dm ms, d = Ok ms /\ diff_result sm dm ms /\
    (forall k, sm !! k = logical_roots (s src) roots k) /\
    (forall k, dm !! k = logical_roots (s dst) roots k).
Proof.
  intros Hs Hd Hex. bind_inv Hex as (r1 & s1 & Hex1 & Hex).
  apply healthy_loadRoots in Hex1 as (-> & sm & -> & Hsm); [|done].
  bind_inv Hex as (r2 & s2 & Hex2 & Hex).
  apply healthy_loadRoots in Hex2 as (-> & dm & -> & Hdm); [|done].
  destruct Hex as (s3 & es & s4 & <- & [-> Hes] & Hex).
  destruct Hex as (s5 & ed & s6 & <- & [-> Hed] & -> & <-).
  split; [done|]. eexists sm, dm, _. split_and!; [done|by apply diff_result_pure| |].
  - intros k. rewrite Hsm. by destruct (logical_roots (s src) roots k).
  - intros k. rewrite Hdm. by destruct (logical_roots (s dst) roots k).
Qed.

(** The destination stays tidy when the copied keys strip back in it. *)
Lemma tidy_saved (i d : Instance_) (roots : list string) (u : gmap string string) (root : string) :
  tidy i root -> tidy d root -> (forall k, u !! k = logical_roots i roots k) ->
  (forall k v, logical_at i root k = Some v -> stripRootPath (getPath (rootPath d) k) root = Ok k) ->
  tidy (saved d u) root.
Proof.
  intros Hi Hd Hu Hstrip fk v [[(k & -> & Hk)|Hdat]%saved_Some Hp]%selected_Some; cycle 1.
  { apply (Hd fk v). by apply selected_Some. }
  exists k. split; [done|]. cbn in Hp. rewrite getPath_prefix in Hp.
  rewrite Hu in Hk. unfold logical_roots in Hk. destruct (existsb _ roots); [|done].
  assert (selected i root !! getPath (rootPath i) k = Some v) as Hsel.
  { apply selected_Some. split; [done|]. by rewrite getPath_prefix. }
  destruct (Hi _ _ Hsel) as (k' & <-%(inj (getPath (rootPath i))) & Hun & _).
  split; [done|]. apply (Hstrip k v). unfold logical_at. by rewrite Hun.
Qed.

Lemma logical_roots_saved (i d : Instance_) (roots : list string) (u : gmap string string) (k : string) :
  (forall k, u !! k = logical_roots i roots k) ->
  logical_roots (saved d u) roots k
  = match logical_roots i roots k with Some v => Some v | None => logical_roots d roots k end.
Proof.
  intros Hu. unfold logical_roots at 1 3. change (rootPath (saved d u)) with (rootPath d).
  rewrite saved_lookup, Hu. unfold logical_roots.
  by destruct (existsb (fun root => under root k) roots).
Qed.

(** ** Batches *)

Definition bounded_save (dst : MetaKv) (X : Type) (e : migE X) : Prop :=
  match e with
  | MultiSave m b => m = dst /\ 0 < size b <= multiSaveBatch
  | _ => True
  end.

Lemma flush_batch_bounded (dst : MetaKv) (b : gmap string string) {A} (f : _ -> prog migE A) :
  size b <= multiSaveBatch ->
  (forall b', size b' < multiSaveBatch -> always (bounded_save dst) (f (Ok b'))) ->
  (forall err, always (bounded_save dst) (f (Err err))) ->
  always (bounded_save dst) (bind (flush dst b) f).
Proof.
  intros Hb Hok Herr. unfold flush. case_bool_decide as H0.
  - apply Hok. unfold multiSaveBatch. lia.
  - split; [split; [done|lia]|]. intros [[]|err]; cbn; [|done]. apply Hok.
    rewrite map_size_empty. unfold multiSaveBatch. lia.
Qed.

Lemma copyEntries_bounded (dst : MetaKv) (entries : list (string * string)) (b : gmap string string)
    (n : Z) {A} (f : _ -> prog migE A) :
  size b < multiSaveBatch ->
  (forall n b', size b' < multiSaveBatch -> always (bounded_save dst) (f (n, Ok b'))) ->
  (forall n err, always (bounded_save dst) (f (n, Err err))) ->
  always (bounded_save dst) (bind (copyEntries dst entries b n) f).
Proof.
  intros Hb Hok Herr. revert b n Hb. induction entries as [|[k v] entries IH]; intros b n Hb; cbn; [auto|].
  assert (size (<[k := v]> b) <= multiSaveBatch) as Hle.
  { rewrite map_size_insert. destruct (b !! k); cbn; lia. }
  case_bool_decide as Hfull; [|apply IH; lia].
  apply always_assoc, flush_batch_bounded; [done|auto|]. intros err. apply Herr.
Qed.

(** ** Copying when calls may fail *)

(** [v] is what some key of the source, stripped by one of the roots to [k],
    holds. *)
Definition derived (i : Instance_) (roots : list string) (k v : string) : Prop :=
  exists root fk, root ∈ roots /\ selected i root !! fk = Some v /\ stripRootPath fk root = Ok k.

(** What the destination may hold during a copy from [i] into [d]. *)
Record copying (i : Instance_) (roots : list string) (d d' : Instance_) : Prop := {
  cp_root : rootPath d' = rootPath d;
  cp_keeps fk : is_Some (data d !! fk) -> is_Some (data d' !! fk);
  cp_values fk v : data d' !! fk = Some v ->
    data d !! fk = Some v \/ exists k, fk = getPath (rootPath d) k /\ derived i roots k v;
}.

Lemma copying_saved (i : Instance_) (roots : list string) (d d' : Instance_) (b : gmap string string) :
  copying i roots d d' -> (forall k v, b !! k = Some v -> derived i roots k v) ->
  copying i roots d (saved d' b).
Proof.
  intros [Hr Hk Hv] Hb. split; [done| |].
  - intros fk ?%Hk. by apply saved_keeps.
  - intros fk v [(k & -> & Hbk)|Hd]%saved_Some; [right|auto]. rewrite Hr. eauto.
Qed.

Section copy_safety.
Context {D : Backend}.
Variables (src dst : MetaKv) (roots0 : list string) (i0 d0 : Instance_).
Hypothesis Hdistinct : src <> dst.

Definition copy_inv (s : KSt) : Prop :=
  kview s src = i0 /\ copying i0 roots0 d0 (kview s dst).

Definition derived_map (b : gmap string string) : Prop :=
  forall k v, b !! k = Some v -> derived i0 roots0 k v.

#[local] Notation wp' := (wp mig_do eq (fun _ _ => True) copy_inv).

Lemma wp_flush (b : gmap string string) (s : KSt) :
  derived_map b ->
  wp' (flush dst b) (fun r _ => match r with Ok b' => derived_map b' | Err _ => True end) s.
Proof.
  intros Hb. unfold flush. case_bool_decide; [done|].
  intros s1 x s2 _ [Hi Hc] Hdo%mig_documented%save_allowed. split; [done|]. split.
  - unfold copy_inv. destruct Hdo as [->|[Hs Ho]]; [done|]. rewrite Hs, Ho by done.
    split; [done|]. by apply copying_saved.
  - destruct x as [[]|err]; cbn; [|done]. intros k v. by rewrite lookup_empty.
Qed.

Lemma wp_copyEntries (entries : list (string * string)) (b : gmap string string) (n : Z) (s : KSt) :
  derived_map b -> (forall k v, (k, v) ∈ entries -> derived i0 roots0 k v) ->
  wp' (copyEntries dst entries b n)
    (fun r _ => match r.2 with Ok b' => derived_map b' | Err _ => True end) s.
Proof.
  revert b n s. induction entries as [|[k v] entries IH]; intros b n s Hb He; cbn [copyEntries]; [done|].
  assert (derived_map (<[k := v]> b)) as Hb'.
  { intros k' v' [[<- <-]|[_ ?]]%lookup_insert_Some; [|auto]. apply He. left. }
  assert (He' : forall k v, (k, v) ∈ entries -> derived i0 roots0 k v) by (intros; apply He; by right).
  case_bool_decide; [|auto]. apply wp_bind. eapply wp_mono; [|by apply wp_flush].
  intros [b'|err] s' HQ; [auto|done].
Qed.

Lemma wp_loadLogical (root : string) (s : KSt) :
  root ∈ roots0 ->
  wp' (loadLogical src root)
    (fun r _ => match r with Ok lg => derived_map lg | Err _ => True end) s.
Proof.
  intros Hroot s1 x s2 _ [Hi Hc] Hdo%mig_documented%load_allowed. destruct Hdo as [Heq Hx].
  split; [done|]. split; [unfold copy_inv; by rewrite Heq|].
  destruct Hx as [(l & Hl & ->)|[err ->]]; [|done]. cbn.
  pose proof (logicalStep_ok root l ∅) as Hs.
  destruct (logicalStep root l.*1 l.*2 ∅) as [out|]; [|done].
  destruct Hs as (l' & HF & ->). intros k v [n Hn]%inserts_Some%list_elem_of_lookup_1.
  destruct (Forall2_lookup_r _ _ _ _ _ HF Hn) as ([fk v'] & Hp & Hst & Heqv). cbn in *. subst v'.
  apply list_elem_of_lookup_2 in Hp. rewrite Hl, Hi in Hp. apply elem_of_map_to_list in Hp.
  by exists root, fk.
Qed.

Lemma wp_copyRoots (roots : list string) (n : Z) (s : KSt) :
  (forall root, root ∈ roots -> root ∈ roots0) ->
  wp' (copyRoots src dst roots n) (fun _ _ => True) s.
Proof.
  revert n s. induction roots as [|root roots IH]; intros n s Hr; cbn [copyRoots]; [done|].
  apply wp_bind. eapply wp_mono; [|apply wp_loadLogical, Hr; left].
  intros [lg|err] s1 Hlg; [|done]. apply wp_bind, wp_call.
  intros s2 entries s3 _ Hi Hdo%mig_documented%range_allowed. destruct Hdo as [Heq Hperm].
  split; [done|]. split; [unfold copy_inv; by rewrite Heq|].
  apply wp_bind. eapply wp_mono; [|apply wp_copyEntries].
  - intros [n' [b'|err]] s4 Hb'; [|done]. apply wp_bind. eapply wp_mono; [|by apply wp_flush].
    intros [b2|err] s5 _; [|done]. apply IH. intros r' Hr'. apply Hr. by right.
  - intros k v. by rewrite lookup_empty.
  - intros k v. rewrite Hperm, elem_of_map_to_list. apply Hlg.
Qed.

End copy_safety.

(** ** Properties *)

(** C7: Copy then verify.  On stores that answer, a copy of tidy source data
    succeeds and counts every key, and a following comparison finds nothing but
    keys that the destination held before the copy and the source does not have;
    into a destination with nothing under the roots it finds nothing at all.  The
    source, and the destination's other keys, are left alone. *)
Theorem copy_then_diff_clean (src dst : MetaKv) (roots : list string) (s s1 s2 : KvView) r d :
  src <> dst -> Forall (tidy (s src)) roots -> Forall (tidy (s dst)) roots ->
  (forall root k v, root ∈ roots -> logical_at (s src) root k = Some v ->
     stripRootPath (getPath (rootPath (s dst)) k) root = Ok k) ->
  exec healthy eq s (CopyPrefixes src dst roots) r s1 ->
  exec healthy eq s1 (DiffPrefixes src dst roots) d s2 ->
  (exists sizes, counts (s src) roots sizes /\ r = (Z.of_nat (sum_list sizes), None)) /\
  s1 src = s src /\ s2 = s1 /\
  (forall k, data (s1 dst) !! getPath (rootPath (s dst)) k =
     match logical_roots (s src) roots k with
     | Some v => Some v
     | None => data (s dst) !! getPath (rootPath (s dst)) k
     end) /\
  exists ms, d = Ok ms /\ forall k reason, mkMismatch k reason ∈ ms <->
    reason = reasonMissingInSrc /\ logical_roots (s src) roots k = None /\
    is_Some (logical_roots (s dst) roots k).
Proof.
  intros Hne Hts Htd Hstrip Hcopy Hdiff. unfold CopyPrefixes in Hcopy.
  apply healthy_copyRoots in Hcopy as (u & n' & -> & Hd1 & Ho1 & Hu & sizes & Hc & ->); [|done|done].
  assert (s1 src = s src) as Hsrc by auto.
  apply healthy_diff in Hdiff as (-> & sm & dm & ms & -> & [_ _ Hexact] & Hsm & Hdm); cycle 1.
  { by rewrite Hsrc. }
  { rewrite Hd1. rewrite Forall_forall in *. intros root Hr.
    apply (tidy_saved (s src) _ roots); eauto. }
  split; [by exists sizes|]. split_and!; [done|done| |].
  - intros k. rewrite Hd1, saved_lookup. by rewrite Hu.
  - exists ms. split; [done|]. intros k reason. rewrite Hexact. unfold mismatch_of.
    rewrite Hsm, Hdm, Hsrc, Hd1, (logical_roots_saved (s src)) by done.
    destruct (logical_roots (s src) roots k) as [v|].
    + rewrite String.eqb_refl. naive_solver.
    + destruct (logical_roots (s dst) roots k); [|naive_solver]. naive_solver.
Qed.

(** C19: What a mismatch list means.  Whatever the order in which the maps are
    ranged over, [DiffMaps] returns the one list sorted by key that has exactly
    one entry per differing key, with the reason that applies; it is empty
    exactly when the maps are equal. *)
Theorem diff_maps_exact {D : Backend} (src dst : gmap string string) (s s' : KSt) (ms : list Mismatch) :
  exec mig_do eq s (DiffMaps src dst) ms s' ->
  diff_result src dst ms /\ (ms = [] <-> src = dst) /\
  forall t t' ms', exec mig_do eq t (DiffMaps src dst) ms' t' -> ms' = ms.
Proof.
  assert (Hgen : forall t t' l, exec mig_do eq t (DiffMaps src dst) l t' -> diff_result src dst l).
  { intros t t' l (t1 & es & t2 & <- & [_ Hes]%mig_documented%range_allowed & Hex).
    destruct Hex as (t3 & ed & t4 & <- & [_ Hed]%mig_documented%range_allowed & -> & _).
    by apply diff_result_pure. }
  intros Hr%Hgen. split; [done|]. split; [by apply diff_result_nil|].
  intros t t' ms' Hr'%Hgen. by eapply diff_result_unique.
Qed.

(** C22: Loading is exact: on a tidy instance that answers, the loaded map holds
    precisely the logical keys under the roots, with their values. *)
Theorem load_logical_exact (m : MetaKv) (roots : list string) (s s' : KvView) r :
  Forall (tidy (s m)) roots -> exec healthy eq s (LoadLogical m roots) r s' ->
  s' = s /\ exists out, r = Ok out /\ forall k, out !! k = logical_roots (s m) roots k.
Proof.
  intros Ht (-> & out & -> & Hout)%healthy_loadRoots; [|done]. split; [done|].
  exists out. split; [done|]. intros k. rewrite Hout. by destruct (logical_roots (s m) roots k).
Qed.

(** C18: A copy never does harm, wherever it fails.  After any execution, with any
    calls failing before or after taking effect, the source is unchanged, no key
    of the destination is lost, and every value in the destination is the one it
    had or the value of a source key with that logical key. *)
Theorem copy_never_harms {D : Backend} (src dst : MetaKv) (roots : list string) (s s' : KSt) r :
  src <> dst -> exec mig_do eq s (CopyPrefixes src dst roots) r s' ->
  kview s' src = kview s src /\
  copying (kview s src) roots (kview s dst) (kview s' dst).
Proof.
  intros Hne Hex.
  apply (wp_sound mig_do eq (fun _ _ => True) (copy_inv src dst roots (kview s src) (kview s dst)) _
    (fun _ _ => True)) in Hex as [_ Hinv]; [done|by intros t ? <-|done| |].
  - split; [done|]. split; [done|done|by left].
  - by apply wp_copyRoots.
Qed.

(** C23: Transactions stay small: every batch a copy saves goes to the destination
    and has between 1 and 64 keys, well below etcd's limit of 128 operations,
    whatever the stores answer. *)
Theorem copy_batches_bounded (src dst : MetaKv) (roots : list string) :
  always (bounded_save dst) (CopyPrefixes src dst roots).
Proof.
  unfold CopyPrefixes. generalize 0%Z as n. induction roots as [|root roots IH]; intros n; [done|].
  split; [done|]. intros r. cbn. destruct r as [[ks vs]|err]; [|done]. cbn.
  destruct (logicalStep root ks vs ∅); [|done]. split; [done|]. intros entries. cbn.
  apply copyEntries_bounded; [by apply (Nat.ltb_lt 0 64)| |done].
  intros n' b' Hb'. apply flush_batch_bounded; [lia|done|done].
Qed.

(** ** Executable stores, for concrete runs *)

Definition mig_handler (X : Type) (e : migE X) (s : KvView) : X * KvView :=
  match e in migE X return X * KvView with
  | LoadWithPrefix m key =>
    let l := map_to_list (selected (s m) key) in (Ok (l.*1, l.*2), s)
  | MultiSave m kvs => (Ok tt, fun m' => if decide (m' = m) then saved (s m) kvs else s m')
  | Range mp => (map_to_list mp, s)
  end.

Lemma mig_handler_healthy (X : Type) (e : migE X) (s : KvView) :
  healthy X s e (mig_handler X e s).1 (mig_handler X e s).2.
Proof.
  destruct e as [m key|m kvs|mp]; cbn; [by eauto| |done].
  split; [done|]. split; [by rewrite decide_True|]. intros m' Hm'. by rewrite decide_False.
Qed.

#[global] Instance ModelBackend : Backend := {|
  KSt := KvView;
  kview s := s;
  mig_do := mig_allowed;
  mig_documented := fun X s e x s' H => H;
|}.

Definition demo_view : KvView := fun m =>
  match m with
  | O => mkInstance "by-dev/meta" {[ "by-dev/meta/root-coord/db/1" := "v1" ]}
  | _ => mkInstance "pool/t1" ∅
  end.

Lemma demo_tidy (m : MetaKv) : Forall (tidy (demo_view m)) ["root-coord"].
Proof.
  constructor; [|constructor]. intros fk v [Hd Hp]%selected_Some. destruct m as [|m]; cbn in Hd.
  - apply lookup_singleton_Some in Hd as [<- <-]. by exists "root-coord/db/1".
  - by rewrite lookup_empty in Hd.
Qed.

Lemma demo_run_healthy {A} (p : prog migE A) (s : KvView) :
  exec healthy eq s p (run mig_handler p s).1 (run mig_handler p s).2.
Proof.
  apply (exec_of_run healthy eq mig_handler); [done|apply mig_handler_healthy|by destruct (run _ p s)].
Qed.

Lemma demo_run_allowed {A} (p : prog migE A) (s : KvView) :
  exec (mig_do (Backend := ModelBackend)) eq s p (run mig_handler p s).1 (run mig_handler p s).2.
Proof.
  apply (exec_of_run mig_allowed eq mig_handler); [done| |by destruct (run _ p s)].
  intros X e t. left. apply mig_handler_healthy.
Qed.

Lemma demo_strips (root k v : string) :
  root ∈ ["root-coord"] -> logical_at (demo_view 0) root k = Some v ->
  stripRootPath (getPath (rootPath (demo_view 1)) k) root = Ok k.
Proof.
  intros ->%list_elem_of_singleton. unfold logical_at. destruct (under "root-coord" k); [|done].
  cbn [demo_view data rootPath]. intros [Hk _]%lookup_singleton_Some.
  by apply (inj (getPath "by-dev/meta") "root-coord/db/1" k) in Hk as <-.
Qed.

Lemma copy_then_diff_clean_witness :
  let s1 := (run mig_handler (CopyPrefixes 0 1 ["root-coord"]) demo_view).2 in
  (run mig_handler (DiffPrefixes 0 1 ["root-coord"]) s1).1 = Ok [] /\
  data (s1 1) !! "pool/t1/root-coord/db/1" = Some "v1".
Proof.
  intros s1.
  destruct (copy_then_diff_clean 0 1 ["root-coord"] demo_view s1 _ _ _
    ltac:(discriminate) (demo_tidy 0) (demo_tidy 1) demo_strips
    (demo_run_healthy _ _) (demo_run_healthy _ _)) as (_ & _ & _ & Hdst & ms & Hms & Hex).
  split; [rewrite Hms|exact (Hdst "root-coord/db/1")].
  destruct ms as [|[k reason] ms]; [reflexivity|exfalso].
  destruct (proj1 (Hex k reason) ltac:(left)) as (_ & _ & [v Hv]).
  unfold logical_roots in Hv. cbn [demo_view data rootPath] in Hv.
  rewrite lookup_empty in Hv. destruct (existsb _ _) in Hv; discriminate Hv.
Defined.

Lemma diff_maps_exact_witness :
  let src : gmap string string := {[ "a" := "1"; "b" := "2" ]} in
  let dst : gmap string string := {[ "b" := "3"; "c" := "4" ]} in
  mkMismatch "b" "value-differs" ∈ (run mig_handler (DiffMaps src dst) demo_view).1.
Proof.
  intros src dst.
  destruct (diff_maps_exact (D := ModelBackend) src dst demo_view _ _ (demo_run_allowed _ _))
    as ([_ _ Hexact] & _).
  apply Hexact. reflexivity.
Defined.

Lemma load_logical_exact_witness :
  exists out, (run mig_handler (LoadLogical 0 ["root-coord"]) demo_view).1 = Ok out /\
    out !! "root-coord/db/1" = Some "v1".
Proof.
  destruct (load_logical_exact 0 ["root-coord"] demo_view _ _ (demo_tidy 0) (demo_run_healthy _ _))
    as (_ & out & Hout & Hk).
  exists out. split; [exact Hout|]. rewrite Hk. reflexivity.
Defined.

Lemma copy_never_harms_witness :
  data ((run mig_handler (CopyPrefixes 0 1 ["root-coord"]) demo_view).2 0)
    !! "by-dev/meta/root-coord/db/1" = Some "v1".
Proof.
  destruct (copy_never_harms (D := ModelBackend) 0 1 ["root-coord"] demo_view _ _
    ltac:(discriminate) (demo_run_allowed _ _)) as [Hsrc _].
  refine (eq_trans (f_equal (fun i => data i !! "by-dev/meta/root-coord/db/1") Hsrc) _).
  reflexivity.
Defined.

(** The count reported with an error includes keys that were never written: here
    the only batch fails, nothing is written, and one key is reported. *)
Definition failing_handler (X : Type) (e : migE X) (s : KvView) : X * KvView :=
  match e in migE X return X * KvView with
  | MultiSave m kvs => (Err (Error "kv" "unavailable"), s)
  | e => mig_handler _ e s
  end.

Lemma copy_count_on_error :
  let r := run failing_handler (CopyPrefixes 0 1 ["root-coord"]) demo_view in
  r.1 = (1%Z, Some (Error "kv" "unavailable")) /\ data (r.2 1) = ∅.
Proof. split; reflexivity. Qed.
