(* ===== verification/Catalogpb.v ===== *)
(** * The generated RPC interface and the gRPC and merr packages

    Code outside the repository that the client calls: the methods of
    [catalogpb.CatalogServiceClient] with their request and response types (the
    class [CatalogPB]), Milvus's error conventions (the class [Merr]) and gRPC's
    connections, credentials and status codes (the class [Grpc]).  Only what the
    client uses is named; nothing is assumed about the values. *)

From S2P Require Import Prelude Nsmeta.

Module catalogpb.

(** The methods of the service, in the order of client/routing_client.go. *)
Inductive Method : Set :=
| CreateDatabase
| DropDatabase
| AlterDatabase
| ListDatabases
| GetDatabaseByName
| GetDatabaseByID
| AddCollection
| DropCollection
| RemoveCollection
| GetCollectionID
| GetCollectionByName
| GetCollectionByID
| GetCollectionByIDWithMaxTs
| ListCollections
| ListAllAvailCollections
| ListAllAvailPartitions
| ListCollectionPhysicalChannels
| GetCollectionVirtualChannels
| GetPChannelInfo
| CheckIfCollectionRenamable
| BeginTruncateCollection
| GetGeneralCount
| AlterCollection
| TruncateCollection
| AddPartition
| GetPartitionIDByName
| DropPartition
| RemovePartition
| AlterAlias
| DropAlias
| DescribeAlias
| ListAliases
| IsAlias
| ListAliasesByID
| CheckIfAliasCreatable
| CheckIfAliasAlterable
| CheckIfAliasDroppable
| InitCredential
| AlterCredential
| DeleteCredential
| GetCredential
| ListCredentialUsernames
| CheckIfAddCredential
| CheckIfUpdateCredential
| CheckIfDeleteCredential
| CreateRole
| AlterRole
| DropRole
| OperateUserRole
| SelectRole
| SelectUser
| ListUserRole
| CheckIfCreateRole
| CheckIfAlterRole
| CheckIfDropRole
| CheckIfOperateUserRole
| OperatePrivilege
| DropGrant
| RestoreRBAC
| SelectGrant
| ListPolicy
| BackupRBAC
| CheckIfRBACRestorable
| CreatePrivilegeGroup
| DropPrivilegeGroup
| OperatePrivilegeGroup
| IsCustomPrivilegeGroup
| ListPrivilegeGroups
| GetPrivilegeGroupRoles
| CheckIfPrivilegeGroupCreatable
| CheckIfPrivilegeGroupAlterable
| CheckIfPrivilegeGroupDropable
| CheckIfDatabaseCreatable
| CheckIfDatabaseDroppable
| AddFileResource
| RemoveFileResource
| ListFileResource
| IncFileResourceRefCnt
| DecFileResourceRefCnt
| RecoverFileResourceRefCnt
| BulkImport
| VerifyImport
| GetRouteMap
| DeleteNamespace.

#[global] Instance Method_eq_dec : EqDecision Method.
Proof. solve_decision. Defined.

End catalogpb.
Import catalogpb(Method).

Class CatalogPB : Type := {
  Request : Method -> Type;
  Response : Method -> Type;
  CallOption : Type;
  Status : Type;
  (* nil-safe getter: [None] is the nil response *)
  GetStatus : forall m, option (Response m) -> Status;
  newGetRouteMapRequest : Request catalogpb.GetRouteMap;
  GetShardOwner : option (Response catalogpb.GetRouteMap) -> gmap Z string;
  GetShardTerm : option (Response catalogpb.GetRouteMap) -> gmap Z Z;
}.

(** [merr.Error], [merr.IsRetryableErr] and [merr.WrapErrServiceUnavailable]. *)
Class Merr (PB : CatalogPB) : Type := {
  merr_Error : Status -> option error;
  IsRetryableErr : error -> bool;
  WrapErrServiceUnavailable : string -> error;
}.

(** gRPC status codes. *)
Inductive Code : Set :=
| OK | Canceled | Unknown | InvalidArgument | DeadlineExceeded | NotFound | AlreadyExists
| PermissionDenied | ResourceExhausted | FailedPrecondition | Aborted | OutOfRange
| Unimplemented | Internal | Unavailable | DataLoss | Unauthenticated.

Class Grpc : Type := {
  Credentials : Type;
  insecure_NewCredentials : Credentials;
  status_Code : error -> Code;
}.

(** A [*grpc.ClientConn]: the address it was dialled for and its identity. *)
Definition Conn : Type := string * nat.
Definition conn_addr (c : Conn) : string := c.1.
