(* ===== verification/Router.v ===== *)
(** * The discovery client: client/router.go

    The router keeps a route map and a pool of connections behind one mutex.  A
    critical section is one [Locked] action; calls to gRPC inside it (dialling,
    closing) and the order of Go's map iterations are given by an [Oracle].
    Remote calls and [ctx.Err()] are actions of their own, so other users of the
    router may run between any two of them.  The closure that a caller passes to
    [Do] is a program with a state of its own (its captured variables), threaded
    through the attempts. *)

From S2P Require Import Prelude GoStd Placement Prog Nsmeta Catalogpb.
Import catalogpb(Method).

Section router.
Context {H : XXHash} {G : GrpcMetadata} {PB : CatalogPB} {M : Merr PB} {R : Grpc}.

Record Router : Type := mkRouter {
  bootstrap : list string;
  creds : Credentials;
  shardOwner : gmap Z string;
  shardTerm : gmap Z Z;
  conns : gmap string Conn;
}.

(** The router and the connections that are open. *)
Record World : Type := mkWorld { router : Router; open_conns : gset Conn }.

(** What gRPC and the runtime answer inside a critical section. *)
Record Oracle : Type := mkOracle {
  newClient : string -> Credentials -> result Conn;
  rangeOwner : gmap Z string -> list (Z * string);
  rangeConns : gmap string Conn -> list (string * Conn);
}.

Inductive routerE : Type -> Type :=
| CtxErr (ctx : Context_) : routerE (option error)
| Locked {X : Type} (f : Oracle -> World -> X * World) : routerE X
| Rpc (m : Method) (ctx : Context_) (c : Conn) (in_ : Request m) (opts : list CallOption)
    : routerE (option (Response m) * option error).

(** ** The operations *)

Definition NewRouter (bootstrap : list string) : Router :=
  mkRouter bootstrap insecure_NewCredentials ∅ ∅ ∅.

Definition WithCredentials (r : Router) (c : Credentials) : Router :=
  mkRouter (bootstrap r) c (shardOwner r) (shardTerm r) (conns r).

(** [c.Close()]. *)
Definition closeConn (c : Conn) (w : World) : World :=
  mkWorld (router w) (open_conns w ∖ {[c]}).

Definition setConns (cs : gmap string Conn) (w : World) : World :=
  let r := router w in
  mkWorld (mkRouter (bootstrap r) (creds r) (shardOwner r) (shardTerm r) cs) (open_conns w).

Definition Close : prog routerE unit :=
  call (Locked (fun o w =>
    let w := foldl (fun w '(_, c) => closeConn c w) w (rangeConns o (conns (router w))) in
    (tt, setConns ∅ w))).

(** One iteration of the eviction loop. *)
Definition evictStep (live : gset string) (w : World) (p : string * Conn) : World :=
  let '(addr, c) := p in
  if bool_decide (addr ∈ live) then w
  else let w := closeConn c w in setConns (delete addr (conns (router w))) w.

Definition evictStaleConnsLocked (o : Oracle) (owner : gmap Z string) (w : World) : World :=
  let live := foldl (fun (acc : gset string) '(_, a) => {[a]} ∪ acc) ∅ (rangeOwner o owner) in
  let live := foldl (fun (acc : gset string) a => {[a]} ∪ acc) live (bootstrap (router w)) in
  foldl (evictStep live) w (rangeConns o (conns (router w))).

Definition conn (addr : string) : prog routerE (result Conn) :=
  call (Locked (fun o w =>
    match conns (router w) !! addr with
    | Some c => (Ok c, w)
    | None =>
      match newClient o addr (creds (router w)) with
      | Err err => (Err err, w)
      | Ok c => (Ok c, setConns (<[addr := c]> (conns (router w)))
                         (mkWorld (router w) ({[c]} ∪ open_conns w)))
      end
    end)).

(** The route map of a response, rebuilt with [int] keys. *)
Definition rebuild {V} (m : gmap Z V) : gmap Z V :=
  foldl (fun acc '(shard, v) => <[shard := v]> acc) ∅ (map_to_list m).

(** The critical section that installs a route map. *)
Definition publish (owner : gmap Z string) (term : gmap Z Z) (o : Oracle) (w : World) : unit * World :=
  let r := router w in
  let w := mkWorld (mkRouter (bootstrap r) (creds r) owner term (conns r)) (open_conns w) in
  (tt, evictStaleConnsLocked o owner w).

(** The loop of [Refresh] over the candidate addresses. *)
Fixpoint refreshLoop (ctx : Context_) (addrs : list string) (lastErr : option error)
    : prog routerE (option error) :=
  match addrs with
  | [] => Ret (Some match lastErr with
                    | None => WrapErrServiceUnavailable "no catalog node reachable for route map"
                    | Some e => e
                    end)
  | addr :: addrs' =>
    let! c := conn addr in
    match c with
    | Err err => refreshLoop ctx addrs' (Some err)
    | Ok c =>
      let! reply := call (Rpc catalogpb.GetRouteMap ctx c newGetRouteMapRequest []) in
      match reply with
      | (_, Some err) => refreshLoop ctx addrs' (Some err)
      | (resp, None) =>
        match merr_Error (GetStatus _ resp) with
        | Some err => refreshLoop ctx addrs' (Some err)
        | None =>
          let owner := rebuild (GetShardOwner resp) in
          let term := rebuild (GetShardTerm resp) in
          call (Locked (publish owner term)) ;;;
          Ret None
        end
      end
    end
  end.

(** The candidate addresses; [bootstrap] is fixed after construction, so reading it
    inside the critical section is the same as before it. *)
Definition candidates (o : Oracle) (w : World) : list string * World :=
  (bootstrap (router w) ++ (snd <$> rangeOwner o (shardOwner (router w))), w).

Definition Refresh (ctx : Context_) : prog routerE (option error) :=
  let! addrs := call (Locked candidates) in
  refreshLoop ctx addrs None.

Definition OwnerOf (namespace : string) : prog routerE string :=
  call (Locked (fun _ w => (default "" (shardOwner (router w) !! ShardOf namespace), w))).

Definition routeFor (namespace : string) : prog routerE (string * Z) :=
  let shard := ShardOf namespace in
  call (Locked (fun _ w =>
    ((default "" (shardOwner (router w) !! shard), default 0%Z (shardTerm (router w) !! shard)), w))).

Definition isRetriableRejection (err : error) : bool := IsRetryableErr err.

Definition isAmbiguousTransport (err : error) : bool :=
  match status_Code err with
  | Unavailable | DeadlineExceeded => true
  | _ => false
  end.

Definition maxAttempts : nat := 4.

Section do_.
Context {L : Type}.
Variable fn : L -> Context_ -> Conn -> prog routerE (L * option error).

(** The part of an iteration of [do] that dials the owner and runs [fn]; [again]
    is the [continue] with its [lastErr]. *)
Definition attempt (again : L -> error -> prog routerE (L * option error))
    (ctx : Context_) (namespace : string) (retryAmbiguous : bool) (l : L) (owner : string) (term : Z)
    : prog routerE (L * option error) :=
  let! c := conn owner in
  match c with
  | Err err => Refresh ctx ;;; again l err
  | Ok c =>
    let! res := fn l (WithTerm ctx namespace term) c in
    match res with
    | (l, None) => Ret (l, None)
    | (l, Some err) =>
      if isRetriableRejection err || (retryAmbiguous && isAmbiguousTransport err)
      then Refresh ctx ;;; again l err
      else Ret (l, Some err)
    end
  end.

(** The [for] loop of [do] with [n] attempts left; a [continue] goes on with one
    less. *)
Fixpoint doLoop (ctx : Context_) (namespace : string) (retryAmbiguous : bool)
    (n : nat) (l : L) (lastErr : option error) : prog routerE (L * option error) :=
  match n with
  | O => Ret (l, lastErr)
  | S n =>
    let again l err := doLoop ctx namespace retryAmbiguous n l (Some err) in
    let! cerr := call (CtxErr ctx) in
    match cerr with
    | Some err => Ret (l, Some err)
    | None =>
      let! route := routeFor namespace in
      if (route.1 =? "")%string then
        let! e := Refresh ctx in
        match e with
        | Some err => again l err
        | None =>
          let! route := routeFor namespace in
          if (route.1 =? "")%string
          then again l (WrapErrServiceUnavailable ("namespace " +:+ namespace +:+ " has no owner yet"))
          else attempt again ctx namespace retryAmbiguous l route.1 route.2
        end
      else attempt again ctx namespace retryAmbiguous l route.1 route.2
    end
  end.

Definition do (ctx : Context_) (namespace : string) (retryAmbiguous : bool) (l : L)
    : prog routerE (L * option error) :=
  doLoop ctx namespace retryAmbiguous maxAttempts l None.

Definition Do (ctx : Context_) (namespace : string) (l : L) : prog routerE (L * option error) :=
  do ctx namespace true l.

Definition DoNonIdempotent (ctx : Context_) (namespace : string) (l : L)
    : prog routerE (L * option error) :=
  do ctx namespace false l.

End do_.

End router.

(** ** Proof rules for the loops *)

Section rules.
Context {H : XXHash} {G : GrpcMetadata} {PB : CatalogPB} {M : Merr PB} {R : Grpc} {L : Type}.

Section always_rules.
Variable P : forall X, routerE X -> Prop.
Hypothesis Hctx : forall ctx, P _ (CtxErr ctx).
Hypothesis Hconn : forall addr, always P (conn addr).
Hypothesis Hroute : forall ns, always P (routeFor ns).

Lemma always_Refresh (ctx : Context_) :
  P _ (Locked candidates) -> (forall owner term, P _ (Locked (publish owner term))) ->
  (forall c, P _ (Rpc catalogpb.GetRouteMap ctx c newGetRouteMapRequest [])) -> always P (Refresh ctx).
Proof.
  intros Hcand Hpub Hrpc. split; [done|]. intros addrs. cbn [bind]. generalize (@None error) as lastErr.
  induction addrs as [|addr addrs IH]; intros lastErr; [done|].
  cbn [refreshLoop]. apply always_bind; [done|]. intros [c|err]; [|apply IH].
  split; [done|]. intros [resp [err|]]; [apply IH|].
  cbn [bind]. destruct (merr_Error _); [apply IH|]. by split.
Qed.

Lemma always_do (fn : L -> Context_ -> Conn -> prog routerE (L * option error)) ctx ns retry l :
  always P (Refresh ctx) -> (forall l term c, always P (fn l (WithTerm ctx ns term) c)) ->
  always P (do fn ctx ns retry l).
Proof.
  intros Hrefresh Hfn. unfold do. generalize maxAttempts as n, (@None error) as lastErr.
  intros n. revert l. induction n as [|n IH]; intros l lastErr; [done|].
  cbn [doLoop]. set (again := fun l err => doLoop fn ctx ns retry n l (Some err)).
  assert (Hattempt : forall l owner term, always P (attempt fn again ctx ns retry l owner term)).
  { intros l' owner term. apply always_bind; [done|]. intros [c|err].
    - apply always_bind; [apply Hfn|]. intros [l2 [err|]]; [|done].
      destruct (_ || _); [|done]. apply always_bind; [done|]. intros _. apply IH.
    - apply always_bind; [done|]. intros _. apply IH. }
  split; [done|]. intros [err|]; cbn [bind]; [done|].
  apply always_bind; [done|]. intros [owner term]. cbn [fst snd].
  destruct (owner =? "")%string; [|apply Hattempt]. apply always_bind; [done|].
  intros [err|]; [apply IH|]. apply always_bind; [done|]. intros [owner' term']. cbn [fst snd].
  destruct (owner' =? "")%string; [apply IH|apply Hattempt].
Qed.

End always_rules.

(** What [fn] establishes when it returns nil holds when the call returns nil. *)
Lemma do_success (J : L -> Prop) (fn : L -> Context_ -> Conn -> prog routerE (L * option error))
    ctx ns retry l :
  (forall l term c, returns (fun res => res.2 = None -> J res.1) (fn l (WithTerm ctx ns term) c)) ->
  returns (fun res => res.2 = None -> J res.1) (do fn ctx ns retry l).
Proof.
  intros Hfn. unfold do. set (Q := fun res : L * option error => res.2 = None -> J res.1).
  assert (Hgen : forall n l lastErr, (n = 0 -> lastErr <> None) ->
    returns Q (doLoop fn ctx ns retry n l lastErr)); [|by apply Hgen].
  clear l. induction n as [|n IH]; intros l lastErr Hlast; [intros ?; by destruct Hlast|].
  cbn [doLoop]. set (again := fun l err => doLoop fn ctx ns retry n l (Some err)).
  assert (Hagain : forall l err, returns Q (again l err)) by (intros; by apply IH).
  assert (Hattempt : forall l owner term, returns Q (attempt fn again ctx ns retry l owner term)).
  { intros l' owner term [c|err]; cbn [bind].
    - apply returns_bind. eapply returns_mono; [|apply Hfn]. intros [l2 [err|]] HQ; [|done].
      destruct (_ || _); [|done]. apply returns_bind, returns_any. intros _. apply Hagain.
    - apply returns_bind, returns_any. intros _. apply Hagain. }
  intros [err|]; cbn [bind]; [done|]. intros [owner term]. cbn [bind fst snd].
  destruct (owner =? "")%string; [|apply Hattempt]. apply returns_bind, returns_any.
  intros [err|]; [apply Hagain|]. intros [owner' term']. cbn [bind fst snd].
  destruct (owner' =? "")%string; [apply Hagain|apply Hattempt].
Qed.

End rules.
