(* ===== verification/Attempts.v ===== *)
(** * What a routed call may send

    The attempts of [Do] and [DoNonIdempotent], for every closure, every route map
    and every behaviour of the remote nodes.  The closure is instrumented to log
    each of its invocations: the context and connection it was given and the
    error it returned. *)

From S2P Require Import Prelude GoStd Placement Prog Nsmeta Catalogpb Router.

Section attempts.
Context {H : XXHash} {G : GrpcMetadata} {PB : CatalogPB} {M : Merr PB} {R : Grpc} {L : Type}.
Variable fn : L -> Context_ -> Conn -> prog routerE (L * option error).

(** One invocation of the closure. *)
Record Attempt : Type := mkAttempt {
  at_ctx : Context_;
  at_conn : Conn;
  at_err : option error;
}.

(** The closure with a log. *)
Definition logged (l : L * list Attempt) (ctx : Context_) (c : Conn)
    : prog routerE ((L * list Attempt) * option error) :=
  let! res := fn l.1 ctx c in
  Ret ((res.1, l.2 ++ [mkAttempt ctx c res.2]), res.2).

(** The errors after which an attempt is repeated. *)
Definition repeated (retryAmbiguous : bool) (err : error) : bool :=
  isRetriableRejection err || (retryAmbiguous && isAmbiguousTransport err).

Definition attempt_repeated (retryAmbiguous : bool) (a : Attempt) : Prop :=
  exists err, at_err a = Some err /\ repeated retryAmbiguous err = true.

(** What the log and the result of a call look like, given the attempts [tr0] made
    so far (all of them repeated) and [n] more to come. *)
Definition do_result (ctx : Context_) (namespace : string) (retryAmbiguous : bool)
    (n : nat) (tr0 : list Attempt) (res : (L * list Attempt) * option error) : Prop :=
  exists tr, res.1.2 = tr0 ++ tr /\ length tr <= n /\
    Forall (fun a => exists term, at_ctx a = WithTerm ctx namespace term) tr /\
    match res.2 with
    | None => exists tr' a, tr = tr' ++ [a] /\ at_err a = None /\
        Forall (attempt_repeated retryAmbiguous) tr'
    | Some err => Forall (attempt_repeated retryAmbiguous) tr \/
        exists tr' a, tr = tr' ++ [a] /\ at_err a = Some err /\
          repeated retryAmbiguous err = false /\ Forall (attempt_repeated retryAmbiguous) tr'
    end.

Lemma do_result_later (ctx : Context_) (ns : string) (retry : bool) (n : nat) (tr0 : list Attempt)
    (a : Attempt) res :
  attempt_repeated retry a -> (exists term, at_ctx a = WithTerm ctx ns term) ->
  do_result ctx ns retry n (tr0 ++ [a]) res -> do_result ctx ns retry (S n) tr0 res.
Proof.
  intros Ha Hc (tr & Hlog & Hlen & Hctx & Hres). exists (a :: tr).
  split; [by rewrite Hlog, <- app_assoc|]. split; [cbn; lia|]. split; [by constructor|].
  destruct (res.2) as [err|].
  - destruct Hres as [Hall|(tr' & b & -> & Hb & Hr & Hall)]; [left; by constructor|].
    right. exists (a :: tr'), b. split_and!; [done|done|done|by constructor].
  - destruct Hres as (tr' & b & -> & Hb & Hall). exists (a :: tr'), b.
    split_and!; [done|done|by constructor].
Qed.

Lemma do_result_skip (ctx : Context_) (ns : string) (retry : bool) (n : nat) (tr0 : list Attempt) res :
  do_result ctx ns retry n tr0 res -> do_result ctx ns retry (S n) tr0 res.
Proof. intros (tr & ? & ? & ? & ?). exists tr. split_and!; [done|lia|done|done]. Qed.

Lemma do_result_stop (ctx : Context_) (ns : string) (retry : bool) (n : nat) l tr0 err :
  do_result ctx ns retry n tr0 ((l, tr0), Some err).
Proof.
  exists []. cbn. rewrite app_nil_r. split_and!; [done|lia|constructor|]. left. constructor.
Qed.

Lemma doLoop_result (ctx : Context_) (ns : string) (retry : bool) (n : nat)
    (l : L) (tr0 : list Attempt) (lastErr : option error) :
  (n = 0 -> lastErr <> None) ->
  returns (do_result ctx ns retry n tr0) (doLoop logged ctx ns retry n (l, tr0) lastErr).
Proof.
  revert l tr0 lastErr. induction n as [|n IH]; intros l tr0 lastErr Hlast.
  { destruct lastErr as [err|]; [|by destruct Hlast]. apply do_result_stop. }
  cbn [doLoop]. set (again := fun l err => doLoop logged ctx ns retry n l (Some err)).
  assert (Hnext : forall l err, returns (do_result ctx ns retry (S n) tr0) (again (l, tr0) err)).
  { intros l' err. eapply returns_mono; [apply do_result_skip|]. by apply IH. }
  assert (Hattempt : forall owner term, returns (do_result ctx ns retry (S n) tr0)
    (attempt logged again ctx ns retry (l, tr0) owner term)).
  { intros owner term. unfold attempt. intros [c|err].
    - cbn [bind]. apply returns_bind. unfold logged at 1. apply returns_bind, returns_any.
      intros [l' [err|]]; cbn [returns fst snd].
      + fold (repeated retry err). destruct (repeated retry err) eqn:Er.
        * apply returns_bind, returns_any. intros _. eapply returns_mono; [|by apply IH].
          intros res. apply do_result_later; [by exists err|by exists term].
        * exists [mkAttempt (WithTerm ctx ns term) c (Some err)].
          split_and!; [done|cbn; lia|constructor; [by exists term|constructor]|].
          right. by exists [], (mkAttempt (WithTerm ctx ns term) c (Some err)).
      + exists [mkAttempt (WithTerm ctx ns term) c None].
        split_and!; [done|cbn; lia|constructor; [by exists term|constructor]|].
        by exists [], (mkAttempt (WithTerm ctx ns term) c None).
    - cbn [bind]. apply returns_bind, returns_any. intros _. apply Hnext. }
  intros [err|]; cbn [bind]; [apply do_result_stop|]. intros [owner term]. cbn [bind fst snd].
  destruct (owner =? "")%string; [|apply Hattempt].
  apply returns_bind, returns_any. intros [err|]; [apply Hnext|].
  intros [owner' term']. cbn [bind fst snd].
  destruct (owner' =? "")%string; [apply Hnext|apply Hattempt].
Qed.

End attempts.

(** ** Properties *)

Section attempts_properties.
Context {H : XXHash} {G : GrpcMetadata} {PB : CatalogPB} {M : Merr PB} {R : Grpc} {L : Type}.
Variable fn : L -> Context_ -> Conn -> prog routerE (L * option error).

(** The server refused the attempt before applying it. *)
Definition rejected (a : Attempt) : bool :=
  match at_err a with Some err => isRetriableRejection err | None => false end.

Lemma repeated_rejected (a : Attempt) : attempt_repeated false a -> rejected a = true.
Proof.
  intros (err & Ha & Hr). unfold rejected. rewrite Ha.
  unfold repeated in Hr. by rewrite andb_false_l, orb_false_r in Hr.
Qed.

Lemma rejected_filter (tr : list Attempt) :
  Forall (attempt_repeated false) tr -> List.filter (fun a => negb (rejected a)) tr = [].
Proof.
  induction 1 as [|a tr Ha _ IH]; [done|]. cbn. by rewrite repeated_rejected.
Qed.

(** C4: At most once.  A non-idempotent call reaches the service unrefused at most
    once: every invocation of the closure except possibly the last was answered
    with a retriable rejection, which the service issues before applying anything.
    In particular an ambiguous transport failure ends the call, and is returned. *)
Theorem non_idempotent_at_most_once (ctx : Context_) (namespace : string) (l : L) :
  returns (fun res =>
      length (List.filter (fun a => negb (rejected a)) res.1.2) <= 1 /\
      forall a, a ∈ res.1.2 -> rejected a = false ->
        last res.1.2 = Some a /\ res.2 = at_err a)
    (DoNonIdempotent (logged fn) ctx namespace (l, [])).
Proof.
  unfold DoNonIdempotent, do.
  refine (returns_mono _ _ _ _ (doLoop_result fn ctx namespace false maxAttempts l [] None ltac:(discriminate))).
  intros [[l' tr] r] (tr1 & Hlog & _ & _ & Hres). cbn [fst snd] in *. subst tr. cbn [app].
  assert (Hone : forall tr' a, Forall (attempt_repeated false) tr' ->
    length (List.filter (fun a => negb (rejected a)) (tr' ++ [a])) <= 1 /\
    forall b, b ∈ tr' ++ [a] -> rejected b = false -> b = a).
  { intros tr' a Hall. rewrite List.filter_app, rejected_filter by done. split.
    - cbn. destruct (rejected a); cbn; lia.
    - intros b [Hb|Hb]%elem_of_app Hr; [|by apply list_elem_of_singleton in Hb].
      rewrite Forall_forall in Hall. by rewrite repeated_rejected in Hr by auto. }
  destruct r as [err|]; [destruct Hres as [Hall|(tr' & a & -> & Ha & _ & Hall)]|
    destruct Hres as (tr' & a & -> & Ha & Hall)].
  - rewrite rejected_filter by done. split; [cbn; lia|]. intros a Hin Hr. exfalso.
    rewrite Forall_forall in Hall. by rewrite repeated_rejected in Hr by auto.
  - destruct (Hone tr' a Hall) as [? Hb]. split; [done|]. intros b Hin Hr.
    rewrite (Hb b Hin Hr), last_snoc. done.
  - destruct (Hone tr' a Hall) as [? Hb]. split; [done|]. intros b Hin Hr.
    rewrite (Hb b Hin Hr), last_snoc. done.
Qed.

(** C13: The attempts of an idempotent call.  There are at most four, each stamped
    exactly once with the namespace on top of the caller's context; all but the
    last ended in a retriable rejection or an ambiguous transport failure.  The
    call returns nil only when its last attempt did, and an error that is neither
    of those two is returned as it is, at once. *)
Theorem do_attempts (ctx : Context_) (namespace : string) (l : L) :
  returns (fun res =>
      let tr := res.1.2 in
      length tr <= 4 /\
      Forall (fun a => exists term, at_ctx a = WithTerm ctx namespace term) tr /\
      (res.2 = None -> exists a, last tr = Some a /\ at_err a = None) /\
      forall i a, tr !! i = Some a ->
        match at_err a with
        | None => last tr = Some a /\ res.2 = None
        | Some err => if isRetriableRejection err || isAmbiguousTransport err then res.2 = None -> S i < length tr
                      else S i = length tr /\ res.2 = Some err
        end)
    (Do (logged fn) ctx namespace (l, [])).
Proof.
  unfold Do, do.
  refine (returns_mono _ _ _ _ (doLoop_result fn ctx namespace true maxAttempts l [] None ltac:(discriminate))).
  intros [[l' tr] r] (tr1 & Hlog & Hlen & Hctx & Hres). cbn [fst snd app] in *. subst tr.
  split; [done|]. split; [done|].
  assert (Hrep : forall t i b, Forall (attempt_repeated true) t -> t !! i = Some b ->
    exists err, at_err b = Some err /\ isRetriableRejection err || isAmbiguousTransport err = true /\
      i < length t).
  { intros t i b Hall Hb. pose proof (lookup_lt_Some _ _ _ Hb).
    rewrite Forall_forall in Hall. destruct (Hall b) as (err & He & Hr);
      [by eapply list_elem_of_lookup_2|]. by exists err. }
  destruct r as [err|]; [destruct Hres as [Hall|(tr' & a & -> & Ha & Hr & Hall)]|
    destruct Hres as (tr' & a & -> & Ha & Hall)]; (split; [try done|]).
  - intros i b Hb. destruct (Hrep _ _ _ Hall Hb) as (e & He & Her & _). by rewrite He, Her.
  - intros i b [Hb|[Hi Hb]]%lookup_snoc_Some.
    + destruct Hb as [_ Hb]. destruct (Hrep _ _ _ Hall Hb) as (e & He & Her & _). by rewrite He, Her.
    + subst b i. rewrite Ha. unfold repeated in Hr. cbn in Hr. rewrite Hr.
      rewrite length_app. cbn. split; [lia|done].
  - intros _. exists a. by rewrite last_snoc.
  - intros i b [Hb|[Hi Hb]]%lookup_snoc_Some.
    + destruct Hb as [_ Hb]. destruct (Hrep _ _ _ Hall Hb) as (e & He & Her & Hlt).
      rewrite He, Her, length_app. cbn. intros _. lia.
    + subst b i. rewrite Ha, last_snoc. done.
Qed.

End attempts_properties.
