(* ===== verification/RoutingClient.v ===== *)
(** * The namespace-bound client: client/routing_client.go

    Every method of the service goes through the router.  The closure a method
    passes to it captures one variable, the response [out], which is the state
    threaded through the attempts; it is overwritten by every attempt and
    returned as the last attempt left it. *)

From S2P Require Import Prelude GoStd Placement Prog Nsmeta Catalogpb Router Attempts.
Import catalogpb(Method).

Section routing_client.
Context {H : XXHash} {G : GrpcMetadata} {PB : CatalogPB} {M : Merr PB} {R : Grpc}.

Definition callErr (transport : option error) (st : Status) : option error :=
  match transport with
  | Some e => Some e
  | None => merr_Error st
  end.

(** The router is the one behind the [Locked] actions. *)
Record routingClient : Type := mkRoutingClient { namespace : string }.

Definition NewRoutingClient (namespace : string) : routingClient := mkRoutingClient namespace.

(** The closure of method [m]: call the node, keep the response, reduce to the
    error to act on. *)
Definition closure (m : Method) (in_ : Request m) (opts : list CallOption)
    (out : option (Response m)) (c : Context_) (cli : Conn)
    : prog routerE (option (Response m) * option error) :=
  let! reply := call (Rpc m c cli in_ opts) in
  let '(out, e) := reply in
  Ret (out, callErr e (GetStatus m out)).

Definition CreateDatabase (rc : routingClient) (ctx : Context_) (in_ : Request catalogpb.CreateDatabase)
    (opts : list CallOption) : prog routerE (option (Response catalogpb.CreateDatabase) * option error) :=
  Do (closure catalogpb.CreateDatabase in_ opts) ctx (namespace rc) None.

Definition DropDatabase (rc : routingClient) (ctx : Context_) (in_ : Request catalogpb.DropDatabase)
    (opts : list CallOption) : prog routerE (option (Response catalogpb.DropDatabase) * option error) :=
  Do (closure catalogpb.DropDatabase in_ opts) ctx (namespace rc) None.

Definition AlterDatabase (rc : routingClient) (ctx : Context_) (in_ : Request catalogpb.AlterDatabase)
    (opts : list CallOption) : prog routerE (option (Response catalogpb.AlterDatabase) * option error) :=
  Do (closure catalogpb.AlterDatabase in_ opts) ctx (namespace rc) None.

Definition ListDatabases (rc : routingClient) (ctx : Context_) (in_ : Request catalogpb.ListDatabases)
    (opts : list CallOption) : prog routerE (option (Response catalogpb.ListDatabases) * option error) :=
  Do (closure catalogpb.ListDatabases in_ opts) ctx (namespace rc) None.

Definition GetDatabaseByName (rc : routingClient) (ctx : Context_) (in_ : Request catalogpb.GetDatabaseByName)
    (opts : list CallOption) : prog routerE (option (Response catalogpb.GetDatabaseByName) * option error) :=
  Do (closure catalogpb.GetDatabaseByName in_ opts) ctx (namespace rc) None.

Definition GetDatabaseByID (rc : routingClient) (ctx : Context_) (in_ : Request catalogpb.GetDatabaseByID)
    (opts : list CallOption) : prog routerE (option (Response catalogpb.GetDatabaseByID) * option error) :=
  Do (closure catalogpb.GetDatabaseByID in_ opts) ctx (namespace rc) None.

Definition AddCollection (rc : routingClient) (ctx : Context_) (in_ : Request catalogpb.AddCollection)
    (opts : list CallOption) : prog routerE (option (Response catalogpb.AddCollection) * option error) :=
  Do (closure catalogpb.AddCollection in_ opts) ctx (namespace rc) None.

Definition DropCollection (rc : routingClient) (ctx : Context_) (in_ : Request catalogpb.DropCollection)
    (opts : list CallOption) : prog routerE (option (Response catalogpb.DropCollection) * option error) :=
  Do (closure catalogpb.DropCollection in_ opts) ctx (namespace rc) None.

Definition RemoveCollection (rc : routingClient) (ctx : Context_) (in_ : Request catalogpb.RemoveCollection)
    (opts : list CallOption) : prog routerE (option (Response catalogpb.RemoveCollection) * option error) :=
  Do (closure catalogpb.RemoveCollection in_ opts) ctx (namespace rc) None.

Definition GetCollectionID (rc : routingClient) (ctx : Context_) (in_ : Request catalogpb.GetCollectionID)
    (opts : list CallOption) : prog routerE (option (Response catalogpb.GetCollectionID) * option error) :=
  Do (closure catalogpb.GetCollectionID in_ opts) ctx (namespace rc) None.

Definition GetCollectionByName (rc : routingClient) (ctx : Context_) (in_ : Request catalogpb.GetCollectionByName)
    (opts : list CallOption) : prog routerE (option (Response catalogpb.GetCollectionByName) * option error) :=
  Do (closure catalogpb.GetCollectionByName in_ opts) ctx (namespace rc) None.

Definition GetCollectionByID (rc : routingClient) (ctx : Context_) (in_ : Request catalogpb.GetCollectionByID)
    (opts : list CallOption) : prog routerE (option (Response catalogpb.GetCollectionByID) * option error) :=
  Do (closure catalogpb.GetCollectionByID in_ opts) ctx (namespace rc) None.

Definition GetCollectionByIDWithMaxTs (rc : routingClient) (ctx : Context_) (in_ : Request catalogpb.GetCollectionByIDWithMaxTs)
    (opts : list CallOption) : prog routerE (option (Response catalogpb.GetCollectionByIDWithMaxTs) * option error) :=
  Do (closure catalogpb.GetCollectionByIDWithMaxTs in_ opts) ctx (namespace rc) None.

Definition ListCollections (rc : routingClient) (ctx : Context_) (in_ : Request catalogpb.ListCollections)
    (opts : list CallOption) : prog routerE (option (Response catalogpb.ListCollections) * option error) :=
  Do (closure catalogpb.ListCollections in_ opts) ctx (namespace rc) None.

Definition ListAllAvailCollections (rc : routingClient) (ctx : Context_) (in_ : Request catalogpb.ListAllAvailCollections)
    (opts : list CallOption) : prog routerE (option (Response catalogpb.ListAllAvailCollections) * option error) :=
  Do (closure catalogpb.ListAllAvailCollections in_ opts) ctx (namespace rc) None.

Definition ListAllAvailPartitions (rc : routingClient) (ctx : Context_) (in_ : Request catalogpb.ListAllAvailPartitions)
    (opts : list CallOption) : prog routerE (option (Response catalogpb.ListAllAvailPartitions) * option error) :=
  Do (closure catalogpb.ListAllAvailPartitions in_ opts) ctx (namespace rc) None.

Definition ListCollectionPhysicalChannels (rc : routingClient) (ctx : Context_) (in_ : Request catalogpb.ListCollectionPhysicalChannels)
    (opts : list CallOption) : prog routerE (option (Response catalogpb.ListCollectionPhysicalChannels) * option error) :=
  Do (closure catalogpb.ListCollectionPhysicalChannels in_ opts) ctx (namespace rc) None.

Definition GetCollectionVirtualChannels (rc : routingClient) (ctx : Context_) (in_ : Request catalogpb.GetCollectionVirtualChannels)
    (opts : list CallOption) : prog routerE (option (Response catalogpb.GetCollectionVirtualChannels) * option error) :=
  Do (closure catalogpb.GetCollectionVirtualChannels in_ opts) ctx (namespace rc) None.

Definition GetPChannelInfo (rc : routingClient) (ctx : Context_) (in_ : Request catalogpb.GetPChannelInfo)
    (opts : list CallOption) : prog routerE (option (Response catalogpb.GetPChannelInfo) * option error) :=
  Do (closure catalogpb.GetPChannelInfo in_ opts) ctx (namespace rc) None.

Definition CheckIfCollectionRenamable (rc : routingClient) (ctx : Context_) (in_ : Request catalogpb.CheckIfCollectionRenamable)
    (opts : list CallOption) : prog routerE (option (Response catalogpb.CheckIfCollectionRenamable) * option error) :=
  Do (closure catalogpb.CheckIfCollectionRenamable in_ opts) ctx (namespace rc) None.

Definition BeginTruncateCollection (rc : routingClient) (ctx : Context_) (in_ : Request catalogpb.BeginTruncateCollection)
    (opts : list CallOption) : prog routerE (option (Response catalogpb.BeginTruncateCollection) * option error) :=
  Do (closure catalogpb.BeginTruncateCollection in_ opts) ctx (namespace rc) None.

Definition GetGeneralCount (rc : routingClient) (ctx : Context_) (in_ : Request catalogpb.GetGeneralCount)
    (opts : list CallOption) : prog routerE (option (Response catalogpb.GetGeneralCount) * option error) :=
  Do (closure catalogpb.GetGeneralCount in_ opts) ctx (namespace rc) None.

Definition AlterCollection (rc : routingClient) (ctx : Context_) (in_ : Request catalogpb.AlterCollection)
    (opts : list CallOption) : prog routerE (option (Response catalogpb.AlterCollection) * option error) :=
  Do (closure catalogpb.AlterCollection in_ opts) ctx (namespace rc) None.

Definition TruncateCollection (rc : routingClient) (ctx : Context_) (in_ : Request catalogpb.TruncateCollection)
    (opts : list CallOption) : prog routerE (option (Response catalogpb.TruncateCollection) * option error) :=
  Do (closure catalogpb.TruncateCollection in_ opts) ctx (namespace rc) None.

Definition AddPartition (rc : routingClient) (ctx : Context_) (in_ : Request catalogpb.AddPartition)
    (opts : list CallOption) : prog routerE (option (Response catalogpb.AddPartition) * option error) :=
  Do (closure catalogpb.AddPartition in_ opts) ctx (namespace rc) None.

Definition GetPartitionIDByName (rc : routingClient) (ctx : Context_) (in_ : Request catalogpb.GetPartitionIDByName)
    (opts : list CallOption) : prog routerE (option (Response catalogpb.GetPartitionIDByName) * option error) :=
  Do (closure catalogpb.GetPartitionIDByName in_ opts) ctx (namespace rc) None.

Definition DropPartition (rc : routingClient) (ctx : Context_) (in_ : Request catalogpb.DropPartition)
    (opts : list CallOption) : prog routerE (option (Response catalogpb.DropPartition) * option error) :=
  Do (closure catalogpb.DropPartition in_ opts) ctx (namespace rc) None.

Definition RemovePartition (rc : routingClient) (ctx : Context_) (in_ : Request catalogpb.RemovePartition)
    (opts : list CallOption) : prog routerE (option (Response catalogpb.RemovePartition) * option error) :=
  Do (closure catalogpb.RemovePartition in_ opts) ctx (namespace rc) None.

Definition AlterAlias (rc : routingClient) (ctx : Context_) (in_ : Request catalogpb.AlterAlias)
    (opts : list CallOption) : prog routerE (option (Response catalogpb.AlterAlias) * option error) :=
  Do (closure catalogpb.AlterAlias in_ opts) ctx (namespace rc) None.

Definition DropAlias (rc : routingClient) (ctx : Context_) (in_ : Request catalogpb.DropAlias)
    (opts : list CallOption) : prog routerE (option (Response catalogpb.DropAlias) * option error) :=
  Do (closure catalogpb.DropAlias in_ opts) ctx (namespace rc) None.

Definition DescribeAlias (rc : routingClient) (ctx : Context_) (in_ : Request catalogpb.DescribeAlias)
    (opts : list CallOption) : prog routerE (option (Response catalogpb.DescribeAlias) * option error) :=
  Do (closure catalogpb.DescribeAlias in_ opts) ctx (namespace rc) None.

Definition ListAliases (rc : routingClient) (ctx : Context_) (in_ : Request catalogpb.ListAliases)
    (opts : list CallOption) : prog routerE (option (Response catalogpb.ListAliases) * option error) :=
  Do (closure catalogpb.ListAliases in_ opts) ctx (namespace rc) None.

Definition IsAlias (rc : routingClient) (ctx : Context_) (in_ : Request catalogpb.IsAlias)
    (opts : list CallOption) : prog routerE (option (Response catalogpb.IsAlias) * option error) :=
  Do (closure catalogpb.IsAlias in_ opts) ctx (namespace rc) None.

Definition ListAliasesByID (rc : routingClient) (ctx : Context_) (in_ : Request catalogpb.ListAliasesByID)
    (opts : list CallOption) : prog routerE (option (Response catalogpb.ListAliasesByID) * option error) :=
  Do (closure catalogpb.ListAliasesByID in_ opts) ctx (namespace rc) None.

Definition CheckIfAliasCreatable (rc : routingClient) (ctx : Context_) (in_ : Request catalogpb.CheckIfAliasCreatable)
    (opts : list CallOption) : prog routerE (option (Response catalogpb.CheckIfAliasCreatable) * option error) :=
  Do (closure catalogpb.CheckIfAliasCreatable in_ opts) ctx (namespace rc) None.

Definition CheckIfAliasAlterable (rc : routingClient) (ctx : Context_) (in_ : Request catalogpb.CheckIfAliasAlterable)
    (opts : list CallOption) : prog routerE (option (Response catalogpb.CheckIfAliasAlterable) * option error) :=
  Do (closure catalogpb.CheckIfAliasAlterable in_ opts) ctx (namespace rc) None.

Definition CheckIfAliasDroppable (rc : routingClient) (ctx : Context_) (in_ : Request catalogpb.CheckIfAliasDroppable)
    (opts : list CallOption) : prog routerE (option (Response catalogpb.CheckIfAliasDroppable) * option error) :=
  Do (closure catalogpb.CheckIfAliasDroppable in_ opts) ctx (namespace rc) None.

Definition InitCredential (rc : routingClient) (ctx : Context_) (in_ : Request catalogpb.InitCredential)
    (opts : list CallOption) : prog routerE (option (Response catalogpb.InitCredential) * option error) :=
  Do (closure catalogpb.InitCredential in_ opts) ctx (namespace rc) None.

Definition AlterCredential (rc : routingClient) (ctx : Context_) (in_ : Request catalogpb.AlterCredential)
    (opts : list CallOption) : prog routerE (option (Response catalogpb.AlterCredential) * option error) :=
  Do (closure catalogpb.AlterCredential in_ opts) ctx (namespace rc) None.

Definition DeleteCredential (rc : routingClient) (ctx : Context_) (in_ : Request catalogpb.DeleteCredential)
    (opts : list CallOption) : prog routerE (option (Response catalogpb.DeleteCredential) * option error) :=
  Do (closure catalogpb.DeleteCredential in_ opts) ctx (namespace rc) None.

Definition GetCredential (rc : routingClient) (ctx : Context_) (in_ : Request catalogpb.GetCredential)
    (opts : list CallOption) : prog routerE (option (Response catalogpb.GetCredential) * option error) :=
  Do (closure catalogpb.GetCredential in_ opts) ctx (namespace rc) None.

Definition ListCredentialUsernames (rc : routingClient) (ctx : Context_) (in_ : Request catalogpb.ListCredentialUsernames)
    (opts : list CallOption) : prog routerE (option (Response catalogpb.ListCredentialUsernames) * option error) :=
  Do (closure catalogpb.ListCredentialUsernames in_ opts) ctx (namespace rc) None.

Definition CheckIfAddCredential (rc : routingClient) (ctx : Context_) (in_ : Request catalogpb.CheckIfAddCredential)
    (opts : list CallOption) : prog routerE (option (Response catalogpb.CheckIfAddCredential) * option error) :=
  Do (closure catalogpb.CheckIfAddCredential in_ opts) ctx (namespace rc) None.

Definition CheckIfUpdateCredential (rc : routingClient) (ctx : Context_) (in_ : Request catalogpb.CheckIfUpdateCredential)
    (opts : list CallOption) : prog routerE (option (Response catalogpb.CheckIfUpdateCredential) * option error) :=
  Do (closure catalogpb.CheckIfUpdateCredential in_ opts) ctx (namespace rc) None.

Definition CheckIfDeleteCredential (rc : routingClient) (ctx : Context_) (in_ : Request catalogpb.CheckIfDeleteCredential)
    (opts : list CallOption) : prog routerE (option (Response catalogpb.CheckIfDeleteCredential) * option error) :=
  Do (closure catalogpb.CheckIfDeleteCredential in_ opts) ctx (namespace rc) None.

Definition CreateRole (rc : routingClient) (ctx : Context_) (in_ : Request catalogpb.CreateRole)
    (opts : list CallOption) : prog routerE (option (Response catalogpb.CreateRole) * option error) :=
  Do (closure catalogpb.CreateRole in_ opts) ctx (namespace rc) None.

Definition AlterRole (rc : routingClient) (ctx : Context_) (in_ : Request catalogpb.AlterRole)
    (opts : list CallOption) : prog routerE (option (Response catalogpb.AlterRole) * option error) :=
  Do (closure catalogpb.AlterRole in_ opts) ctx (namespace rc) None.

Definition DropRole (rc : routingClient) (ctx : Context_) (in_ : Request catalogpb.DropRole)
    (opts : list CallOption) : prog routerE (option (Response catalogpb.DropRole) * option error) :=
  Do (closure catalogpb.DropRole in_ opts) ctx (namespace rc) None.

Definition OperateUserRole (rc : routingClient) (ctx : Context_) (in_ : Request catalogpb.OperateUserRole)
    (opts : list CallOption) : prog routerE (option (Response catalogpb.OperateUserRole) * option error) :=
  Do (closure catalogpb.OperateUserRole in_ opts) ctx (namespace rc) None.

Definition SelectRole (rc : routingClient) (ctx : Context_) (in_ : Request catalogpb.SelectRole)
    (opts : list CallOption) : prog routerE (option (Response catalogpb.SelectRole) * option error) :=
  Do (closure catalogpb.SelectRole in_ opts) ctx (namespace rc) None.

Definition SelectUser (rc : routingClient) (ctx : Context_) (in_ : Request catalogpb.SelectUser)
    (opts : list CallOption) : prog routerE (option (Response catalogpb.SelectUser) * option error) :=
  Do (closure catalogpb.SelectUser in_ opts) ctx (namespace rc) None.

Definition ListUserRole (rc : routingClient) (ctx : Context_) (in_ : Request catalogpb.ListUserRole)
    (opts : list CallOption) : prog routerE (option (Response catalogpb.ListUserRole) * option error) :=
  Do (closure catalogpb.ListUserRole in_ opts) ctx (namespace rc) None.

Definition CheckIfCreateRole (rc : routingClient) (ctx : Context_) (in_ : Request catalogpb.CheckIfCreateRole)
    (opts : list CallOption) : prog routerE (option (Response catalogpb.CheckIfCreateRole) * option error) :=
  Do (closure catalogpb.CheckIfCreateRole in_ opts) ctx (namespace rc) None.

Definition CheckIfAlterRole (rc : routingClient) (ctx : Context_) (in_ : Request catalogpb.CheckIfAlterRole)
    (opts : list CallOption) : prog routerE (option (Response catalogpb.CheckIfAlterRole) * option error) :=
  Do (closure catalogpb.CheckIfAlterRole in_ opts) ctx (namespace rc) None.

Definition CheckIfDropRole (rc : routingClient) (ctx : Context_) (in_ : Request catalogpb.CheckIfDropRole)
    (opts : list CallOption) : prog routerE (option (Response catalogpb.CheckIfDropRole) * option error) :=
  Do (closure catalogpb.CheckIfDropRole in_ opts) ctx (namespace rc) None.

Definition CheckIfOperateUserRole (rc : routingClient) (ctx : Context_) (in_ : Request catalogpb.CheckIfOperateUserRole)
    (opts : list CallOption) : prog routerE (option (Response catalogpb.CheckIfOperateUserRole) * option error) :=
  Do (closure catalogpb.CheckIfOperateUserRole in_ opts) ctx (namespace rc) None.

Definition OperatePrivilege (rc : routingClient) (ctx : Context_) (in_ : Request catalogpb.OperatePrivilege)
    (opts : list CallOption) : prog routerE (option (Response catalogpb.OperatePrivilege) * option error) :=
  Do (closure catalogpb.OperatePrivilege in_ opts) ctx (namespace rc) None.

Definition DropGrant (rc : routingClient) (ctx : Context_) (in_ : Request catalogpb.DropGrant)
    (opts : list CallOption) : prog routerE (option (Response catalogpb.DropGrant) * option error) :=
  Do (closure catalogpb.DropGrant in_ opts) ctx (namespace rc) None.

Definition RestoreRBAC (rc : routingClient) (ctx : Context_) (in_ : Request catalogpb.RestoreRBAC)
    (opts : list CallOption) : prog routerE (option (Response catalogpb.RestoreRBAC) * option error) :=
  Do (closure catalogpb.RestoreRBAC in_ opts) ctx (namespace rc) None.

Definition SelectGrant (rc : routingClient) (ctx : Context_) (in_ : Request catalogpb.SelectGrant)
    (opts : list CallOption) : prog routerE (option (Response catalogpb.SelectGrant) * option error) :=
  Do (closure catalogpb.SelectGrant in_ opts) ctx (namespace rc) None.

Definition ListPolicy (rc : routingClient) (ctx : Context_) (in_ : Request catalogpb.ListPolicy)
    (opts : list CallOption) : prog routerE (option (Response catalogpb.ListPolicy) * option error) :=
  Do (closure catalogpb.ListPolicy in_ opts) ctx (namespace rc) None.

Definition BackupRBAC (rc : routingClient) (ctx : Context_) (in_ : Request catalogpb.BackupRBAC)
    (opts : list CallOption) : prog routerE (option (Response catalogpb.BackupRBAC) * option error) :=
  Do (closure catalogpb.BackupRBAC in_ opts) ctx (namespace rc) None.

Definition CheckIfRBACRestorable (rc : routingClient) (ctx : Context_) (in_ : Request catalogpb.CheckIfRBACRestorable)
    (opts : list CallOption) : prog routerE (option (Response catalogpb.CheckIfRBACRestorable) * option error) :=
  Do (closure catalogpb.CheckIfRBACRestorable in_ opts) ctx (namespace rc) None.

Definition CreatePrivilegeGroup (rc : routingClient) (ctx : Context_) (in_ : Request catalogpb.CreatePrivilegeGroup)
    (opts : list CallOption) : prog routerE (option (Response catalogpb.CreatePrivilegeGroup) * option error) :=
  Do (closure catalogpb.CreatePrivilegeGroup in_ opts) ctx (namespace rc) None.

Definition DropPrivilegeGroup (rc : routingClient) (ctx : Context_) (in_ : Request catalogpb.DropPrivilegeGroup)
    (opts : list CallOption) : prog routerE (option (Response catalogpb.DropPrivilegeGroup) * option error) :=
  Do (closure catalogpb.DropPrivilegeGroup in_ opts) ctx (namespace rc) None.

Definition OperatePrivilegeGroup (rc : routingClient) (ctx : Context_) (in_ : Request catalogpb.OperatePrivilegeGroup)
    (opts : list CallOption) : prog routerE (option (Response catalogpb.OperatePrivilegeGroup) * option error) :=
  Do (closure catalogpb.OperatePrivilegeGroup in_ opts) ctx (namespace rc) None.

Definition IsCustomPrivilegeGroup (rc : routingClient) (ctx : Context_) (in_ : Request catalogpb.IsCustomPrivilegeGroup)
    (opts : list CallOption) : prog routerE (option (Response catalogpb.IsCustomPrivilegeGroup) * option error) :=
  Do (closure catalogpb.IsCustomPrivilegeGroup in_ opts) ctx (namespace rc) None.

Definition ListPrivilegeGroups (rc : routingClient) (ctx : Context_) (in_ : Request catalogpb.ListPrivilegeGroups)
    (opts : list CallOption) : prog routerE (option (Response catalogpb.ListPrivilegeGroups) * option error) :=
  Do (closure catalogpb.ListPrivilegeGroups in_ opts) ctx (namespace rc) None.

Definition GetPrivilegeGroupRoles (rc : routingClient) (ctx : Context_) (in_ : Request catalogpb.GetPrivilegeGroupRoles)
    (opts : list CallOption) : prog routerE (option (Response catalogpb.GetPrivilegeGroupRoles) * option error) :=
  Do (closure catalogpb.GetPrivilegeGroupRoles in_ opts) ctx (namespace rc) None.

Definition CheckIfPrivilegeGroupCreatable (rc : routingClient) (ctx : Context_) (in_ : Request catalogpb.CheckIfPrivilegeGroupCreatable)
    (opts : list CallOption) : prog routerE (option (Response catalogpb.CheckIfPrivilegeGroupCreatable) * option error) :=
  Do (closure catalogpb.CheckIfPrivilegeGroupCreatable in_ opts) ctx (namespace rc) None.

Definition CheckIfPrivilegeGroupAlterable (rc : routingClient) (ctx : Context_) (in_ : Request catalogpb.CheckIfPrivilegeGroupAlterable)
    (opts : list CallOption) : prog routerE (option (Response catalogpb.CheckIfPrivilegeGroupAlterable) * option error) :=
  Do (closure catalogpb.CheckIfPrivilegeGroupAlterable in_ opts) ctx (namespace rc) None.

Definition CheckIfPrivilegeGroupDropable (rc : routingClient) (ctx : Context_) (in_ : Request catalogpb.CheckIfPrivilegeGroupDropable)
    (opts : list CallOption) : prog routerE (option (Response catalogpb.CheckIfPrivilegeGroupDropable) * option error) :=
  Do (closure catalogpb.CheckIfPrivilegeGroupDropable in_ opts) ctx (namespace rc) None.

Definition CheckIfDatabaseCreatable (rc : routingClient) (ctx : Context_) (in_ : Request catalogpb.CheckIfDatabaseCreatable)
    (opts : list CallOption) : prog routerE (option (Response catalogpb.CheckIfDatabaseCreatable) * option error) :=
  Do (closure catalogpb.CheckIfDatabaseCreatable in_ opts) ctx (namespace rc) None.

Definition CheckIfDatabaseDroppable (rc : routingClient) (ctx : Context_) (in_ : Request catalogpb.CheckIfDatabaseDroppable)
    (opts : list CallOption) : prog routerE (option (Response catalogpb.CheckIfDatabaseDroppable) * option error) :=
  Do (closure catalogpb.CheckIfDatabaseDroppable in_ opts) ctx (namespace rc) None.

Definition AddFileResource (rc : routingClient) (ctx : Context_) (in_ : Request catalogpb.AddFileResource)
    (opts : list CallOption) : prog routerE (option (Response catalogpb.AddFileResource) * option error) :=
  Do (closure catalogpb.AddFileResource in_ opts) ctx (namespace rc) None.

Definition RemoveFileResource (rc : routingClient) (ctx : Context_) (in_ : Request catalogpb.RemoveFileResource)
    (opts : list CallOption) : prog routerE (option (Response catalogpb.RemoveFileResource) * option error) :=
  Do (closure catalogpb.RemoveFileResource in_ opts) ctx (namespace rc) None.

Definition ListFileResource (rc : routingClient) (ctx : Context_) (in_ : Request catalogpb.ListFileResource)
    (opts : list CallOption) : prog routerE (option (Response catalogpb.ListFileResource) * option error) :=
  Do (closure catalogpb.ListFileResource in_ opts) ctx (namespace rc) None.

Definition IncFileResourceRefCnt (rc : routingClient) (ctx : Context_) (in_ : Request catalogpb.IncFileResourceRefCnt)
    (opts : list CallOption) : prog routerE (option (Response catalogpb.IncFileResourceRefCnt) * option error) :=
  DoNonIdempotent (closure catalogpb.IncFileResourceRefCnt in_ opts) ctx (namespace rc) None.

Definition DecFileResourceRefCnt (rc : routingClient) (ctx : Context_) (in_ : Request catalogpb.DecFileResourceRefCnt)
    (opts : list CallOption) : prog routerE (option (Response catalogpb.DecFileResourceRefCnt) * option error) :=
  DoNonIdempotent (closure catalogpb.DecFileResourceRefCnt in_ opts) ctx (namespace rc) None.

Definition RecoverFileResourceRefCnt (rc : routingClient) (ctx : Context_) (in_ : Request catalogpb.RecoverFileResourceRefCnt)
    (opts : list CallOption) : prog routerE (option (Response catalogpb.RecoverFileResourceRefCnt) * option error) :=
  Do (closure catalogpb.RecoverFileResourceRefCnt in_ opts) ctx (namespace rc) None.

Definition BulkImport (rc : routingClient) (ctx : Context_) (in_ : Request catalogpb.BulkImport)
    (opts : list CallOption) : prog routerE (option (Response catalogpb.BulkImport) * option error) :=
  Do (closure catalogpb.BulkImport in_ opts) ctx (namespace rc) None.

Definition VerifyImport (rc : routingClient) (ctx : Context_) (in_ : Request catalogpb.VerifyImport)
    (opts : list CallOption) : prog routerE (option (Response catalogpb.VerifyImport) * option error) :=
  Do (closure catalogpb.VerifyImport in_ opts) ctx (namespace rc) None.

Definition GetRouteMap (rc : routingClient) (ctx : Context_) (in_ : Request catalogpb.GetRouteMap)
    (opts : list CallOption) : prog routerE (option (Response catalogpb.GetRouteMap) * option error) :=
  Do (closure catalogpb.GetRouteMap in_ opts) ctx (namespace rc) None.

Definition DeleteNamespace (rc : routingClient) (ctx : Context_) (in_ : Request catalogpb.DeleteNamespace)
    (opts : list CallOption) : prog routerE (option (Response catalogpb.DeleteNamespace) * option error) :=
  Do (closure catalogpb.DeleteNamespace in_ opts) ctx (namespace rc) None.

(** The interface value: the method table of [routingClient]. *)
Definition invoke (rc : routingClient) (m : Method) :
    Context_ -> Request m -> list CallOption -> prog routerE (option (Response m) * option error) :=
  match m with
  | catalogpb.CreateDatabase => CreateDatabase rc
  | catalogpb.DropDatabase => DropDatabase rc
  | catalogpb.AlterDatabase => AlterDatabase rc
  | catalogpb.ListDatabases => ListDatabases rc
  | catalogpb.GetDatabaseByName => GetDatabaseByName rc
  | catalogpb.GetDatabaseByID => GetDatabaseByID rc
  | catalogpb.AddCollection => AddCollection rc
  | catalogpb.DropCollection => DropCollection rc
  | catalogpb.RemoveCollection => RemoveCollection rc
  | catalogpb.GetCollectionID => GetCollectionID rc
  | catalogpb.GetCollectionByName => GetCollectionByName rc
  | catalogpb.GetCollectionByID => GetCollectionByID rc
  | catalogpb.GetCollectionByIDWithMaxTs => GetCollectionByIDWithMaxTs rc
  | catalogpb.ListCollections => ListCollections rc
  | catalogpb.ListAllAvailCollections => ListAllAvailCollections rc
  | catalogpb.ListAllAvailPartitions => ListAllAvailPartitions rc
  | catalogpb.ListCollectionPhysicalChannels => ListCollectionPhysicalChannels rc
  | catalogpb.GetCollectionVirtualChannels => GetCollectionVirtualChannels rc
  | catalogpb.GetPChannelInfo => GetPChannelInfo rc
  | catalogpb.CheckIfCollectionRenamable => CheckIfCollectionRenamable rc
  | catalogpb.BeginTruncateCollection => BeginTruncateCollection rc
  | catalogpb.GetGeneralCount => GetGeneralCount rc
  | catalogpb.AlterCollection => AlterCollection rc
  | catalogpb.TruncateCollection => TruncateCollection rc
  | catalogpb.AddPartition => AddPartition rc
  | catalogpb.GetPartitionIDByName => GetPartitionIDByName rc
  | catalogpb.DropPartition => DropPartition rc
  | catalogpb.RemovePartition => RemovePartition rc
  | catalogpb.AlterAlias => AlterAlias rc
  | catalogpb.DropAlias => DropAlias rc
  | catalogpb.DescribeAlias => DescribeAlias rc
  | catalogpb.ListAliases => ListAliases rc
  | catalogpb.IsAlias => IsAlias rc
  | catalogpb.ListAliasesByID => ListAliasesByID rc
  | catalogpb.CheckIfAliasCreatable => CheckIfAliasCreatable rc
  | catalogpb.CheckIfAliasAlterable => CheckIfAliasAlterable rc
  | catalogpb.CheckIfAliasDroppable => CheckIfAliasDroppable rc
  | catalogpb.InitCredential => InitCredential rc
  | catalogpb.AlterCredential => AlterCredential rc
  | catalogpb.DeleteCredential => DeleteCredential rc
  | catalogpb.GetCredential => GetCredential rc
  | catalogpb.ListCredentialUsernames => ListCredentialUsernames rc
  | catalogpb.CheckIfAddCredential => CheckIfAddCredential rc
  | catalogpb.CheckIfUpdateCredential => CheckIfUpdateCredential rc
  | catalogpb.CheckIfDeleteCredential => CheckIfDeleteCredential rc
  | catalogpb.CreateRole => CreateRole rc
  | catalogpb.AlterRole => AlterRole rc
  | catalogpb.DropRole => DropRole rc
  | catalogpb.OperateUserRole => OperateUserRole rc
  | catalogpb.SelectRole => SelectRole rc
  | catalogpb.SelectUser => SelectUser rc
  | catalogpb.ListUserRole => ListUserRole rc
  | catalogpb.CheckIfCreateRole => CheckIfCreateRole rc
  | catalogpb.CheckIfAlterRole => CheckIfAlterRole rc
  | catalogpb.CheckIfDropRole => CheckIfDropRole rc
  | catalogpb.CheckIfOperateUserRole => CheckIfOperateUserRole rc
  | catalogpb.OperatePrivilege => OperatePrivilege rc
  | catalogpb.DropGrant => DropGrant rc
  | catalogpb.RestoreRBAC => RestoreRBAC rc
  | catalogpb.SelectGrant => SelectGrant rc
  | catalogpb.ListPolicy => ListPolicy rc
  | catalogpb.BackupRBAC => BackupRBAC rc
  | catalogpb.CheckIfRBACRestorable => CheckIfRBACRestorable rc
  | catalogpb.CreatePrivilegeGroup => CreatePrivilegeGroup rc
  | catalogpb.DropPrivilegeGroup => DropPrivilegeGroup rc
  | catalogpb.OperatePrivilegeGroup => OperatePrivilegeGroup rc
  | catalogpb.IsCustomPrivilegeGroup => IsCustomPrivilegeGroup rc
  | catalogpb.ListPrivilegeGroups => ListPrivilegeGroups rc
  | catalogpb.GetPrivilegeGroupRoles => GetPrivilegeGroupRoles rc
  | catalogpb.CheckIfPrivilegeGroupCreatable => CheckIfPrivilegeGroupCreatable rc
  | catalogpb.CheckIfPrivilegeGroupAlterable => CheckIfPrivilegeGroupAlterable rc
  | catalogpb.CheckIfPrivilegeGroupDropable => CheckIfPrivilegeGroupDropable rc
  | catalogpb.CheckIfDatabaseCreatable => CheckIfDatabaseCreatable rc
  | catalogpb.CheckIfDatabaseDroppable => CheckIfDatabaseDroppable rc
  | catalogpb.AddFileResource => AddFileResource rc
  | catalogpb.RemoveFileResource => RemoveFileResource rc
  | catalogpb.ListFileResource => ListFileResource rc
  | catalogpb.IncFileResourceRefCnt => IncFileResourceRefCnt rc
  | catalogpb.DecFileResourceRefCnt => DecFileResourceRefCnt rc
  | catalogpb.RecoverFileResourceRefCnt => RecoverFileResourceRefCnt rc
  | catalogpb.BulkImport => BulkImport rc
  | catalogpb.VerifyImport => VerifyImport rc
  | catalogpb.GetRouteMap => GetRouteMap rc
  | catalogpb.DeleteNamespace => DeleteNamespace rc
  end.

(** ** Lemmas *)

(** The calls whose re-sending would apply a delta twice. *)
Definition non_idempotent (m : Method) : bool :=
  match m with
  | catalogpb.IncFileResourceRefCnt | catalogpb.DecFileResourceRefCnt => true
  | _ => false
  end.

Lemma non_idempotent_spec (m : Method) :
  non_idempotent m = true <->
  m = catalogpb.IncFileResourceRefCnt \/ m = catalogpb.DecFileResourceRefCnt.
Proof.
  split; [|by intros [-> | ->]].
  destruct m; cbn; first [discriminate|intros _; by left|intros _; by right].
Qed.

(** A method is its own RPC, sent through the router under the client's
    namespace, without blind re-sending where that would count twice. *)
Definition routed (rc : routingClient) (m : Method) (ctx : Context_) (in_ : Request m)
    (opts : list CallOption) : prog routerE (option (Response m) * option error) :=
  if non_idempotent m then DoNonIdempotent (closure m in_ opts) ctx (namespace rc) None
  else Do (closure m in_ opts) ctx (namespace rc) None.

Lemma invoke_routed (rc : routingClient) (m : Method) ctx in_ opts :
  invoke rc m ctx in_ opts = routed rc m ctx in_ opts.
Proof. by destruct m. Qed.

(** The remote calls a routed method may make: the discovery call of the router,
    or the method itself with the caller's request and options, stamped. *)
Definition own_calls (rc : routingClient) (m : Method) (ctx : Context_) (in_ : Request m)
    (opts : list CallOption) (X : Type) (e : routerE X) : Prop :=
  match e with
  | Rpc m' ctx' c in' opts' =>
    (m' = catalogpb.GetRouteMap /\ ctx' = ctx /\ opts' = []) \/
    (existT m' in' = existT m in_ /\ opts' = opts /\
     exists term, ctx' = WithTerm ctx (namespace rc) term)
  | _ => True
  end.

(** ** Properties *)

(** C14: The method table.  Each of the 84 methods sends its own RPC with the
    caller's request through the router under the client's namespace; exactly the
    two reference-count deltas use the variant that never re-sends after an
    ambiguous failure.  No other remote call is made but route-map discovery. *)
Theorem every_method_routed (rc : routingClient) (m : Method) (ctx : Context_) (in_ : Request m)
    (opts : list CallOption) :
  invoke rc m ctx in_ opts
  = (if decide (m = catalogpb.IncFileResourceRefCnt \/ m = catalogpb.DecFileResourceRefCnt)
     then DoNonIdempotent (closure m in_ opts) ctx (namespace rc) None
     else Do (closure m in_ opts) ctx (namespace rc) None) /\
  always (own_calls rc m ctx in_ opts) (invoke rc m ctx in_ opts).
Proof.
  split.
  - rewrite invoke_routed. unfold routed. case_decide as Hm.
    + by rewrite (proj2 (non_idempotent_spec m) Hm).
    + destruct (non_idempotent m) eqn:E; [|done]. by apply non_idempotent_spec in E.
  - rewrite invoke_routed. unfold routed, Do, DoNonIdempotent.
    assert (Hr : always (own_calls rc m ctx in_ opts) (Refresh ctx)).
    { apply always_Refresh; [done|done|done|]. intros c. by left. }
    assert (Hc : forall l term c, always (own_calls rc m ctx in_ opts)
      (closure m in_ opts l (WithTerm ctx (namespace rc) term) c)).
    { intros l term c. split; [|by intros [out e]]. right. eauto. }
    destruct (non_idempotent m); by apply always_do.
Qed.

(** C15: A nil error is a success.  Whatever happened on the way, a method that
    returns a nil error returns the response of an attempt whose transport
    succeeded and whose status carries no error: a not-owner or fencing status is
    never mistaken for success. *)
Theorem nil_error_means_success (rc : routingClient) (m : Method) (ctx : Context_) (in_ : Request m)
    (opts : list CallOption) :
  returns (fun res => res.2 = None -> merr_Error (GetStatus m res.1) = None)
    (invoke rc m ctx in_ opts).
Proof.
  rewrite invoke_routed. unfold routed, Do, DoNonIdempotent.
  destruct (non_idempotent m); apply (do_success (fun out => merr_Error (GetStatus m out) = None));
    intros l term c [out [e|]]; cbn; done.
Qed.

End routing_client.
