(* ===== verification/Discovery.v ===== *)
(** * Discovery, failover and the connection pool

    The router of [Router] run against remote nodes: what a refresh installs, that
    the pool neither leaks nor keeps dead connections, and that a call finds its
    owner when the nodes agree on one. *)

From S2P Require Import Prelude GoStd Placement Prog Nsmeta Catalogpb Router RoutingClient.
Import catalogpb(Method).

(** ** Answers of gRPC and the runtime *)

Section pool.
Context {H : XXHash} {G : GrpcMetadata} {PB : CatalogPB} {M : Merr PB} {R : Grpc}.

(** A new connection is for the address asked for and is none of those still
    open; ranging over a map visits each entry once. *)
Record oracle_ok (w : World) (o : Oracle) : Prop := {
  ok_dial addr cr c : newClient o addr cr = Ok c -> conn_addr c = addr /\ c ∉ open_conns w;
  ok_owner m : rangeOwner o m ≡ₚ map_to_list m;
  ok_conns m : rangeConns o m ≡ₚ map_to_list m;
}.

(** Pooled connections are open and under their address, and every open
    connection is pooled. *)
Definition pool_ok (w : World) : Prop :=
  forall a c, conns (router w) !! a = Some c <-> conn_addr c = a /\ c ∈ open_conns w.

Definition keeps (I : World -> Prop) (X : Type) (e : routerE X) : Prop :=
  match e with
  | Locked f => forall o w, oracle_ok w o -> I w -> I (f o w).2
  | _ => True
  end.

(** ** Eviction *)

Definition live_addr (w : World) (owner : gmap Z string) (a : string) : Prop :=
  (exists s, owner !! s = Some a) \/ a ∈ bootstrap (router w).

Lemma live_set_elem (o : Oracle) (w : World) (owner : gmap Z string) (a : string) :
  oracle_ok w o ->
  a ∈ foldl (fun (acc : gset string) a => {[a]} ∪ acc)
        (foldl (fun (acc : gset string) '(_, a) => {[a]} ∪ acc) ∅ (rangeOwner o owner))
        (bootstrap (router w))
  <-> live_addr w owner a.
Proof.
  intros Ho.
  assert (H1 : forall l (acc : gset string), a ∈ foldl (fun acc a => {[a]} ∪ acc) acc l <-> a ∈ acc \/ a ∈ l).
  { induction l as [|b l IH]; intros acc; cbn; [set_solver|]. rewrite IH. set_solver. }
  assert (H2 : forall (l : list (Z * string)) (acc : gset string),
    a ∈ foldl (fun acc '(_, a) => {[a]} ∪ acc) acc l <-> a ∈ acc \/ exists s, (s, a) ∈ l).
  { induction l as [|[s b] l IH]; intros acc; cbn; [set_solver|]. rewrite IH. set_solver. }
  rewrite H1, H2. unfold live_addr. split.
  - intros [[?|[s Hs]]|?]; [set_solver| |by right]. left. exists s.
    rewrite (ok_owner w o Ho) in Hs. by apply elem_of_map_to_list in Hs.
  - intros [[s Hs]|?]; [|by right]. left. right. exists s.
    rewrite (ok_owner w o Ho). by apply elem_of_map_to_list.
Qed.

(** The loop removes the dead entries it visits, and closes exactly those. *)
Lemma evict_fold (live : gset string) (l : list (string * Conn)) (w : World) :
  let w' := foldl (evictStep live) w l in
  (forall a, conns (router w') !! a
     = if bool_decide (a ∈ l.*1 /\ a ∉ live) then None else conns (router w) !! a) /\
  (forall c, c ∈ open_conns w' <-> c ∈ open_conns w /\ forall a, (a, c) ∈ l -> a ∈ live).
Proof.
  revert w. induction l as [|[a0 c0] l IH]; intros w; cbn [foldl].
  { split; [intros a|intros c; set_solver]. rewrite bool_decide_eq_false_2; [done|set_solver]. }
  destruct (IH (evictStep live w (a0, c0))) as [IH1 IH2].
  destruct (decide (a0 ∈ live)) as [Hl0|Hl0].
  - assert (evictStep live w (a0, c0) = w) as E by (cbn; by rewrite bool_decide_eq_true_2).
    rewrite E in *. split; [|set_solver]. intros a. rewrite IH1. apply if_ext_iff. set_solver.
  - assert (evictStep live w (a0, c0) = setConns (delete a0 (conns (router w))) (closeConn c0 w))
      as E by (cbn; by rewrite bool_decide_eq_false_2).
    rewrite E in *. cbn in IH1, IH2. split.
    + intros a. rewrite IH1. cbn [fmap list_fmap fst]. destruct (decide (a = a0)) as [->|Hne].
      * rewrite lookup_delete_eq, (bool_decide_eq_true_2 (a0 ∈ a0 :: _ /\ _)) by set_solver.
        by case_bool_decide.
      * rewrite lookup_delete_ne by done. apply if_ext_iff. set_solver.
    + intros c. rewrite IH2, elem_of_difference, elem_of_singleton. split.
      * intros [[Hc Hne] Hall]. split; [done|]. intros a [[= -> ->]|Hin]%elem_of_cons; [done|]. auto.
      * intros [Hc Hall]. split; [|intros a Hin; apply Hall; by right].
        split; [done|]. intros ->. apply Hl0, Hall. left.
Qed.

Lemma evict_spec (o : Oracle) (w : World) (owner : gmap Z string) (a : string) (c : Conn) :
  oracle_ok w o ->
  conns (router (evictStaleConnsLocked o owner w)) !! a = Some c <->
  conns (router w) !! a = Some c /\ live_addr w owner a.
Proof.
  intros Ho. unfold evictStaleConnsLocked. set (live := foldl _ _ (bootstrap _)).
  destruct (evict_fold live (rangeConns o (conns (router w))) w) as [-> _].
  pose proof (live_set_elem o w owner a Ho) as Hlive. fold live in Hlive.
  rewrite <- Hlive. case_bool_decide as Hd; [by split; [|intros [_ ?]; destruct Hd]|].
  split; [|by intros [? _]]. intros Hc. split; [done|].
  destruct (decide (a ∈ live)) as [?|Hl]; [done|]. destruct Hd. split; [|done].
  apply list_elem_of_fmap. exists (a, c). split; [done|].
  rewrite (ok_conns w o Ho). by apply elem_of_map_to_list.
Qed.

(** Eviction keeps the pool exact. *)
Lemma evict_pool_ok (o : Oracle) (w : World) (owner : gmap Z string) :
  oracle_ok w o -> pool_ok w -> pool_ok (evictStaleConnsLocked o owner w).
Proof.
  intros Ho Hp a c. rewrite evict_spec, (Hp a c) by done.
  unfold evictStaleConnsLocked. set (live := foldl _ _ (bootstrap _)).
  destruct (evict_fold live (rangeConns o (conns (router w))) w) as [_ ->].
  assert (Hin : forall b, (b, c) ∈ rangeConns o (conns (router w)) <-> conn_addr c = b /\ c ∈ open_conns w).
  { intros b. by rewrite (ok_conns w o Ho), elem_of_map_to_list, (Hp b c). }
  setoid_rewrite Hin. setoid_rewrite (fun b => live_set_elem o w owner b Ho : b ∈ live <-> _).
  split; [naive_solver|]. intros (<- & Hc & Hall). eauto.
Qed.

Lemma publish_pool_ok owner term : keeps pool_ok _ (Locked (publish owner term)).
Proof.
  intros o w [Hd How Hco] Hp. apply evict_pool_ok; [by split|]. exact Hp.
Qed.

Lemma conn_pool_ok (addr : string) : always (keeps pool_ok) (conn addr).
Proof.
  split; [|done]. intros o w Ho Hp. destruct (conns (router w) !! addr) as [c|] eqn:Ec; [done|].
  destruct (newClient o addr (creds (router w))) as [c|err] eqn:Ed; [|done].
  apply (ok_dial w o Ho) in Ed as [Ha Hfresh]. intros a c'. cbn.
  rewrite elem_of_union, elem_of_singleton, lookup_insert_Some. split.
  - intros [[<- <-]|[Hne Hc']]; [by auto|]. apply Hp in Hc' as [? ?]. auto.
  - intros [Ha' [->|Hin]]; [by left; subst|]. right. assert (conns (router w) !! a = Some c') as Hc'.
    { by apply Hp. }
    split; [|done]. intros ->. congruence.
Qed.

Lemma close_fold (l : list (string * Conn)) (w : World) :
  let w' := foldl (fun w '(_, c) => closeConn c w) w l in
  router w' = router w /\ forall c, c ∈ open_conns w' <-> c ∈ open_conns w /\ c ∉ l.*2.
Proof.
  revert w. induction l as [|[a c0] l IH]; intros w; cbn [foldl]; [set_solver|].
  destruct (IH (closeConn c0 w)) as [-> IH2]. split; [done|]. intros c. rewrite IH2. cbn. set_solver.
Qed.

(** [Close] closes every connection. *)
Definition empties (X : Type) (e : routerE X) : Prop :=
  match e with
  | Locked f => forall o w, oracle_ok w o -> pool_ok w ->
      open_conns (f o w).2 = ∅ /\ conns (router (f o w).2) = ∅
  | _ => False
  end.

Lemma Close_empties : always empties Close.
Proof.
  split; [|done]. intros o w Ho Hp. split; [|done]. cbn.
  destruct (close_fold (rangeConns o (conns (router w))) w) as [_ Hc].
  apply set_eq. intros c. rewrite Hc. split; [|set_solver]. intros [Hin Hn]. destruct Hn.
  apply list_elem_of_fmap. exists (conn_addr c, c). split; [done|].
  rewrite (ok_conns w o Ho). apply elem_of_map_to_list, Hp. done.
Qed.

Lemma Refresh_pool_ok (ctx : Context_) : always (keeps pool_ok) (Refresh ctx).
Proof.
  apply always_Refresh; [apply conn_pool_ok|intros o w _ Hp; exact Hp|apply publish_pool_ok|done].
Qed.

End pool.

(** ** Running against remote nodes *)

Section remote.
Context {H : XXHash} {G : GrpcMetadata} {PB : CatalogPB} {M : Merr PB} {R : Grpc}.
(* the rest of the world, what it answers, and which oracles occur *)
Variable Srv : Type.
Variable rpc : forall m, Srv -> Context_ -> Conn -> Request m -> list CallOption ->
  option (Response m) * option error -> Srv -> Prop.
Variable ctx_err : Srv -> Context_ -> option error -> Srv -> Prop.
Variable orc : World -> Oracle -> Prop.
Hypothesis orc_ok : forall w o, orc w o -> oracle_ok w o.

Definition router_step (X : Type) (s : World * Srv) (e : routerE X) : X -> World * Srv -> Prop :=
  match e in routerE X return X -> World * Srv -> Prop with
  | CtxErr ctx => fun x s' => ctx_err s.2 ctx x s'.2 /\ s'.1 = s.1
  | Locked f => fun x s' => (exists o, orc s.1 o /\ f o s.1 = (x, s'.1)) /\ s'.2 = s.2
  | Rpc m ctx c in_ opts => fun x s' => rpc m s.2 ctx c in_ opts x s'.2 /\ s'.1 = s.1
  end.

Lemma rebuild_id {V} (m : gmap Z V) : rebuild m = m.
Proof.
  unfold rebuild.
  assert (Hgen : forall (l : list (Z * V)) (acc : gmap Z V), NoDup l.*1 ->
    foldl (fun acc '(k, v) => <[k := v]> acc) acc l = list_to_map l ∪ acc).
  { induction l as [|[k v] l IH]; intros acc; cbn; [by rewrite (left_id_L ∅ (∪))|].
    intros [Hk Hnd]%NoDup_cons. rewrite IH by done.
    rewrite <- insert_union_r by (by apply not_elem_of_list_to_map_1).
    by rewrite insert_union_l. }
  rewrite Hgen by apply NoDup_fst_map_to_list. by rewrite list_to_map_to_list, (right_id_L ∅ (∪)).
Qed.

(** Executions of the critical sections. *)
Lemma exec_conn (s s' : World * Srv) (addr : string) r :
  pool_ok s.1 -> exec router_step eq s (conn addr) r s' ->
  s'.2 = s.2 /\ pool_ok s'.1 /\
  shardOwner (router s'.1) = shardOwner (router s.1) /\ shardTerm (router s'.1) = shardTerm (router s.1) /\
  bootstrap (router s'.1) = bootstrap (router s.1) /\ conns (router s.1) ⊆ conns (router s'.1) /\
  match r with Ok c => conn_addr c = addr | Err err => exists o w cr, orc w o /\ newClient o addr cr = Err err end.
Proof.
  intros Hp (s1 & x & s2 & <- & [(o & Ho & Hf) Hs2] & -> & <-).
  assert (pool_ok s2.1) as Hp'.
  { pose proof (proj1 (conn_pool_ok addr) o s.1 (orc_ok _ _ Ho) Hp) as Hk.
    cbn beta in Hk. by rewrite Hf in Hk. }
  split; [done|]. split; [done|].
  destruct (conns (router s.1) !! addr) as [c|] eqn:Ec.
  { injection Hf as <- <-. split_and!; [done|done|done|done|]. by apply Hp in Ec as [? _]. }
  destruct (newClient o addr (creds (router s.1))) as [c|err] eqn:Ed; injection Hf as <- <-.
  - split_and!; [done|done|done|by apply insert_subseteq|]. by apply (ok_dial _ _ (orc_ok _ _ Ho)) in Ed as [? _].
  - split_and!; [done|done|done|done|]. eauto.
Qed.

(** What a refresh that returned [r] has done to the router. *)
Definition refreshed (ctx : Context_) (w w' : World) (r : option error) : Prop :=
  bootstrap (router w') = bootstrap (router w) /\
  match r with
  | None => exists resp c s1 s2,
      rpc catalogpb.GetRouteMap s1 ctx c newGetRouteMapRequest [] (resp, None) s2 /\
      merr_Error (GetStatus _ resp) = None /\
      shardOwner (router w') = GetShardOwner resp /\ shardTerm (router w') = GetShardTerm resp /\
      forall a c, conns (router w') !! a = Some c -> live_addr w' (GetShardOwner resp) a
  | Some _ => shardOwner (router w') = shardOwner (router w) /\
      shardTerm (router w') = shardTerm (router w) /\ conns (router w) ⊆ conns (router w')
  end.

Lemma evict_same (o : Oracle) (owner : gmap Z string) (w : World) :
  let r := router (evictStaleConnsLocked o owner w) in
  bootstrap r = bootstrap (router w) /\ shardOwner r = shardOwner (router w) /\
  shardTerm r = shardTerm (router w).
Proof.
  unfold evictStaleConnsLocked. set (live := foldl _ _ (bootstrap _)). clearbody live.
  generalize (rangeConns o (conns (router w))) as l. intros l. revert w.
  induction l as [|[a c] l IH]; intros w; [done|]. cbn [foldl].
  destruct (IH (evictStep live w (a, c))) as (-> & -> & ->). unfold evictStep. by case_bool_decide.
Qed.

Lemma exec_publish (s s' : World * Srv) owner term r :
  pool_ok s.1 -> exec router_step eq s (call (Locked (publish owner term))) r s' ->
  s'.2 = s.2 /\ pool_ok s'.1 /\ shardOwner (router s'.1) = owner /\ shardTerm (router s'.1) = term /\
  bootstrap (router s'.1) = bootstrap (router s.1) /\
  forall a c, conns (router s'.1) !! a = Some c -> live_addr s'.1 owner a.
Proof.
  intros Hp (s1 & x & s2 & <- & [(o & Ho & Hf) Hs2] & -> & <-). apply orc_ok in Ho.
  pose proof (publish_pool_ok owner term o s.1 Ho Hp) as Hp'.
  rewrite Hf in Hp'. split; [done|]. split; [done|]. injection Hf as _ Hf.
  match type of Hf with evictStaleConnsLocked _ _ ?w0 = _ => set (w0' := w0) in Hf end.
  destruct (evict_same o owner w0') as (Hb & Hso & Hst). rewrite Hf in Hb, Hso, Hst.
  split_and!; [done|done|done|]. intros a c Hc. rewrite <- Hf in Hc.
  apply evict_spec in Hc as [_ Hl]; [|by destruct Ho; split]. unfold live_addr in *. by rewrite Hb.
Qed.

(** The loop of [Refresh]. *)
Lemma exec_refreshLoop (ctx : Context_) (addrs : list string) (lastErr : option error) s s' r :
  pool_ok s.1 -> exec router_step eq s (refreshLoop ctx addrs lastErr) r s' ->
  pool_ok s'.1 /\ refreshed ctx s.1 s'.1 r.
Proof.
  revert lastErr s. induction addrs as [|addr addrs IH]; intros lastErr s Hp Hex.
  { destruct Hex as [-> <-]. by split_and!. }
  assert (Hnext : forall err s1, pool_ok s1.1 -> shardOwner (router s1.1) = shardOwner (router s.1) ->
    shardTerm (router s1.1) = shardTerm (router s.1) -> bootstrap (router s1.1) = bootstrap (router s.1) ->
    conns (router s.1) ⊆ conns (router s1.1) ->
    exec router_step eq s1 (refreshLoop ctx addrs err) r s' ->
    pool_ok s'.1 /\ refreshed ctx s.1 s'.1 r).
  { intros err s1 Hp1 Ho Ht Hb Hsub Hex1. destruct (IH err s1 Hp1 Hex1) as (Hp' & Hb' & Hr).
    split; [done|]. split; [congruence|]. destruct r as [e|]; [|done].
    destruct Hr as (? & ? & ?). split_and!; [congruence|congruence|]. by etrans. }
  cbn [refreshLoop] in Hex. bind_inv Hex as (rc & s1 & Hc & Hex).
  apply exec_conn in Hc as (Hs1 & Hp1 & Ho & Ht & Hb & Hsub & Hrc); [|done].
  destruct rc as [c|err]; [|by eapply Hnext].
  destruct Hex as (s2 & [resp e] & s3 & <- & [Hrpc Hw] & Hex). cbn [fst snd bind] in *.
  rewrite <- Hw in *. destruct e as [err|]; [by eapply Hnext|]. cbn in Hex.
  destruct (merr_Error (GetStatus catalogpb.GetRouteMap resp)) as [err|] eqn:Em; [by eapply Hnext|].
  rewrite !rebuild_id in Hex.
  apply (exec_bind_inv _ _ (call (Locked (publish (GetShardOwner resp) (GetShardTerm resp))))) in Hex
    as ([] & s4 & Hpub & Hex); [|done].
  apply exec_publish in Hpub as (_ & Hp4 & Ho4 & Ht4 & Hb4 & Hl4); [|done].
  destruct Hex as [-> <-]. split; [done|]. split; [congruence|].
  exists resp, c, s1.2, s3.2. by split_and!.
Qed.

Lemma exec_Refresh (ctx : Context_) s s' r :
  pool_ok s.1 -> exec router_step eq s (Refresh ctx) r s' -> pool_ok s'.1 /\ refreshed ctx s.1 s'.1 r.
Proof.
  intros Hp (s1 & addrs & s2 & <- & [(o & Ho & [= <- Hw]) Hs2] & Hex).
  cbn [bind] in Hex. rewrite Hw in *. by eapply exec_refreshLoop.
Qed.

(** *** When the nodes agree on the route *)

Section agreement.
Variables (ctx : Context_) (ns : string) (m : Method) (in_ : Request m) (opts : list CallOption).
Variables (seed owner : string) (O : gmap Z string) (T : gmap Z Z).

Let term : Z := default 0%Z (T !! ShardOf ns).

(** The bootstrap node [seed] and [owner] can be dialled, and the caller does not
    give up; [seed] answers discovery; every route map handed out is [O], [T], in
    which [owner] has the namespace; the owner gives calls that carry its term a
    final answer, be it a success or an error of its own; and every other call is
    refused or lost in one of the two ways that are repeated. *)
Record agreed : Prop := {
  ag_dial w o a cr : a = seed \/ a = owner -> orc w o -> exists c, newClient o a cr = Ok c;
  ag_ctx s x s' : ctx_err s ctx x s' -> x = None;
  ag_seed s c resp e s' : conn_addr c = seed ->
    rpc catalogpb.GetRouteMap s ctx c newGetRouteMapRequest [] (resp, e) s' ->
    e = None /\ merr_Error (GetStatus _ resp) = None;
  ag_map s c resp s' :
    rpc catalogpb.GetRouteMap s ctx c newGetRouteMapRequest [] (resp, None) s' ->
    merr_Error (GetStatus _ resp) = None -> GetShardOwner resp = O /\ GetShardTerm resp = T;
  ag_owner : O !! ShardOf ns = Some owner;
  ag_named : owner <> "";
  ag_serve s c out e s' err : conn_addr c = owner ->
    rpc m s (WithTerm ctx ns term) c in_ opts (out, e) s' -> callErr e (GetStatus m out) = Some err ->
    isRetriableRejection err || isAmbiguousTransport err = false;
  ag_refuse s t c out e s' : ~ (conn_addr c = owner /\ t = term) ->
    rpc m s (WithTerm ctx ns t) c in_ opts (out, e) s' ->
    exists err, callErr e (GetStatus m out) = Some err /\
      isRetriableRejection err || isAmbiguousTransport err = true;
}.

(** The result of a method is the answer of the owner. *)
Definition owners_answer (res : option (Response m) * option error) : Prop :=
  exists s c out e s', conn_addr c = owner /\
    rpc m s (WithTerm ctx ns term) c in_ opts (out, e) s' /\ res = (out, callErr e (GetStatus m out)).

Hypothesis Hag : agreed.

(** A router from which discovery can start, and one that knows the route. *)
Definition seeded (s : World * Srv) : Prop := pool_ok s.1 /\ seed ∈ bootstrap (router s.1).
Definition informed (s : World * Srv) : Prop :=
  seeded s /\ shardOwner (router s.1) = O /\ shardTerm (router s.1) = T.

Lemma agreed_refreshLoop (addrs : list string) lastErr s s' r :
  pool_ok s.1 -> seed ∈ addrs -> exec router_step eq s (refreshLoop ctx addrs lastErr) r s' -> r = None.
Proof.
  revert lastErr s. induction addrs as [|a addrs IH]; intros lastErr s Hp Hin Hex;
    [by apply not_elem_of_nil in Hin|].
  cbn [refreshLoop] in Hex. bind_inv Hex as (rc & s1 & Hc & Hex).
  apply exec_conn in Hc as (_ & Hp1 & _ & _ & _ & _ & Hrc); [|done].
  destruct rc as [c|err].
  2: { destruct Hrc as (o & w & cr & Ho & Hd). destruct (decide (seed = a)) as [Heq|Hne].
       - destruct (ag_dial Hag w o a cr (or_introl (eq_sym Heq)) Ho) as [c Hd']. congruence.
       - eapply IH; [exact Hp1| |exact Hex]. by apply elem_of_cons in Hin as [?|?]. }
  destruct Hex as (s2 & [resp e] & s3 & <- & [Hrpc Hw] & Hex). cbn [fst snd bind] in *.
  rewrite <- Hw in *.
  assert (Hrest : seed <> a -> forall err, exec router_step eq s3 (refreshLoop ctx addrs err) r s' -> r = None).
  { intros Hne err. apply IH; [done|]. by apply elem_of_cons in Hin as [?|?]. }
  destruct (decide (seed = a)) as [Heq|Hne].
  - destruct (ag_seed Hag _ _ _ _ _ (eq_trans Hrc (eq_sym Heq)) Hrpc) as [-> Hst]. cbn in Hex. rewrite Hst in Hex.
    apply (exec_bind_inv _ _ (call (Locked (publish (rebuild (GetShardOwner resp))
      (rebuild (GetShardTerm resp)))))) in Hex as ([] & s4 & _ & Hex); [|done]. by destruct Hex.
  - destruct e as [err|]; [by eapply Hrest|]. cbn in Hex.
    destruct (merr_Error _) as [err|]; [by eapply Hrest|].
    apply (exec_bind_inv _ _ (call (Locked (publish (rebuild (GetShardOwner resp))
      (rebuild (GetShardTerm resp)))))) in Hex as ([] & s4 & _ & Hex); [|done]. by destruct Hex.
Qed.

(** A refresh succeeds and informs the router. *)
Lemma agreed_Refresh s s' r :
  seeded s -> exec router_step eq s (Refresh ctx) r s' -> r = None /\ informed s'.
Proof.
  intros [Hp Hseed] Hex. assert (r = None) as ->.
  { destruct Hex as (s1 & addrs & s2 & <- & [(o & Ho & [= <- Hw]) Hs2] & Hex). cbn [bind] in Hex.
    eapply (agreed_refreshLoop _ None s2); [by rewrite <- Hw| |exact Hex]. apply elem_of_app. by left. }
  apply exec_Refresh in Hex as (Hp' & Hb & resp & c & s1 & s2 & Hrpc & Hst & Ho & Ht & _); [|done].
  destruct (ag_map Hag _ _ _ _ Hrpc Hst) as [HO HT].
  split; [done|]. split; [split; [done|by rewrite Hb]|]. split; congruence.
Qed.

Lemma exec_routeFor s s' route :
  exec router_step eq s (routeFor ns) route s' ->
  s'.1 = s.1 /\ route = (default "" (shardOwner (router s.1) !! ShardOf ns),
                        default 0%Z (shardTerm (router s.1) !! ShardOf ns)).
Proof. intros (s1 & x & s2 & <- & [(o & _ & [= <- Hw]) _] & -> & <-). done. Qed.

(** An attempt on any route: it returns the owner's answer, or it goes on informed. *)
Lemma agreed_attempt again l o t s s' res :
  seeded s -> exec router_step eq s (attempt (closure m in_ opts) again ctx ns true l o t) res s' ->
  owners_answer res \/ (~ (o = owner /\ t = term) /\
    exists l' err s1, informed s1 /\ exec router_step eq s1 (again l' err) res s').
Proof.
  intros [Hp Hseed] Hex. bind_inv Hex as (rc & s1 & Hc & Hex).
  apply exec_conn in Hc as (_ & Hp1 & _ & _ & Hb & _ & Hrc); [|done].
  assert (Hs1 : seeded s1) by (split; [done|by rewrite Hb]).
  destruct rc as [c|err].
  2: { right. destruct Hrc as (o' & w & cr & Ho & Hd). split.
       - intros [-> _]. destruct (ag_dial Hag w o' owner cr (or_intror eq_refl) Ho). congruence.
       - bind_inv Hex as (r & s2 & Href & Hex). apply agreed_Refresh in Href as [_ Hi]; [eauto|done]. }
  destruct Hex as (s2 & [out e] & s3 & <- & [Hrpc Hw] & Hex). cbn [bind] in Hex.
  destruct (decide (o = owner /\ t = term)) as [[-> ->]|Hne].
  - left. exists s1.2, c, out, e, s3.2. split; [done|]. split; [done|].
    pose proof (fun err => ag_serve Hag _ _ _ _ _ err Hrc Hrpc) as Hfinal.
    destruct (callErr e (GetStatus m out)) as [err|]; [|by destruct Hex as [-> _]].
    cbn [andb] in Hex. rewrite (Hfinal err eq_refl) in Hex. by destruct Hex as [-> _].
  - right. split; [done|]. destruct (ag_refuse Hag s1.2 t c out e s3.2) as (err & Ee & Hrep).
    { by rewrite Hrc. }
    { done. }
    rewrite Ee in Hex. cbn [andb] in Hex. rewrite Hrep in Hex.
    bind_inv Hex as (r & s4 & Href & Hex).
    apply agreed_Refresh in Href as [_ Hi]; [eauto|]. unfold seeded. by rewrite Hw.
Qed.

Lemma agreed_informed n l lastErr s s' res :
  informed s -> exec router_step eq s (doLoop (closure m in_ opts) ctx ns true (S n) l lastErr) res s' ->
  owners_answer res.
Proof.
  intros [Hseed [HO HT]] Hex.
  destruct Hex as (s1 & x & s2 & <- & [->%(ag_ctx Hag) Hw] & Hex). cbn [bind] in Hex.
  bind_inv Hex as (route & s3 & [Hw3 ->]%exec_routeFor & Hex).
  rewrite Hw, HO, HT, (ag_owner Hag) in Hex. cbn [fst snd default from_option id] in Hex.
  rewrite (proj2 (String.eqb_neq _ _) (ag_named Hag)) in Hex.
  apply agreed_attempt in Hex as [?|[Hne _]]; [done|by destruct Hne|].
  unfold seeded. by rewrite Hw3, Hw.
Qed.

Lemma agreed_doLoop n l lastErr s s' res :
  seeded s -> exec router_step eq s (doLoop (closure m in_ opts) ctx ns true (S (S n)) l lastErr) res s' ->
  owners_answer res.
Proof.
  intros Hseed Hex.
  destruct Hex as (s1 & x & s2 & <- & [->%(ag_ctx Hag) Hw] & Hex). cbn [bind] in Hex.
  bind_inv Hex as (route & s3 & [Hw3 ->]%exec_routeFor & Hex).
  assert (Hseed3 : seeded s3) by (unfold seeded; by rewrite Hw3, Hw).
  cbn [fst snd] in Hex. destruct (_ =? "")%string.
  - bind_inv Hex as (r & s4 & Href & Hex).
    apply agreed_Refresh in Href as [-> (Hseed4 & HO & HT)]; [|done].
    bind_inv Hex as (route & s5 & [Hw5 ->]%exec_routeFor & Hex).
    rewrite HO, HT, (ag_owner Hag) in Hex. cbn [fst snd default from_option id] in Hex.
    rewrite (proj2 (String.eqb_neq _ _) (ag_named Hag)) in Hex.
    apply agreed_attempt in Hex as [?|[Hne _]]; [done|by destruct Hne|].
    unfold seeded. by rewrite Hw5.
  - apply agreed_attempt in Hex as [?|(_ & l' & err & s4 & Hi & Hex)]; [done| |done].
    exact (agreed_informed n l' (Some err) s4 s' res Hi Hex).
Qed.

End agreement.

(** ** Properties *)

(** C5: Failover is transparent.  From any state of the router, however stale its
    route map and its pool, suppose that the caller does not give up, that a bootstrap
    node and the owner can be dialled, that this bootstrap node answers discovery and
    every node that does hands out the same route map with the owner in it, that the
    owner gives the call, stamped with its term, a final answer, and that the call
    sent anywhere else or with another term is refused or lost in a way that is
    repeated.  Then every idempotent method returns the owner's answer, success or
    error: a call sent to the wrong node or with the wrong term is redirected within
    the attempts. *)
Theorem failover_finds_owner (rc : routingClient) (ctx : Context_) (m : Method) (in_ : Request m)
    (opts : list CallOption) (seed owner : string) (O : gmap Z string) (T : gmap Z Z) s s' res :
  non_idempotent m = false -> agreed ctx (namespace rc) m in_ opts seed owner O T ->
  pool_ok s.1 -> seed ∈ bootstrap (router s.1) ->
  exec router_step eq s (invoke rc m ctx in_ opts) res s' ->
  owners_answer ctx (namespace rc) m in_ opts owner T res.
Proof.
  intros Hm Hag Hp Hseed. rewrite invoke_routed. unfold routed. rewrite Hm.
  eapply (agreed_doLoop ctx (namespace rc) m in_ opts seed owner O T Hag 2). by split.
Qed.

(** C17: A refresh installs one node's route map or changes nothing.  On success
    both maps are those of one response, and the pool keeps connections to its
    owners and to the bootstrap nodes only; on failure both maps are untouched
    and no pooled connection is lost. *)
Theorem refresh_installs_or_keeps (ctx : Context_) (s s' : World * Srv) (r : option error) :
  pool_ok s.1 -> exec router_step eq s (Refresh ctx) r s' ->
  refreshed ctx s.1 s'.1 r.
Proof. intros Hp Hex. by apply exec_Refresh in Hex as [_ ?]. Qed.

End remote.

(** C16: The pool is exact.  Every critical section of every method, of [Refresh]
    and of [Close] keeps the invariant that the open connections are exactly the
    pooled ones, one per address; so no interleaving of callers leaks a
    connection, and [Close] leaves none open. *)
Theorem pool_exact {H : XXHash} {G : GrpcMetadata} {PB : CatalogPB} {M : Merr PB} {R : Grpc}
    (bs : list string) :
  pool_ok (mkWorld (NewRouter bs) ∅) /\
  (forall rc m ctx in_ opts, always (keeps pool_ok) (invoke rc m ctx in_ opts)) /\
  (forall ctx, always (keeps pool_ok) (Refresh ctx)) /\
  always empties Close.
Proof.
  split_and!.
  - intros a c. cbn. rewrite lookup_empty. set_solver.
  - intros rc m ctx in_ opts. rewrite invoke_routed. unfold routed, Do, DoNonIdempotent.
    assert (Hroute : forall ns, always (keeps pool_ok) (routeFor ns)).
    { intros ns. split; [|done]. intros o w _ Hp. exact Hp. }
    assert (Hc : forall l term c, always (keeps pool_ok)
      (closure m in_ opts l (WithTerm ctx (namespace rc) term) c)).
    { intros l term c. split; [done|]. by intros [out e]. }
    destruct (non_idempotent m); apply always_do;
      [done|apply conn_pool_ok|apply Hroute|apply Refresh_pool_ok|apply Hc|
       done|apply conn_pool_ok|apply Hroute|apply Refresh_pool_ok|apply Hc].
  - apply Refresh_pool_ok.
  - apply Close_empties.
Qed.

(** ** A concrete deployment *)

(** One node, "n1", that owns every shard at term 7 and answers calls that carry it;
    others, and other terms, are refused with a retriable status. *)
Definition DemoPB : CatalogPB := {|
  Request _ := unit;
  Response _ := bool;
  CallOption := unit;
  Status := bool;
  GetStatus _ r := default true r;
  newGetRouteMapRequest := tt;
  GetShardOwner _ := gset_to_gmap "n1" (list_to_set shards);
  GetShardTerm _ := gset_to_gmap 7%Z (list_to_set shards);
|}.

Definition DemoMerr : Merr DemoPB := {|
  merr_Error (ok : @Status DemoPB) := if ok then None else Some (Error "merr.ErrNotOwner" "not owner");
  IsRetryableErr e := (err_kind e =? "merr.ErrNotOwner")%string;
  WrapErrServiceUnavailable msg := Error "merr.ErrServiceUnavailable" msg;
|}.

Definition DemoGrpc : Grpc := {|
  Credentials := unit;
  insecure_NewCredentials := tt;
  status_Code _ := Unknown;
|}.

#[local] Existing Instances ToyHash WireMetadata DemoPB DemoMerr DemoGrpc.

Definition demo_oracle (w : World) : Oracle :=
  mkOracle (fun a _ => Ok (a, fresh (set_map snd (open_conns w) : gset nat))) map_to_list map_to_list.

Lemma demo_oracle_ok (w : World) : oracle_ok w (demo_oracle w).
Proof.
  split; [|done|done]. intros addr cr c [= <-]. split; [done|]. intros Hin.
  apply (is_fresh (set_map snd (open_conns w) : gset nat)), elem_of_map.
  by exists (addr, fresh (set_map snd (open_conns w) : gset nat)).
Qed.

(** Whether a call is answered: discovery always, others by the owner at its term. *)
Definition demo_answers (m : Method) (ctx : Context_) (c : Conn) : bool :=
  if decide (m = catalogpb.GetRouteMap) then true
  else (conn_addr c =? "n1")%string && bool_decide (values ctx.1 TermKey = [strconv.FormatInt 7]).

Definition demo_rpc (m : Method) (_ : unit) (ctx : Context_) (c : Conn) (_ : Request m)
    (_ : list CallOption) (reply : option (Response m) * option error) (_ : unit) : Prop :=
  reply = (Some (demo_answers m ctx c), None).

Definition demo_ctx_err (_ : unit) (_ : Context_) (x : option error) (_ : unit) : Prop := x = None.

Definition demo_orc (w : World) (o : Oracle) : Prop := o = demo_oracle w.

Lemma demo_orc_ok (w : World) (o : Oracle) : demo_orc w o -> oracle_ok w o.
Proof. intros ->. apply demo_oracle_ok. Qed.

(** The deployment, executable. *)
Definition demo_handler (X : Type) (e : routerE X) (s : World * unit) : X * (World * unit) :=
  match e in routerE X return X * (World * unit) with
  | CtxErr _ => (None, s)
  | Locked f => let '(x, w) := f (demo_oracle s.1) s.1 in (x, (w, tt))
  | Rpc m ctx c _ _ => ((Some (demo_answers m ctx c), None), s)
  end.

Lemma demo_exec {A} (p : prog routerE A) (s : World * unit) :
  exec (router_step unit demo_rpc demo_ctx_err demo_orc) eq s p
    (run demo_handler p s).1 (run demo_handler p s).2.
Proof.
  apply (exec_of_run _ eq demo_handler); [done| |by destruct (run demo_handler p s)].
  intros X e [w []]. destruct e as [ctx|X f|m ctx c in_ opts]; cbn; [done| |done].
  destruct (f (demo_oracle w) w) as [x w'] eqn:E. split; [|done]. by exists (demo_oracle w).
Qed.

(** A router that has been told that the departed node "n0" owns everything. *)
Definition stale_world : World :=
  mkWorld (mkRouter ["n1"] insecure_NewCredentials (gset_to_gmap "n0" (list_to_set shards)) ∅ ∅) ∅.

Lemma stale_pool : pool_ok stale_world.
Proof. intros a c. cbn. rewrite lookup_empty. set_solver. Qed.

Lemma demo_term (t : Z) : strconv.FormatInt t = strconv.FormatInt 7 -> t = 7%Z.
Proof.
  unfold strconv.FormatInt. destruct (Z.ltb_spec t 0) as [|Ht]; [done|]. intros Heq.
  apply (f_equal (strconv.parse_digits 0)) in Heq.
  rewrite strconv.parse_format_digits in Heq by (by apply strconv.format_fuel_enough).
  by injection Heq.
Qed.

Lemma demo_agreed :
  agreed unit demo_rpc demo_ctx_err demo_orc ([], None) "db1" catalogpb.ListDatabases tt [] "n1" "n1"
    (gset_to_gmap "n1" (list_to_set shards)) (gset_to_gmap 7%Z (list_to_set shards)).
Proof.
  split.
  - intros w o a cr _ ->. by eexists.
  - intros s x s' ->. done.
  - intros s c resp e s' _ [= -> ->]. done.
  - done.
  - apply lookup_gset_to_gmap_Some. split; [|done]. apply elem_of_list_to_set, ShardOf_shards.
  - done.
  - intros s c out e s' err Hc [= -> ->]. unfold demo_answers. rewrite Hc. done.
  - intros s t c out e s' Hne [= -> ->]. unfold demo_answers.
    destruct (String.eqb_spec (conn_addr c) "n1") as [Hc|Hc]; [|by eexists].
    rewrite bool_decide_eq_false_2; [by eexists|]. intros [= Ht%demo_term].
    destruct Hne. by subst.
Qed.

Lemma failover_finds_owner_witness :
  owners_answer unit demo_rpc ([], None) "db1" catalogpb.ListDatabases tt [] "n1"
    (gset_to_gmap 7%Z (list_to_set shards))
    (run demo_handler (invoke (NewRoutingClient "db1") catalogpb.ListDatabases ([], None) tt [])
       (stale_world, tt)).1.
Proof.
  apply (failover_finds_owner unit demo_rpc demo_ctx_err demo_orc demo_orc_ok (NewRoutingClient "db1")
    ([], None) catalogpb.ListDatabases tt [] "n1" "n1" _ _ (stale_world, tt) _ _
    eq_refl demo_agreed stale_pool ltac:(left) (demo_exec _ _)).
Defined.

Lemma refresh_installs_or_keeps_witness :
  refreshed unit demo_rpc ([], None) stale_world
    (run demo_handler (Refresh ([], None)) (stale_world, tt)).2.1
    (run demo_handler (Refresh ([], None)) (stale_world, tt)).1.
Proof.
  apply (refresh_installs_or_keeps unit demo_rpc demo_ctx_err demo_orc demo_orc_ok ([], None)
    (stale_world, tt) _ _ stale_pool (demo_exec _ _)).
Defined.
